(** * Gradient smoothing (Sobolev) finite-element core of SU2

    A shallow embedding of
      - [Common/src/element_structure.cpp]          (modules [Elem] and
                                                      [Structural]),
      - [SU2_CFD/src/numerics_gradient_smoothing.cpp] (module [Numerics]),
      - [solver_gradient_smoothing.cpp]             (module [Solver]),
    and the properties of the design document that concern them.

    Conventions.
    - [su2double] is read as a real number ([R]): the statements are about
      the exact-arithmetic meaning of the code, accumulation order kept.
    - Arrays that the sources allocate ([new su2double[n]], [T x[8]]) are
      lists carrying their extent; an access outside the extent is a
      [Fault], as is a dereference of a [NULL] buffer.
    - Classes whose definition is outside the sources at hand
      ([CGaussVariable], [CSysMatrix], [CSysVector], [CGeometry],
      [CConfig]) are total maps and records of what their callers read. *)

From Stdlib Require Import String.
From Stdlib Require Import Reals Lra Lia List Arith Bool.
Import ListNotations.

(** ** Outcomes of a call *)

Inductive fault : Type :=
| OutOfBounds (buffer : string)
| NullPointer (buffer : string).

Inductive result (A : Type) : Type :=
| Ok (a : A)
| Fault (f : fault).

Arguments Ok {A} a.
Arguments Fault {A} f.

Definition bind {A B : Type} (c : result A) (k : A -> result B) : result B :=
  match c with
  | Ok a => k a
  | Fault f => Fault f
  end.

Declare Scope result_scope.
Delimit Scope result_scope with result.
Notation "x <- c ;; k" := (bind c (fun x => k))
  (at level 61, c at next level, right associativity) : result_scope.
Notation "' pat <- c ;; k" := (bind c (fun x => match x with pat => k end))
  (at level 61, pat pattern, c at next level, right associativity) : result_scope.
Open Scope result_scope.

(** ** Counted loops *)

(** [for (i = 0; i < n; i++) body] on an explicit state. *)
Fixpoint for_ {S : Type} (n : nat) (body : nat -> S -> result S) (s : S) : result S :=
  match n with
  | O => Ok s
  | Datatypes.S k => s' <- for_ k body s ;; body k s'
  end.

(** [for (i = lo; i < hi; i++) body]. *)
Definition for_from {S : Type} (lo hi : nat) (body : nat -> S -> result S) (s : S)
  : result S :=
  for_ (hi - lo) (fun k => body (lo + k)) s.

(** ** Arrays with an extent *)

Fixpoint upd {A : Type} (a : list A) (i : nat) (x : A) : list A :=
  match a, i with
  | [], _ => []
  | _ :: t, O => x :: t
  | h :: t, Datatypes.S k => h :: upd t k x
  end.

Definition rd {A : Type} (buf : string) (a : list A) (i : nat) : result A :=
  match nth_error a i with
  | Some x => Ok x
  | None => Fault (OutOfBounds buf)
  end.

Definition wr {A : Type} (buf : string) (a : list A) (i : nat) (x : A)
  : result (list A) :=
  if i <? length a then Ok (upd a i x) else Fault (OutOfBounds buf).

(** In-place change of cell [i] of an array of arrays. *)
Definition at_ {A : Type} (buf : string) (a : list A) (i : nat)
  (f : A -> result A) : result (list A) :=
  x <- rd buf a i ;; x' <- f x ;; Ok (upd a i x').

Definition rd2 {A} (buf : string) (a : list (list A)) (i j : nat) : result A :=
  row <- rd buf a i ;; rd buf row j.

Definition wr2 {A} (buf : string) (a : list (list A)) (i j : nat) (x : A)
  : result (list (list A)) :=
  at_ buf a i (fun row => wr buf row j x).

Definition rd3 {A} (buf : string) (a : list (list (list A))) (i j k : nat)
  : result A :=
  m <- rd buf a i ;; rd2 buf m j k.

Definition rd4 {A} (buf : string) (a : list (list (list (list A))))
  (i j k l : nat) : result A :=
  m <- rd buf a i ;; rd3 buf m j k l.

Definition wr4 {A} (buf : string) (a : list (list (list (list A))))
  (i j k l : nat) (x : A) : result (list (list (list (list A)))) :=
  at_ buf a i (fun m => at_ buf m j (fun b => wr2 buf b k l x)).

(** A pointer that may be [NULL]. *)
Definition deref {A : Type} (buf : string) (p : option A) : result A :=
  match p with
  | Some a => Ok a
  | None => Fault (NullPointer buf)
  end.

(** Shapes: every row of a rectangular array has the same extent. *)
Definition shape1 {A} (n : nat) (a : list A) : Prop := length a = n.
Definition shape2 {A} (n m : nat) (a : list (list A)) : Prop :=
  length a = n /\ Forall (shape1 m) a.
Definition shape3 {A} (n m p : nat) (a : list (list (list A))) : Prop :=
  length a = n /\ Forall (shape2 m p) a.
Definition shape4 {A} (n m p q : nat) (a : list (list (list (list A)))) : Prop :=
  length a = n /\ Forall (shape3 m p q) a.

(** Total views of an array, for statements. *)
Definition at1 (a : list R) (i : nat) : R := nth i a 0%R.
Definition at2 (a : list (list R)) (i j : nat) : R := at1 (nth i a []) j.
Definition at3 (a : list (list (list R))) (i j k : nat) : R :=
  at2 (nth i a []) j k.
Definition at4 (a : list (list (list (list R)))) (i j k l : nat) : R :=
  at3 (nth i a []) j k l.

(** Update of a total map at one or two indices. *)
Definition fupd {A} (f : nat -> A) (i : nat) (x : A) : nat -> A :=
  fun i' => if i' =? i then x else f i'.
Definition fupd2 {A} (f : nat -> nat -> A) (i j : nat) (x : A)
  : nat -> nat -> A :=
  fun i' j' => if (i' =? i) && (j' =? j) then x else f i' j'.

(** Left-to-right accumulation [((0 + f 0) + f 1) + ... + f (n-1)], the
    order in which a [+=] loop adds. *)
Fixpoint Rsum (n : nat) (f : nat -> R) : R :=
  match n with
  | O => 0%R
  | Datatypes.S k => (Rsum k f + f k)%R
  end.

(** Zero-filled stand-in for a local array [su2double x[n][m]]; the code
    writes every cell of such an array before it reads it. *)
Definition local2 (n m : nat) : list (list R) := repeat (repeat 0%R m) n.

(** * [CElement]: [Common/src/element_structure.cpp] *)

Module Elem.

Local Open Scope R_scope.

Inductive FrameType : Type := REFERENCE | CURRENT.

(** Modelled from the spec: [CGaussVariable], the per-quadrature-point
    store (its class is declared outside the sources at hand).  It holds
    the shape values [Ni], the physical gradients [GradNi_X[node][dim]]
    and the Jacobian value, in the reference and the current frame. *)
Record CGaussVariable : Type := {
  Ni : nat -> R;
  GradNi_Xj : nat -> nat -> R;
  GradNi_xj : nat -> nat -> R;
  J_X : R;
  J_x : R
}.

Definition SetJ_X (v : R) (g : CGaussVariable) : CGaussVariable :=
  {| Ni := Ni g; GradNi_Xj := GradNi_Xj g; GradNi_xj := GradNi_xj g;
     J_X := v; J_x := J_x g |}.

Definition SetJ_x (v : R) (g : CGaussVariable) : CGaussVariable :=
  {| Ni := Ni g; GradNi_Xj := GradNi_Xj g; GradNi_xj := GradNi_xj g;
     J_X := J_X g; J_x := v |}.

Definition SetGradNi_Xj (v : R) (iDim iNode : nat) (g : CGaussVariable)
  : CGaussVariable :=
  {| Ni := Ni g; GradNi_Xj := fupd2 (GradNi_Xj g) iNode iDim v;
     GradNi_xj := GradNi_xj g; J_X := J_X g; J_x := J_x g |}.

Definition SetGradNi_xj (v : R) (iDim iNode : nat) (g : CGaussVariable)
  : CGaussVariable :=
  {| Ni := Ni g; GradNi_Xj := GradNi_Xj g;
     GradNi_xj := fupd2 (GradNi_xj g) iNode iDim v; J_X := J_X g; J_x := J_x g |}.

(** The members of [CElement] that the smoothing operator reads or
    writes.  [HiHj] and [DHiDHj] are [NULL] unless the element was
    allocated for gradient smoothing. *)
Record CElement : Type := {
  nDim : nat;
  nNodes : nat;
  nGaussPoints : nat;
  CurrentCoord : list (list R);
  RefCoord : list (list R);
  GaussWeight : list R;
  dNiXj : list (list (list R));
  GaussPoint : list CGaussVariable;
  HiHj : option (list (list R));
  DHiDHj : option (list (list (list (list R))))
}.

Definition set_GaussPoint (e : CElement) (gp : list CGaussVariable) : CElement :=
  {| nDim := nDim e; nNodes := nNodes e; nGaussPoints := nGaussPoints e;
     CurrentCoord := CurrentCoord e; RefCoord := RefCoord e;
     GaussWeight := GaussWeight e; dNiXj := dNiXj e; GaussPoint := gp;
     HiHj := HiHj e; DHiDHj := DHiDHj e |}.

Definition set_HiHj (e : CElement) (h : option (list (list R))) : CElement :=
  {| nDim := nDim e; nNodes := nNodes e; nGaussPoints := nGaussPoints e;
     CurrentCoord := CurrentCoord e; RefCoord := RefCoord e;
     GaussWeight := GaussWeight e; dNiXj := dNiXj e; GaussPoint := GaussPoint e;
     HiHj := h; DHiDHj := DHiDHj e |}.

Definition set_DHiDHj (e : CElement)
  (d : option (list (list (list (list R))))) : CElement :=
  {| nDim := nDim e; nNodes := nNodes e; nGaussPoints := nGaussPoints e;
     CurrentCoord := CurrentCoord e; RefCoord := RefCoord e;
     GaussWeight := GaussWeight e; dNiXj := dNiXj e; GaussPoint := GaussPoint e;
     HiHj := HiHj e; DHiDHj := d |}.

Definition set_RefCoord (e : CElement) (c : list (list R)) : CElement :=
  {| nDim := nDim e; nNodes := nNodes e; nGaussPoints := nGaussPoints e;
     CurrentCoord := CurrentCoord e; RefCoord := c;
     GaussWeight := GaussWeight e; dNiXj := dNiXj e; GaussPoint := GaussPoint e;
     HiHj := HiHj e; DHiDHj := DHiDHj e |}.

(** Extents given by [CElement::AllocateStructures] (the contents are
    whatever the element family and earlier calls left there). *)
Definition AllocateStructures (gradient_smoothing : bool) (e : CElement) : Prop :=
  shape1 (nGaussPoints e) (GaussPoint e) /\
  shape2 (nNodes e) (nDim e) (CurrentCoord e) /\
  shape2 (nNodes e) (nDim e) (RefCoord e) /\
  shape1 (nGaussPoints e) (GaussWeight e) /\
  shape3 (nGaussPoints e) (nNodes e) (nDim e) (dNiXj e) /\
  (if gradient_smoothing
   then (exists h, HiHj e = Some h /\ shape2 (nNodes e) (nNodes e) h) /\
        (exists d, DHiDHj e = Some d /\
                   shape4 (nNodes e) (nNodes e) (nDim e) (nDim e) d)
   else True).

(** Modelled from the spec: the inline accessors of [CElement]
    ([GetWeight], [GetJ_X], [GetNi], [GetGradNi_X], [SetRef_Coord],
    [Get_DHiDHj], [Add_HiHj] and the scalar read of [HiHj]), declared
    outside the sources at hand. *)
Definition GetnNodes (e : CElement) : nat := nNodes e.
Definition GetnGaussPoints (e : CElement) : nat := nGaussPoints e.

Definition GetWeight (e : CElement) (iGauss : nat) : result R :=
  rd "GaussWeight" (GaussWeight e) iGauss.

Definition GetJ_X (e : CElement) (iGauss : nat) : result R :=
  g <- rd "GaussPoint" (GaussPoint e) iGauss ;; Ok (J_X g).

Definition GetNi (e : CElement) (iNode iGauss : nat) : result R :=
  g <- rd "GaussPoint" (GaussPoint e) iGauss ;; Ok (Ni g iNode).

Definition GetGradNi_X (e : CElement) (iNode iGauss iDim : nat) : result R :=
  g <- rd "GaussPoint" (GaussPoint e) iGauss ;; Ok (GradNi_Xj g iNode iDim).

Definition SetRef_Coord (val_CoordRef : R) (iNode iDim : nat) (e : CElement)
  : result CElement :=
  c <- wr2 "RefCoord" (RefCoord e) iNode iDim val_CoordRef ;;
  Ok (set_RefCoord e c).

Definition Get_DHiDHj (e : CElement) (nodeA nodeB : nat)
  : result (list (list R)) :=
  d <- deref "DHiDHj" (DHiDHj e) ;;
  row <- rd "DHiDHj" d nodeA ;; rd "DHiDHj" row nodeB.

Definition Get_HiHj (e : CElement) (nodeA nodeB : nat) : result R :=
  h <- deref "HiHj" (HiHj e) ;; rd2 "HiHj" h nodeA nodeB.

Definition Add_HiHj (val : R) (nodeA nodeB : nat) (e : CElement)
  : result CElement :=
  h <- deref "HiHj" (HiHj e) ;;
  old <- rd2 "HiHj" h nodeA nodeB ;;
  h' <- wr2 "HiHj" h nodeA nodeB (old + val) ;;
  Ok (set_HiHj e (Some h')).

(** [CElement::Add_DHiDHj]. *)
Definition Add_DHiDHj (val : list (list R)) (nodeA nodeB : nat) (e : CElement)
  : result CElement :=
  for_ (nDim e) (fun iDim => for_ (nDim e) (fun jDim e =>
    d <- deref "DHiDHj" (DHiDHj e) ;;
    old <- rd4 "DHiDHj" d nodeA nodeB iDim jDim ;;
    v <- rd2 "val" val iDim jDim ;;
    d' <- wr4 "DHiDHj" d nodeA nodeB iDim jDim (old + v) ;;
    Ok (set_DHiDHj e (Some d')))) e.

(** [CElement::Add_DHiDHj_T]. *)
Definition Add_DHiDHj_T (val : list (list R)) (nodeA nodeB : nat) (e : CElement)
  : result CElement :=
  for_ (nDim e) (fun iDim => for_ (nDim e) (fun jDim e =>
    d <- deref "DHiDHj" (DHiDHj e) ;;
    old <- rd4 "DHiDHj" d nodeA nodeB iDim jDim ;;
    v <- rd2 "val" val jDim iDim ;;
    d' <- wr4 "DHiDHj" d nodeA nodeB iDim jDim (old + v) ;;
    Ok (set_DHiDHj e (Some d')))) e.

(** [CElement::clearElement]: the accumulators of the smoothing operator
    (the structural accumulators [Kab], [Mab], [Ks_ab], [Kt_a], [FDL_a],
    cleared by the first loop nest, are not part of this model). *)
Definition clearElement (gradient_smoothing : bool) (e : CElement)
  : result CElement :=
  if gradient_smoothing then
    for_ (nNodes e) (fun iNode => for_ (nNodes e) (fun jNode e =>
      e <- match HiHj e with
           | Some h => h' <- wr2 "HiHj" h iNode jNode 0 ;;
                       Ok (set_HiHj e (Some h'))
           | None => Ok e
           end ;;
      for_ (nDim e) (fun iDim => for_ (nDim e) (fun jDim e =>
        match DHiDHj e with
        | Some d => d' <- wr4 "DHiDHj" d iNode jNode iDim jDim 0 ;;
                    Ok (set_DHiDHj e (Some d'))
        | None => Ok e
        end)) e)) e
  else Ok e.

Definition frame_Coord (mode : FrameType) (e : CElement) : list (list R) :=
  match mode with
  | REFERENCE => RefCoord e
  | CURRENT => CurrentCoord e
  end.

(** [GaussPoint[iGauss]->f(...)]. *)
Definition on_GaussPoint (iGauss : nat) (f : CGaussVariable -> CGaussVariable)
  (gp : list CGaussVariable) : result (list CGaussVariable) :=
  at_ "GaussPoint" gp iGauss (fun g => Ok (f g)).

(** [CElement::ComputeGrad_1D(const FrameType mode)]. *)
Definition ComputeGrad_1D (mode : FrameType) (e : CElement) : result CElement :=
  let Coord := frame_Coord mode e in
  gp <- for_ (nGaussPoints e) (fun iGauss gp =>
    c10 <- rd2 "Coord" Coord 1 0 ;;
    c00 <- rd2 "Coord" Coord 0 0 ;;
    let Jacobian := c10 - c00 in
    gp <- on_GaussPoint iGauss
            (match mode with
             | REFERENCE => SetJ_X Jacobian
             | CURRENT => SetJ_x Jacobian
             end) gp ;;
    for_ (nNodes e) (fun iNode gp =>
      d <- rd3 "dNiXj" (dNiXj e) iGauss iNode 0 ;;
      on_GaussPoint iGauss
        (match mode with
         | REFERENCE => SetGradNi_Xj (d / Jacobian) 0 iNode
         | CURRENT => SetGradNi_xj (d / Jacobian) 0 iNode
         end) gp) gp) (GaussPoint e) ;;
  Ok (set_GaussPoint e gp).

(** [CElement::ComputeGrad_1D(std::vector<std::vector<su2double>>& Coord)]:
    a line element embedded in the plane. *)
Definition ComputeGrad_1D_Coord (Coord : list (list R)) (e : CElement)
  : result CElement :=
  c10 <- rd2 "Coord" Coord 1 0 ;;
  c00 <- rd2 "Coord" Coord 0 0 ;;
  c11 <- rd2 "Coord" Coord 1 1 ;;
  c01 <- rd2 "Coord" Coord 0 1 ;;
  let Jacobian := [c10 - c00; c11 - c01] in
  let JTJ := at1 Jacobian 0 * at1 Jacobian 0 + at1 Jacobian 1 * at1 Jacobian 1 in
  let volJacobian := sqrt JTJ in
  gp <- for_ (nGaussPoints e) (fun iGauss gp =>
    gp <- on_GaussPoint iGauss (SetJ_X volJacobian) gp ;;
    for_ (nNodes e) (fun iNode => for_ 2 (fun iDim gp =>
      j <- rd "Jacobian" Jacobian iDim ;;
      d <- rd3 "dNiXj" (dNiXj e) iGauss iNode 0 ;;
      let val_grad := j * d / JTJ in
      on_GaussPoint iGauss (SetGradNi_Xj val_grad iDim iNode) gp)) gp)
    (GaussPoint e) ;;
  Ok (set_GaussPoint e gp).

(** The loop [for i for j: Jacobian[i][j] = ad[i][j]/detJac] over an
    [n] x [n] local array. *)
Definition scale_adjugate (n : nat) (ad : list (list R)) (detJac : R)
  (Jacobian : list (list R)) : result (list (list R)) :=
  for_ n (fun iDim => for_ n (fun jDim J =>
    a <- rd2 "ad" ad iDim jDim ;;
    wr2 "Jacobian" J iDim jDim (a / detJac))) Jacobian.

(** The two loop nests that build [Jacobian] (an [n] x [n] local array)
    from the nodal coordinates and the parametric shape derivatives. *)
Definition build_Jacobian (n : nat) (Coord : list (list R)) (e : CElement)
  (iGauss : nat) : result (list (list R)) :=
  J <- for_ n (fun iDim => for_ n (fun jDim J =>
         wr2 "Jacobian" J iDim jDim 0)) (local2 n n) ;;
  for_ (nNodes e) (fun iNode => for_ n (fun iDim => for_ n (fun jDim J =>
    c <- rd2 "Coord" Coord iNode jDim ;;
    d <- rd3 "dNiXj" (dNiXj e) iGauss iNode iDim ;;
    old <- rd2 "Jacobian" J iDim jDim ;;
    wr2 "Jacobian" J iDim jDim (old + c * d)))) J.

(** The loop nest "derivatives with respect to global coordinates" of
    [ComputeGrad_2D] and [ComputeGrad_3D]. *)
Definition store_gradients (n : nat) (mode : FrameType) (Jacobian : list (list R))
  (e : CElement) (iGauss : nat) (gp : list CGaussVariable)
  : result (list CGaussVariable) :=
  for_ (nNodes e) (fun iNode => for_ n (fun iDim gp =>
    GradNi_Xj <- for_ n (fun jDim acc =>
                   j <- rd2 "Jacobian" Jacobian iDim jDim ;;
                   d <- rd3 "dNiXj" (dNiXj e) iGauss iNode jDim ;;
                   Ok (acc + j * d)) 0 ;;
    on_GaussPoint iGauss
      (match mode with
       | REFERENCE => SetGradNi_Xj GradNi_Xj iDim iNode
       | CURRENT => SetGradNi_xj GradNi_Xj iDim iNode
       end) gp)) gp.

(** [CElement::ComputeGrad_2D(const FrameType mode)]. *)
Definition ComputeGrad_2D (mode : FrameType) (e : CElement) : result CElement :=
  let Coord := frame_Coord mode e in
  gp <- for_ (nGaussPoints e) (fun iGauss gp =>
    Jacobian <- build_Jacobian 2 Coord e iGauss ;;
    let ad := [[at2 Jacobian 1 1; - at2 Jacobian 0 1];
               [- at2 Jacobian 1 0; at2 Jacobian 0 0]] in
    let detJac := at2 ad 0 0 * at2 ad 1 1 - at2 ad 0 1 * at2 ad 1 0 in
    c10 <- rd2 "Coord" Coord 1 0 ;;
    c00 <- rd2 "Coord" Coord 0 0 ;;
    c21 <- rd2 "Coord" Coord 2 1 ;;
    c01 <- rd2 "Coord" Coord 0 1 ;;
    c20 <- rd2 "Coord" Coord 2 0 ;;
    c11 <- rd2 "Coord" Coord 1 1 ;;
    let TrafoJacobi := Rabs ((c10 - c00) * (c21 - c01) - (c20 - c00) * (c11 - c01)) in
    gp <- on_GaussPoint iGauss
            (match mode with
             | REFERENCE => SetJ_X TrafoJacobi
             | CURRENT => SetJ_x detJac
             end) gp ;;
    Jacobian <- scale_adjugate 2 ad detJac Jacobian ;;
    store_gradients 2 mode Jacobian e iGauss gp) (GaussPoint e) ;;
  Ok (set_GaussPoint e gp).

(** [CElement::ComputeGrad_2D(std::vector<std::vector<su2double>>& Coord)]:
    a triangle embedded in space. *)
Definition ComputeGrad_2D_Coord (Coord : list (list R)) (e : CElement)
  : result CElement :=
  gp <- for_ (nGaussPoints e) (fun iGauss gp =>
    Jacobian <- for_ 3 (fun iDim => for_ 2 (fun jVertex J =>
        c <- rd2 "Coord" Coord (jVertex + 1) iDim ;;
        c0 <- rd2 "Coord" Coord 0 iDim ;;
        wr2 "Jacobian" J iDim jVertex (c - c0))) (local2 3 2) ;;
    JTJ <- for_ 2 (fun iDim => for_ 2 (fun jDim JTJ =>
        JTJ <- wr2 "JTJ" JTJ iDim jDim 0 ;;
        for_ 3 (fun kDim JTJ =>
          a <- rd2 "Jacobian" Jacobian kDim iDim ;;
          b <- rd2 "Jacobian" Jacobian kDim jDim ;;
          old <- rd2 "JTJ" JTJ iDim jDim ;;
          wr2 "JTJ" JTJ iDim jDim (old + a * b)) JTJ)) (local2 2 2) ;;
    let detJacobian := at2 JTJ 0 0 * at2 JTJ 1 1 - at2 JTJ 0 1 * at2 JTJ 1 0 in
    let volJacobian := sqrt detJacobian in
    gp <- on_GaussPoint iGauss (SetJ_X volJacobian) gp ;;
    let JTJinv := [[at2 JTJ 1 1 / detJacobian; - at2 JTJ 0 1 / detJacobian];
                   [- at2 JTJ 1 0 / detJacobian; at2 JTJ 0 0 / detJacobian]] in
    Jdagger <- for_ 2 (fun iDim => for_ 3 (fun jDim Jd =>
        Jd <- wr2 "Jdagger" Jd iDim jDim 0 ;;
        for_ 2 (fun kDim Jd =>
          a <- rd2 "JTJinv" JTJinv iDim kDim ;;
          b <- rd2 "Jacobian" Jacobian jDim kDim ;;
          old <- rd2 "Jdagger" Jd iDim jDim ;;
          wr2 "Jdagger" Jd iDim jDim (old + a * b)) Jd)) (local2 2 3) ;;
    '(gp, _) <- for_ (nNodes e) (fun iShape => for_ 3 (fun iDim '(gp, GradOut) =>
        GradOut <- wr "GradOut" GradOut iDim 0 ;;
        GradOut <- for_ 2 (fun jDim GradOut =>
            a <- rd2 "Jdagger" Jdagger jDim iDim ;;
            d <- rd3 "dNiXj" (dNiXj e) iGauss iShape jDim ;;
            old <- rd "GradOut" GradOut iDim ;;
            wr "GradOut" GradOut iDim (old + a * d)) GradOut ;;
        g <- rd "GradOut" GradOut iDim ;;
        gp <- on_GaussPoint iGauss (SetGradNi_Xj g iDim iShape) gp ;;
        Ok (gp, GradOut))) (gp, repeat 0 3) ;;
    Ok gp) (GaussPoint e) ;;
  Ok (set_GaussPoint e gp).

(** [CElement::ComputeGrad_3D(const FrameType mode)]. *)
Definition ComputeGrad_3D (mode : FrameType) (e : CElement) : result CElement :=
  let Coord := frame_Coord mode e in
  gp <- for_ (nGaussPoints e) (fun iGauss gp =>
    Jacobian <- build_Jacobian 3 Coord e iGauss ;;
    let ad := [[at2 Jacobian 1 1 * at2 Jacobian 2 2 - at2 Jacobian 1 2 * at2 Jacobian 2 1;
                at2 Jacobian 0 2 * at2 Jacobian 2 1 - at2 Jacobian 0 1 * at2 Jacobian 2 2;
                at2 Jacobian 0 1 * at2 Jacobian 1 2 - at2 Jacobian 0 2 * at2 Jacobian 1 1];
               [at2 Jacobian 1 2 * at2 Jacobian 2 0 - at2 Jacobian 1 0 * at2 Jacobian 2 2;
                at2 Jacobian 0 0 * at2 Jacobian 2 2 - at2 Jacobian 0 2 * at2 Jacobian 2 0;
                at2 Jacobian 0 2 * at2 Jacobian 1 0 - at2 Jacobian 0 0 * at2 Jacobian 1 2];
               [at2 Jacobian 1 0 * at2 Jacobian 2 1 - at2 Jacobian 1 1 * at2 Jacobian 2 0;
                at2 Jacobian 0 1 * at2 Jacobian 2 0 - at2 Jacobian 0 0 * at2 Jacobian 2 1;
                at2 Jacobian 0 0 * at2 Jacobian 1 1 - at2 Jacobian 0 1 * at2 Jacobian 1 0]] in
    let detJac := at2 Jacobian 0 0 * at2 ad 0 0 + at2 Jacobian 0 1 * at2 ad 1 0 + at2 Jacobian 0 2 * at2 ad 2 0 in
    gp <- on_GaussPoint iGauss
            (match mode with
             | REFERENCE => SetJ_X detJac
             | CURRENT => SetJ_x detJac
             end) gp ;;
    Jacobian <- scale_adjugate 3 ad detJac Jacobian ;;
    store_gradients 3 mode Jacobian e iGauss gp) (GaussPoint e) ;;
  Ok (set_GaussPoint e gp).

(** [CElement::ComputeGrad_Linear(void)]. *)
Definition ComputeGrad_Linear (e : CElement) : result CElement :=
  if nDim e =? 1 then ComputeGrad_1D REFERENCE e
  else if nDim e =? 2 then ComputeGrad_2D REFERENCE e
  else ComputeGrad_3D REFERENCE e.

(** [CElement::ComputeGrad_Linear(std::vector<std::vector<su2double>>& Coord)]. *)
Definition ComputeGrad_Linear_Coord (Coord : list (list R)) (e : CElement)
  : result CElement :=
  if nDim e =? 1 then ComputeGrad_1D_Coord Coord e
  else ComputeGrad_2D_Coord Coord e.

(** [CElement::ComputeGrad_NonLinear]. *)
Definition ComputeGrad_NonLinear (e : CElement) : result CElement :=
  if nDim e =? 1 then
    e <- ComputeGrad_1D REFERENCE e ;; ComputeGrad_1D CURRENT e
  else if nDim e =? 2 then
    e <- ComputeGrad_2D REFERENCE e ;; ComputeGrad_2D CURRENT e
  else
    e <- ComputeGrad_3D REFERENCE e ;; ComputeGrad_3D CURRENT e.

End Elem.

(** * [CConfig] *)

(** Modelled from the spec: the configuration collaborator, reduced to
    the options that the smoothing core asks for: the two scalars of the
    operator, the flag selecting curved-surface smoothing, and the kind of
    boundary condition of every marker. *)
Record CConfig : Type := {
  GetSmoothOnSurface : bool;
  GetSmoothingParam : R;
  GetSmoothingParamSecond : R;
  GetnMarker_All : nat;
  GetMarker_All_SobolevBC : nat -> nat
}.

(** Modelled from the spec: the two answers of a yes/no option. *)
Definition NO : nat := 0.
Definition YES : nat := 1.

(** * [CGradSmoothing]: [SU2_CFD/src/numerics_gradient_smoothing.cpp] *)

Module Numerics.

Import Elem.
Local Open Scope R_scope.

Record CGradSmoothing : Type := {
  nDim : nat;
  GradNi_Ref_Mat : list (list R);
  val_DHiDHj : list (list R);
  Ni_Vec : list R;
  Coord : list (list R)
}.

Definition set_GradNi_Ref_Mat (num : CGradSmoothing) (m : list (list R))
  : CGradSmoothing :=
  {| nDim := nDim num; GradNi_Ref_Mat := m; val_DHiDHj := val_DHiDHj num;
     Ni_Vec := Ni_Vec num; Coord := Coord num |}.

Definition set_val_DHiDHj (num : CGradSmoothing) (m : list (list R))
  : CGradSmoothing :=
  {| nDim := nDim num; GradNi_Ref_Mat := GradNi_Ref_Mat num; val_DHiDHj := m;
     Ni_Vec := Ni_Vec num; Coord := Coord num |}.

Definition set_Ni_Vec (num : CGradSmoothing) (v : list R) : CGradSmoothing :=
  {| nDim := nDim num; GradNi_Ref_Mat := GradNi_Ref_Mat num;
     val_DHiDHj := val_DHiDHj num; Ni_Vec := v; Coord := Coord num |}.

(** [CGradSmoothing::SetCoord]. *)
Definition SetCoord (val_coord : list (list R)) (num : CGradSmoothing)
  : CGradSmoothing :=
  {| nDim := nDim num; GradNi_Ref_Mat := GradNi_Ref_Mat num;
     val_DHiDHj := val_DHiDHj num; Ni_Vec := Ni_Vec num; Coord := val_coord |}.

(** Extents given by the constructor
    [CGradSmoothing::CGradSmoothing(val_nDim, config)]; the cells are not
    initialised there. *)
Definition constructed (val_nDim : nat) (num : CGradSmoothing) : Prop :=
  nDim num = val_nDim /\
  shape2 8 val_nDim (GradNi_Ref_Mat num) /\
  shape2 val_nDim val_nDim (val_DHiDHj num) /\
  shape1 8 (Ni_Vec num).

(** One object with these extents. *)
Definition new_CGradSmoothing (val_nDim : nat) : CGradSmoothing :=
  {| nDim := val_nDim;
     GradNi_Ref_Mat := local2 8 val_nDim;
     val_DHiDHj := local2 val_nDim val_nDim;
     Ni_Vec := repeat 0 8;
     Coord := [] |}.

(** The body of the pair loop of the stiffness pass. *)
Definition stiffness_pair (nDimGlobal : nat) (Weight Jac_X epsilon : R)
  (iShape jShape : nat) (st : CGradSmoothing * CElement * R)
  : result (CGradSmoothing * CElement * R) :=
  let '(num, element, GradNiXGradNj) := st in
  GradNiXGradNj <- for_ nDimGlobal (fun iDim acc =>
      a <- rd2 "GradNi_Ref_Mat" (GradNi_Ref_Mat num) iShape iDim ;;
      b <- rd2 "GradNi_Ref_Mat" (GradNi_Ref_Mat num) jShape iDim ;;
      Ok (acc + a * b)) GradNiXGradNj ;;
  num <- for_ (nDim num) (fun iDim => for_ (nDim num) (fun jDim num =>
      v <- wr2 "val_DHiDHj" (val_DHiDHj num) iDim jDim
             (if iDim =? jDim
              then Weight * Jac_X * epsilon * epsilon * GradNiXGradNj
              else 0) ;;
      Ok (set_val_DHiDHj num v))) num ;;
  let GradNiXGradNj := 0 in
  element <- Add_DHiDHj (val_DHiDHj num) iShape jShape element ;;
  element <- (if negb (iShape =? jShape)
              then Add_DHiDHj_T (val_DHiDHj num) jShape iShape element
              else Ok element) ;;
  Ok (num, element, GradNiXGradNj).

(** The first loop over the quadrature points: "contribution from the
    gradients of the shape functions". *)
Definition stiffness_pass (nDimGlobal nNode nGauss : nat) (epsilon : R)
  (st : CGradSmoothing * CElement * R)
  : result (CGradSmoothing * CElement * R) :=
  for_ nGauss (fun iGauss '(num, element, GradNiXGradNj) =>
    Weight <- GetWeight element iGauss ;;
    Jac_X <- GetJ_X element iGauss ;;
    num <- for_ nNode (fun iShape => for_ nDimGlobal (fun iDim num =>
        g <- GetGradNi_X element iShape iGauss iDim ;;
        m <- wr2 "GradNi_Ref_Mat" (GradNi_Ref_Mat num) iShape iDim g ;;
        Ok (set_GradNi_Ref_Mat num m))) num ;;
    for_ nNode (fun iShape => for_from iShape nNode (fun jShape =>
        stiffness_pair nDimGlobal Weight Jac_X epsilon iShape jShape))
      (num, element, GradNiXGradNj)) st.

(** The second loop over the quadrature points: "contribution from the
    shape functions themselves". *)
Definition mass_pass (nNode nGauss : nat) (zeta : R)
  (st : CGradSmoothing * CElement) : result (CGradSmoothing * CElement) :=
  for_ nGauss (fun iGauss '(num, element) =>
    Weight <- GetWeight element iGauss ;;
    Jac_X <- GetJ_X element iGauss ;;
    num <- for_ nNode (fun iShape num =>
        n <- GetNi element iShape iGauss ;;
        v <- wr "Ni_Vec" (Ni_Vec num) iShape n ;;
        Ok (set_Ni_Vec num v)) num ;;
    element <- for_ nNode (fun iShape => for_ nNode (fun jShape element =>
        ni <- rd "Ni_Vec" (Ni_Vec num) iShape ;;
        nj <- rd "Ni_Vec" (Ni_Vec num) jShape ;;
        let val_HiHj := Weight * Jac_X * zeta * ni * nj in
        Add_HiHj val_HiHj iShape jShape element)) element ;;
    Ok (num, element)) st.

(** [CGradSmoothing::Compute_Tangent_Matrix]. *)
Definition Compute_Tangent_Matrix (num : CGradSmoothing) (element : CElement)
  (config : CConfig) : result (CGradSmoothing * CElement) :=
  let nDimGlobal :=
    if GetSmoothOnSurface config then (nDim num + 1)%nat else nDim num in
  let GradNiXGradNj := 0 in
  let epsilon := GetSmoothingParam config in
  let zeta := GetSmoothingParamSecond config in
  element <- clearElement true element ;;
  let nNode := GetnNodes element in
  let nGauss := GetnGaussPoints element in
  element <- (if GetSmoothOnSurface config
              then ComputeGrad_Linear_Coord (Coord num) element
              else ComputeGrad_Linear element) ;;
  '(num, element, _) <-
     stiffness_pass nDimGlobal nNode nGauss epsilon (num, element, GradNiXGradNj) ;;
  mass_pass nNode nGauss zeta (num, element).

End Numerics.

(** * The collaborators of the solver *)

(** Modelled from the spec: the geometry collaborator.  Per element it
    supplies the cell topology tag and the global node indices; per node
    the coordinates and whether the node is owned by this process; per
    boundary marker the list of its nodes. *)
Inductive VTK_Type : Type :=
| VERTEX | LINE | TRIANGLE | QUADRILATERAL
| TETRAHEDRON | HEXAHEDRON | PRISM | PYRAMID.

Definition VTK_eqb (a b : VTK_Type) : bool :=
  match a, b with
  | VERTEX, VERTEX | LINE, LINE | TRIANGLE, TRIANGLE
  | QUADRILATERAL, QUADRILATERAL | TETRAHEDRON, TETRAHEDRON
  | HEXAHEDRON, HEXAHEDRON | PRISM, PRISM | PYRAMID, PYRAMID => true
  | _, _ => false
  end.

Record CPrimalGrid : Type := {
  GetVTK_Type : VTK_Type;
  GetNode : nat -> nat
}.

Record CGeometry : Type := {
  GetnDim : nat;
  GetnPoint : nat;
  GetnPointDomain : nat;
  GetnElem : nat;
  elem : nat -> CPrimalGrid;
  node_GetCoord : nat -> nat -> R;
  node_GetDomain : nat -> bool;
  nVertex : nat -> nat;
  vertex_GetNode : nat -> nat -> nat
}.

(** Taken as a parameter: the slots of the element table
    ([EL_TRIA], ..., [MAX_FE_KINDS] are constants declared outside the
    sources at hand). *)
Record FE_KINDS : Type := {
  EL_TRIA : nat;
  EL_QUAD : nat;
  EL_TETRA : nat;
  EL_HEXA : nat;
  EL_PYRAM : nat;
  EL_PRISM : nat;
  MAX_FE_KINDS : nat
}.

(** Taken as a parameter: the element families (their constructors fill
    the quadrature and shape tables and are outside the sources at hand). *)
Record FE_FAMILIES : Type := {
  CTRIA1 : nat -> Elem.CElement;
  CQUAD4 : nat -> Elem.CElement;
  CTETRA1 : nat -> Elem.CElement;
  CHEXA8 : nat -> Elem.CElement;
  CPYRAM5 : nat -> Elem.CElement;
  CPRISM6 : nat -> Elem.CElement
}.

(** Modelled from the spec: [CSysVector], a vector "sized nPoint x nDim,
    point-major, dimension-minor". *)
Record CSysVector : Type := {
  vec_nVar : nat;
  vec_val : nat -> R
}.

Definition CSysVector_Initialize (nVar : nat) (val : R) : CSysVector :=
  {| vec_nVar := nVar; vec_val := fun _ => val |}.

Definition CSysVector_SetValZero (v : CSysVector) : CSysVector :=
  {| vec_nVar := vec_nVar v; vec_val := fun _ => 0%R |}.

Definition CSysVector_SetBlock (iPoint : nat) (val_residual : list R)
  (v : CSysVector) : result CSysVector :=
  for_ (vec_nVar v) (fun iVar v =>
    x <- rd "val_residual" val_residual iVar ;;
    Ok {| vec_nVar := vec_nVar v;
          vec_val := fupd (vec_val v) (iPoint * vec_nVar v + iVar) x |}) v.

(** Modelled from the spec: [CSysMatrix], a "block matrix (block size
    nDim x nDim) indexed by (globalNode, globalNode)". *)
Record CSysMatrix : Type := {
  mat_nVar : nat;
  mat_nEqn : nat;
  mat_block : nat -> nat -> nat -> nat -> R
}.

Definition CSysMatrix_Initialize (nVar nEqn : nat) : CSysMatrix :=
  {| mat_nVar := nVar; mat_nEqn := nEqn; mat_block := fun _ _ _ _ => 0%R |}.

Definition CSysMatrix_SetValZero (m : CSysMatrix) : CSysMatrix :=
  {| mat_nVar := mat_nVar m; mat_nEqn := mat_nEqn m;
     mat_block := fun _ _ _ _ => 0%R |}.

Definition set_entry (m : CSysMatrix) (i j iVar jVar : nat) (x : R) : CSysMatrix :=
  {| mat_nVar := mat_nVar m; mat_nEqn := mat_nEqn m;
     mat_block := fun i' j' a b =>
       if (i' =? i) && (j' =? j) && (a =? iVar) && (b =? jVar)
       then x else mat_block m i' j' a b |}.

Definition CSysMatrix_SetBlock (block_i block_j : nat) (val_block : list (list R))
  (m : CSysMatrix) : result CSysMatrix :=
  for_ (mat_nVar m) (fun iVar => for_ (mat_nEqn m) (fun jVar m =>
    x <- rd2 "val_block" val_block iVar jVar ;;
    Ok (set_entry m block_i block_j iVar jVar x))) m.

Definition CSysMatrix_AddBlock (block_i block_j : nat) (val_block : list (list R))
  (m : CSysMatrix) : result CSysMatrix :=
  for_ (mat_nVar m) (fun iVar => for_ (mat_nEqn m) (fun jVar m =>
    x <- rd2 "val_block" val_block iVar jVar ;;
    Ok (set_entry m block_i block_j iVar jVar
          (mat_block m block_i block_j iVar jVar + x)%R))) m.

(** * [CGradientSmoothingSolver]: [solver_gradient_smoothing.cpp] *)

Module Solver.

Import Elem.
Local Open Scope R_scope.

(** The members that the assembly and the boundary conditions touch.
    [element_container] is the row [GRAD_TERM] of the element table, the
    only row that the constructor allocates.  [nVar], [Residual] and
    [Solution] are members of the base class [CSolver]. *)
Record CGradientSmoothingSolver : Type := {
  nDim : nat;
  nVar : nat;
  nPoint : nat;
  nPointDomain : nat;
  nElement : nat;
  element_container : list (option CElement);
  mZeros_Aux : list (list R);
  mId_Aux : list (list R);
  Jacobian_ij : list (list R);
  Residual : list R;
  Solution : list R;
  LinSysSol : CSysVector;
  LinSysRes : CSysVector;
  Jacobian : CSysMatrix
}.

Definition set_element_container (s : CGradientSmoothingSolver)
  (c : list (option CElement)) : CGradientSmoothingSolver :=
  {| nDim := nDim s; nVar := nVar s; nPoint := nPoint s;
     nPointDomain := nPointDomain s; nElement := nElement s;
     element_container := c; mZeros_Aux := mZeros_Aux s; mId_Aux := mId_Aux s;
     Jacobian_ij := Jacobian_ij s; Residual := Residual s; Solution := Solution s;
     LinSysSol := LinSysSol s; LinSysRes := LinSysRes s; Jacobian := Jacobian s |}.

Definition set_Jacobian_ij (s : CGradientSmoothingSolver) (m : list (list R))
  : CGradientSmoothingSolver :=
  {| nDim := nDim s; nVar := nVar s; nPoint := nPoint s;
     nPointDomain := nPointDomain s; nElement := nElement s;
     element_container := element_container s; mZeros_Aux := mZeros_Aux s;
     mId_Aux := mId_Aux s;
     Jacobian_ij := m; Residual := Residual s; Solution := Solution s;
     LinSysSol := LinSysSol s; LinSysRes := LinSysRes s; Jacobian := Jacobian s |}.

Definition set_Residual (s : CGradientSmoothingSolver) (v : list R)
  : CGradientSmoothingSolver :=
  {| nDim := nDim s; nVar := nVar s; nPoint := nPoint s;
     nPointDomain := nPointDomain s; nElement := nElement s;
     element_container := element_container s; mZeros_Aux := mZeros_Aux s;
     mId_Aux := mId_Aux s;
     Jacobian_ij := Jacobian_ij s; Residual := v; Solution := Solution s;
     LinSysSol := LinSysSol s; LinSysRes := LinSysRes s; Jacobian := Jacobian s |}.

Definition set_Solution (s : CGradientSmoothingSolver) (v : list R)
  : CGradientSmoothingSolver :=
  {| nDim := nDim s; nVar := nVar s; nPoint := nPoint s;
     nPointDomain := nPointDomain s; nElement := nElement s;
     element_container := element_container s; mZeros_Aux := mZeros_Aux s;
     mId_Aux := mId_Aux s;
     Jacobian_ij := Jacobian_ij s; Residual := Residual s; Solution := v;
     LinSysSol := LinSysSol s; LinSysRes := LinSysRes s; Jacobian := Jacobian s |}.

Definition set_LinSysSol (s : CGradientSmoothingSolver) (v : CSysVector)
  : CGradientSmoothingSolver :=
  {| nDim := nDim s; nVar := nVar s; nPoint := nPoint s;
     nPointDomain := nPointDomain s; nElement := nElement s;
     element_container := element_container s; mZeros_Aux := mZeros_Aux s;
     mId_Aux := mId_Aux s;
     Jacobian_ij := Jacobian_ij s; Residual := Residual s; Solution := Solution s;
     LinSysSol := v; LinSysRes := LinSysRes s; Jacobian := Jacobian s |}.

Definition set_LinSysRes (s : CGradientSmoothingSolver) (v : CSysVector)
  : CGradientSmoothingSolver :=
  {| nDim := nDim s; nVar := nVar s; nPoint := nPoint s;
     nPointDomain := nPointDomain s; nElement := nElement s;
     element_container := element_container s; mZeros_Aux := mZeros_Aux s;
     mId_Aux := mId_Aux s;
     Jacobian_ij := Jacobian_ij s; Residual := Residual s; Solution := Solution s;
     LinSysSol := LinSysSol s; LinSysRes := v; Jacobian := Jacobian s |}.

Definition set_Jacobian (s : CGradientSmoothingSolver) (m : CSysMatrix)
  : CGradientSmoothingSolver :=
  {| nDim := nDim s; nVar := nVar s; nPoint := nPoint s;
     nPointDomain := nPointDomain s; nElement := nElement s;
     element_container := element_container s; mZeros_Aux := mZeros_Aux s;
     mId_Aux := mId_Aux s;
     Jacobian_ij := Jacobian_ij s; Residual := Residual s; Solution := Solution s;
     LinSysSol := LinSysSol s; LinSysRes := LinSysRes s; Jacobian := m |}.

(** The loops of the constructor that fill "the matrices to impose
    boundary conditions". *)
Definition aux_matrices (nDim : nat) : result (list (list R) * list (list R)) :=
  for_ nDim (fun iDim '(mZeros_Aux, mId_Aux) =>
    '(mZeros_Aux, mId_Aux) <- for_ nDim (fun jDim '(mZeros_Aux, mId_Aux) =>
        mZeros_Aux <- wr2 "mZeros_Aux" mZeros_Aux iDim jDim 0 ;;
        mId_Aux <- wr2 "mId_Aux" mId_Aux iDim jDim 0 ;;
        Ok (mZeros_Aux, mId_Aux)) (mZeros_Aux, mId_Aux) ;;
    mId_Aux <- wr2 "mId_Aux" mId_Aux iDim iDim 1 ;;
    Ok (mZeros_Aux, mId_Aux)) (local2 nDim nDim, local2 nDim nDim).

(** The loop of the constructor that allocates and clears "term ij of the
    Jacobian". *)
Definition new_Jacobian_ij (nDim : nat) : result (list (list R)) :=
  for_ nDim (fun iDim => for_ nDim (fun jDim J =>
    wr2 "Jacobian_ij" J iDim jDim 0)) (local2 nDim nDim).

(** The element table built by the constructor. *)
Definition new_element_container (K : FE_KINDS) (F : FE_FAMILIES) (nDim : nat)
  : result (list (option CElement)) :=
  let c := repeat None (MAX_FE_KINDS K) in
  if nDim =? 2 then
    c <- wr "element_container" c (EL_TRIA K) (Some (CTRIA1 F nDim)) ;;
    wr "element_container" c (EL_QUAD K) (Some (CQUAD4 F nDim))
  else if nDim =? 3 then
    c <- wr "element_container" c (EL_TETRA K) (Some (CTETRA1 F nDim)) ;;
    c <- wr "element_container" c (EL_HEXA K) (Some (CHEXA8 F nDim)) ;;
    c <- wr "element_container" c (EL_PYRAM K) (Some (CPYRAM5 F nDim)) ;;
    wr "element_container" c (EL_PRISM K) (Some (CPRISM6 F nDim))
  else Ok c.

(** [CGradientSmoothingSolver::CGradientSmoothingSolver(geometry, config)].
    The constructor of the base class, which is outside the sources at
    hand, leaves [base_nVar], [base_Residual] and [base_Solution]. *)
Definition new_CGradientSmoothingSolver (K : FE_KINDS) (F : FE_FAMILIES)
  (base_nVar : nat) (base_Residual base_Solution : list R)
  (geometry : CGeometry) : result CGradientSmoothingSolver :=
  let nDim := GetnDim geometry in
  let nPoint := GetnPoint geometry in
  let nPointDomain := GetnPointDomain geometry in
  let nElement := GetnElem geometry in
  c <- new_element_container K F nDim ;;
  '(mZeros_Aux, mId_Aux) <- aux_matrices nDim ;;
  Jacobian_ij <- new_Jacobian_ij nDim ;;
  Ok {| nDim := nDim; nVar := base_nVar; nPoint := nPoint;
        nPointDomain := nPointDomain; nElement := nElement;
        element_container := c;
        mZeros_Aux := mZeros_Aux; mId_Aux := mId_Aux; Jacobian_ij := Jacobian_ij;
        Residual := base_Residual; Solution := base_Solution;
        LinSysSol := CSysVector_Initialize nDim 0;
        LinSysRes := CSysVector_Initialize nDim 0;
        Jacobian := CSysMatrix_Initialize nDim nDim |}.

(** Modelled from the spec: [Get_ValCoord], the coordinate of a mesh node
    ("copy current reference coordinates into the element"). *)
Definition Get_ValCoord (geometry : CGeometry) (indexNode iDim : nat) : R :=
  node_GetCoord geometry indexNode iDim.

(** [element_container[GRAD_TERM][EL_KIND]->...]. *)
Definition the_element (s : CGradientSmoothingSolver) (EL_KIND : nat)
  : result CElement :=
  p <- rd "element_container" (element_container s) EL_KIND ;;
  deref "element_container" p.

Definition put_element (s : CGradientSmoothingSolver) (EL_KIND : nat)
  (e : CElement) : CGradientSmoothingSolver :=
  set_element_container s (upd (element_container s) EL_KIND (Some e)).

(** The chain of [if]s that maps the topology tag of an element to its
    number of nodes and its slot in the element table; a tag that none of
    them matches leaves both as they were. *)
Definition select_kind (K : FE_KINDS) (t : VTK_Type) (st : nat * nat) : nat * nat :=
  let st := if VTK_eqb t TRIANGLE then (3%nat, EL_TRIA K) else st in
  let st := if VTK_eqb t QUADRILATERAL then (4%nat, EL_QUAD K) else st in
  let st := if VTK_eqb t TETRAHEDRON then (4%nat, EL_TETRA K) else st in
  let st := if VTK_eqb t PYRAMID then (5%nat, EL_PYRAM K) else st in
  let st := if VTK_eqb t PRISM then (6%nat, EL_PRISM K) else st in
  let st := if VTK_eqb t HEXAHEDRON then (8%nat, EL_HEXA K) else st in
  st.

(** The loops over [iVar], [jVar] that form [Jacobian_ij] from a block of
    [DHiDHj] and the scalar [HiHj]. *)
Definition form_Jacobian_ij (DHiDHj : list (list R)) (HiHj : R)
  (s : CGradientSmoothingSolver) : result CGradientSmoothingSolver :=
  for_ (nVar s) (fun iVar s =>
    s <- for_ (nVar s) (fun jVar s =>
        v <- rd2 "DHiDHj" DHiDHj iVar jVar ;;
        m <- wr2 "Jacobian_ij" (Jacobian_ij s) iVar jVar v ;;
        Ok (set_Jacobian_ij s m)) s ;;
    old <- rd2 "Jacobian_ij" (Jacobian_ij s) iVar iVar ;;
    m <- wr2 "Jacobian_ij" (Jacobian_ij s) iVar iVar (old - HiHj) ;;
    Ok (set_Jacobian_ij s m)) s.

(** The loops over [iNode], [jNode] that add the element to the system
    Jacobian.  The table row named [Gradient_Map] in the read of [HiHj] is
    the row [GRAD_TERM]; the pointer [DHiHj] is fetched and never used. *)
Definition scatter_element (EL_KIND : nat) (indexNode : list nat)
  (s : CGradientSmoothingSolver) : result CGradientSmoothingSolver :=
  e <- the_element s EL_KIND ;;
  let NelNodes := GetnNodes e in
  for_ NelNodes (fun iNode => for_ NelNodes (fun jNode s =>
    e <- the_element s EL_KIND ;;
    DHiDHj <- Get_DHiDHj e iNode jNode ;;
    HiHj <- Get_HiHj e iNode jNode ;;
    s <- form_Jacobian_ij DHiDHj HiHj s ;;
    i <- rd "indexNode" indexNode iNode ;;
    j <- rd "indexNode" indexNode jNode ;;
    m <- CSysMatrix_AddBlock i j (Jacobian_ij s) (Jacobian s) ;;
    Ok (set_Jacobian s m))) s.

(** The body of the loop over the elements of [Compute_StiffMatrix]. *)
Definition stiff_element (K : FE_KINDS) (geometry : CGeometry) (config : CConfig)
  (iElem : nat)
  (st : CGradientSmoothingSolver * Numerics.CGradSmoothing * (nat * nat) * list nat)
  : result (CGradientSmoothingSolver * Numerics.CGradSmoothing * (nat * nat) * list nat) :=
  let '(s, numerics, kind, indexNode) := st in
  let kind := select_kind K (GetVTK_Type (elem geometry iElem)) kind in
  let '(nNodes, EL_KIND) := kind in
  '(s, indexNode) <- for_ nNodes (fun iNode '(s, indexNode) =>
      indexNode <- wr "indexNode" indexNode iNode
                      (GetNode (elem geometry iElem) iNode) ;;
      s <- for_ (nDim s) (fun iDim s =>
          i <- rd "indexNode" indexNode iNode ;;
          let val_Coord := Get_ValCoord geometry i iDim in
          e <- the_element s EL_KIND ;;
          e <- SetRef_Coord val_Coord iNode iDim e ;;
          Ok (put_element s EL_KIND e)) s ;;
      Ok (s, indexNode)) (s, indexNode) ;;
  e <- the_element s EL_KIND ;;
  '(numerics, e) <- Numerics.Compute_Tangent_Matrix numerics e config ;;
  let s := put_element s EL_KIND e in
  s <- scatter_element EL_KIND indexNode s ;;
  Ok (s, numerics, kind, indexNode).

(** [CGradientSmoothingSolver::Compute_StiffMatrix]. *)
Definition Compute_StiffMatrix (K : FE_KINDS) (geometry : CGeometry)
  (numerics : Numerics.CGradSmoothing) (config : CConfig)
  (s : CGradientSmoothingSolver)
  : result (CGradientSmoothingSolver * Numerics.CGradSmoothing) :=
  let nNodes := 0%nat in
  let indexNode := repeat 0%nat 8 in
  let EL_KIND := 0%nat in
  '(s, numerics, _, _) <-
     for_ (GetnElem geometry) (stiff_element K geometry config)
       (s, numerics, (nNodes, EL_KIND), indexNode) ;;
  Ok (s, numerics).

(** [CGradientSmoothingSolver::Compute_Residual].  The text of the
    function is not complete C++: it names [element], [iElem], [nNodes],
    [EL_KIND], [indexNode], [iNode], [iDim], [Weight] and [Jac_X] without
    declaring them, and the assignment to [Residual[iDim]] holds a [;]
    before its last factor.  It is read here as follows: the locals are
    those that [Compute_StiffMatrix] declares under the same names, with
    the same initial values; [element] and the value of [iDim], which
    nothing sets, are given by the caller; the assignment is the product
    of its four factors.  [sensitivity i d] stands for
    [solver->node[i]->GetSensitivity(d)].  The loop over the nodes
    declares an [iNode] of its own, so the [iNode] of the call of
    [SetBlock] after it is the one that the loop over [indexNode] left
    at [nNodes]. *)
Definition Compute_Residual (K : FE_KINDS) (geometry : CGeometry)
  (sensitivity : nat -> nat -> R) (config : CConfig)
  (element : CElement) (iDim : nat) (s : CGradientSmoothingSolver)
  : result CGradientSmoothingSolver :=
  let nNode := GetnNodes element in
  let nGauss := GetnGaussPoints element in
  let nNodes := 0%nat in
  let indexNode := repeat 0%nat 8 in
  let EL_KIND := 0%nat in
  let iNode := 0%nat in
  '(s, _, _, _) <-
    for_ (GetnElem geometry) (fun iElem '(s, kind, indexNode, iNode) =>
      let kind := select_kind K (GetVTK_Type (elem geometry iElem)) kind in
      let '(nNodes, EL_KIND) := kind in
      '(s, indexNode, iNode) <-
        for_ nGauss (fun iGauss '(s, indexNode, iNode) =>
          indexNode <- for_ nNodes (fun iNode indexNode =>
              wr "indexNode" indexNode iNode
                 (GetNode (elem geometry iElem) iNode)) indexNode ;;
          let iNode := nNodes in
          e <- the_element s EL_KIND ;;
          Weight <- GetWeight e iGauss ;;
          Jac_X <- GetJ_X element iGauss ;;
          s <- for_ nNode (fun iNode s =>
              Ni <- GetNi element iNode iGauss ;;
              i <- rd "indexNode" indexNode iNode ;;
              r <- wr "Residual" (Residual s) iDim
                     (Weight * Jac_X * Ni * sensitivity i iDim) ;;
              Ok (set_Residual s r)) s ;;
          i <- rd "indexNode" indexNode iNode ;;
          v <- CSysVector_SetBlock i (Residual s) (LinSysRes s) ;;
          Ok (set_LinSysRes s v, indexNode, iNode)) (s, indexNode, iNode) ;;
      Ok (s, kind, indexNode, iNode))
      (s, (nNodes, EL_KIND), indexNode, iNode) ;;
  Ok s.

(** [CGradientSmoothingSolver::BC_Neumann]: the body is empty. *)
Definition BC_Neumann (geometry : CGeometry) (config : CConfig)
  (val_marker : nat) (s : CGradientSmoothingSolver) : CGradientSmoothingSolver :=
  s.

Definition Jacobian_SetBlock (i j : nat) (b : list (list R))
  (s : CGradientSmoothingSolver) : result CGradientSmoothingSolver :=
  m <- CSysMatrix_SetBlock i j b (Jacobian s) ;; Ok (set_Jacobian s m).

(** The treatment of one vertex of a Dirichlet marker. *)
Definition BC_Dirichlet_vertex (geometry : CGeometry) (val_marker iVertex : nat)
  (s : CGradientSmoothingSolver) : result CGradientSmoothingSolver :=
  let iPoint := vertex_GetNode geometry val_marker iVertex in
  if node_GetDomain geometry iPoint then
    s <- (if nDim s =? 2 then
            v <- wr "Solution" (Solution s) 0 0 ;; let s := set_Solution s v in
            v <- wr "Solution" (Solution s) 1 0 ;; let s := set_Solution s v in
            v <- wr "Residual" (Residual s) 0 0 ;; let s := set_Residual s v in
            v <- wr "Residual" (Residual s) 1 0 ;; Ok (set_Residual s v)
          else
            v <- wr "Solution" (Solution s) 0 0 ;; let s := set_Solution s v in
            v <- wr "Solution" (Solution s) 1 0 ;; let s := set_Solution s v in
            v <- wr "Solution" (Solution s) 2 0 ;; let s := set_Solution s v in
            v <- wr "Residual" (Residual s) 0 0 ;; let s := set_Residual s v in
            v <- wr "Residual" (Residual s) 1 0 ;; let s := set_Residual s v in
            v <- wr "Residual" (Residual s) 2 0 ;; Ok (set_Residual s v)) ;;
    r <- CSysVector_SetBlock iPoint (Residual s) (LinSysRes s) ;;
    let s := set_LinSysRes s r in
    x <- CSysVector_SetBlock iPoint (Solution s) (LinSysSol s) ;;
    let s := set_LinSysSol s x in
    s <- for_ (nPoint s) (fun iVar s =>
        if iVar =? iPoint
        then Jacobian_SetBlock iVar iPoint (mId_Aux s) s
        else Jacobian_SetBlock iVar iPoint (mZeros_Aux s) s) s ;;
    for_ (nPoint s) (fun jVar s =>
        if negb (iPoint =? jVar)
        then Jacobian_SetBlock iPoint jVar (mZeros_Aux s) s
        else Ok s) s
  else
    for_ (nPoint s) (fun iVar s =>
        Jacobian_SetBlock iVar iPoint (mZeros_Aux s) s) s.

(** [CGradientSmoothingSolver::BC_Dirichlet]. *)
Definition BC_Dirichlet (geometry : CGeometry) (config : CConfig)
  (val_marker : nat) (s : CGradientSmoothingSolver)
  : result CGradientSmoothingSolver :=
  for_ (nVertex geometry val_marker)
    (fun iVertex s => BC_Dirichlet_vertex geometry val_marker iVertex s) s.

(** [CGradientSmoothingSolver::Impose_BC]. *)
Definition Impose_BC (geometry : CGeometry) (config : CConfig)
  (s : CGradientSmoothingSolver) : result CGradientSmoothingSolver :=
  for_ (GetnMarker_All config) (fun iMarker s =>
    s <- (if GetMarker_All_SobolevBC config iMarker =? NO
          then BC_Dirichlet geometry config iMarker s
          else Ok s) ;;
    if GetMarker_All_SobolevBC config iMarker =? YES
    then Ok (BC_Neumann geometry config iMarker s)
    else Ok s) s.

(** [CGradientSmoothingSolver::Solve_Linear_System].  [System_Solve]
    stands for [System.Solve], the linear solver outside the sources at
    hand: from the matrix, the right-hand side and the vector that
    [LinSysSol] holds it gives the vector that it leaves in [LinSysSol]
    and the number of its iterations.  The number goes to a member of
    the base class; it is returned beside the solver. *)
Definition Solve_Linear_System
  (System_Solve : CSysMatrix -> CSysVector -> CSysVector -> CSysVector * nat)
  (geometry : CGeometry) (config : CConfig) (s : CGradientSmoothingSolver)
  : CGradientSmoothingSolver * nat :=
  let IterLinSol := 0%nat in
  let '(x, IterLinSol) := System_Solve (Jacobian s) (LinSysRes s) (LinSysSol s) in
  (set_LinSysSol s x, IterLinSol).

(** [CGradientSmoothingSolver::Set_Sensitivities].  [sensitivity i d]
    stands for the sensitivity of node [i] of the other solver in
    direction [d], as in [Compute_Residual]; [SetSensitivity] overwrites
    one entry of it. *)
Definition Set_Sensitivities (geometry : CGeometry)
  (sensitivity : nat -> nat -> R) (config : CConfig)
  (s : CGradientSmoothingSolver) : result (nat -> nat -> R) :=
  for_ (nPoint s) (fun iPoint sensitivity =>
    for_ (nDim s) (fun iDim sensitivity =>
      let total_index := (iPoint * nDim s + iDim)%nat in
      Ok (fupd2 sensitivity iPoint iDim (vec_val (LinSysSol s) total_index)))
      sensitivity) sensitivity.

End Solver.

(** Pure counterparts of the in-bounds writes. *)
Definition upd2 {A} (a : list (list A)) (i j : nat) (x : A) : list (list A) :=
  upd a i (upd (nth i a []) j x).

Definition upd4 {A} (a : list (list (list (list A)))) (i j k l : nat) (x : A)
  : list (list (list (list A))) :=
  upd a i (upd (nth i a []) j (upd2 (nth j (nth i a []) []) k l x)).

(** * Vocabulary of the statements *)

(** [Acc e0 e H D]: [e] is [e0] with the two accumulators of the smoothing
    operator allocated with the extents of [e0] and holding [H] (mass) and
    [D] (stiffness). *)
Definition Acc (e0 e : Elem.CElement) (H : nat -> nat -> R)
  (D : nat -> nat -> nat -> nat -> R) : Prop :=
  exists h d,
    e = Elem.set_DHiDHj (Elem.set_HiHj e0 (Some h)) (Some d) /\
    shape2 (Elem.nNodes e0) (Elem.nNodes e0) h /\
    shape4 (Elem.nNodes e0) (Elem.nNodes e0) (Elem.nDim e0) (Elem.nDim e0) d /\
    (forall i j, i < Elem.nNodes e0 -> j < Elem.nNodes e0 -> at2 h i j = H i j) /\
    (forall i j a b, i < Elem.nNodes e0 -> j < Elem.nNodes e0 ->
       a < Elem.nDim e0 -> b < Elem.nDim e0 -> at4 d i j a b = D i j a b).

(** [returns c Q]: the call [c] returns normally, with a value in [Q]. *)
Definition returns {A : Type} (c : result A) (Q : A -> Prop) : Prop :=
  exists a, c = Ok a /\ Q a.

(** The entry [Jacobian[iDim][jDim]] that the loop over the nodes
    accumulates from the coordinates and the shape-derivative table [dN]
    of one quadrature point. *)
Definition Jacobian_sum (Coord dN : list (list R)) (nNodes iDim jDim : nat) : R :=
  Rsum nNodes (fun iNode => (at2 Coord iNode jDim * at2 dN iNode iDim)%R).

(** A quadrature point with every entry zero (default of [nth]). *)
Definition gauss0 : Elem.CGaussVariable :=
  {| Elem.Ni := fun _ => 0%R; Elem.GradNi_Xj := fun _ _ => 0%R;
     Elem.GradNi_xj := fun _ _ => 0%R; Elem.J_X := 0%R; Elem.J_x := 0%R |}.

(** The Jacobian, its adjugate and its determinant as [ComputeGrad_2D]
    and [ComputeGrad_3D] write them. *)
Definition Jacobian_matrix (n : nat) (Coord dN : list (list R)) (nNodes : nat)
  : list (list R) :=
  map (fun iDim => map (fun jDim => Jacobian_sum Coord dN nNodes iDim jDim) (seq 0 n))
      (seq 0 n).

Definition adjugate2 (J : list (list R)) : list (list R) :=
  [[at2 J 1 1; - at2 J 0 1];
   [- at2 J 1 0; at2 J 0 0]]%R.

Definition det2 (J : list (list R)) : R :=
  (at2 (adjugate2 J) 0 0 * at2 (adjugate2 J) 1 1
   - at2 (adjugate2 J) 0 1 * at2 (adjugate2 J) 1 0)%R.

Definition adjugate3 (J : list (list R)) : list (list R) :=
  [[at2 J 1 1 * at2 J 2 2 - at2 J 1 2 * at2 J 2 1;
    at2 J 0 2 * at2 J 2 1 - at2 J 0 1 * at2 J 2 2;
    at2 J 0 1 * at2 J 1 2 - at2 J 0 2 * at2 J 1 1];
   [at2 J 1 2 * at2 J 2 0 - at2 J 1 0 * at2 J 2 2;
    at2 J 0 0 * at2 J 2 2 - at2 J 0 2 * at2 J 2 0;
    at2 J 0 2 * at2 J 1 0 - at2 J 0 0 * at2 J 1 2];
   [at2 J 1 0 * at2 J 2 1 - at2 J 1 1 * at2 J 2 0;
    at2 J 0 1 * at2 J 2 0 - at2 J 0 0 * at2 J 2 1;
    at2 J 0 0 * at2 J 1 1 - at2 J 0 1 * at2 J 1 0]]%R.

Definition det3 (J : list (list R)) : R :=
  (at2 J 0 0 * at2 (adjugate3 J) 0 0 + at2 J 0 1 * at2 (adjugate3 J) 1 0
   + at2 J 0 2 * at2 (adjugate3 J) 2 0)%R.

(** The gradient of shape function [iNode] in direction [iDim] that the
    last loop nest accumulates from the scaled adjugate and the table. *)
Definition physical_gradient (n : nat) (ad : list (list R)) (detJac : R)
  (dN : list (list R)) (iNode iDim : nat) : R :=
  Rsum n (fun jDim => (at2 ad iDim jDim / detJac * at2 dN iNode jDim)%R).

(** The surface Jacobian from the edge vectors of the first three nodes. *)
Definition TrafoJacobi (Coord : list (list R)) : R :=
  Rabs ((at2 Coord 1 0 - at2 Coord 0 0) * (at2 Coord 2 1 - at2 Coord 0 1)
        - (at2 Coord 2 0 - at2 Coord 0 0) * (at2 Coord 1 1 - at2 Coord 0 1))%R.

(** [gradients_stored nNodes nd v0 v jX G]: the quadrature point [v] is
    [v0] with the reference Jacobian [jX] and, for every node below
    [nNodes] and direction below [nd], the reference gradient [G]. *)
Definition gradients_stored (nNodes nd : nat) (v0 v : Elem.CGaussVariable)
  (jX : R) (G : nat -> nat -> R) : Prop :=
  Elem.Ni v = Elem.Ni v0 /\
  Elem.GradNi_xj v = Elem.GradNi_xj v0 /\
  Elem.J_x v = Elem.J_x v0 /\
  Elem.J_X v = jX /\
  forall n d, Elem.GradNi_Xj v n d =
              if (n <? nNodes) && (d <? nd) then G n d else Elem.GradNi_Xj v0 n d.

(** [Mat n m a V]: the array [a] has extent [n] x [m] and holds [V]. *)
Definition Mat (n m : nat) (a : list (list R)) (V : nat -> nat -> R) : Prop :=
  shape2 n m a /\ forall i j, i < n -> j < m -> at2 a i j = V i j.

(** [gradients_computed e e' nd jX G]: [e'] is [e] in which every
    quadrature point [g] received the reference Jacobian [jX g] and the
    reference gradients [G g] of all nodes in the first [nd] directions. *)
Definition gradients_computed (e e' : Elem.CElement) (nd : nat)
  (jX : nat -> R) (G : nat -> nat -> nat -> R) : Prop :=
  exists gp, e' = Elem.set_GaussPoint e gp /\
    length gp = Elem.nGaussPoints e /\
    forall g, g < Elem.nGaussPoints e ->
      gradients_stored (Elem.nNodes e) nd
        (nth g (Elem.GaussPoint e) gauss0) (nth g gp gauss0) (jX g) (G g).

(** The table of parametric shape derivatives at quadrature point [g]. *)
Definition dN_at (e : Elem.CElement) (g : nat) : list (list R) :=
  nth g (Elem.dNiXj e) [].

(** Closed forms of what [ComputeGrad_2D] and [ComputeGrad_3D] store. *)
Definition Jacobian_2D (e : Elem.CElement) (g : nat) : list (list R) :=
  Jacobian_matrix 2 (Elem.RefCoord e) (dN_at e g) (Elem.nNodes e).

Definition GradNi_X_2D (e : Elem.CElement) (g iNode iDim : nat) : R :=
  physical_gradient 2 (adjugate2 (Jacobian_2D e g)) (det2 (Jacobian_2D e g))
    (dN_at e g) iNode iDim.

Definition Jacobian_3D (e : Elem.CElement) (g : nat) : list (list R) :=
  Jacobian_matrix 3 (Elem.RefCoord e) (dN_at e g) (Elem.nNodes e).

Definition GradNi_X_3D (e : Elem.CElement) (g iNode iDim : nat) : R :=
  physical_gradient 3 (adjugate3 (Jacobian_3D e g)) (det3 (Jacobian_3D e g))
    (dN_at e g) iNode iDim.

(** Closed forms of what [ComputeGrad_1D] stores. *)
Definition Jacobian_1D (e : Elem.CElement) : R :=
  (at2 (Elem.RefCoord e) 1 0 - at2 (Elem.RefCoord e) 0 0)%R.

Definition GradNi_X_1D (e : Elem.CElement) (g iNode iDim : nat) : R :=
  (at2 (dN_at e g) iNode 0 / Jacobian_1D e)%R.

(** What [ComputeGrad_Linear] stores, by the dimension of the element. *)
Definition J_X_Linear (e : Elem.CElement) (g : nat) : R :=
  if Elem.nDim e =? 1 then Jacobian_1D e
  else if Elem.nDim e =? 2 then TrafoJacobi (Elem.RefCoord e)
  else det3 (Jacobian_3D e g).

Definition GradNi_X_Linear (e : Elem.CElement) (g iNode iDim : nat) : R :=
  if Elem.nDim e =? 1 then GradNi_X_1D e g iNode iDim
  else if Elem.nDim e =? 2 then GradNi_X_2D e g iNode iDim
  else GradNi_X_3D e g iNode iDim.

(** The elements that the flat operator is run on: a line with two
    nodes or more, a plane element with three nodes or more, or a volume
    element. *)
Definition flat_element (e : Elem.CElement) : Prop :=
  (Elem.nDim e = 1 /\ 2 <= Elem.nNodes e) \/
  (Elem.nDim e = 2 /\ 3 <= Elem.nNodes e) \/
  Elem.nDim e = 3.

(** * The local operator in closed form *)

(** The quadrature data of a prepared element, as the accessors return
    them. *)
Definition Weight_of (e : Elem.CElement) (g : nat) : R := at1 (Elem.GaussWeight e) g.
Definition J_X_of (e : Elem.CElement) (g : nat) : R :=
  Elem.J_X (nth g (Elem.GaussPoint e) gauss0).
Definition Ni_of (e : Elem.CElement) (g iNode : nat) : R :=
  Elem.Ni (nth g (Elem.GaussPoint e) gauss0) iNode.
Definition GradNi_X_of (e : Elem.CElement) (g iNode iDim : nat) : R :=
  Elem.GradNi_Xj (nth g (Elem.GaussPoint e) gauss0) iNode iDim.

(** [w J epsilon^2 (GradNi_X . GradNj_X)] on the diagonal of a block, at
    quadrature point [g], for the node pair [(i, j)]. *)
Definition stiffness_val (e : Elem.CElement) (epsilon : R) (nDimGlobal : nat)
  (g i j a b : nat) : R :=
  if a =? b
  then (Weight_of e g * J_X_of e g * epsilon * epsilon
        * Rsum nDimGlobal (fun d => GradNi_X_of e g i d * GradNi_X_of e g j d))%R
  else 0%R.

(** What one quadrature point adds to [DHiDHj[i][j][a][b]]: the block of
    the pair when [i <= j], its transpose otherwise. *)
Definition stiffness_term (e : Elem.CElement) (epsilon : R) (nDimGlobal : nat)
  (g i j a b : nat) : R :=
  if i <=? j then stiffness_val e epsilon nDimGlobal g i j a b
  else stiffness_val e epsilon nDimGlobal g j i b a.

(** [w J zeta Ni Nj]. *)
Definition mass_term (e : Elem.CElement) (zeta : R) (g i j : nat) : R :=
  (Weight_of e g * J_X_of e g * zeta * Ni_of e g i * Ni_of e g j)%R.

(** [NumSt nd num G V]: the buffers of the numerics have the extents that
    the constructor gave them for dimension [nd]; [GradNi_Ref_Mat] holds
    [G] and [val_DHiDHj] holds [V]. *)
Definition NumSt (nd : nat) (num : Numerics.CGradSmoothing)
  (G V : nat -> nat -> R) : Prop :=
  Numerics.nDim num = nd /\
  Mat 8 nd (Numerics.GradNi_Ref_Mat num) G /\
  Mat nd nd (Numerics.val_DHiDHj num) V /\
  shape1 8 (Numerics.Ni_Vec num).

(** * A worked instance: the unit right triangle *)

Module Example.

Local Open Scope R_scope.

(** The three-node element with one quadrature point at the centroid:
    shape functions [xi], [eta], [1 - xi - eta], weight one half. *)
Definition tria_gauss : Elem.CGaussVariable :=
  {| Elem.Ni := fun _ => 1 / 3;
     Elem.GradNi_Xj := fun _ _ => 0;
     Elem.GradNi_xj := fun _ _ => 0;
     Elem.J_X := 0;
     Elem.J_x := 0 |}.

Definition tria_table : list (list R) := [[1; 0]; [0; 1]; [-1; -1]].

Definition tria (Coord : list (list R)) : Elem.CElement :=
  {| Elem.nDim := 2;
     Elem.nNodes := 3;
     Elem.nGaussPoints := 1;
     Elem.CurrentCoord := Coord;
     Elem.RefCoord := Coord;
     Elem.GaussWeight := [1 / 2];
     Elem.dNiXj := [tria_table];
     Elem.GaussPoint := [tria_gauss];
     Elem.HiHj := Some (local2 3 3);
     Elem.DHiDHj := Some (repeat (repeat (local2 2 2) 3) 3) |}.

(** The same element after the gradients were computed on the unit
    triangle, as far as [Compute_Residual] reads it: the Jacobian is one. *)
Definition tria_prepared (Coord : list (list R)) : Elem.CElement :=
  Elem.set_GaussPoint (tria Coord)
    [{| Elem.Ni := fun _ => 1 / 3;
        Elem.GradNi_Xj := fun _ _ => 0;
        Elem.GradNi_xj := fun _ _ => 0;
        Elem.J_X := 1;
        Elem.J_x := 0 |}].

(** Nodes (0,0), (1,0), (0,1). *)
Definition unit_triangle : list (list R) := [[0; 0]; [1; 0]; [0; 1]].

(** The same triangle as a surface element in space. *)
Definition space_triangle : list (list R) := [[0; 0; 0]; [1; 0; 0]; [0; 1; 0]].

(** The flat operator with [epsilon = 0], [zeta = 1], no marker. *)
Definition config_flat : CConfig :=
  {| GetSmoothOnSurface := false;
     GetSmoothingParam := 0;
     GetSmoothingParamSecond := 1;
     GetnMarker_All := 0;
     GetMarker_All_SobolevBC := fun _ => NO |}.

(** The same operator on a curved surface. *)
Definition config_surface : CConfig :=
  {| GetSmoothOnSurface := true;
     GetSmoothingParam := 0;
     GetSmoothingParamSecond := 1;
     GetnMarker_All := 0;
     GetMarker_All_SobolevBC := fun _ => NO |}.

End Example.

(** * The curved-surface gradients in closed form *)

(** The 3 x 2 Jacobian of a triangle in space: column [k] is the edge
    from node 0 to node [k + 1]. *)
Definition surface_Jacobian (Coord : list (list R)) : list (list R) :=
  map (fun iDim =>
         map (fun jVertex => (at2 Coord (jVertex + 1) iDim - at2 Coord 0 iDim)%R)
             (seq 0 2))
      (seq 0 3).

(** The normal-equation matrix [Jt J]. *)
Definition surface_JTJ (J : list (list R)) : list (list R) :=
  map (fun iDim =>
         map (fun jDim => Rsum 3 (fun kDim => (at2 J kDim iDim * at2 J kDim jDim)%R))
             (seq 0 2))
      (seq 0 2).

Definition surface_det (JTJ : list (list R)) : R :=
  (at2 JTJ 0 0 * at2 JTJ 1 1 - at2 JTJ 0 1 * at2 JTJ 1 0)%R.

Definition surface_JTJinv (JTJ : list (list R)) : list (list R) :=
  [[at2 JTJ 1 1 / surface_det JTJ; - at2 JTJ 0 1 / surface_det JTJ];
   [- at2 JTJ 1 0 / surface_det JTJ; at2 JTJ 0 0 / surface_det JTJ]]%R.

(** [Jdagger = JTJinv Jt], 2 x 3. *)
Definition surface_Jdagger (J : list (list R)) : list (list R) :=
  map (fun iDim =>
         map (fun jDim =>
                Rsum 2 (fun kDim =>
                  (at2 (surface_JTJinv (surface_JTJ J)) iDim kDim * at2 J jDim kDim)%R))
             (seq 0 3))
      (seq 0 2).

(** What [ComputeGrad_2D(Coord)] stores as gradient and as Jacobian. *)
Definition surface_gradient (Coord dN : list (list R)) (iShape iDim : nat) : R :=
  Rsum 2 (fun jDim =>
    (at2 (surface_Jdagger (surface_Jacobian Coord)) jDim iDim * at2 dN iShape jDim)%R).

Definition surface_volJacobian (Coord : list (list R)) : R :=
  sqrt (surface_det (surface_JTJ (surface_Jacobian Coord))).

(** The same for a line in the plane, [ComputeGrad_1D(Coord)]. *)
Definition line_Jacobian (Coord : list (list R)) : list R :=
  [at2 Coord 1 0 - at2 Coord 0 0; at2 Coord 1 1 - at2 Coord 0 1]%R.

Definition line_JTJ (Coord : list (list R)) : R :=
  (at1 (line_Jacobian Coord) 0 * at1 (line_Jacobian Coord) 0
   + at1 (line_Jacobian Coord) 1 * at1 (line_Jacobian Coord) 1)%R.

Definition line_gradient (Coord dN : list (list R)) (iNode iDim : nat) : R :=
  (at1 (line_Jacobian Coord) iDim * at2 dN iNode 0 / line_JTJ Coord)%R.

(** * Vocabulary of the properties of the gradients *)

(** The parametric derivatives of the shape functions sum to zero over
    the nodes, in each of the first [nd] parametric directions and at
    every quadrature point (the shape functions sum to one). *)
Definition rows_sum_to_zero (e : Elem.CElement) (nd : nat) : Prop :=
  forall g k, g < Elem.nGaussPoints e -> k < nd ->
    Rsum (Elem.nNodes e) (fun iNode => at2 (dN_at e g) iNode k) = 0%R.

(** The Jacobian determinant by which [ComputeGrad_Linear] divides is not
    zero. *)
Definition nondegenerate (e : Elem.CElement) : Prop :=
  forall g, g < Elem.nGaussPoints e ->
    (if Elem.nDim e =? 1 then Jacobian_1D e
     else if Elem.nDim e =? 2 then det2 (Jacobian_2D e g)
     else det3 (Jacobian_3D e g)) <> 0%R.

(** Twice the signed area of the triangle of the first three nodes. *)
Definition edge_cross (Coord : list (list R)) : R :=
  ((at2 Coord 1 0 - at2 Coord 0 0) * (at2 Coord 2 1 - at2 Coord 0 1)
   - (at2 Coord 2 0 - at2 Coord 0 0) * (at2 Coord 1 1 - at2 Coord 0 1))%R.

(** [linear_triangle_table dN]: [dN] is the derivative table of the
    linear shape functions of a three-node element on the canonical
    reference triangle: the derivatives sum to zero, and they reproduce
    the identity on reference corners [p] that span a triangle of area
    one half. *)
Definition linear_triangle_table (dN : list (list R)) : Prop :=
  (forall k, k < 2 -> Rsum 3 (fun iNode => at2 dN iNode k) = 0%R) /\
  exists p : list (list R),
    Rabs (edge_cross p) = 1%R /\
    forall j k, j < 2 -> k < 2 ->
      Rsum 3 (fun iNode => (at2 p iNode j * at2 dN iNode k)%R) =
      if j =? k then 1%R else 0%R.

(** The matrix that [ComputeGrad_1D(Coord)] and [ComputeGrad_2D(Coord)]
    build in the place of the Jacobian: column [k] is the edge from node 0
    to node [k + 1]; the shape table does not enter. *)
Definition edge_matrix (Coord : list (list R)) (iDim k : nat) : R :=
  (at2 Coord (k + 1) iDim - at2 Coord 0 iDim)%R.

(** The Jacobian of the parametric map [xi |-> sum over n of X_n N_n(xi)]
    of an element with [nNodes] nodes, from the table [dN] of the
    parametric derivatives of its shape functions: entry [(iDim, k)] is
    the derivative of coordinate [iDim] in the parametric direction [k],
    the sum that [ComputeGrad_2D(mode)] accumulates in
    [Jacobian[k][iDim]]. *)
Definition parametric_Jacobian (Coord dN : list (list R)) (nNodes : nat)
  (iDim k : nat) : R :=
  Jacobian_sum Coord dN nNodes k iDim.

(** The normal-equation matrix [Jt J] of a matrix [J] with [nd + 1] rows
    and [nd] columns. *)
Definition normal_matrix (nd : nat) (J : nat -> nat -> R) (i k : nat) : R :=
  Rsum (nd + 1) (fun c => (J c i * J c k)%R).

Definition normal_det (nd : nat) (J : nat -> nat -> R) : R :=
  if nd =? 1 then normal_matrix 1 J 0 0
  else (normal_matrix 2 J 0 0 * normal_matrix 2 J 1 1
        - normal_matrix 2 J 0 1 * normal_matrix 2 J 1 0)%R.

(** [pseudo_inverse nd J P]: the [nd] x [(nd + 1)] matrix [P] solves the
    normal equations [(Jt J) P = Jt] and is a left inverse of [J], that
    is, [P = (Jt J)^-1 Jt], the Moore-Penrose pseudo-inverse of the
    [(nd + 1)] x [nd] matrix [J]. *)
Definition pseudo_inverse (nd : nat) (J : nat -> nat -> R)
  (P : nat -> nat -> R) : Prop :=
  (forall i d, i < nd -> d < nd + 1 ->
     Rsum nd (fun k => (normal_matrix nd J i k * P k d)%R) = J d i) /\
  (forall i j, i < nd -> j < nd ->
     Rsum (nd + 1) (fun d => (P i d * J d j)%R) =
     if i =? j then 1%R else 0%R).

(** * Vocabulary of the statements about the solver *)

(** An element of the table that the flat operator can be run on with
    numerics of dimension [nd]. *)
Definition element_ok (nd : nat) (e : Elem.CElement) : Prop :=
  Elem.AllocateStructures true e /\ flat_element e /\
  Elem.nNodes e <= 8 /\ Elem.nDim e = nd.

(** [MatSt nd m B]: the system matrix has blocks of size [nd] x [nd] and
    holds [B]. *)
Definition MatSt (nd : nat) (m : CSysMatrix) (B : nat -> nat -> nat -> nat -> R)
  : Prop :=
  mat_nVar m = nd /\ mat_nEqn m = nd /\
  forall p q a b, mat_block m p q a b = B p q a b.

(** [SolverSt nd s0 s B]: the solver [s] is [s0] up to the element table,
    the scratch block [Jacobian_ij] and the system matrix; it works in
    dimension [nd], every element of its table can be run, and its system
    matrix holds [B]. *)
Definition SolverSt (nd : nat) (s0 s : Solver.CGradientSmoothingSolver)
  (B : nat -> nat -> nat -> nat -> R) : Prop :=
  (exists c jij m,
     s = Solver.set_Jacobian
           (Solver.set_Jacobian_ij (Solver.set_element_container s0 c) jij) m) /\
  Solver.nDim s0 = nd /\ Solver.nVar s0 = nd /\
  length (Solver.element_container s) = length (Solver.element_container s0) /\
  (forall k e, nth_error (Solver.element_container s) k = Some (Some e) ->
     element_ok nd e) /\
  shape2 nd nd (Solver.Jacobian_ij s) /\
  MatSt nd (Solver.Jacobian s) B.

(** Slot [k] of the element table holds an element with [n] nodes. *)
Definition slot_nodes (s : Solver.CGradientSmoothingSolver) (k n : nat) : Prop :=
  exists e, nth_error (Solver.element_container s) k = Some (Some e) /\
            Elem.nNodes e = n.

(** The tags that [Compute_StiffMatrix] knows. *)
Definition supported (t : VTK_Type) : bool :=
  match t with
  | TRIANGLE | QUADRILATERAL | TETRAHEDRON | HEXAHEDRON | PRISM | PYRAMID => true
  | VERTEX | LINE => false
  end.


(** A solver that works in dimension [nd]: the members that the
    constructor sets have the extents it gives them, [nVar] of the base
    class is the dimension, and every element of the table can be run. *)
Definition solver_ok (nd : nat) (s : Solver.CGradientSmoothingSolver) : Prop :=
  Solver.nDim s = nd /\ Solver.nVar s = nd /\
  (forall k e, nth_error (Solver.element_container s) k = Some (Some e) ->
     element_ok nd e) /\
  shape2 nd nd (Solver.Jacobian_ij s) /\
  mat_nVar (Solver.Jacobian s) = nd /\ mat_nEqn (Solver.Jacobian s) = nd.

(** The number of nodes and the slot that [Compute_StiffMatrix] selects
    for a tag that it knows. *)
Definition kind_of (K : FE_KINDS) (t : VTK_Type) : nat * nat :=
  Solver.select_kind K t (0, 0).

(** A mesh that the element table serves: every tag that the assembly
    knows has, in its slot, an element with the node count of the tag; the
    first cell has such a tag.  Cells with other tags may follow. *)
Definition mesh_ok (K : FE_KINDS) (geometry : CGeometry)
  (s : Solver.CGradientSmoothingSolver) : Prop :=
  (forall iElem, iElem < GetnElem geometry ->
     supported (GetVTK_Type (elem geometry iElem)) = true ->
     slot_nodes s (snd (kind_of K (GetVTK_Type (elem geometry iElem))))
                  (fst (kind_of K (GetVTK_Type (elem geometry iElem))))) /\
  (0 < GetnElem geometry -> supported (GetVTK_Type (elem geometry 0)) = true).





(** A mesh of one triangle, and a solver for it. *)
Module ExampleMesh.

Local Open Scope R_scope.

(** The slots of the element table as SU2 numbers them. *)
Definition kinds : FE_KINDS :=
  {| EL_TRIA := 0; EL_QUAD := 1; EL_TETRA := 0; EL_HEXA := 1;
     EL_PYRAM := 2; EL_PRISM := 3; MAX_FE_KINDS := 4 |}.

Definition cell (t : VTK_Type) : CPrimalGrid :=
  {| GetVTK_Type := t; GetNode := fun i => i |}.

(** [cells]: the tags of the cells, in order; past the end the mesh
    repeats a triangle.  All cells have the nodes 0, 1, 2, whose
    coordinates are [Coord]; this process owns the nodes 0 and 1; every
    marker has the three nodes. *)
Definition mesh (Coord : list (list R)) (cells : list VTK_Type) : CGeometry :=
  {| GetnDim := 2; GetnPoint := 3; GetnPointDomain := 2;
     GetnElem := length cells;
     elem := fun iElem => cell (nth iElem cells TRIANGLE);
     node_GetCoord := fun p d => at2 Coord p d;
     node_GetDomain := fun p => p <? 2;
     nVertex := fun _ => 3%nat;
     vertex_GetNode := fun _ iVertex => iVertex |}.

Definition one_triangle : CGeometry := mesh Example.unit_triangle [TRIANGLE].



(** One marker, with the Dirichlet condition. *)
Definition config_dirichlet : CConfig :=
  {| GetSmoothOnSurface := false;
     GetSmoothingParam := 0;
     GetSmoothingParamSecond := 1;
     GetnMarker_All := 1;
     GetMarker_All_SobolevBC := fun _ => NO |}.

(** A solver of dimension two whose table holds the three-node element in
    the slot of the triangles; the coordinates of the element start at
    [Coord]. *)
Definition solver (Coord : list (list R)) : Solver.CGradientSmoothingSolver :=
  {| Solver.nDim := 2; Solver.nVar := 2; Solver.nPoint := 3;
     Solver.nPointDomain := 3; Solver.nElement := 1;
     Solver.element_container := [Some (Example.tria Coord); None; None; None];
     Solver.mZeros_Aux := [[0; 0]; [0; 0]];
     Solver.mId_Aux := [[1; 0]; [0; 1]];
     Solver.Jacobian_ij := [[0; 0]; [0; 0]];
     Solver.Residual := [0; 0];
     Solver.Solution := [0; 0];
     Solver.LinSysSol := CSysVector_Initialize 2 0;
     Solver.LinSysRes := CSysVector_Initialize 2 0;
     Solver.Jacobian := CSysMatrix_Initialize 2 2 |}.

End ExampleMesh.

(** * Vocabulary of the statements about the boundary conditions *)

(** [BCSt nd np s]: what [BC_Dirichlet] relies on in the solver, the
    system matrix apart: the dimension is two or three, the work arrays of
    the base class have room for it, the system vectors have [nd] entries
    per node, and the two auxiliary blocks are the zero block and the
    identity. *)
Definition BCSt (nd np : nat) (s : Solver.CGradientSmoothingSolver) : Prop :=
  Solver.nDim s = nd /\ Solver.nPoint s = np /\ (nd = 2 \/ nd = 3) /\
  nd <= length (Solver.Residual s) /\ nd <= length (Solver.Solution s) /\
  vec_nVar (Solver.LinSysRes s) = nd /\ vec_nVar (Solver.LinSysSol s) = nd /\
  Mat nd nd (Solver.mZeros_Aux s) (fun _ _ => 0%R) /\
  Mat nd nd (Solver.mId_Aux s) (fun a b => if a =? b then 1%R else 0%R).

(** The system matrix after the treatment of node [k], from the matrix
    [B] before it. *)
Definition dirichlet_block (owned : bool) (nd np k : nat)
  (B : nat -> nat -> nat -> nat -> R) : nat -> nat -> nat -> nat -> R :=
  fun p q a b =>
    if (a <? nd) && (b <? nd) then
      if owned then
        if (q =? k) && (p <? np)
        then (if p =? k then (if a =? b then 1%R else 0%R) else 0%R)
        else if (p =? k) && (q <? np) then 0%R else B p q a b
      else
        if (q =? k) && (p <? np) then 0%R else B p q a b
    else B p q a b.

(** A system vector after [SetBlock] at node [k] with values [w]. *)
Definition block_vector (nd k : nat) (w : nat -> R) (v : nat -> R) : nat -> R :=
  fun i => if (k * nd <=? i) && (i <? k * nd + nd) then w (i - k * nd) else v i.

(** Node [k] is decoupled: its entries of the right-hand side and of the
    solution are zero, its diagonal block is the identity, and every
    other block of its row and of its column is zero. *)
Definition decoupled (nd np k : nat) (s : Solver.CGradientSmoothingSolver) : Prop :=
  (forall d, d < nd ->
     vec_val (Solver.LinSysRes s) (k * nd + d) = 0%R /\
     vec_val (Solver.LinSysSol s) (k * nd + d) = 0%R) /\
  (forall a b, a < nd -> b < nd ->
     mat_block (Solver.Jacobian s) k k a b = if a =? b then 1%R else 0%R) /\
  (forall p a b, p < np -> p <> k -> a < nd -> b < nd ->
     mat_block (Solver.Jacobian s) p k a b = 0%R /\
     mat_block (Solver.Jacobian s) k p a b = 0%R).

(** The column of blocks of node [k] is zero. *)
Definition column_zeroed (nd np k : nat) (s : Solver.CGradientSmoothingSolver)
  : Prop :=
  forall p a b, p < np -> a < nd -> b < nd ->
    mat_block (Solver.Jacobian s) p k a b = 0%R.

(** What the boundary conditions leave at a constrained node: decoupled
    when this process owns the node, the column zeroed otherwise. *)
Definition constrained (geometry : CGeometry) (nd np k : nat)
  (s : Solver.CGradientSmoothingSolver) : Prop :=
  if node_GetDomain geometry k then decoupled nd np k s
  else column_zeroed nd np k s.

(** Vertex [iVertex] of marker [iMarker] is one that [Impose_BC] gives
    the Dirichlet treatment. *)
Definition dirichlet_vertex (geometry : CGeometry) (config : CConfig)
  (iMarker iVertex : nat) : Prop :=
  iMarker < GetnMarker_All config /\
  GetMarker_All_SobolevBC config iMarker = NO /\
  iVertex < nVertex geometry iMarker.

(** The system matrix has blocks of size [nd] x [nd]. *)
Definition matrix_ok (nd : nat) (s : Solver.CGradientSmoothingSolver) : Prop :=
  mat_nVar (Solver.Jacobian s) = nd /\ mat_nEqn (Solver.Jacobian s) = nd.

(** The invariant of the loops of [Impose_BC] and [BC_Dirichlet]: every
    node of [Done] is constrained. *)
Definition bc_inv (geometry : CGeometry) (nd np : nat) (Done : nat -> Prop)
  (s : Solver.CGradientSmoothingSolver) : Prop :=
  BCSt nd np s /\ matrix_ok nd s /\
  forall k, Done k -> k < np /\ constrained geometry nd np k s.

(** The list of markers run in order, each by [f]. *)
Fixpoint run_markers {S : Type} (f : nat -> S -> result S) (l : list nat) (s : S)
  : result S :=
  match l with
  | [] => Ok s
  | iMarker :: l => s' <- f iMarker s ;; run_markers f l s'
  end.

(** The markers with the Dirichlet condition, in increasing order. *)
Definition dirichlet_markers (config : CConfig) : list nat :=
  filter (fun iMarker => GetMarker_All_SobolevBC config iMarker =? NO)
         (seq 0 (GetnMarker_All config)).

(** * The right-hand side that the design document describes *)

(** The entry for node [p] and direction [d] of the projection of the
    sensitivity field: the sum, over the elements, their quadrature
    points and their nodes that sit at [p], of
    [weight * J * Ni(node) * sensitivity(node)]. *)
Definition projection_rhs (nElem : nat) (nNodes nGauss : nat -> nat)
  (globalNode : nat -> nat -> nat) (weight J : nat -> nat -> R)
  (Ni : nat -> nat -> nat -> R) (sensitivity : nat -> nat -> R) (p d : nat) : R :=
  Rsum nElem (fun iElem =>
    Rsum (nGauss iElem) (fun g =>
      Rsum (nNodes iElem) (fun i =>
        if globalNode iElem i =? p
        then (weight iElem g * J iElem g * Ni iElem g i * sensitivity p d)%R
        else 0%R))).

(** The projection on the mesh of one triangle, for the sensitivity that
    is one everywhere: weight one half, Jacobian one, shape functions one
    third at the quadrature point. *)
Definition projection_one_triangle (p d : nat) : R :=
  projection_rhs 1 (fun _ => 3%nat) (fun _ => 1%nat) (fun _ i => i)
    (fun _ _ => 1 / 2)%R (fun _ _ => 1%R) (fun _ _ _ => 1 / 3)%R
    (fun _ _ => 1%R) p d.

(** * Further instances *)

Module Cases.

Local Open Scope R_scope.

(** The three-node element as the structural solver allocates it,
    without the accumulators of the smoothing operator. *)
Definition tria_plain (Coord : list (list R)) : Elem.CElement :=
  Elem.set_DHiDHj (Elem.set_HiHj (Example.tria Coord) None) None.

(** The mesh of one triangle on a single process, which owns the three
    nodes; one marker holds them. *)
Definition owned_triangle : CGeometry :=
  {| GetnDim := 2; GetnPoint := 3; GetnPointDomain := 3;
     GetnElem := 1;
     elem := fun _ => ExampleMesh.cell TRIANGLE;
     node_GetCoord := fun p d => at2 Example.unit_triangle p d;
     node_GetDomain := fun _ => true;
     nVertex := fun _ => 3%nat;
     vertex_GetNode := fun _ iVertex => iVertex |}.

(** A four-node element of the plane with one quadrature point, with
    the extents that [AllocateStructures] gives it. *)
Definition quad : Elem.CElement :=
  {| Elem.nDim := 2;
     Elem.nNodes := 4;
     Elem.nGaussPoints := 1;
     Elem.CurrentCoord := [[0; 0]; [1; 0]; [1; 1]; [0; 1]];
     Elem.RefCoord := [[0; 0]; [1; 0]; [1; 1]; [0; 1]];
     Elem.GaussWeight := [4];
     Elem.dNiXj := [[[- (1 / 4); - (1 / 4)]; [1 / 4; - (1 / 4)];
                     [1 / 4; 1 / 4]; [- (1 / 4); 1 / 4]]];
     Elem.GaussPoint :=
       [{| Elem.Ni := fun _ => 1 / 4;
           Elem.GradNi_Xj := fun _ _ => 0;
           Elem.GradNi_xj := fun _ _ => 0;
           Elem.J_X := 0;
           Elem.J_x := 0 |}];
     Elem.HiHj := Some (local2 4 4);
     Elem.DHiDHj := Some (repeat (repeat (local2 2 2) 4) 4) |}.

(** The derivatives of the four bilinear shape functions of the square
    [-1, 1] x [-1, 1] at the point [(xi, eta)], in the order of the
    corners (-1,-1), (1,-1), (1,1), (-1,1). *)
Definition bilinear_table (xi eta : R) : list (list R) :=
  [[- (1 - eta) / 4; - (1 - xi) / 4];
   [(1 - eta) / 4; - (1 + xi) / 4];
   [(1 + eta) / 4; (1 + xi) / 4];
   [- (1 + eta) / 4; (1 - xi) / 4]].

(** The four-node element on the canonical reference square itself, in
    both frames, with one quadrature point at [(xi, eta)]. *)
Definition reference_square (xi eta : R) : Elem.CElement :=
  {| Elem.nDim := 2;
     Elem.nNodes := 4;
     Elem.nGaussPoints := 1;
     Elem.CurrentCoord := [[-1; -1]; [1; -1]; [1; 1]; [-1; 1]];
     Elem.RefCoord := [[-1; -1]; [1; -1]; [1; 1]; [-1; 1]];
     Elem.GaussWeight := [4];
     Elem.dNiXj := [bilinear_table xi eta];
     Elem.GaussPoint :=
       [{| Elem.Ni := fun iNode =>
             at1 [(1 - xi) * (1 - eta) / 4; (1 + xi) * (1 - eta) / 4;
                  (1 + xi) * (1 + eta) / 4; (1 - xi) * (1 + eta) / 4] iNode;
           Elem.GradNi_Xj := fun _ _ => 0;
           Elem.GradNi_xj := fun _ _ => 0;
           Elem.J_X := 0;
           Elem.J_x := 0 |}];
     Elem.HiHj := Some (local2 4 4);
     Elem.DHiDHj := Some (repeat (repeat (local2 2 2) 4) 4) |}.

(** The unit square as a surface element in space, corners in the order
    of the four-node element. *)
Definition space_square : list (list R) :=
  [[0; 0; 0]; [1; 0; 0]; [1; 1; 0]; [0; 1; 0]].


End Cases.

(** * The local matrices in terms of the element that goes in *)





(** * The assembled matrix in closed form *)








(** [s'] is [s] but for the reference coordinates of the element of
    slot [k]. *)
Definition coords_only (k : nat) (s s' : Solver.CGradientSmoothingSolver) : Prop :=
  s' = s \/
  exists e c, nth_error (Solver.element_container s) k = Some (Some e) /\
              s' = Solver.put_element s k (Elem.set_RefCoord e c).




(** [X'] holds the coordinates [X] moved by the vector [t], for the
    [n] nodes of an element of dimension [nd]. *)
Definition translated (n nd : nat) (X X' : list (list R)) (t : nat -> R) : Prop :=
  shape2 n nd X' /\
  forall i d, i < n -> d < nd -> at2 X' i d = (at2 X i d + t d)%R.

(** * The boundary conditions: what they leave *)

(** Node [k] belongs to a marker that [Impose_BC] gives the Dirichlet
    treatment. *)
Definition dirichlet_node (geometry : CGeometry) (config : CConfig) (k : nat)
  : Prop :=
  exists iMarker iVertex,
    dirichlet_vertex geometry config iMarker iVertex /\
    k = vertex_GetNode geometry iMarker iVertex.

(** The members of the solver that the boundary conditions do not
    write. *)
Definition bc_frame (s s' : Solver.CGradientSmoothingSolver) : Prop :=
  Solver.nDim s' = Solver.nDim s /\ Solver.nVar s' = Solver.nVar s /\
  Solver.nPoint s' = Solver.nPoint s /\
  Solver.nPointDomain s' = Solver.nPointDomain s /\
  Solver.nElement s' = Solver.nElement s /\
  Solver.element_container s' = Solver.element_container s /\
  Solver.mZeros_Aux s' = Solver.mZeros_Aux s /\
  Solver.mId_Aux s' = Solver.mId_Aux s /\
  Solver.Jacobian_ij s' = Solver.Jacobian_ij s.

(** Index [i] of a system vector lies in the block of node [k]. *)
Definition in_block (nd k i : nat) : Prop := k * nd <= i /\ i < k * nd + nd.

(** The system of [s'] is that of [s]: the same matrix and the same two
    vectors. *)
Definition same_system (s s' : Solver.CGradientSmoothingSolver) : Prop :=
  (forall p q a b, mat_block (Solver.Jacobian s') p q a b =
                   mat_block (Solver.Jacobian s) p q a b) /\
  (forall i, vec_val (Solver.LinSysRes s') i = vec_val (Solver.LinSysRes s) i) /\
  (forall i, vec_val (Solver.LinSysSol s') i = vec_val (Solver.LinSysSol s) i).

(** The system matrix is symmetric on the nodes below [np]. *)
Definition symmetric_on (nd np : nat) (s : Solver.CGradientSmoothingSolver) : Prop :=
  forall p q a b, p < np -> q < np -> a < nd -> b < nd ->
    mat_block (Solver.Jacobian s) p q a b = mat_block (Solver.Jacobian s) q p b a.

(** * The solution at the constrained nodes *)

(** Row [a] of node [p] of the product of the system matrix [m] with the
    vector [x], over the [np] nodes of the mesh. *)
Definition matrix_row (nd np : nat) (m : CSysMatrix) (x : CSysVector) (p a : nat) : R :=
  Rsum np (fun q => Rsum nd (fun b =>
    (mat_block m p q a b * vec_val x (q * nd + b))%R)).

(** The vector [x] satisfies the equations of node [p] of the system with
    matrix [m] and right-hand side [rhs]. *)
Definition rows_solved (nd np : nat) (m : CSysMatrix) (x rhs : CSysVector) (p : nat)
  : Prop :=
  forall a, a < nd -> matrix_row nd np m x p a = vec_val rhs (p * nd + a).

(** * The gradients in the current frame *)

(** The quadrature data of the current frame, as the accessors return
    them. *)
Definition J_x_of (e : Elem.CElement) (g : nat) : R :=
  Elem.J_x (nth g (Elem.GaussPoint e) gauss0).
Definition GradNi_x_of (e : Elem.CElement) (g iNode iDim : nat) : R :=
  Elem.GradNi_xj (nth g (Elem.GaussPoint e) gauss0) iNode iDim.

(** The element with its current coordinates in the place of the
    reference ones: the closed forms of the reference frame, taken at
    it, are those of the current frame. *)
Definition as_current (e : Elem.CElement) : Elem.CElement :=
  Elem.set_RefCoord e (Elem.CurrentCoord e).

(** The Jacobian determinant that the pass [CURRENT] stores. *)
Definition J_x_NonLinear (e : Elem.CElement) (g : nat) : R :=
  if Elem.nDim e =? 1 then Jacobian_1D (as_current e)
  else if Elem.nDim e =? 2 then det2 (Jacobian_2D (as_current e) g)
  else det3 (Jacobian_3D (as_current e) g).

(** [current_stored nNodes nd v0 v jx G]: the quadrature point [v] is
    [v0] with the current Jacobian [jx] and, for every node below
    [nNodes] and direction below [nd], the current gradient [G]. *)
Definition current_stored (nNodes nd : nat) (v0 v : Elem.CGaussVariable)
  (jx : R) (G : nat -> nat -> R) : Prop :=
  Elem.Ni v = Elem.Ni v0 /\
  Elem.GradNi_Xj v = Elem.GradNi_Xj v0 /\
  Elem.J_X v = Elem.J_X v0 /\
  Elem.J_x v = jx /\
  forall n d, Elem.GradNi_xj v n d =
              if (n <? nNodes) && (d <? nd) then G n d else Elem.GradNi_xj v0 n d.

Definition current_computed (e e' : Elem.CElement) (nd : nat)
  (jx : nat -> R) (G : nat -> nat -> nat -> R) : Prop :=
  exists gp, e' = Elem.set_GaussPoint e gp /\
    length gp = Elem.nGaussPoints e /\
    forall g, g < Elem.nGaussPoints e ->
      current_stored (Elem.nNodes e) nd
        (nth g (Elem.GaussPoint e) gauss0) (nth g gp gauss0) (jx g) (G g).

(** * The solver as the constructor leaves it *)



(** * The structural accumulators of [CElement]: [element_structure.cpp] *)

Definition wr3 {A} (buf : string) (a : list (list (list A))) (i j k : nat) (x : A)
  : result (list (list (list A))) :=
  at_ buf a i (fun m => wr2 buf m j k x).

Definition upd3 {A} (a : list (list (list A))) (i j k : nat) (x : A)
  : list (list (list A)) :=
  upd a i (upd2 (nth i a []) j k x).

Module Structural.

Local Open Scope R_scope.

(** The members of [CElement] that the accumulators of the structural
    solver touch; [Elem.CElement] holds those of the smoothing operator.
    Each array is [NULL] until [AllocateStructures] allocates it, and
    [FDL_a] stays [NULL] unless body forces were asked for. *)
Record CElement : Type := {
  nDim : nat;
  nNodes : nat;
  NodalStress : option (list (list R));
  Mab : option (list (list R));
  Kab : option (list (list (list R)));
  Ks_ab : option (list (list R));
  Kt_a : option (list (list R));
  FDL_a : option (list (list R))
}.

Definition set_NodalStress (e : CElement) (a : option (list (list R))) : CElement :=
  {| nDim := nDim e; nNodes := nNodes e; NodalStress := a; Mab := Mab e;
     Kab := Kab e; Ks_ab := Ks_ab e; Kt_a := Kt_a e; FDL_a := FDL_a e |}.

Definition set_Mab (e : CElement) (a : option (list (list R))) : CElement :=
  {| nDim := nDim e; nNodes := nNodes e; NodalStress := NodalStress e; Mab := a;
     Kab := Kab e; Ks_ab := Ks_ab e; Kt_a := Kt_a e; FDL_a := FDL_a e |}.

Definition set_Kab (e : CElement) (a : option (list (list (list R)))) : CElement :=
  {| nDim := nDim e; nNodes := nNodes e; NodalStress := NodalStress e; Mab := Mab e;
     Kab := a; Ks_ab := Ks_ab e; Kt_a := Kt_a e; FDL_a := FDL_a e |}.

Definition set_Ks_ab (e : CElement) (a : option (list (list R))) : CElement :=
  {| nDim := nDim e; nNodes := nNodes e; NodalStress := NodalStress e; Mab := Mab e;
     Kab := Kab e; Ks_ab := a; Kt_a := Kt_a e; FDL_a := FDL_a e |}.

Definition set_Kt_a (e : CElement) (a : option (list (list R))) : CElement :=
  {| nDim := nDim e; nNodes := nNodes e; NodalStress := NodalStress e; Mab := Mab e;
     Kab := Kab e; Ks_ab := Ks_ab e; Kt_a := a; FDL_a := FDL_a e |}.

Definition set_FDL_a (e : CElement) (a : option (list (list R))) : CElement :=
  {| nDim := nDim e; nNodes := nNodes e; NodalStress := NodalStress e; Mab := Mab e;
     Kab := Kab e; Ks_ab := Ks_ab e; Kt_a := Kt_a e; FDL_a := a |}.

(** [CElement::CElement(val_nDim, config)], as far as these members go:
    every array is [NULL], and there are no nodes. *)
Definition new_CElement (val_nDim : nat) : CElement :=
  {| nDim := val_nDim; nNodes := 0; NodalStress := None; Mab := None;
     Kab := None; Ks_ab := None; Kt_a := None; FDL_a := None |}.

(** What [CElement::AllocateStructures] leaves in these members: the
    arrays with their extents ([NodalStress] has six entries per node,
    [Kab] has [nDim * nDim] per pair of nodes), their contents not
    initialised; [FDL_a] is allocated when [body_forces] holds and is not
    written otherwise. *)
Definition AllocateStructures (body_forces : bool) (e : CElement) : Prop :=
  (exists a, NodalStress e = Some a /\ shape2 (nNodes e) 6 a) /\
  (exists a, Mab e = Some a /\ shape2 (nNodes e) (nNodes e) a) /\
  (exists a, Kab e = Some a /\
             shape3 (nNodes e) (nNodes e) (nDim e * nDim e) a) /\
  (exists a, Ks_ab e = Some a /\ shape2 (nNodes e) (nNodes e) a) /\
  (exists a, Kt_a e = Some a /\ shape2 (nNodes e) (nDim e) a) /\
  (if body_forces
   then exists a, FDL_a e = Some a /\ shape2 (nNodes e) (nDim e) a
   else True).

(** [CElement::Add_Kab]. *)
Definition Add_Kab (val_Kab : list (list R)) (nodeA nodeB : nat) (e : CElement)
  : result CElement :=
  for_ (nDim e) (fun iDim => for_ (nDim e) (fun jDim e =>
    K <- deref "Kab" (Kab e) ;;
    old <- rd3 "Kab" K nodeA nodeB (iDim * nDim e + jDim) ;;
    v <- rd2 "val_Kab" val_Kab iDim jDim ;;
    K' <- wr3 "Kab" K nodeA nodeB (iDim * nDim e + jDim) (old + v) ;;
    Ok (set_Kab e (Some K')))) e.

(** [CElement::Add_Kab_T]. *)
Definition Add_Kab_T (val_Kab : list (list R)) (nodeA nodeB : nat) (e : CElement)
  : result CElement :=
  for_ (nDim e) (fun iDim => for_ (nDim e) (fun jDim e =>
    K <- deref "Kab" (Kab e) ;;
    old <- rd3 "Kab" K nodeA nodeB (iDim * nDim e + jDim) ;;
    v <- rd2 "val_Kab" val_Kab jDim iDim ;;
    K' <- wr3 "Kab" K nodeA nodeB (iDim * nDim e + jDim) (old + v) ;;
    Ok (set_Kab e (Some K')))) e.

(** [CElement::Add_Kt_a]. *)
Definition Add_Kt_a (val_Kt_a : list R) (nodeA : nat) (e : CElement)
  : result CElement :=
  for_ (nDim e) (fun iDim e =>
    K <- deref "Kt_a" (Kt_a e) ;;
    old <- rd2 "Kt_a" K nodeA iDim ;;
    v <- rd "val_Kt_a" val_Kt_a iDim ;;
    K' <- wr2 "Kt_a" K nodeA iDim (old + v) ;;
    Ok (set_Kt_a e (Some K'))) e.

(** [CElement::Add_FDL_a]. *)
Definition Add_FDL_a (val_FDL_a : list R) (nodeA : nat) (e : CElement)
  : result CElement :=
  for_ (nDim e) (fun iDim e =>
    F <- deref "FDL_a" (FDL_a e) ;;
    old <- rd2 "FDL_a" F nodeA iDim ;;
    v <- rd "val_FDL_a" val_FDL_a iDim ;;
    F' <- wr2 "FDL_a" F nodeA iDim (old + v) ;;
    Ok (set_FDL_a e (Some F'))) e.

(** [if (a != NULL) a[i][j] = 0.0]. *)
Definition clear2 (buf : string) (a : option (list (list R))) (i j : nat)
  : result (option (list (list R))) :=
  match a with
  | Some m => m' <- wr2 buf m i j 0 ;; Ok (Some m')
  | None => Ok None
  end.

(** [CElement::clearElement], the first loop nest: the accumulators of
    the structural solver.  The second nest, under [gradient_smoothing],
    is [Elem.clearElement]; the two write disjoint members. *)
Definition clearElement (e : CElement) : result CElement :=
  let nDimSq := (nDim e * nDim e)%nat in
  for_ (nNodes e) (fun iNode e =>
    e <- for_ (nDim e) (fun iDim e =>
        a <- clear2 "Kt_a" (Kt_a e) iNode iDim ;; let e := set_Kt_a e a in
        a <- clear2 "FDL_a" (FDL_a e) iNode iDim ;; Ok (set_FDL_a e a)) e ;;
    for_ (nNodes e) (fun jNode e =>
        a <- clear2 "Ks_ab" (Ks_ab e) iNode jNode ;; let e := set_Ks_ab e a in
        a <- clear2 "Mab" (Mab e) iNode jNode ;; let e := set_Mab e a in
        for_ nDimSq (fun iDim e =>
          match Kab e with
          | Some K => K' <- wr3 "Kab" K iNode jNode iDim 0 ;;
                      Ok (set_Kab e (Some K'))
          | None => Ok e
          end) e) e) e.

(** [CElement::clearStress]. *)
Definition clearStress (e : CElement) : result CElement :=
  let nStress := if nDim e =? 2 then 3%nat else 6%nat in
  for_ (nNodes e) (fun iNode => for_ nStress (fun iStress e =>
    S <- deref "NodalStress" (NodalStress e) ;;
    S' <- wr2 "NodalStress" S iNode iStress 0 ;;
    Ok (set_NodalStress e (Some S')))) e.

End Structural.

(** An element with two nodes in the plane as [AllocateStructures]
    leaves it without body forces, every entry holding [x]. *)
Definition bar_element (x : R) : Structural.CElement :=
  {| Structural.nDim := 2; Structural.nNodes := 2;
     Structural.NodalStress := Some (repeat (repeat x 6) 2);
     Structural.Mab := Some (repeat (repeat x 2) 2);
     Structural.Kab := Some (repeat (repeat (repeat x 4) 2) 2);
     Structural.Ks_ab := Some (repeat (repeat x 2) 2);
     Structural.Kt_a := Some (repeat (repeat x 2) 2);
     Structural.FDL_a := None |}.

(** * Vocabulary of the statements about the structural accumulators *)

(** [cleared2 n m a0 a Z]: the array [a] is [a0] with the entries that
    [Z] selects set to zero; a [NULL] array stays [NULL]. *)
Definition cleared2 (n m : nat) (a0 a : option (list (list R)))
  (Z : nat -> nat -> bool) : Prop :=
  match a0 with
  | None => a = None
  | Some m0 =>
      exists m1, a = Some m1 /\ shape2 n m m1 /\
        forall i j, at2 m1 i j = if Z i j then 0%R else at2 m0 i j
  end.

Definition cleared3 (n m p : nat) (a0 a : option (list (list (list R))))
  (Z : nat -> nat -> nat -> bool) : Prop :=
  match a0 with
  | None => a = None
  | Some m0 =>
      exists m1, a = Some m1 /\ shape3 n m p m1 /\
        forall i j k, at3 m1 i j k = if Z i j k then 0%R else at3 m0 i j k
  end.

(** The state of the loops of [Structural.clearElement]: the sizes and
    [NodalStress] are those of [e0], and each accumulator is that of [e0]
    with the selected entries zero. *)
Definition cleared (e0 e : Structural.CElement)
  (Zt Zs : nat -> nat -> bool) (Zk : nat -> nat -> nat -> bool) : Prop :=
  Structural.nDim e = Structural.nDim e0 /\
  Structural.nNodes e = Structural.nNodes e0 /\
  Structural.NodalStress e = Structural.NodalStress e0 /\
  cleared2 (Structural.nNodes e0) (Structural.nDim e0)
    (Structural.Kt_a e0) (Structural.Kt_a e) Zt /\
  cleared2 (Structural.nNodes e0) (Structural.nDim e0)
    (Structural.FDL_a e0) (Structural.FDL_a e) Zt /\
  cleared2 (Structural.nNodes e0) (Structural.nNodes e0)
    (Structural.Ks_ab e0) (Structural.Ks_ab e) Zs /\
  cleared2 (Structural.nNodes e0) (Structural.nNodes e0)
    (Structural.Mab e0) (Structural.Mab e) Zs /\
  cleared3 (Structural.nNodes e0) (Structural.nNodes e0)
    (Structural.nDim e0 * Structural.nDim e0)
    (Structural.Kab e0) (Structural.Kab e) Zk.

(** The arrays of [e] have the extents that [AllocateStructures] gives
    them, where they are not [NULL]. *)
Definition extents_ok (e : Structural.CElement) : Prop :=
  (forall a, Structural.Kt_a e = Some a ->
     shape2 (Structural.nNodes e) (Structural.nDim e) a) /\
  (forall a, Structural.FDL_a e = Some a ->
     shape2 (Structural.nNodes e) (Structural.nDim e) a) /\
  (forall a, Structural.Ks_ab e = Some a ->
     shape2 (Structural.nNodes e) (Structural.nNodes e) a) /\
  (forall a, Structural.Mab e = Some a ->
     shape2 (Structural.nNodes e) (Structural.nNodes e) a) /\
  (forall a, Structural.Kab e = Some a ->
     shape3 (Structural.nNodes e) (Structural.nNodes e)
       (Structural.nDim e * Structural.nDim e) a).

(** * Facts about the memory model *)

Section Loops.

Context {S : Type}.

Lemma for_inv (P : nat -> S -> Prop) (n : nat) (body : nat -> S -> result S) (s : S) :
  P 0 s ->
  (forall i t, i < n -> P i t -> exists t', body i t = Ok t' /\ P (Datatypes.S i) t') ->
  exists s', for_ n body s = Ok s' /\ P n s'.
Proof.
  intros H0 Hstep. induction n as [|n IH]; simpl.
  - exists s. split; [reflexivity | exact H0].
  - destruct IH as (t & Ht & HP).
    + intros i u Hi Hu. apply Hstep; [lia | exact Hu].
    + rewrite Ht. simpl. apply Hstep; [lia | exact HP].
Qed.

Lemma for_from_inv (P : nat -> S -> Prop) (lo hi : nat)
  (body : nat -> S -> result S) (s : S) :
  lo <= hi ->
  P lo s ->
  (forall i t, lo <= i < hi -> P i t ->
     exists t', body i t = Ok t' /\ P (Datatypes.S i) t') ->
  exists s', for_from lo hi body s = Ok s' /\ P hi s'.
Proof.
  intros Hle H0 Hstep. unfold for_from.
  destruct (for_inv (fun k t => P (lo + k) t) (hi - lo)
              (fun k => body (lo + k)) s) as (t & Ht & HP).
  - rewrite Nat.add_0_r. exact H0.
  - intros i u Hi Hu. destruct (Hstep (lo + i) u) as (u' & Hu' & HP'); [lia | exact Hu |].
    exists u'. split; [exact Hu' |]. rewrite Nat.add_succ_r. exact HP'.
  - exists t. split; [exact Ht |]. replace (lo + (hi - lo)) with hi in HP by lia. exact HP.
Qed.

(** A loop that cannot run a single step faults as its first step does. *)
Lemma for_first_fault (n : nat) (body : nat -> S -> result S) (s : S) (f : fault) :
  0 < n -> body 0 s = Fault f -> for_ n body s = Fault f.
Proof.
  intros Hn Hb. induction n as [|n IH]; [lia |].
  simpl. destruct n as [|n].
  - simpl. exact Hb.
  - rewrite IH by lia. reflexivity.
Qed.

End Loops.

Section Arrays.

Context {A : Type}.

Lemma length_upd (a : list A) (i : nat) (x : A) : length (upd a i x) = length a.
Proof.
  revert i. induction a as [|h t IH]; intros [|i]; simpl; auto.
Qed.

Lemma nth_upd (a : list A) (i k : nat) (x d : A) :
  i < length a ->
  nth k (upd a i x) d = if k =? i then x else nth k a d.
Proof.
  revert i k. induction a as [|h t IH]; intros i k Hi; simpl in Hi; [lia |].
  destruct i as [|i], k as [|k]; simpl; auto.
  apply IH. lia.
Qed.

Lemma Forall_upd (P : A -> Prop) (a : list A) (i : nat) (x : A) :
  Forall P a -> P x -> Forall P (upd a i x).
Proof.
  intros Ha Hx. revert i. induction Ha as [|h t Hh Ht IH]; intros [|i]; simpl;
    constructor; auto.
Qed.

Lemma Forall_nth_len (P : A -> Prop) (a : list A) (i : nat) (d : A) :
  Forall P a -> i < length a -> P (nth i a d).
Proof.
  intros Ha Hi. rewrite Forall_forall in Ha. apply Ha. apply nth_In. exact Hi.
Qed.

Lemma rd_ok (buf : string) (a : list A) (i : nat) (d : A) :
  i < length a -> rd buf a i = Ok (nth i a d).
Proof.
  intros Hi. unfold rd. rewrite (nth_error_nth' a d Hi). reflexivity.
Qed.

Lemma rd_fault (buf : string) (a : list A) (i : nat) :
  length a <= i -> rd buf a i = Fault (OutOfBounds buf).
Proof.
  intros Hi. unfold rd. apply nth_error_None in Hi. rewrite Hi. reflexivity.
Qed.

Lemma wr_ok (buf : string) (a : list A) (i : nat) (x : A) :
  i < length a -> wr buf a i x = Ok (upd a i x).
Proof.
  intros Hi. unfold wr. apply Nat.ltb_lt in Hi. rewrite Hi. reflexivity.
Qed.

Lemma wr_fault (buf : string) (a : list A) (i : nat) (x : A) :
  length a <= i -> wr buf a i x = Fault (OutOfBounds buf).
Proof.
  intros Hi. unfold wr. apply Nat.ltb_ge in Hi. rewrite Hi. reflexivity.
Qed.

End Arrays.

Section Arrays2.

Local Open Scope R_scope.

Lemma shape2_row {A} {n m : nat} {a : list (list A)} (i : nat) :
  shape2 n m a -> (i < n)%nat -> length (nth i a []) = m.
Proof.
  intros [Hn Hr] Hi. apply (Forall_nth_len (shape1 m)); [exact Hr | lia].
Qed.

Lemma shape3_row {A} {n m p : nat} {a : list (list (list A))} (i : nat) :
  shape3 n m p a -> (i < n)%nat -> shape2 m p (nth i a []).
Proof.
  intros [Hn Hr] Hi. apply (Forall_nth_len (shape2 m p)); [exact Hr | lia].
Qed.

Lemma shape4_row {A} {n m p q : nat} {a : list (list (list (list A)))} (i : nat) :
  shape4 n m p q a -> (i < n)%nat -> shape3 m p q (nth i a []).
Proof.
  intros [Hn Hr] Hi. apply (Forall_nth_len (shape3 m p q)); [exact Hr | lia].
Qed.

Lemma shape2_upd2 {A} {n m : nat} {a : list (list A)} (i j : nat) (x : A) :
  shape2 n m a -> (i < n)%nat -> shape2 n m (upd2 a i j x).
Proof.
  intros Ha Hi. pose proof (shape2_row i Ha Hi) as Hrow. destruct Ha as [Hn Hr].
  split.
  - unfold upd2. rewrite length_upd. exact Hn.
  - apply Forall_upd; [exact Hr |]. unfold shape1. rewrite length_upd. exact Hrow.
Qed.

Lemma shape4_upd4 {A} {n m p q : nat} {a : list (list (list (list A)))}
  (i j k l : nat) (x : A) :
  shape4 n m p q a -> (i < n)%nat -> (j < m)%nat -> (k < p)%nat ->
  shape4 n m p q (upd4 a i j k l x).
Proof.
  intros Ha Hi Hj Hk.
  pose proof (shape4_row i Ha Hi) as H3.
  pose proof (shape3_row j H3 Hj) as H2.
  destruct Ha as [Hn Hr]. split.
  - unfold upd4. rewrite length_upd. exact Hn.
  - apply Forall_upd; [exact Hr |]. destruct H3 as [Hm Hr3]. split.
    + rewrite length_upd. exact Hm.
    + apply Forall_upd; [exact Hr3 |]. apply shape2_upd2; assumption.
Qed.

Lemma rd2_ok (buf : string) {n m : nat} {a : list (list R)} (i j : nat) :
  shape2 n m a -> (i < n)%nat -> (j < m)%nat -> rd2 buf a i j = Ok (at2 a i j).
Proof.
  intros Ha Hi Hj. pose proof (shape2_row i Ha Hi) as Hrow. destruct Ha as [Hn _].
  unfold rd2. rewrite (rd_ok buf a i []) by lia. simpl.
  apply rd_ok. lia.
Qed.

Lemma wr2_ok {A} (buf : string) {n m : nat} {a : list (list A)} (i j : nat) (x : A) :
  shape2 n m a -> (i < n)%nat -> (j < m)%nat -> wr2 buf a i j x = Ok (upd2 a i j x).
Proof.
  intros Ha Hi Hj. pose proof (shape2_row i Ha Hi) as Hrow. destruct Ha as [Hn _].
  unfold wr2, at_. rewrite (rd_ok buf a i []) by lia. simpl.
  rewrite wr_ok by lia. reflexivity.
Qed.

Lemma at2_upd2 {n m : nat} {a : list (list R)} (i j : nat) (x : R) (i' j' : nat) :
  shape2 n m a -> (i < n)%nat -> (j < m)%nat ->
  at2 (upd2 a i j x) i' j' = fupd2 (at2 a) i j x i' j'.
Proof.
  intros Ha Hi Hj. pose proof (shape2_row i Ha Hi) as Hrow. destruct Ha as [Hn _].
  unfold at2, at1, upd2, fupd2. rewrite nth_upd by lia.
  destruct (Nat.eqb_spec i' i) as [->|Hne]; simpl; [|reflexivity].
  rewrite nth_upd by lia. reflexivity.
Qed.

Lemma rd3_ok (buf : string) {n m p : nat} {a : list (list (list R))} (i j k : nat) :
  shape3 n m p a -> (i < n)%nat -> (j < m)%nat -> (k < p)%nat ->
  rd3 buf a i j k = Ok (at3 a i j k).
Proof.
  intros Ha Hi Hj Hk. pose proof (shape3_row i Ha Hi) as H2. destruct Ha as [Hn _].
  unfold rd3. rewrite (rd_ok buf a i []) by lia. simpl.
  apply (rd2_ok buf j k H2); assumption.
Qed.

Lemma rd4_ok (buf : string) {n m p q : nat} {a : list (list (list (list R)))}
  (i j k l : nat) :
  shape4 n m p q a -> (i < n)%nat -> (j < m)%nat -> (k < p)%nat -> (l < q)%nat ->
  rd4 buf a i j k l = Ok (at4 a i j k l).
Proof.
  intros Ha Hi Hj Hk Hl. pose proof (shape4_row i Ha Hi) as H3. destruct Ha as [Hn _].
  unfold rd4. rewrite (rd_ok buf a i []) by lia. simpl.
  apply (rd3_ok buf j k l H3); assumption.
Qed.

Lemma wr4_ok {A} (buf : string) {n m p q : nat} {a : list (list (list (list A)))}
  (i j k l : nat) (x : A) :
  shape4 n m p q a -> (i < n)%nat -> (j < m)%nat -> (k < p)%nat -> (l < q)%nat ->
  wr4 buf a i j k l x = Ok (upd4 a i j k l x).
Proof.
  intros Ha Hi Hj Hk Hl.
  pose proof (shape4_row i Ha Hi) as H3.
  pose proof (shape3_row j H3 Hj) as H2.
  destruct Ha as [Hn _]. destruct H3 as [Hm _].
  unfold wr4, at_. rewrite (rd_ok buf a i []) by lia. simpl.
  rewrite (rd_ok buf (nth i a []) j []) by lia. simpl.
  rewrite (wr2_ok buf k l x H2) by assumption. reflexivity.
Qed.

Lemma at4_upd4 {n m p q : nat} {a : list (list (list (list R)))}
  (i j k l : nat) (x : R) (i' j' k' l' : nat) :
  shape4 n m p q a -> (i < n)%nat -> (j < m)%nat -> (k < p)%nat -> (l < q)%nat ->
  at4 (upd4 a i j k l x) i' j' k' l' =
  if (i' =? i) && (j' =? j) && (k' =? k) && (l' =? l) then x else at4 a i' j' k' l'.
Proof.
  intros Ha Hi Hj Hk Hl.
  pose proof (shape4_row i Ha Hi) as H3.
  pose proof (shape3_row j H3 Hj) as H2.
  destruct Ha as [Hn _]. destruct H3 as [Hm _].
  unfold at4, at3, upd4. rewrite nth_upd by lia.
  destruct (Nat.eqb_spec i' i) as [->|Hne]; simpl; [|reflexivity].
  rewrite nth_upd by lia.
  destruct (Nat.eqb_spec j' j) as [->|Hne]; simpl; [|reflexivity].
  rewrite (at2_upd2 k l x k' l' H2) by assumption. unfold fupd2.
  reflexivity.
Qed.

End Arrays2.

Section Returns.

Lemma returns_Ok {A} (a : A) (Q : A -> Prop) : Q a -> returns (Ok a) Q.
Proof. intros H. exists a. split; [reflexivity | exact H]. Qed.

Lemma returns_weaken {A} (c : result A) (Q R : A -> Prop) :
  returns c Q -> (forall a, Q a -> R a) -> returns c R.
Proof. intros (a & E & H) HQR. exists a. split; [exact E | apply HQR; exact H]. Qed.

Lemma returns_bind {A B} (c : result A) (k : A -> result B)
  (Q : A -> Prop) (R : B -> Prop) :
  returns c Q -> (forall a, Q a -> returns (k a) R) -> returns (bind c k) R.
Proof.
  intros (a & E & H) Hk. rewrite E. simpl. apply Hk. exact H.
Qed.

Lemma returns_for {S} (P : nat -> S -> Prop) (n : nat)
  (body : nat -> S -> result S) (s : S) :
  P 0 s ->
  (forall i t, i < n -> P i t -> returns (body i t) (P (Datatypes.S i))) ->
  returns (for_ n body s) (P n).
Proof. intros H0 Hstep. apply for_inv; assumption. Qed.

Lemma returns_for_from {S} (P : nat -> S -> Prop) (lo hi : nat)
  (body : nat -> S -> result S) (s : S) :
  lo <= hi ->
  P lo s ->
  (forall i t, lo <= i < hi -> P i t -> returns (body i t) (P (Datatypes.S i))) ->
  returns (for_from lo hi body s) (P hi).
Proof. intros Hle H0 Hstep. apply for_from_inv; assumption. Qed.

End Returns.

(** Runs a loop under the invariant [P], then restates what holds at exit. *)
Ltac loop P :=
  eapply returns_weaken; [apply (returns_for P) | ].
Ltac loop_from P :=
  eapply returns_weaken; [apply (returns_for_from P) | ].
(** Steps over the first call of a sequence. *)
Ltac step := eapply returns_bind.

Lemma returns_eq {A} (c : result A) (x : A) :
  returns c (fun a => a = x) -> c = Ok x.
Proof. intros (a & E & ->). exact E. Qed.

Lemma returns_intro {A} (c : result A) (x : A) (Q : A -> Prop) :
  c = Ok x -> Q x -> returns c Q.
Proof. intros E H. exists x. split; assumption. Qed.

Section Matrices.

Local Open Scope R_scope.

Lemma Rsum_ext (n : nat) (f g : nat -> R) :
  (forall k, (k < n)%nat -> f k = g k) -> Rsum n f = Rsum n g.
Proof.
  intros H. induction n as [|n IH]; simpl; [reflexivity |].
  rewrite IH by (intros; apply H; lia). rewrite H by lia. reflexivity.
Qed.

Lemma Rsum_zero (n : nat) (f : nat -> R) :
  (forall k, (k < n)%nat -> f k = 0) -> Rsum n f = 0.
Proof.
  intros H. induction n as [|n IH]; simpl; [reflexivity |].
  rewrite IH by (intros; apply H; lia). rewrite H by lia. lra.
Qed.

Lemma Rsum_plus (n : nat) (f g : nat -> R) :
  Rsum n (fun k => f k + g k) = Rsum n f + Rsum n g.
Proof. induction n as [|n IH]; simpl; [lra | rewrite IH; lra]. Qed.

Lemma Rsum_scal (n : nat) (c : R) (f : nat -> R) :
  Rsum n (fun k => c * f k) = c * Rsum n f.
Proof. induction n as [|n IH]; simpl; [lra | rewrite IH; lra]. Qed.

Lemma Rsum_swap (n m : nat) (f : nat -> nat -> R) :
  Rsum n (fun i => Rsum m (fun j => f i j)) =
  Rsum m (fun j => Rsum n (fun i => f i j)).
Proof.
  induction n as [|n IH]; simpl.
  - symmetry. apply Rsum_zero. reflexivity.
  - rewrite IH. rewrite <- Rsum_plus. reflexivity.
Qed.

Lemma shape2_local2 (n m : nat) : shape2 n m (local2 n m).
Proof.
  unfold local2. split.
  - apply repeat_length.
  - apply Forall_forall. intros r Hr. apply repeat_spec in Hr. subst.
    apply repeat_length.
Qed.

Lemma Mat_shape {n m a V} : Mat n m a V -> shape2 n m a.
Proof. intros [H _]. exact H. Qed.

Lemma Mat_at {n m a V} (i j : nat) :
  Mat n m a V -> (i < n)%nat -> (j < m)%nat -> at2 a i j = V i j.
Proof. intros [_ H]. apply H. Qed.

Lemma Mat_self {n m a} : shape2 n m a -> Mat n m a (at2 a).
Proof. intros H. split; [exact H | reflexivity]. Qed.

Lemma Mat_weaken {n m a V V'} :
  Mat n m a V ->
  (forall i j, (i < n)%nat -> (j < m)%nat -> V i j = V' i j) ->
  Mat n m a V'.
Proof.
  intros [Hs Hv] E. split; [exact Hs |].
  intros i j Hi Hj. rewrite Hv by assumption. apply E; assumption.
Qed.

Lemma Mat_rd {n m a V} (buf : string) (i j : nat) :
  Mat n m a V -> (i < n)%nat -> (j < m)%nat -> rd2 buf a i j = Ok (V i j).
Proof.
  intros [Hs Hv] Hi Hj. rewrite (rd2_ok buf i j Hs) by assumption.
  rewrite Hv by assumption. reflexivity.
Qed.

Lemma Mat_wr {n m a V} (buf : string) (i j : nat) (x : R) :
  Mat n m a V -> (i < n)%nat -> (j < m)%nat ->
  wr2 buf a i j x = Ok (upd2 a i j x) /\
  Mat n m (upd2 a i j x)
    (fun i' j' => if (i' =? i) && (j' =? j) then x else V i' j').
Proof.
  intros [Hs Hv] Hi Hj. split.
  - apply (wr2_ok buf i j x Hs); assumption.
  - split.
    + apply shape2_upd2; assumption.
    + intros i' j' Hi' Hj'. rewrite (at2_upd2 i j x i' j' Hs) by assumption.
      unfold fupd2. rewrite Hv by assumption. reflexivity.
Qed.

Lemma upd_upd {A} (a : list A) (i : nat) (x y : A) :
  upd (upd a i x) i y = upd a i y.
Proof.
  revert i. induction a as [|h t IH]; intros [|i]; simpl; try reflexivity.
  rewrite IH. reflexivity.
Qed.

End Matrices.

Lemma shape2_3x2 (a b c d e f : R) : shape2 3 2 [[a; b]; [c; d]; [e; f]].
Proof. split; [reflexivity | repeat constructor]. Qed.

Lemma wr2_fault_col {A} (buf : string) {n m : nat} {a : list (list A)}
  (i j : nat) (x : A) :
  shape2 n m a -> i < n -> m <= j -> wr2 buf a i j x = Fault (OutOfBounds buf).
Proof.
  intros Ha Hi Hj. pose proof (shape2_row i Ha Hi) as Hrow. destruct Ha as [Hn _].
  unfold wr2, at_. rewrite (rd_ok buf a i []) by lia. simpl.
  rewrite wr_fault by lia. reflexivity.
Qed.

Lemma nth_error_upd {A} (a : list A) (i k : nat) (x : A) :
  i < length a ->
  nth_error (upd a i x) k = if k =? i then Some x else nth_error a k.
Proof.
  revert i k. induction a as [|h t IH]; intros i k Hi; simpl in Hi; [lia |].
  destruct i as [|i], k as [|k]; simpl; auto.
  apply IH. lia.
Qed.

Lemma nth_error_lt {A} (a : list A) (k : nat) (x : A) :
  nth_error a k = Some x -> k < length a.
Proof. intros H. apply nth_error_Some. rewrite H. discriminate. Qed.

(** * Facts about [CElement] *)

(** Case analysis on the comparisons of indices in a goal. *)
Ltac index_cases :=
  cbv beta;
  repeat (match goal with
          | |- context [?a =? ?b] => destruct (Nat.eqb_spec a b)
          | |- context [?a <? ?b] => destruct (Nat.ltb_spec a b)
          | |- context [?a <=? ?b] => destruct (Nat.leb_spec a b)
          end; try lia);
  simpl; subst; try reflexivity; try lia; try lra.

Ltac splits := repeat match goal with |- _ /\ _ => split end.

Section Accumulators.

Import Elem.
Local Open Scope R_scope.

Lemma Acc_weaken {e0 e : CElement} {H D H' D'} :
  Acc e0 e H D ->
  (forall i j, (i < nNodes e0)%nat -> (j < nNodes e0)%nat -> H i j = H' i j) ->
  (forall i j a b, (i < nNodes e0)%nat -> (j < nNodes e0)%nat ->
     (a < nDim e0)%nat -> (b < nDim e0)%nat -> D i j a b = D' i j a b) ->
  Acc e0 e H' D'.
Proof.
  intros (h & d & -> & Hh & Hd & HH & HD) EH ED.
  exists h, d. splits; try assumption; try reflexivity.
  - intros. rewrite HH by assumption. apply EH; assumption.
  - intros. rewrite HD by assumption. apply ED; assumption.
Qed.

Lemma Acc_init {e : CElement} :
  AllocateStructures true e ->
  exists h d, HiHj e = Some h /\ DHiDHj e = Some d /\ Acc e e (at2 h) (at4 d).
Proof.
  intros (_ & _ & _ & _ & _ & (h & Eh & Hh) & (d & Ed & Hd)).
  exists h, d. splits; try assumption; try reflexivity.
  exists h, d. splits; try assumption; try reflexivity.
  destruct e; simpl in *. subst. reflexivity.
Qed.

Lemma Acc_nDim {e0 e H D} : Acc e0 e H D -> nDim e = nDim e0.
Proof. intros (h & d & -> & _). reflexivity. Qed.

Lemma Acc_nNodes {e0 e H D} : Acc e0 e H D -> nNodes e = nNodes e0.
Proof. intros (h & d & -> & _). reflexivity. Qed.

Lemma Acc_nGaussPoints {e0 e H D} : Acc e0 e H D -> nGaussPoints e = nGaussPoints e0.
Proof. intros (h & d & -> & _). reflexivity. Qed.

Lemma Acc_GaussPoint {e0 e H D} : Acc e0 e H D -> GaussPoint e = GaussPoint e0.
Proof. intros (h & d & -> & _). reflexivity. Qed.

Lemma Acc_GaussWeight {e0 e H D} : Acc e0 e H D -> GaussWeight e = GaussWeight e0.
Proof. intros (h & d & -> & _). reflexivity. Qed.

Lemma Acc_set_GaussPoint {e0 e H D} gp :
  Acc e0 e H D -> Acc (set_GaussPoint e0 gp) (set_GaussPoint e gp) H D.
Proof.
  intros (h & d & -> & Hh & Hd & HH & HD). exists h, d.
  splits; try assumption; reflexivity.
Qed.

(** One assignment to a cell of [DHiDHj]. *)
Lemma Acc_wr_D {e0 e H D} {I J A B : nat} {x : R} :
  Acc e0 e H D ->
  (I < nNodes e0)%nat -> (J < nNodes e0)%nat ->
  (A < nDim e0)%nat -> (B < nDim e0)%nat ->
  exists d, DHiDHj e = Some d /\
    rd4 "DHiDHj" d I J A B = Ok (D I J A B) /\
    exists d', wr4 "DHiDHj" d I J A B x = Ok d' /\
      Acc e0 (set_DHiDHj e (Some d')) H
        (fun i j a b =>
           if (i =? I) && (j =? J) && (a =? A) && (b =? B) then x else D i j a b).
Proof.
  intros (h & d & -> & Hh & Hd & HH & HD) HI HJ HA HB.
  exists d. split; [reflexivity |]. split.
  - rewrite (rd4_ok "DHiDHj" I J A B Hd) by assumption. rewrite HD by assumption.
    reflexivity.
  - exists (upd4 d I J A B x). split.
    + apply (wr4_ok "DHiDHj" I J A B x Hd); assumption.
    + exists h, (upd4 d I J A B x). splits; try assumption; try reflexivity.
      * apply shape4_upd4; assumption.
      * intros i j a b Hi Hj Ha Hb.
        rewrite (at4_upd4 I J A B x i j a b Hd) by assumption.
        rewrite HD by assumption. reflexivity.
Qed.

(** One assignment to a cell of [HiHj]. *)
Lemma Acc_wr_H {e0 e H D} {I J : nat} {x : R} :
  Acc e0 e H D ->
  (I < nNodes e0)%nat -> (J < nNodes e0)%nat ->
  exists h, HiHj e = Some h /\
    rd2 "HiHj" h I J = Ok (H I J) /\
    exists h', wr2 "HiHj" h I J x = Ok h' /\
      Acc e0 (set_HiHj e (Some h'))
        (fun i j => if (i =? I) && (j =? J) then x else H i j) D.
Proof.
  intros (h & d & -> & Hh & Hd & HH & HD) HI HJ.
  exists h. split; [reflexivity |]. split.
  - rewrite (rd2_ok "HiHj" I J Hh) by assumption. rewrite HH by assumption.
    reflexivity.
  - exists (upd2 h I J x). split.
    + apply (wr2_ok "HiHj" I J x Hh); assumption.
    + exists (upd2 h I J x), d. splits; try assumption; try reflexivity.
      * apply shape2_upd2; assumption.
      * intros i j Hi Hj.
        rewrite (at2_upd2 I J x i j Hh) by assumption. unfold fupd2.
        rewrite HH by assumption. reflexivity.
Qed.

End Accumulators.

Section AddBlocks.

Import Elem.
Local Open Scope R_scope.

(** [DHiDHj[I][J][A][B] = f (DHiDHj[I][J][A][B])], as [element->...]. *)
Lemma returns_D_cell {e0 e H D} {I J A B : nat} (f : R -> R) :
  Acc e0 e H D ->
  (I < nNodes e0)%nat -> (J < nNodes e0)%nat ->
  (A < nDim e0)%nat -> (B < nDim e0)%nat ->
  exists d, DHiDHj e = Some d /\
    rd4 "DHiDHj" d I J A B = Ok (D I J A B) /\
    returns (d' <- wr4 "DHiDHj" d I J A B (f (D I J A B)) ;;
             Ok (set_DHiDHj e (Some d')))
      (fun e' => Acc e0 e' H (fun i j a b =>
         if (i =? I) && (j =? J) && (a =? A) && (b =? B)
         then f (D I J A B) else D i j a b)).
Proof.
  intros Hacc HI HJ HA HB.
  destruct (Acc_wr_D (x := f (D I J A B)) Hacc HI HJ HA HB)
    as (d & Ed & Hrd & d' & Hwr & Hacc').
  exists d. splits; try assumption.
  rewrite Hwr. simpl. apply returns_Ok. exact Hacc'.
Qed.

Lemma Add_DHiDHj_ok {e0 e H D} (val : list (list R)) (A B : nat) :
  Acc e0 e H D ->
  shape2 (nDim e0) (nDim e0) val ->
  (A < nNodes e0)%nat -> (B < nNodes e0)%nat ->
  returns (Add_DHiDHj val A B e) (fun e' =>
    Acc e0 e' H (fun i j a b =>
      if (i =? A) && (j =? B) then D i j a b + at2 val a b else D i j a b)).
Proof.
  intros Hacc Hval HA HB. unfold Add_DHiDHj. rewrite (Acc_nDim Hacc).
  loop (fun I t => Acc e0 t H (fun i j a b =>
          if (i =? A) && (j =? B) && (a <? I)
          then D i j a b + at2 val a b else D i j a b)).
  - eapply Acc_weaken; [exact Hacc | reflexivity |]. intros; index_cases.
  - intros I t HI Ht.
    loop (fun Jd u => Acc e0 u H (fun i j a b =>
            if (i =? A) && (j =? B) && ((a <? I) || ((a =? I) && (b <? Jd)))
            then D i j a b + at2 val a b else D i j a b)).
    + eapply Acc_weaken; [exact Ht | reflexivity |]. intros; index_cases.
    + intros Jd u HJd Hu.
      destruct (returns_D_cell (fun old => old + at2 val I Jd) Hu HA HB HI HJd)
        as (d & Ed & Hrd & Hwr).
      rewrite Ed. simpl. rewrite Hrd. simpl.
      rewrite (rd2_ok "val" I Jd Hval) by assumption. simpl.
      eapply returns_weaken; [exact Hwr |]. intros u' Hu'.
      eapply Acc_weaken; [exact Hu' | reflexivity |]. intros; index_cases.
    + intros u Hu. eapply Acc_weaken; [exact Hu | reflexivity |].
      intros; index_cases.
  - intros t Ht. eapply Acc_weaken; [exact Ht | reflexivity |].
    intros; index_cases.
Qed.

Lemma Add_DHiDHj_T_ok {e0 e H D} (val : list (list R)) (A B : nat) :
  Acc e0 e H D ->
  shape2 (nDim e0) (nDim e0) val ->
  (A < nNodes e0)%nat -> (B < nNodes e0)%nat ->
  returns (Add_DHiDHj_T val A B e) (fun e' =>
    Acc e0 e' H (fun i j a b =>
      if (i =? A) && (j =? B) then D i j a b + at2 val b a else D i j a b)).
Proof.
  intros Hacc Hval HA HB. unfold Add_DHiDHj_T. rewrite (Acc_nDim Hacc).
  loop (fun I t => Acc e0 t H (fun i j a b =>
          if (i =? A) && (j =? B) && (a <? I)
          then D i j a b + at2 val b a else D i j a b)).
  - eapply Acc_weaken; [exact Hacc | reflexivity |]. intros; index_cases.
  - intros I t HI Ht.
    loop (fun Jd u => Acc e0 u H (fun i j a b =>
            if (i =? A) && (j =? B) && ((a <? I) || ((a =? I) && (b <? Jd)))
            then D i j a b + at2 val b a else D i j a b)).
    + eapply Acc_weaken; [exact Ht | reflexivity |]. intros; index_cases.
    + intros Jd u HJd Hu.
      destruct (returns_D_cell (fun old => old + at2 val Jd I) Hu HA HB HI HJd)
        as (d & Ed & Hrd & Hwr).
      rewrite Ed. simpl. rewrite Hrd. simpl.
      rewrite (rd2_ok "val" Jd I Hval) by assumption. simpl.
      eapply returns_weaken; [exact Hwr |]. intros u' Hu'.
      eapply Acc_weaken; [exact Hu' | reflexivity |]. intros; index_cases.
    + intros u Hu. eapply Acc_weaken; [exact Hu | reflexivity |].
      intros; index_cases.
  - intros t Ht. eapply Acc_weaken; [exact Ht | reflexivity |].
    intros; index_cases.
Qed.

Lemma Add_HiHj_ok {e0 e H D} (val : R) (A B : nat) :
  Acc e0 e H D ->
  (A < nNodes e0)%nat -> (B < nNodes e0)%nat ->
  returns (Add_HiHj val A B e) (fun e' =>
    Acc e0 e' (fun i j => if (i =? A) && (j =? B) then H i j + val else H i j) D).
Proof.
  intros Hacc HA HB. unfold Add_HiHj.
  destruct (Acc_wr_H (x := H A B + val) Hacc HA HB)
    as (h & Eh & Hrd & h' & Hwr & Hacc').
  rewrite Eh. simpl. rewrite Hrd. simpl. rewrite Hwr. simpl.
  apply returns_Ok. eapply Acc_weaken; [exact Hacc' | | reflexivity].
  intros; index_cases.
Qed.

Lemma clearElement_ok (e : CElement) :
  AllocateStructures true e ->
  returns (clearElement true e) (fun e' =>
    Acc e e' (fun _ _ => 0) (fun _ _ _ _ => 0)).
Proof.
  intros Hall. destruct (Acc_init Hall) as (h0 & d0 & _ & _ & Hacc).
  unfold clearElement.
  loop (fun I t => Acc e t
          (fun i j => if i <? I then 0 else at2 h0 i j)
          (fun i j a b => if i <? I then 0 else at4 d0 i j a b)).
  - exact Hacc.
  - intros I t HI Ht.
    loop (fun J u => Acc e u
            (fun i j => if (i <? I) || ((i =? I) && (j <? J)) then 0 else at2 h0 i j)
            (fun i j a b =>
               if (i <? I) || ((i =? I) && (j <? J)) then 0 else at4 d0 i j a b)).
    + eapply Acc_weaken; [exact Ht | |]; intros; index_cases.
    + intros J u HJ Hu.
      apply returns_bind with (Q := fun v => Acc e v
            (fun i j =>
               if (i <? I) || ((i =? I) && (j <? Datatypes.S J)) then 0 else at2 h0 i j)
            (fun i j a b =>
               if (i <? I) || ((i =? I) && (j <? J)) then 0 else at4 d0 i j a b)).
      * destruct (Acc_wr_H (x := 0) Hu HI HJ) as (h & Eh & _ & h' & Hwr & Hacc').
        rewrite Eh, Hwr. simpl. apply returns_Ok.
        eapply Acc_weaken; [exact Hacc' | |]; intros; index_cases.
      * intros v Hv. simpl in Hv. rewrite (Acc_nDim Hv).
        loop (fun A w => Acc e w
            (fun i j =>
               if (i <? I) || ((i =? I) && (j <? Datatypes.S J)) then 0 else at2 h0 i j)
            (fun i j a b =>
               if (i <? I) || ((i =? I) && (j <? J))
                  || ((i =? I) && (j =? J) && (a <? A))
               then 0 else at4 d0 i j a b)).
        -- eapply Acc_weaken; [exact Hv | |]; intros; index_cases.
        -- intros A w HA Hw.
           loop (fun B x => Acc e x
            (fun i j =>
               if (i <? I) || ((i =? I) && (j <? Datatypes.S J)) then 0 else at2 h0 i j)
            (fun i j a b =>
               if (i <? I) || ((i =? I) && (j <? J))
                  || ((i =? I) && (j =? J) && ((a <? A) || ((a =? A) && (b <? B))))
               then 0 else at4 d0 i j a b)).
           ++ eapply Acc_weaken; [exact Hw | |]; intros; index_cases.
           ++ intros B x HB Hx.
              destruct (returns_D_cell (fun _ => 0) Hx HI HJ HA HB)
                as (d & Ed & _ & Hwr).
              rewrite Ed. eapply returns_weaken; [exact Hwr |]. intros x' Hx'.
              eapply Acc_weaken; [exact Hx' | |]; intros; index_cases.
           ++ intros x Hx. eapply Acc_weaken; [exact Hx | |]; intros; index_cases.
        -- intros w Hw. eapply Acc_weaken; [exact Hw | |]; intros; index_cases.
    + intros u Hu. eapply Acc_weaken; [exact Hu | |]; intros; index_cases.
  - intros t Ht. eapply Acc_weaken; [exact Ht | |]; intros; index_cases.
Qed.

End AddBlocks.

Section Gradients.

Import Elem.
Local Open Scope R_scope.

Lemma build_Jacobian_2_ok (Coord : list (list R)) (e : CElement) (g m p : nat) :
  shape2 (nNodes e) m Coord -> (2 <= m)%nat ->
  shape3 (nGaussPoints e) (nNodes e) p (dNiXj e) -> (2 <= p)%nat ->
  (g < nGaussPoints e)%nat ->
  build_Jacobian 2 Coord e g =
  Ok (Jacobian_matrix 2 Coord (nth g (dNiXj e) []) (nNodes e)).
Proof.
  intros HC Hm HD Hp Hg. unfold build_Jacobian. simpl for_ at 1. simpl bind.
  apply returns_eq.
  loop (fun k J =>
    let S i j := Rsum k (fun iNode =>
                   at2 Coord iNode j * at2 (nth g (dNiXj e) []) iNode i) in
    J = [[S 0 0; S 0 1]; [S 1 0; S 1 1]]%nat).
  - reflexivity.
  - intros k J Hk ->. simpl for_.
    rewrite !(rd2_ok "Coord" k _ HC) by lia.
    rewrite !(rd3_ok "dNiXj" g k _ HD) by lia.
    simpl. apply returns_Ok. reflexivity.
  - intros J ->. reflexivity.
Qed.


Lemma build_Jacobian_3_ok (Coord : list (list R)) (e : CElement) (g m p : nat) :
  shape2 (nNodes e) m Coord -> (3 <= m)%nat ->
  shape3 (nGaussPoints e) (nNodes e) p (dNiXj e) -> (3 <= p)%nat ->
  (g < nGaussPoints e)%nat ->
  build_Jacobian 3 Coord e g =
  Ok (Jacobian_matrix 3 Coord (nth g (dNiXj e) []) (nNodes e)).
Proof.
  intros HC Hm HD Hp Hg. unfold build_Jacobian. simpl for_ at 1. simpl bind.
  apply returns_eq.
  loop (fun k J =>
    let S i j := Rsum k (fun iNode =>
                   at2 Coord iNode j * at2 (nth g (dNiXj e) []) iNode i) in
    J = [[S 0 0; S 0 1; S 0 2]; [S 1 0; S 1 1; S 1 2]; [S 2 0; S 2 1; S 2 2]]%nat).
  - reflexivity.
  - intros k J Hk ->. simpl for_.
    rewrite !(rd2_ok "Coord" k _ HC) by lia.
    rewrite !(rd3_ok "dNiXj" g k _ HD) by lia.
    simpl. apply returns_Ok. reflexivity.
  - intros J ->. reflexivity.
Qed.


Lemma scale_adjugate_ok (n : nat) (ad J : list (list R)) (detJac : R) :
  shape2 n n ad -> shape2 n n J ->
  returns (scale_adjugate n ad detJac J)
    (fun J' => Mat n n J' (fun i j => at2 ad i j / detJac)).
Proof.
  intros Had HJ. unfold scale_adjugate.
  loop (fun I t => Mat n n t (fun i j =>
          if i <? I then at2 ad i j / detJac else at2 J i j)).
  - apply Mat_self. exact HJ.
  - intros I t HI Ht.
    loop (fun K u => Mat n n u (fun i j =>
            if (i <? I) || ((i =? I) && (j <? K))
            then at2 ad i j / detJac else at2 J i j)).
    + eapply Mat_weaken; [exact Ht |]. intros; index_cases.
    + intros K u HK Hu. rewrite (rd2_ok "ad" I K Had) by assumption. simpl.
      destruct (Mat_wr "Jacobian" I K (at2 ad I K / detJac) Hu HI HK) as [Hwr Hu'].
      rewrite Hwr. apply returns_Ok.
      eapply Mat_weaken; [exact Hu' |]. intros; index_cases.
    + intros u Hu. eapply Mat_weaken; [exact Hu |]. intros; index_cases.
  - intros t Ht. eapply Mat_weaken; [exact Ht |]. intros; index_cases.
Qed.

Lemma on_GaussPoint_ok (g : nat) (f : CGaussVariable -> CGaussVariable)
  (gp : list CGaussVariable) :
  (g < length gp)%nat ->
  on_GaussPoint g f gp = Ok (upd gp g (f (nth g gp gauss0))).
Proof.
  intros Hg. unfold on_GaussPoint, at_.
  rewrite (rd_ok "GaussPoint" gp g gauss0) by assumption. reflexivity.
Qed.

Lemma on_GaussPoint_upd (g : nat) (f : CGaussVariable -> CGaussVariable)
  (gp : list CGaussVariable) (v : CGaussVariable) :
  (g < length gp)%nat ->
  on_GaussPoint g f (upd gp g v) = Ok (upd gp g (f v)).
Proof.
  intros Hg. rewrite on_GaussPoint_ok by (rewrite length_upd; assumption).
  rewrite nth_upd by assumption. rewrite Nat.eqb_refl. rewrite upd_upd.
  reflexivity.
Qed.

(** The innermost loop of [store_gradients]. *)
Lemma gradient_dot_ok (n p : nat) (Jacobian : list (list R)) (e : CElement)
  (g k d : nat) :
  shape2 n n Jacobian ->
  shape3 (nGaussPoints e) (nNodes e) p (dNiXj e) -> (n <= p)%nat ->
  (g < nGaussPoints e)%nat -> (k < nNodes e)%nat -> (d < n)%nat ->
  for_ n (fun jDim acc =>
            j <- rd2 "Jacobian" Jacobian d jDim ;;
            x <- rd3 "dNiXj" (dNiXj e) g k jDim ;;
            Ok (acc + j * x)) 0 =
  Ok (Rsum n (fun jDim => at2 Jacobian d jDim * at2 (nth g (dNiXj e) []) k jDim)).
Proof.
  intros HJ HD Hp Hg Hk Hd.
  assert (forall m, (m <= n)%nat ->
    for_ m (fun jDim acc =>
              j <- rd2 "Jacobian" Jacobian d jDim ;;
              x <- rd3 "dNiXj" (dNiXj e) g k jDim ;;
              Ok (acc + j * x)) 0 =
    Ok (Rsum m (fun jDim => at2 Jacobian d jDim * at2 (nth g (dNiXj e) []) k jDim)))
    as Hm.
  { induction m as [|m IH]; intros Hle; simpl; [reflexivity |].
    rewrite IH by lia. simpl.
    rewrite (rd2_ok "Jacobian" d m HJ) by lia. simpl.
    rewrite (rd3_ok "dNiXj" g k m HD) by lia. reflexivity. }
  apply Hm. lia.
Qed.

Lemma store_gradients_ok (n p : nat) (Jacobian : list (list R)) (e : CElement)
  (g : nat) (gp : list CGaussVariable) (v : CGaussVariable) :
  shape2 n n Jacobian ->
  shape3 (nGaussPoints e) (nNodes e) p (dNiXj e) -> (n <= p)%nat ->
  (g < nGaussPoints e)%nat -> (g < length gp)%nat ->
  returns (store_gradients n REFERENCE Jacobian e g (upd gp g v))
    (fun gp' => exists v', gp' = upd gp g v' /\
       gradients_stored (nNodes e) n v v' (J_X v)
         (fun k d => Rsum n (fun jDim =>
            at2 Jacobian d jDim * at2 (nth g (dNiXj e) []) k jDim))).
Proof.
  intros HJ HD Hp Hg Hlen. unfold store_gradients.
  set (G := fun k d => Rsum n (fun jDim =>
              at2 Jacobian d jDim * at2 (nth g (dNiXj e) []) k jDim)).
  loop (fun K t => exists v', t = upd gp g v' /\
          Ni v' = Ni v /\ GradNi_xj v' = GradNi_xj v /\ J_x v' = J_x v /\
          J_X v' = J_X v /\
          forall k d, GradNi_Xj v' k d =
            if (k <? K) && (d <? n) then G k d else GradNi_Xj v k d).
  - exists v. splits; reflexivity.
  - intros K t HK (v' & -> & E1 & E2 & E3 & E4 & E5).
    loop (fun Dd t => exists v'', t = upd gp g v'' /\
          Ni v'' = Ni v /\ GradNi_xj v'' = GradNi_xj v /\ J_x v'' = J_x v /\
          J_X v'' = J_X v /\
          forall k d, GradNi_Xj v'' k d =
            if ((k <? K) && (d <? n)) || ((k =? K) && (d <? Dd))
            then G k d else GradNi_Xj v k d).
    + exists v'. split; [reflexivity |]. splits; try assumption.
      intros k d. rewrite E5. index_cases.
    + intros Dd t HDd (v'' & -> & F1 & F2 & F3 & F4 & F5).
      rewrite (gradient_dot_ok n p Jacobian e g K Dd HJ HD Hp Hg HK HDd). simpl.
      rewrite on_GaussPoint_upd by assumption. apply returns_Ok.
      exists (SetGradNi_Xj (G K Dd) Dd K v''). split; [reflexivity |].
      splits; try assumption.
      intros k d. simpl. unfold fupd2. rewrite F5. index_cases.
    + intros t (v'' & -> & F1 & F2 & F3 & F4 & F5).
      exists v''. split; [reflexivity |]. splits; try assumption.
      intros k d. rewrite F5. index_cases.
  - intros t (v' & -> & E1 & E2 & E3 & E4 & E5).
    exists v'. split; [reflexivity |]. unfold gradients_stored.
    splits; try assumption.
Qed.

(** The loop over the quadrature points, each step of which rewrites its
    own point only. *)
Lemma gauss_loop (nG : nat)
  (body : nat -> list CGaussVariable -> result (list CGaussVariable))
  (gp0 : list CGaussVariable)
  (Done : nat -> CGaussVariable -> CGaussVariable -> Prop) :
  length gp0 = nG ->
  (forall g gp, (g < nG)%nat -> length gp = nG ->
     returns (body g gp)
       (fun gp' => exists v', gp' = upd gp g v' /\ Done g (nth g gp gauss0) v')) ->
  returns (for_ nG body gp0)
    (fun gp' => length gp' = nG /\
       forall g, (g < nG)%nat -> Done g (nth g gp0 gauss0) (nth g gp' gauss0)).
Proof.
  intros Hlen Hbody.
  loop (fun G gp => length gp = nG /\
          forall g, (g < nG)%nat ->
            (g < G -> Done g (nth g gp0 gauss0) (nth g gp gauss0))%nat /\
            (G <= g -> nth g gp gauss0 = nth g gp0 gauss0)%nat).
  - split; [exact Hlen |]. intros g Hg. split; [lia | reflexivity].
  - intros G gp HG [Hl Hinv].
    eapply returns_weaken; [apply (Hbody G gp HG Hl) |].
    intros gp' (v' & -> & Hdone). split.
    + rewrite length_upd. exact Hl.
    + intros g Hg. rewrite nth_upd by lia.
      destruct (Nat.eqb_spec g G) as [-> | Hne].
      * split; [| lia]. intros _.
        destruct (Hinv G Hg) as [_ Heq]. rewrite Heq in Hdone by lia. exact Hdone.
      * destruct (Hinv g Hg) as [Hlt Hge]. split.
        -- intros Hlt'. apply Hlt. lia.
        -- intros Hle. apply Hge. lia.
  - intros gp [Hl Hinv]. split; [exact Hl |].
    intros g Hg. apply (Hinv g Hg). exact Hg.
Qed.

Lemma gradients_stored_weaken (nN nd : nat) (v0 v : CGaussVariable)
  (jX : R) (G G' : nat -> nat -> R) :
  gradients_stored nN nd v0 v jX G ->
  (forall k d, (k < nN)%nat -> (d < nd)%nat -> G k d = G' k d) ->
  gradients_stored nN nd v0 v jX G'.
Proof.
  intros (E1 & E2 & E3 & E4 & E5) HG. unfold gradients_stored.
  splits; try assumption.
  intros k d. rewrite E5.
  destruct (Nat.ltb_spec k nN); destruct (Nat.ltb_spec d nd); simpl;
    try reflexivity.
  apply HG; assumption.
Qed.

Lemma shape2_2x2 (a b c d : R) : shape2 2 2 [[a; b]; [c; d]].
Proof. split; [reflexivity | repeat constructor]. Qed.

Lemma shape2_3x3 (a b c d f g h i j : R) :
  shape2 3 3 [[a; b; c]; [d; f; g]; [h; i; j]].
Proof. split; [reflexivity | repeat constructor]. Qed.

Local Opaque scale_adjugate store_gradients build_Jacobian.

Lemma ComputeGrad_2D_ok (e : CElement) (gs : bool) :
  AllocateStructures gs e ->
  (2 <= nDim e)%nat -> (3 <= nNodes e)%nat ->
  returns (ComputeGrad_2D REFERENCE e)
    (fun e' => gradients_computed e e' 2
                 (fun _ => TrafoJacobi (RefCoord e)) (GradNi_X_2D e)).
Proof.
  intros (Hgp & _ & HC & _ & HD & _) Hdim Hnodes.
  unfold ComputeGrad_2D. simpl frame_Coord.
  apply returns_bind with (Q := fun gp => length gp = nGaussPoints e /\
    forall g, (g < nGaussPoints e)%nat ->
      gradients_stored (nNodes e) 2 (nth g (GaussPoint e) gauss0) (nth g gp gauss0)
        (TrafoJacobi (RefCoord e)) (GradNi_X_2D e g)).
  - apply gauss_loop with (Done := fun g v0 v =>
      gradients_stored (nNodes e) 2 v0 v (TrafoJacobi (RefCoord e)) (GradNi_X_2D e g));
      [exact Hgp |].
    intros g gp Hg Hlen.
    rewrite (build_Jacobian_2_ok (RefCoord e) e g (nDim e) (nDim e) HC Hdim HD Hdim Hg).
    simpl bind.
    rewrite !(rd2_ok "Coord" _ _ HC) by lia. simpl bind.
    rewrite on_GaussPoint_ok by lia. simpl bind.
    fold (dN_at e g). fold (Jacobian_2D e g).
    set (J := Jacobian_2D e g).
    change [[at2 J 1 1; - at2 J 0 1]; [- at2 J 1 0; at2 J 0 0]] with (adjugate2 J).
    fold (det2 J). fold (TrafoJacobi (RefCoord e)).
    eapply returns_bind.
    + apply scale_adjugate_ok; [apply shape2_2x2 | apply shape2_2x2].
    + intros J' HJ'. cbv beta in HJ'.
      eapply returns_weaken.
      * apply (store_gradients_ok 2 (nDim e) J' e g gp _ (Mat_shape HJ') HD Hdim Hg).
        lia.
      * intros gp' (v' & -> & Hst). exists v'. split; [reflexivity |].
        destruct Hst as (E1 & E2 & E3 & E4 & E5). unfold gradients_stored.
        splits; try assumption.
        intros k d. rewrite E5.
        destruct (Nat.ltb_spec k (nNodes e)); destruct (Nat.ltb_spec d 2);
          cbn [andb]; try reflexivity.
        unfold GradNi_X_2D, physical_gradient. apply Rsum_ext. intros j Hj.
        rewrite (Mat_at d j HJ') by assumption. reflexivity.
  - intros gp [Hlen Hst]. apply returns_Ok. exists gp. splits; try assumption.
    reflexivity.
Qed.

Lemma ComputeGrad_3D_ok (e : CElement) (gs : bool) :
  AllocateStructures gs e ->
  (3 <= nDim e)%nat ->
  returns (ComputeGrad_3D REFERENCE e)
    (fun e' => gradients_computed e e' 3
                 (fun g => det3 (Jacobian_3D e g)) (GradNi_X_3D e)).
Proof.
  intros (Hgp & _ & HC & _ & HD & _) Hdim.
  unfold ComputeGrad_3D. simpl frame_Coord.
  apply returns_bind with (Q := fun gp => length gp = nGaussPoints e /\
    forall g, (g < nGaussPoints e)%nat ->
      gradients_stored (nNodes e) 3 (nth g (GaussPoint e) gauss0) (nth g gp gauss0)
        (det3 (Jacobian_3D e g)) (GradNi_X_3D e g)).
  - apply gauss_loop with (Done := fun g v0 v =>
      gradients_stored (nNodes e) 3 v0 v (det3 (Jacobian_3D e g)) (GradNi_X_3D e g));
      [exact Hgp |].
    intros g gp Hg Hlen.
    rewrite (build_Jacobian_3_ok (RefCoord e) e g (nDim e) (nDim e) HC Hdim HD Hdim Hg).
    simpl bind.
    rewrite on_GaussPoint_ok by lia. simpl bind.
    fold (dN_at e g). fold (Jacobian_3D e g).
    set (J := Jacobian_3D e g).
    match goal with
    | |- context [scale_adjugate 3 ?a ?d _] =>
        change a with (adjugate3 J); change d with (det3 J)
    end.
    eapply returns_bind.
    + apply scale_adjugate_ok; [apply shape2_3x3 | apply shape2_3x3].
    + intros J' HJ'. cbv beta in HJ'.
      eapply returns_weaken.
      * apply (store_gradients_ok 3 (nDim e) J' e g gp _ (Mat_shape HJ') HD Hdim Hg).
        lia.
      * intros gp' (v' & -> & Hst). exists v'. split; [reflexivity |].
        destruct Hst as (E1 & E2 & E3 & E4 & E5). unfold gradients_stored.
        splits; try assumption.
        intros k d. rewrite E5.
        destruct (Nat.ltb_spec k (nNodes e)); destruct (Nat.ltb_spec d 3);
          cbn [andb]; try reflexivity.
        unfold GradNi_X_3D, physical_gradient. apply Rsum_ext. intros j Hj.
        rewrite (Mat_at d j HJ') by assumption. reflexivity.
  - intros gp [Hlen Hst]. apply returns_Ok. exists gp. splits; try assumption.
    reflexivity.
Qed.

Lemma ComputeGrad_1D_ok (e : CElement) (gs : bool) :
  AllocateStructures gs e ->
  (1 <= nDim e)%nat -> (2 <= nNodes e)%nat ->
  returns (ComputeGrad_1D REFERENCE e)
    (fun e' => gradients_computed e e' 1 (fun _ => Jacobian_1D e) (GradNi_X_1D e)).
Proof.
  intros (Hgp & _ & HC & _ & HD & _) Hdim Hnodes.
  unfold ComputeGrad_1D. simpl frame_Coord.
  apply returns_bind with (Q := fun gp => length gp = nGaussPoints e /\
    forall g, (g < nGaussPoints e)%nat ->
      gradients_stored (nNodes e) 1 (nth g (GaussPoint e) gauss0) (nth g gp gauss0)
        (Jacobian_1D e) (GradNi_X_1D e g)).
  - apply gauss_loop with (Done := fun g v0 v =>
      gradients_stored (nNodes e) 1 v0 v (Jacobian_1D e) (GradNi_X_1D e g));
      [exact Hgp |].
    intros g gp Hg Hlen.
    rewrite !(rd2_ok "Coord" _ _ HC) by lia. simpl bind.
    rewrite on_GaussPoint_ok by lia. simpl bind.
    fold (Jacobian_1D e).
    set (v0 := nth g gp gauss0).
    loop (fun K t => exists v', t = upd gp g v' /\
            Ni v' = Ni v0 /\ GradNi_xj v' = GradNi_xj v0 /\ J_x v' = J_x v0 /\
            J_X v' = Jacobian_1D e /\
            forall k d, GradNi_Xj v' k d =
              if (k <? K) && (d <? 1) then GradNi_X_1D e g k d
              else GradNi_Xj v0 k d).
    + exists (SetJ_X (Jacobian_1D e) v0). splits; reflexivity.
    + intros K t HK (v' & -> & E1 & E2 & E3 & E4 & E5).
      rewrite (rd3_ok "dNiXj" g K 0 HD) by lia. simpl bind.
      rewrite on_GaussPoint_upd by lia. apply returns_Ok.
      eexists. split; [reflexivity |]. splits; try assumption.
      intros k d. simpl. unfold fupd2. rewrite E5.
      unfold GradNi_X_1D, dN_at, at3.
      destruct (Nat.eqb_spec k K); destruct (Nat.eqb_spec d 0); subst;
        index_cases.
    + intros t (v' & -> & E1 & E2 & E3 & E4 & E5). exists v'.
      split; [reflexivity |]. unfold gradients_stored. splits; assumption.
  - intros gp [Hlen Hst]. apply returns_Ok. exists gp. splits; try assumption.
    reflexivity.
Qed.

Lemma ComputeGrad_Linear_ok (e : CElement) (gs : bool) :
  AllocateStructures gs e -> flat_element e ->
  returns (ComputeGrad_Linear e)
    (fun e' => gradients_computed e e' (nDim e) (J_X_Linear e) (GradNi_X_Linear e)).
Proof.
  intros Hall Hflat. unfold ComputeGrad_Linear, J_X_Linear, GradNi_X_Linear.
  destruct Hflat as [[E Hn] | [[E Hn] | E]]; rewrite E; simpl.
  - apply (ComputeGrad_1D_ok e gs Hall); lia.
  - apply (ComputeGrad_2D_ok e gs Hall); lia.
  - apply (ComputeGrad_3D_ok e gs Hall); lia.
Qed.

Lemma ComputeGrad_2D_Coord_ok (Coord : list (list R)) (e : CElement)
  (gs : bool) (r c : nat) :
  shape2 r c Coord -> (3 <= r)%nat -> (3 <= c)%nat ->
  AllocateStructures gs e -> (2 <= nDim e)%nat ->
  returns (ComputeGrad_2D_Coord Coord e)
    (fun e' => gradients_computed e e' 3
                 (fun _ => surface_volJacobian Coord)
                 (fun g => surface_gradient Coord (dN_at e g))).
Proof.
  intros HC Hr Hc (Hgp & _ & _ & _ & HD & _) Hdim.
  unfold ComputeGrad_2D_Coord.
  apply returns_bind with (Q := fun gp => length gp = nGaussPoints e /\
    forall g, (g < nGaussPoints e)%nat ->
      gradients_stored (nNodes e) 3 (nth g (GaussPoint e) gauss0) (nth g gp gauss0)
        (surface_volJacobian Coord) (surface_gradient Coord (dN_at e g))).
  - apply gauss_loop with (Done := fun g v0 v =>
      gradients_stored (nNodes e) 3 v0 v
        (surface_volJacobian Coord) (surface_gradient Coord (dN_at e g)));
      [exact Hgp |].
    intros g gp Hg Hlen.
    cbn [for_]. rewrite !(rd2_ok "Coord" _ _ HC) by lia.
    simpl bind.
    rewrite on_GaussPoint_ok by lia. simpl bind.
    set (v0 := nth g gp gauss0).
    apply returns_bind with (Q := fun (st : list CGaussVariable * list R) =>
      exists v', fst st = upd gp g v' /\
      gradients_stored (nNodes e) 3 v0 v'
        (surface_volJacobian Coord) (surface_gradient Coord (dN_at e g))).
    + loop (fun K (st : list CGaussVariable * list R) => length (snd st) = 3%nat /\
              exists v', fst st = upd gp g v' /\
                Ni v' = Ni v0 /\ GradNi_xj v' = GradNi_xj v0 /\ J_x v' = J_x v0 /\
                J_X v' = surface_volJacobian Coord /\
                forall k d, GradNi_Xj v' k d =
                  if (k <? K) && (d <? 3)
                  then surface_gradient Coord (dN_at e g) k d
                  else GradNi_Xj v0 k d).
      * simpl. split; [reflexivity |]. eexists. split; [reflexivity |].
        splits; reflexivity.
      * intros K [gp1 GradOut] HK (HGO & v' & Egp & E1 & E2 & E3 & E4 & E5).
        simpl in HGO, Egp. subst gp1.
        destruct GradOut as [|g0 [|g1 [|g2 [|]]]]; try discriminate HGO.
        cbn [for_]. simpl bind.
        rewrite !(rd3_ok "dNiXj" g K _ HD) by lia. simpl bind.
        repeat (rewrite on_GaussPoint_upd by lia; simpl bind).
        apply returns_Ok. simpl. split; [reflexivity |].
        eexists. split; [reflexivity |]. splits; try assumption.
        intros k d. simpl. unfold fupd2. rewrite E5.
        destruct (Nat.eqb_spec k K) as [-> | Hne];
          [| destruct (Nat.ltb_spec k K); destruct (Nat.ltb_spec k (Datatypes.S K));
             try lia; destruct d as [|[|[|d]]]; reflexivity].
        assert ((K <? K) = false) as -> by (apply Nat.ltb_irrefl).
        assert ((K <? Datatypes.S K) = true) as -> by (apply Nat.ltb_lt; lia).
        destruct d as [|[|[|d]]]; reflexivity.
      * intros [gp1 GradOut] (_ & v' & Egp & E1 & E2 & E3 & E4 & E5).
        exists v'. split; [exact Egp |]. unfold gradients_stored. splits; assumption.
    + intros [gp1 GradOut] (v' & Egp & Hst). simpl in Egp. subst gp1.
      apply returns_Ok. exists v'. split; [reflexivity | exact Hst].
  - intros gp [Hlen Hst]. apply returns_Ok. exists gp. splits; try assumption.
    reflexivity.
Qed.

Lemma ComputeGrad_1D_Coord_ok (Coord : list (list R)) (e : CElement)
  (gs : bool) (r c : nat) :
  shape2 r c Coord -> (2 <= r)%nat -> (2 <= c)%nat ->
  AllocateStructures gs e -> (1 <= nDim e)%nat ->
  returns (ComputeGrad_1D_Coord Coord e)
    (fun e' => gradients_computed e e' 2
                 (fun _ => sqrt (line_JTJ Coord))
                 (fun g => line_gradient Coord (dN_at e g))).
Proof.
  intros HC Hr Hc (Hgp & _ & _ & _ & HD & _) Hdim.
  unfold ComputeGrad_1D_Coord.
  rewrite !(rd2_ok "Coord" _ _ HC) by lia. simpl bind.
  apply returns_bind with (Q := fun gp => length gp = nGaussPoints e /\
    forall g, (g < nGaussPoints e)%nat ->
      gradients_stored (nNodes e) 2 (nth g (GaussPoint e) gauss0) (nth g gp gauss0)
        (sqrt (line_JTJ Coord)) (line_gradient Coord (dN_at e g))).
  - apply gauss_loop with (Done := fun g v0 v =>
      gradients_stored (nNodes e) 2 v0 v
        (sqrt (line_JTJ Coord)) (line_gradient Coord (dN_at e g)));
      [exact Hgp |].
    intros g gp Hg Hlen.
    rewrite on_GaussPoint_ok by lia. simpl bind.
    set (v0 := nth g gp gauss0).
    loop (fun K t => exists v', t = upd gp g v' /\
            Ni v' = Ni v0 /\ GradNi_xj v' = GradNi_xj v0 /\ J_x v' = J_x v0 /\
            J_X v' = sqrt (line_JTJ Coord) /\
            forall k d, GradNi_Xj v' k d =
              if (k <? K) && (d <? 2)
              then line_gradient Coord (dN_at e g) k d
              else GradNi_Xj v0 k d).
    + eexists. split; [reflexivity |]. splits; reflexivity.
    + intros K t HK (v' & -> & E1 & E2 & E3 & E4 & E5).
      cbn [for_]. simpl bind.
      rewrite !(rd3_ok "dNiXj" g K _ HD) by lia. simpl bind.
      repeat (rewrite on_GaussPoint_upd by lia; simpl bind).
      apply returns_Ok.
      eexists. split; [reflexivity |]. splits; try assumption.
      intros k d. simpl. unfold fupd2. rewrite E5.
      destruct (Nat.eqb_spec k K) as [-> | Hne];
        [| destruct (Nat.ltb_spec k K); destruct (Nat.ltb_spec k (Datatypes.S K));
           try lia; destruct d as [|[|d]]; reflexivity].
      assert ((K <? K) = false) as -> by (apply Nat.ltb_irrefl).
      assert ((K <? Datatypes.S K) = true) as -> by (apply Nat.ltb_lt; lia).
      destruct d as [|[|d]]; reflexivity.
    + intros t (v' & -> & E1 & E2 & E3 & E4 & E5).
      exists v'. split; [reflexivity |]. unfold gradients_stored. splits; assumption.
  - intros gp [Hlen Hst]. apply returns_Ok. exists gp. splits; try assumption.
    reflexivity.
Qed.

End Gradients.

(** * Facts about [CGradSmoothing] *)

Section TangentMatrix.

Import Elem Numerics.
Local Open Scope R_scope.

Lemma for_Rsum (n : nat) (f : nat -> R) (body : nat -> R -> result R) :
  (forall k acc, (k < n)%nat -> body k acc = Ok (acc + f k)) ->
  for_ n body 0 = Ok (Rsum n f).
Proof.
  intros Hb.
  assert (forall m, (m <= n)%nat -> for_ m body 0 = Ok (Rsum m f)) as Hm.
  { induction m as [|m IH]; intros Hle; simpl; [reflexivity |].
    rewrite IH by lia. simpl. apply Hb. lia. }
  apply Hm. lia.
Qed.

Lemma GetWeight_ok {e1 e H D} (g : nat) :
  Acc e1 e H D -> shape1 (nGaussPoints e1) (GaussWeight e1) ->
  (g < nGaussPoints e1)%nat ->
  GetWeight e g = Ok (Weight_of e1 g).
Proof.
  intros Hacc Hw Hg. unfold GetWeight. rewrite (Acc_GaussWeight Hacc).
  apply rd_ok. rewrite Hw. exact Hg.
Qed.

Lemma GetJ_X_ok {e1 e H D} (g : nat) :
  Acc e1 e H D -> shape1 (nGaussPoints e1) (GaussPoint e1) ->
  (g < nGaussPoints e1)%nat ->
  GetJ_X e g = Ok (J_X_of e1 g).
Proof.
  intros Hacc Hw Hg. unfold GetJ_X. rewrite (Acc_GaussPoint Hacc).
  rewrite (rd_ok "GaussPoint" (GaussPoint e1) g gauss0) by (rewrite Hw; exact Hg).
  reflexivity.
Qed.

Lemma GetNi_ok {e1 e H D} (i g : nat) :
  Acc e1 e H D -> shape1 (nGaussPoints e1) (GaussPoint e1) ->
  (g < nGaussPoints e1)%nat ->
  GetNi e i g = Ok (Ni_of e1 g i).
Proof.
  intros Hacc Hw Hg. unfold GetNi. rewrite (Acc_GaussPoint Hacc).
  rewrite (rd_ok "GaussPoint" (GaussPoint e1) g gauss0) by (rewrite Hw; exact Hg).
  reflexivity.
Qed.

Lemma GetGradNi_X_ok {e1 e H D} (i g d : nat) :
  Acc e1 e H D -> shape1 (nGaussPoints e1) (GaussPoint e1) ->
  (g < nGaussPoints e1)%nat ->
  GetGradNi_X e i g d = Ok (GradNi_X_of e1 g i d).
Proof.
  intros Hacc Hw Hg. unfold GetGradNi_X. rewrite (Acc_GaussPoint Hacc).
  rewrite (rd_ok "GaussPoint" (GaussPoint e1) g gauss0) by (rewrite Hw; exact Hg).
  reflexivity.
Qed.

(** The loop that copies the gradients of one quadrature point into
    [GradNi_Ref_Mat]. *)
Lemma copy_gradients_ok {e1 e H D} (nd nNode g : nat) (num : CGradSmoothing) G0 V :
  Acc e1 e H D -> shape1 (nGaussPoints e1) (GaussPoint e1) ->
  (g < nGaussPoints e1)%nat -> (nNode <= 8)%nat ->
  NumSt nd num G0 V ->
  returns
    (for_ nNode (fun iShape => for_ nd (fun iDim num =>
       x <- GetGradNi_X e iShape g iDim ;;
       m <- wr2 "GradNi_Ref_Mat" (GradNi_Ref_Mat num) iShape iDim x ;;
       Ok (set_GradNi_Ref_Mat num m))) num)
    (fun num' => NumSt nd num'
       (fun i d => if i <? nNode then GradNi_X_of e1 g i d else G0 i d) V).
Proof.
  intros Hacc Hgp Hg Hn Hnum.
  loop (fun I t => NumSt nd t
          (fun i d => if i <? I then GradNi_X_of e1 g i d else G0 i d) V).
  - exact Hnum.
  - intros I t HI Ht.
    loop (fun K u => NumSt nd u
            (fun i d => if (i <? I) || ((i =? I) && (d <? K))
                        then GradNi_X_of e1 g i d else G0 i d) V).
    + destruct Ht as (E & HG & HV & HN). unfold NumSt; splits; try assumption.
      eapply Mat_weaken; [exact HG |]. intros; index_cases.
    + intros K u HK (E & HG & HV & HN).
      rewrite (GetGradNi_X_ok I g K Hacc Hgp Hg). simpl bind.
      destruct (Mat_wr "GradNi_Ref_Mat" I K (GradNi_X_of e1 g I K) HG) as [Hwr HG'];
        [lia | lia |].
      rewrite Hwr. simpl bind. apply returns_Ok.
      unfold NumSt; splits; try assumption.
      eapply Mat_weaken; [exact HG' |]. intros; index_cases.
    + intros u (E & HG & HV & HN). unfold NumSt; splits; try assumption.
      eapply Mat_weaken; [exact HG |]. intros; index_cases.
  - intros t Ht. exact Ht.
Qed.

(** The loop that fills [val_DHiDHj] with a multiple of the identity. *)
Lemma fill_val_ok (nd : nat) (num : CGradSmoothing) G V (x : R) :
  NumSt nd num G V ->
  returns
    (for_ (nDim num) (fun iDim => for_ (nDim num) (fun jDim num =>
       v <- wr2 "val_DHiDHj" (val_DHiDHj num) iDim jDim
              (if iDim =? jDim then x else 0) ;;
       Ok (set_val_DHiDHj num v))) num)
    (fun num' => NumSt nd num' G (fun a b => if a =? b then x else 0)).
Proof.
  intros Hnum. assert (nDim num = nd) as E0 by (destruct Hnum as (E & _); exact E).
  rewrite E0.
  loop (fun I t => NumSt nd t G
          (fun a b => if a <? I then (if a =? b then x else 0) else V a b)).
  - exact Hnum.
  - intros I t HI Ht.
    loop (fun K u => NumSt nd u G
            (fun a b => if (a <? I) || ((a =? I) && (b <? K))
                        then (if a =? b then x else 0) else V a b)).
    + destruct Ht as (E & HG & HV & HN). unfold NumSt; splits; try assumption.
      eapply Mat_weaken; [exact HV |]. intros; index_cases.
    + intros K u HK (E & HG & HV & HN).
      destruct (Mat_wr "val_DHiDHj" I K (if I =? K then x else 0) HV) as [Hwr HV'];
        [lia | lia |].
      rewrite Hwr. simpl bind. apply returns_Ok.
      unfold NumSt; splits; try assumption.
      eapply Mat_weaken; [exact HV' |]. intros; index_cases.
    + intros u (E & HG & HV & HN). unfold NumSt; splits; try assumption.
      eapply Mat_weaken; [exact HV |]. intros; index_cases.
  - intros t (E & HG & HV & HN). unfold NumSt; splits; try assumption.
    eapply Mat_weaken; [exact HV |]. intros; index_cases.
Qed.

Lemma stiffness_pair_ok {e1 e H D} (nd : nat) (W Jx eps : R) (I J : nat)
  (num : CGradSmoothing) G V :
  NumSt nd num G V -> Acc e1 e H D -> Elem.nDim e1 = nd ->
  (I < nNodes e1)%nat -> (J < nNodes e1)%nat -> (nNodes e1 <= 8)%nat ->
  returns (stiffness_pair nd W Jx eps I J (num, e, 0))
    (fun st => exists V',
       NumSt nd (fst (fst st)) G V' /\ snd st = 0 /\
       Acc e1 (snd (fst st)) H (fun i j a b =>
         if (i =? I) && (j =? J)
         then D i j a b
              + (if a =? b
                 then W * Jx * eps * eps * Rsum nd (fun d => G I d * G J d)
                 else 0)
         else if (i =? J) && (j =? I) && negb (I =? J)
         then D i j a b
              + (if b =? a
                 then W * Jx * eps * eps * Rsum nd (fun d => G I d * G J d)
                 else 0)
         else D i j a b)).
Proof.
  intros Hnum Hacc End HI HJ H8. unfold stiffness_pair.
  rewrite (for_Rsum nd (fun d => G I d * G J d)).
  2:{ intros k acc Hk. destruct Hnum as (_ & HG & _).
      rewrite (Mat_rd "GradNi_Ref_Mat" I k HG) by lia. simpl bind.
      rewrite (Mat_rd "GradNi_Ref_Mat" J k HG) by lia. reflexivity. }
  simpl bind.
  set (x := W * Jx * eps * eps * Rsum nd (fun d => G I d * G J d)).
  eapply returns_bind; [apply (fill_val_ok nd num G V x Hnum) |].
  intros num' Hnum'. cbv beta in Hnum'.
  assert (shape2 (Elem.nDim e1) (Elem.nDim e1) (val_DHiDHj num')) as Hval.
  { rewrite End. destruct Hnum' as (_ & _ & HV & _). exact (Mat_shape HV). }
  assert (forall a b, (a < nd)%nat -> (b < nd)%nat ->
            at2 (val_DHiDHj num') a b = if a =? b then x else 0) as Hat.
  { intros a b Ha Hb. destruct Hnum' as (_ & _ & HV & _).
    apply (Mat_at a b HV); assumption. }
  eapply returns_bind; [apply (Add_DHiDHj_ok (val_DHiDHj num') I J Hacc Hval HI HJ) |].
  intros e' Hacc'. cbv beta in Hacc'.
  destruct (Nat.eqb_spec I J) as [EIJ | NIJ]; simpl negb; cbv iota.
  - simpl bind. apply returns_Ok. exists (fun a b => if a =? b then x else 0).
    simpl fst; simpl snd. splits; try assumption; try reflexivity.
    eapply Acc_weaken; [exact Hacc' | reflexivity |].
    intros i j a b Hi Hj Ha Hb. rewrite End in Ha, Hb. cbv beta.
    rewrite (Hat a b Ha Hb). subst J.
    destruct (Nat.eqb_spec i I); destruct (Nat.eqb_spec j I); simpl; reflexivity.
  - eapply returns_bind;
      [apply (Add_DHiDHj_T_ok (val_DHiDHj num') J I Hacc' Hval HJ HI) |].
    intros e'' Hacc''. cbv beta in Hacc''.
    apply returns_Ok. exists (fun a b => if a =? b then x else 0).
    simpl fst; simpl snd. splits; try assumption; try reflexivity.
    eapply Acc_weaken; [exact Hacc'' | reflexivity |].
    intros i j a b Hi Hj Ha Hb. rewrite End in Ha, Hb. cbv beta.
    rewrite (Hat a b Ha Hb), (Hat b a Hb Ha).
    destruct (Nat.eqb_spec i I); destruct (Nat.eqb_spec j J);
      destruct (Nat.eqb_spec i J); destruct (Nat.eqb_spec j I);
      simpl; try reflexivity; subst; try lia.
Qed.

Lemma stiffness_pass_ok {e1 e H} (nd : nat) (eps : R) (num : CGradSmoothing) G0 V0 :
  shape1 (nGaussPoints e1) (GaussWeight e1) ->
  shape1 (nGaussPoints e1) (GaussPoint e1) ->
  Elem.nDim e1 = nd -> (nNodes e1 <= 8)%nat ->
  NumSt nd num G0 V0 ->
  Acc e1 e H (fun _ _ _ _ => 0) ->
  returns (stiffness_pass nd (nNodes e1) (nGaussPoints e1) eps (num, e, 0))
    (fun st =>
       (exists G V, NumSt nd (fst (fst st)) G V) /\ snd st = 0 /\
       Acc e1 (snd (fst st)) H (fun i j a b =>
         Rsum (nGaussPoints e1) (fun g => stiffness_term e1 eps nd g i j a b))).
Proof.
  intros Hw Hgp End H8 Hnum Hacc. unfold stiffness_pass.
  loop (fun g st =>
       (exists G V, NumSt nd (fst (fst st)) G V) /\ snd st = 0 /\
       Acc e1 (snd (fst st)) H (fun i j a b =>
         Rsum g (fun g => stiffness_term e1 eps nd g i j a b))).
  - simpl. splits; [exists G0, V0; exact Hnum | reflexivity | exact Hacc].
  - intros g [[num1 el1] acc1] Hg ((G1 & V1 & Hnum1) & Eacc & Hacc1).
    simpl in Hnum1, Eacc, Hacc1. subst acc1.
    rewrite (GetWeight_ok g Hacc1 Hw Hg). simpl bind.
    rewrite (GetJ_X_ok g Hacc1 Hgp Hg). simpl bind.
    eapply returns_bind;
      [apply (copy_gradients_ok nd (nNodes e1) g num1 G1 V1 Hacc1 Hgp Hg H8 Hnum1) |].
    intros num2 Hnum2. cbv beta in Hnum2.
    set (Gg := fun i d => if i <? nNodes e1 then GradNi_X_of e1 g i d else G1 i d) in *.
    assert (forall I J, (I < nNodes e1)%nat -> (J < nNodes e1)%nat ->
              Rsum nd (fun d => Gg I d * Gg J d) =
              Rsum nd (fun d => GradNi_X_of e1 g I d * GradNi_X_of e1 g J d)) as HGg.
    { intros I J HI HJ. apply Rsum_ext. intros d _. unfold Gg.
      apply Nat.ltb_lt in HI, HJ. rewrite HI, HJ. reflexivity. }
    loop (fun I st =>
       (exists V, NumSt nd (fst (fst st)) Gg V) /\ snd st = 0 /\
       Acc e1 (snd (fst st)) H (fun i j a b =>
         if (i <? I) || (j <? I)
         then Rsum (Datatypes.S g) (fun g => stiffness_term e1 eps nd g i j a b)
         else Rsum g (fun g => stiffness_term e1 eps nd g i j a b))).
    + simpl fst; simpl snd. splits; [exists V1; exact Hnum2 | reflexivity |].
      eapply Acc_weaken; [exact Hacc1 | reflexivity |]. intros; index_cases.
    + intros I [[num3 el3] acc3] HI ((V3 & Hnum3) & Eacc & Hacc3).
      simpl in Hnum3, Eacc, Hacc3. subst acc3.
      loop_from (fun J st =>
         (exists V, NumSt nd (fst (fst st)) Gg V) /\ snd st = 0 /\
         Acc e1 (snd (fst st)) H (fun i j a b =>
           if (i <? I) || (j <? I) || ((i =? I) && (j <? J))
              || ((j =? I) && (i <? J))
           then Rsum (Datatypes.S g) (fun g => stiffness_term e1 eps nd g i j a b)
           else Rsum g (fun g => stiffness_term e1 eps nd g i j a b))).
      * lia.
      * simpl fst; simpl snd. splits; [exists V3; exact Hnum3 | reflexivity |].
        eapply Acc_weaken; [exact Hacc3 | reflexivity |]. intros; index_cases.
      * intros J [[num4 el4] acc4] HJ ((V4 & Hnum4) & Eacc & Hacc4).
        simpl in Hnum4, Eacc, Hacc4. subst acc4.
        eapply returns_weaken;
          [apply (stiffness_pair_ok nd (Weight_of e1 g) (J_X_of e1 g) eps I J
                    num4 Gg V4 Hnum4 Hacc4 End); lia |].
        intros [[num5 el5] acc5] (V5 & Hnum5 & Eacc & Hacc5).
        simpl in Hnum5, Eacc, Hacc5. simpl fst; simpl snd.
        splits; [exists V5; exact Hnum5 | exact Eacc |].
        eapply Acc_weaken; [exact Hacc5 | reflexivity |].
        intros i j a b Hi Hj Ha Hb. cbv beta.
        rewrite (HGg I J) by lia.
        unfold stiffness_term, stiffness_val. index_cases.
      * intros [[num4 el4] acc4] ((V4 & Hnum4) & Eacc & Hacc4).
        simpl in Hnum4, Eacc, Hacc4. simpl fst; simpl snd.
        splits; [exists V4; exact Hnum4 | exact Eacc |].
        eapply Acc_weaken; [exact Hacc4 | reflexivity |]. intros; index_cases.
    + intros [[num3 el3] acc3] ((V3 & Hnum3) & Eacc & Hacc3).
      simpl in Hnum3, Eacc, Hacc3. simpl fst; simpl snd.
      splits; [exists Gg, V3; exact Hnum3 | exact Eacc |].
      eapply Acc_weaken; [exact Hacc3 | reflexivity |]. intros; index_cases.
  - intros st Hst. exact Hst.
Qed.

Lemma at1_upd (a : list R) (i k : nat) (x : R) :
  (i < length a)%nat -> at1 (upd a i x) k = if k =? i then x else at1 a k.
Proof. intros Hi. unfold at1. apply nth_upd. exact Hi. Qed.

(** The loop that copies the shape values of one quadrature point into
    [Ni_Vec]. *)
Lemma copy_shapes_ok {e1 e H D} (nd nNode g : nat) (num : CGradSmoothing) :
  Acc e1 e H D -> shape1 (nGaussPoints e1) (GaussPoint e1) ->
  (g < nGaussPoints e1)%nat -> (nNode <= 8)%nat ->
  (exists G V, NumSt nd num G V) ->
  returns
    (for_ nNode (fun iShape num =>
       n <- GetNi e iShape g ;;
       v <- wr "Ni_Vec" (Ni_Vec num) iShape n ;;
       Ok (set_Ni_Vec num v)) num)
    (fun num' => (exists G V, NumSt nd num' G V) /\
       forall i, (i < nNode)%nat -> at1 (Ni_Vec num') i = Ni_of e1 g i).
Proof.
  intros Hacc Hgp Hg Hn Hnum.
  loop (fun I t => (exists G V, NumSt nd t G V) /\
          forall i, (i < I)%nat -> at1 (Ni_Vec t) i = Ni_of e1 g i).
  - split; [exact Hnum | intros; lia].
  - intros I t HI ((G & V & E & HG & HV & HN) & Hat).
    rewrite (GetNi_ok I g Hacc Hgp Hg). simpl bind.
    unfold shape1 in HN. rewrite wr_ok by lia. simpl bind. apply returns_Ok.
    split.
    + exists G, V. unfold NumSt; splits; try assumption.
      unfold shape1. simpl. rewrite length_upd. exact HN.
    + intros i Hi. simpl. rewrite at1_upd by lia.
      destruct (Nat.eqb_spec i I) as [-> | Hne]; [reflexivity |].
      apply Hat. lia.
  - intros t Ht. exact Ht.
Qed.

Lemma mass_pass_ok {e1 e D} (nd : nat) (zeta : R) (num : CGradSmoothing) :
  shape1 (nGaussPoints e1) (GaussWeight e1) ->
  shape1 (nGaussPoints e1) (GaussPoint e1) ->
  (nNodes e1 <= 8)%nat ->
  (exists G V, NumSt nd num G V) ->
  Acc e1 e (fun _ _ => 0) D ->
  returns (mass_pass (nNodes e1) (nGaussPoints e1) zeta (num, e))
    (fun st =>
       (exists G V, NumSt nd (fst st) G V) /\
       Acc e1 (snd st)
         (fun i j => Rsum (nGaussPoints e1) (fun g => mass_term e1 zeta g i j)) D).
Proof.
  intros Hw Hgp H8 Hnum Hacc. unfold mass_pass.
  loop (fun g st =>
       (exists G V, NumSt nd (fst st) G V) /\
       Acc e1 (snd st) (fun i j => Rsum g (fun g => mass_term e1 zeta g i j)) D).
  - simpl. split; [exact Hnum | exact Hacc].
  - intros g [num1 el1] Hg (Hnum1 & Hacc1). simpl in Hnum1, Hacc1.
    rewrite (GetWeight_ok g Hacc1 Hw Hg). simpl bind.
    rewrite (GetJ_X_ok g Hacc1 Hgp Hg). simpl bind.
    eapply returns_bind;
      [apply (copy_shapes_ok nd (nNodes e1) g num1 Hacc1 Hgp Hg H8 Hnum1) |].
    intros num2 (Hnum2 & Hni). simpl bind.
    assert (length (Ni_Vec num2) = 8%nat) as Hlen.
    { destruct Hnum2 as (G & V & _ & _ & _ & HN). exact HN. }
    apply returns_bind with (Q := fun el =>
      Acc e1 el (fun i j => Rsum (Datatypes.S g) (fun g => mass_term e1 zeta g i j)) D).
    + loop (fun I el => Acc e1 el (fun i j =>
               if i <? I
               then Rsum (Datatypes.S g) (fun g => mass_term e1 zeta g i j)
               else Rsum g (fun g => mass_term e1 zeta g i j)) D).
      * exact Hacc1.
      * intros I el HI Hel.
        loop (fun J el => Acc e1 el (fun i j =>
               if (i <? I) || ((i =? I) && (j <? J))
               then Rsum (Datatypes.S g) (fun g => mass_term e1 zeta g i j)
               else Rsum g (fun g => mass_term e1 zeta g i j)) D).
        -- eapply Acc_weaken; [exact Hel | | reflexivity]. intros; index_cases.
        -- intros J el' HJ Hel'.
           rewrite (rd_ok "Ni_Vec" (Ni_Vec num2) I 0) by lia. simpl bind.
           rewrite (rd_ok "Ni_Vec" (Ni_Vec num2) J 0) by lia. simpl bind.
           fold (at1 (Ni_Vec num2) I). fold (at1 (Ni_Vec num2) J).
           rewrite (Hni I HI), (Hni J HJ).
           eapply returns_weaken; [apply (Add_HiHj_ok _ I J Hel' HI HJ) |].
           intros el'' Hel''. cbv beta in Hel''.
           eapply Acc_weaken; [exact Hel'' | | reflexivity].
           intros i j Hi Hj. unfold mass_term. index_cases.
        -- intros el' Hel'.
           eapply Acc_weaken; [exact Hel' | | reflexivity]. intros; index_cases.
      * intros el Hel.
        eapply Acc_weaken; [exact Hel | | reflexivity]. intros; index_cases.
    + intros el Hel. apply returns_Ok. simpl. split; assumption.
  - intros st Hst. exact Hst.
Qed.

Lemma Acc_Allocate {e0 e H D} (gs : bool) :
  AllocateStructures gs e0 -> Acc e0 e H D -> AllocateStructures true e.
Proof.
  intros (A1 & A2 & A3 & A4 & A5 & _) (h & d & -> & Hh & Hd & _).
  unfold AllocateStructures. simpl. splits; try assumption.
  - exists h. split; [reflexivity | exact Hh].
  - exists d. split; [reflexivity | exact Hd].
Qed.

Lemma constructed_NumSt (nd : nat) (num : CGradSmoothing) :
  constructed nd num -> exists G V, NumSt nd num G V.
Proof.
  intros (E & HG & HV & HN).
  exists (at2 (GradNi_Ref_Mat num)), (at2 (val_DHiDHj num)).
  unfold NumSt. splits; try assumption; apply Mat_self; assumption.
Qed.

Lemma NumSt_constructed (nd : nat) (num : CGradSmoothing) G V :
  NumSt nd num G V -> constructed nd num.
Proof.
  intros (E & HG & HV & HN). unfold constructed.
  splits; try assumption; eapply Mat_shape; eassumption.
Qed.

(** [Compute_Tangent_Matrix], flat configuration: the call returns, and
    the accumulators hold the sums over the quadrature points of the
    prepared element [e1]. *)
Lemma Compute_Tangent_Matrix_ok (num : CGradSmoothing) (element : CElement)
  (config : CConfig) :
  GetSmoothOnSurface config = false ->
  constructed (Elem.nDim element) num ->
  AllocateStructures true element ->
  flat_element element ->
  (nNodes element <= 8)%nat ->
  exists e0 e1,
    clearElement true element = Ok e0 /\
    ComputeGrad_Linear e0 = Ok e1 /\
    gradients_computed e0 e1 (Elem.nDim element) (J_X_Linear e0) (GradNi_X_Linear e0) /\
    returns (Compute_Tangent_Matrix num element config)
      (fun st =>
         constructed (Elem.nDim element) (fst st) /\
         Acc e1 (snd st)
           (fun i j => Rsum (nGaussPoints element)
              (fun g => mass_term e1 (GetSmoothingParamSecond config) g i j))
           (fun i j a b => Rsum (nGaussPoints element)
              (fun g => stiffness_term e1 (GetSmoothingParam config)
                          (Elem.nDim element) g i j a b))).
Proof.
  intros Hsurf Hnum Hall Hflat H8.
  destruct (clearElement_ok element Hall) as (e0 & Ee0 & Hacc0).
  assert (AllocateStructures true e0) as Hall0 by exact (Acc_Allocate true Hall Hacc0).
  assert (flat_element e0) as Hflat0.
  { unfold flat_element. rewrite (Acc_nDim Hacc0), (Acc_nNodes Hacc0). exact Hflat. }
  destruct (ComputeGrad_Linear_ok e0 true Hall0 Hflat0) as (e1 & Ee1 & Hgc).
  rewrite (Acc_nDim Hacc0) in Hgc.
  exists e0, e1. splits; try assumption.
  destruct Hgc as (gp & -> & Hlen & Hgs).
  pose proof (Acc_set_GaussPoint gp Hacc0) as Hacc1.
  set (eb := set_GaussPoint element gp) in *.
  set (e1 := set_GaussPoint e0 gp) in *.
  assert (shape1 (nGaussPoints eb) (GaussWeight eb)) as Hw.
  { destruct Hall as (_ & _ & _ & A4 & _). exact A4. }
  assert (shape1 (nGaussPoints eb) (GaussPoint eb)) as Hgp.
  { unfold shape1. simpl. rewrite Hlen. apply (Acc_nGaussPoints Hacc0). }
  destruct (constructed_NumSt _ _ Hnum) as (G0 & V0 & HN0).
  assert (Numerics.nDim num = Elem.nDim element) as End by (destruct Hnum; assumption).
  unfold Compute_Tangent_Matrix. rewrite Hsurf, Ee0. simpl bind.
  rewrite Ee1. simpl bind. unfold GetnNodes, GetnGaussPoints.
  rewrite (Acc_nNodes Hacc0), (Acc_nGaussPoints Hacc0), End.
  eapply returns_bind.
  - apply (stiffness_pass_ok (e1 := eb) (Elem.nDim element)
             (GetSmoothingParam config) num G0 V0 Hw Hgp eq_refl H8 HN0 Hacc1).
  - intros [[num1 el1] acc1] ((G1 & V1 & HN1) & _ & Hacc2).
    simpl in HN1, Hacc2.
    eapply returns_weaken.
    + apply (mass_pass_ok (e1 := eb) (Elem.nDim element)
               (GetSmoothingParamSecond config) num1 Hw Hgp H8
               (ex_intro _ G1 (ex_intro _ V1 HN1)) Hacc2).
    + intros [num2 el2] ((G2 & V2 & HN2) & Hacc3). simpl in HN2, Hacc3. simpl.
      split; [exact (NumSt_constructed _ _ _ _ HN2) |].
      destruct Hacc3 as (h & d & -> & Hh & Hd & HH & HD).
      destruct Hacc0 as (h0 & d0 & E0 & _).
      exists h, d. unfold e1, eb in *. subst e0.
      splits; [reflexivity | exact Hh | exact Hd | exact HH | exact HD].
Qed.

(** What a caller of [Compute_Tangent_Matrix] needs to know about the
    element that comes back. *)
Lemma Compute_Tangent_Matrix_result (nd : nat) (num : CGradSmoothing)
  (element : CElement) (config : CConfig) :
  GetSmoothOnSurface config = false ->
  constructed nd num -> element_ok nd element ->
  returns (Compute_Tangent_Matrix num element config)
    (fun st =>
       constructed nd (fst st) /\ element_ok nd (snd st) /\
       nNodes (snd st) = nNodes element /\
       exists D H, DHiDHj (snd st) = Some D /\ HiHj (snd st) = Some H /\
         shape4 (nNodes element) (nNodes element) nd nd D /\
         shape2 (nNodes element) (nNodes element) H).
Proof.
  intros Hsurf Hnum (Hall & Hflat & H8 & Ed). subst nd.
  destruct (Compute_Tangent_Matrix_ok num element config Hsurf Hnum Hall Hflat H8)
    as (e0 & e1 & Ee0 & Ee1 & Hgc & Hret).
  destruct (clearElement_ok element Hall) as (e0' & Ee0' & Hacc0).
  rewrite Ee0 in Ee0'. injection Ee0' as <-.
  assert (AllocateStructures true e0) as Hall0 by exact (Acc_Allocate true Hall Hacc0).
  destruct Hgc as (gp & -> & Hlen & _).
  assert (AllocateStructures true (set_GaussPoint e0 gp)) as Hall1.
  { destruct Hall0 as (A1 & A2 & A3 & A4 & A5 & A6 & A7).
    unfold AllocateStructures. simpl. splits; try assumption. }
  pose proof (Acc_nNodes Hacc0) as En0. pose proof (Acc_nDim Hacc0) as Ed0.
  eapply returns_weaken; [exact Hret |].
  intros [num' e'] (Hnum' & Hacc). simpl in Hnum', Hacc. simpl.
  pose proof (Acc_nNodes Hacc) as En. pose proof (Acc_nDim Hacc) as Edd.
  simpl in En, Edd. rewrite En0 in En. rewrite Ed0 in Edd.
  splits; try assumption.
  - unfold element_ok. splits.
    + exact (Acc_Allocate true Hall1 Hacc).
    + unfold flat_element. rewrite En, Edd. exact Hflat.
    + rewrite En. exact H8.
    + exact Edd.
  - destruct Hacc as (h & d & -> & Hh & Hd & _). simpl in Hh, Hd.
    rewrite En0 in Hh, Hd. rewrite Ed0 in Hd.
    exists d, h. splits; try reflexivity; assumption.
Qed.

End TangentMatrix.

(** * Facts about [CGradientSmoothingSolver] *)

Section SystemMatrix.

Import Solver.
Local Open Scope R_scope.

Lemma MatSt_weaken {nd m B B'} :
  MatSt nd m B -> (forall p q a b, B p q a b = B' p q a b) -> MatSt nd m B'.
Proof.
  intros (E1 & E2 & HB) E. unfold MatSt. splits; try assumption.
  intros. rewrite HB. apply E.
Qed.

(** Entry by entry, [AddBlock] and [SetBlock] of a block held in an array
    of the right extent. *)
Lemma block_loop_ok (nd : nat) (m : CSysMatrix) (B : nat -> nat -> nat -> nat -> R)
  (val : list (list R)) (V : nat -> nat -> R) (i j : nat)
  (f : R -> R -> R) :
  MatSt nd m B -> Mat nd nd val V ->
  returns
    (for_ (mat_nVar m) (fun iVar => for_ (mat_nEqn m) (fun jVar m =>
       x <- rd2 "val_block" val iVar jVar ;;
       Ok (set_entry m i j iVar jVar (f (mat_block m i j iVar jVar) x)))) m)
    (fun m' => MatSt nd m' (fun p q a b =>
       if (p =? i) && (q =? j) && (a <? nd) && (b <? nd)
       then f (B p q a b) (V a b) else B p q a b)).
Proof.
  intros HM HV. destruct HM as (E1 & E2 & HB). rewrite E1, E2.
  loop (fun I t => MatSt nd t (fun p q a b =>
          if (p =? i) && (q =? j) && (a <? I) && (b <? nd)
          then f (B p q a b) (V a b) else B p q a b)).
  - unfold MatSt. splits; try assumption. intros. rewrite HB. index_cases.
  - intros I t HI Ht.
    loop (fun K u => MatSt nd u (fun p q a b =>
            if (p =? i) && (q =? j) && ((a <? I) && (b <? nd) || ((a =? I) && (b <? K)))
            then f (B p q a b) (V a b) else B p q a b)).
    + eapply MatSt_weaken; [exact Ht |]. intros; index_cases.
    + intros K u HK (F1 & F2 & HB').
      rewrite (Mat_rd "val_block" I K HV) by assumption. simpl bind.
      apply returns_Ok. unfold MatSt. simpl. splits; try assumption.
      intros p q a b. rewrite !HB'. index_cases.
    + intros u Hu. eapply MatSt_weaken; [exact Hu |]. intros; index_cases.
  - intros t Ht. exact Ht.
Qed.


Lemma CSysMatrix_SetBlock_ok (nd : nat) (m : CSysMatrix) B
  (val : list (list R)) V (i j : nat) :
  MatSt nd m B -> Mat nd nd val V ->
  returns (CSysMatrix_SetBlock i j val m)
    (fun m' => MatSt nd m' (fun p q a b =>
       if (p =? i) && (q =? j) && (a <? nd) && (b <? nd)
       then V a b else B p q a b)).
Proof.
  intros HM HV. unfold CSysMatrix_SetBlock.
  exact (block_loop_ok nd m B val V i j (fun _ x => x) HM HV).
Qed.

Lemma SolverSt_nDim {nd s0 s B} : SolverSt nd s0 s B -> nDim s = nd.
Proof. intros ((c & jij & m & ->) & E & _). exact E. Qed.




Lemma SolverSt_element {nd s0 s B} (k : nat) (e : Elem.CElement) :
  SolverSt nd s0 s B ->
  nth_error (element_container s) k = Some (Some e) -> element_ok nd e.
Proof. intros (_ & _ & _ & _ & H & _). apply H. Qed.




Lemma SolverSt_put_element {nd s0 s B} (k : nat) (e' : Elem.CElement) :
  SolverSt nd s0 s B ->
  (k < length (element_container s))%nat -> element_ok nd e' ->
  SolverSt nd s0 (put_element s k e') B.
Proof.
  intros ((c & jij & m & ->) & E1 & E2 & E3 & E4 & E5 & E6) Hk He'.
  unfold SolverSt, put_element. simpl in *. splits; try assumption.
  - exists (upd c k (Some e')), jij, m. reflexivity.
  - rewrite length_upd. exact E3.
  - intros k' e. rewrite nth_error_upd by exact Hk.
    destruct (Nat.eqb_spec k' k) as [-> | Hne].
    + intros [= <-]. exact He'.
    + apply E4.
Qed.

Lemma slot_nodes_put {s : CGradientSmoothingSolver} (k k' n' : nat)
  (e e' : Elem.CElement) :
  slot_nodes s k' n' ->
  nth_error (element_container s) k = Some (Some e) ->
  Elem.nNodes e' = Elem.nNodes e ->
  slot_nodes (put_element s k e') k' n'.
Proof.
  intros (e0 & E0 & En) Ek Hn. unfold slot_nodes, put_element. simpl.
  rewrite nth_error_upd by (eapply nth_error_lt; exact Ek).
  destruct (Nat.eqb_spec k' k) as [-> | Hne].
  - exists e'. split; [reflexivity |]. rewrite Ek in E0. injection E0 as <-.
    rewrite Hn. exact En.
  - exists e0. split; assumption.
Qed.

Lemma the_element_ok (s : CGradientSmoothingSolver) (k : nat) (e : Elem.CElement) :
  nth_error (element_container s) k = Some (Some e) -> the_element s k = Ok e.
Proof. intros E. unfold the_element, rd. rewrite E. reflexivity. Qed.

Lemma put_element_slot (s : CGradientSmoothingSolver) (k : nat) (e : Elem.CElement) :
  (k < length (element_container s))%nat ->
  nth_error (element_container (put_element s k e)) k = Some (Some e).
Proof.
  intros Hk. unfold put_element. simpl. rewrite nth_error_upd by exact Hk.
  rewrite Nat.eqb_refl. reflexivity.
Qed.




Lemma element_ok_set_RefCoord (nd : nat) (e : Elem.CElement) (c : list (list R)) :
  element_ok nd e -> shape2 (Elem.nNodes e) (Elem.nDim e) c ->
  element_ok nd (Elem.set_RefCoord e c).
Proof.
  intros ((A1 & A2 & A3 & A4 & A5 & A6 & A7) & Hflat & H8 & Ed) Hc.
  unfold element_ok, Elem.AllocateStructures. simpl. splits; assumption.
Qed.

(** The loop that copies the node indices and the coordinates of a mesh
    element into the element of slot [k]. *)
Lemma coordinates_loop_ok {nd s0 s B} (geometry : CGeometry) (iElem k n : nat)
  (idx : list nat) :
  SolverSt nd s0 s B -> slot_nodes s k n -> length idx = 8%nat ->
  returns
    (for_ n (fun iNode '(s, indexNode) =>
       indexNode <- wr "indexNode" indexNode iNode
                       (GetNode (elem geometry iElem) iNode) ;;
       s <- for_ (nDim s) (fun iDim s =>
           i <- rd "indexNode" indexNode iNode ;;
           let val_Coord := Get_ValCoord geometry i iDim in
           e <- the_element s k ;;
           e <- Elem.SetRef_Coord val_Coord iNode iDim e ;;
           Ok (put_element s k e)) s ;;
       Ok (s, indexNode)) (s, idx))
    (fun st =>
       SolverSt nd s0 (fst st) B /\
       (forall k' n', slot_nodes s k' n' -> slot_nodes (fst st) k' n') /\
       length (snd st) = 8%nat /\
       (forall i, (i < n)%nat ->
          nth i (snd st) 0%nat = GetNode (elem geometry iElem) i) /\
       exists e, nth_error (element_container (fst st)) k = Some (Some e) /\
         Elem.nNodes e = n /\
         forall i d, (i < n)%nat -> (d < nd)%nat ->
           at2 (Elem.RefCoord e) i d =
           Get_ValCoord geometry (GetNode (elem geometry iElem) i) d).
Proof.
  intros Hs Hslot Hlen.
  assert (n <= 8)%nat as H8.
  { destruct Hslot as (e & Ee & En).
    destruct (SolverSt_element k e Hs Ee) as (_ & _ & H8 & _). lia. }
  set (X := fun i d => Get_ValCoord geometry (GetNode (elem geometry iElem) i) d).
  eapply returns_weaken.
  - apply (returns_for (fun I (st : CGradientSmoothingSolver * list nat) =>
       SolverSt nd s0 (fst st) B /\
       (forall k' n', slot_nodes s k' n' -> slot_nodes (fst st) k' n') /\
       length (snd st) = 8%nat /\
       (forall i, (i < I)%nat ->
          nth i (snd st) 0%nat = GetNode (elem geometry iElem) i) /\
       exists e, nth_error (element_container (fst st)) k = Some (Some e) /\
         Elem.nNodes e = n /\
         forall i d, (i < I)%nat -> (d < nd)%nat -> at2 (Elem.RefCoord e) i d = X i d)).
    + simpl. splits; try assumption; try (intros; lia); try (intros; assumption).
      destruct Hslot as (e & Ee & En). exists e. splits; try assumption.
      intros; lia.
    + intros I [s1 idx1] HI (Hs1 & Hpres & Hlen1 & Hidx & e1 & Ee1 & En1 & HX).
      simpl in Hs1, Hpres, Hlen1, Hidx, Ee1.
      rewrite wr_ok by lia. simpl bind. rewrite (SolverSt_nDim Hs1).
      assert (forall i, (i < Datatypes.S I)%nat ->
                nth i (upd idx1 I (GetNode (elem geometry iElem) I)) 0%nat =
                GetNode (elem geometry iElem) i) as Hidx'.
      { intros i Hi. rewrite nth_upd by lia.
        destruct (Nat.eqb_spec i I) as [-> | Hne]; [reflexivity | apply Hidx; lia]. }
      apply returns_bind with (Q := fun u =>
        SolverSt nd s0 u B /\
        (forall k' n', slot_nodes s k' n' -> slot_nodes u k' n') /\
        exists e, nth_error (element_container u) k = Some (Some e) /\
          Elem.nNodes e = n /\
          forall i d, (i < Datatypes.S I)%nat -> (d < nd)%nat ->
            at2 (Elem.RefCoord e) i d = X i d).
      * eapply returns_weaken.
        -- apply (returns_for (fun Dd u =>
             SolverSt nd s0 u B /\
             (forall k' n', slot_nodes s k' n' -> slot_nodes u k' n') /\
             exists e, nth_error (element_container u) k = Some (Some e) /\
               Elem.nNodes e = n /\
               forall i d, (i < n)%nat -> (d < nd)%nat ->
                 (i < I \/ (i = I /\ d < Dd))%nat ->
                 at2 (Elem.RefCoord e) i d = X i d)).
           ++ splits; try assumption. exists e1. splits; try assumption.
              intros i d Hi Hd [Hlt | [_ Hlt]]; [apply HX; assumption | lia].
           ++ intros Dd u HDd (Hu & Hpu & e2 & Ee2 & En2 & HX2).
              rewrite (rd_ok "indexNode" _ I 0%nat) by (rewrite length_upd; lia).
              simpl bind. rewrite (the_element_ok u k e2 Ee2). simpl bind.
              destruct (SolverSt_element k e2 Hu Ee2) as (Hall2 & Hflat2 & H82 & Ed2).
              assert (shape2 (Elem.nNodes e2) (Elem.nDim e2) (Elem.RefCoord e2)) as HC.
              { destruct Hall2 as (_ & _ & A3 & _). exact A3. }
              unfold Elem.SetRef_Coord.
              rewrite (wr2_ok "RefCoord" I Dd _ HC) by lia. simpl bind.
              apply returns_Ok.
              assert (element_ok nd (Elem.set_RefCoord e2
                        (upd2 (Elem.RefCoord e2) I Dd
                           (Get_ValCoord geometry
                              (nth I (upd idx1 I (GetNode (elem geometry iElem) I)) 0%nat)
                              Dd)))) as Hok.
              { apply element_ok_set_RefCoord.
                - unfold element_ok. splits; assumption.
                - apply shape2_upd2; [exact HC | lia]. }
              splits.
              ** apply SolverSt_put_element; [exact Hu | | exact Hok].
                 eapply nth_error_lt. exact Ee2.
              ** intros k' n' Hk'. apply (slot_nodes_put k k' n' e2); [| exact Ee2 |].
                 --- apply Hpu. exact Hk'.
                 --- reflexivity.
              ** eexists. splits.
                 --- apply put_element_slot. eapply nth_error_lt. exact Ee2.
                 --- exact En2.
                 --- intros i d Hi Hd Hcase. simpl.
                     rewrite (at2_upd2 I Dd _ i d HC) by lia. unfold fupd2.
                     rewrite (Hidx' I) by lia.
                     destruct (Nat.eqb_spec i I) as [-> | Hne];
                       destruct (Nat.eqb_spec d Dd) as [-> | Hne']; simpl;
                       try reflexivity; apply HX2; try assumption; lia.
        -- intros u (Hu & Hpu & e2 & Ee2 & En2 & HX2). splits; try assumption.
           exists e2. splits; try assumption.
           intros i d Hi Hd. apply HX2; try assumption; lia.
      * intros u (Hu & Hpu & e2 & Ee2 & En2 & HX2). apply returns_Ok. simpl.
        splits; try assumption.
        -- rewrite length_upd. exact Hlen1.
        -- exists e2. splits; assumption.
  - intros [s1 idx1] H. exact H.
Qed.


Lemma solver_ok_SolverSt (nd : nat) (s : CGradientSmoothingSolver) :
  solver_ok nd s -> SolverSt nd s s (mat_block (Jacobian s)).
Proof.
  intros (E1 & E2 & E3 & E4 & E5 & E6). unfold SolverSt, MatSt.
  splits; try assumption; try reflexivity.
  exists (element_container s), (Jacobian_ij s), (Jacobian s).
  destruct s. reflexivity.
Qed.






End SystemMatrix.

(** * The boundary conditions *)

(** Case analysis on the comparisons of node indices. *)
Ltac block_cases :=
  repeat match goal with
    | |- context [Nat.eqb ?x ?y] => destruct (Nat.eqb_spec x y)
    | |- context [Nat.ltb ?x ?y] => destruct (Nat.ltb_spec x y)
    | |- context [Nat.leb ?x ?y] => destruct (Nat.leb_spec x y)
    end; subst; simpl; try lia; try congruence; try reflexivity.

Section BoundaryConditions.

Import Solver.
Local Open Scope R_scope.

Lemma CSysVector_SetBlock_ok (nd k : nat) (vals : list R) (v : CSysVector) :
  vec_nVar v = nd -> (nd <= length vals)%nat ->
  returns (CSysVector_SetBlock k vals v)
    (fun v' => vec_nVar v' = nd /\
       forall i, vec_val v' i = block_vector nd k (at1 vals) (vec_val v) i).
Proof.
  intros E Hlen. unfold CSysVector_SetBlock. rewrite E.
  loop (fun I t => vec_nVar t = nd /\
          forall i, vec_val t i =
            if (k * nd <=? i)%nat && (i <? k * nd + I)%nat
            then at1 vals (i - k * nd) else vec_val v i).
  - split; [exact E |]. intros i. index_cases.
  - intros I t HI (Et & Ht).
    rewrite (rd_ok "val_residual" vals I 0) by lia. simpl bind.
    apply returns_Ok. simpl. split; [exact Et |].
    intros i. unfold fupd. rewrite Et, Ht.
    destruct (Nat.eqb_spec i (k * nd + I)) as [-> | Hne].
    + replace (k * nd + I - k * nd)%nat with I by lia.
      unfold at1. index_cases.
    + index_cases.
  - intros v' (E' & Hv'). split; [exact E' |]. exact Hv'.
Qed.


Lemma BCSt_set_Jacobian (nd np : nat) (s : CGradientSmoothingSolver) (m : CSysMatrix) :
  BCSt nd np s -> BCSt nd np (set_Jacobian s m).
Proof. intros H. exact H. Qed.

Lemma Jacobian_SetBlock_ok (nd : nat) (s : CGradientSmoothingSolver) B
  (val : list (list R)) V (i j : nat) :
  MatSt nd (Jacobian s) B -> Mat nd nd val V ->
  returns (Jacobian_SetBlock i j val s)
    (fun s' => exists m, s' = set_Jacobian s m /\
       MatSt nd m (fun p q a b =>
         if (p =? i)%nat && (q =? j)%nat && (a <? nd)%nat && (b <? nd)%nat
         then V a b else B p q a b)).
Proof.
  intros HM HV. unfold Jacobian_SetBlock.
  eapply returns_bind; [apply (CSysMatrix_SetBlock_ok nd _ B val V i j HM HV) |].
  intros m Hm. apply returns_Ok. exists m. split; [reflexivity | exact Hm].
Qed.

(** The loop that clears a column of blocks; the diagonal block receives
    the identity when [owned]. *)
Lemma column_loop_ok (nd np k : nat) (owned : bool) (s : CGradientSmoothingSolver) B :
  BCSt nd np s -> MatSt nd (Jacobian s) B ->
  returns
    (for_ np (fun iVar s =>
       if owned && (iVar =? k)%nat
       then Jacobian_SetBlock iVar k (mId_Aux s) s
       else Jacobian_SetBlock iVar k (mZeros_Aux s) s) s)
    (fun s' => exists m, s' = set_Jacobian s m /\
       MatSt nd m (fun p q a b =>
         if (a <? nd)%nat && (b <? nd)%nat && (q =? k)%nat && (p <? np)%nat
         then (if owned && (p =? k)%nat then (if (a =? b)%nat then 1 else 0) else 0)
         else B p q a b)).
Proof.
  intros Hs HM.
  loop (fun I (t : CGradientSmoothingSolver) => exists m, t = set_Jacobian s m /\
       MatSt nd m (fun p q a b =>
         if (a <? nd)%nat && (b <? nd)%nat && (q =? k)%nat && (p <? I)%nat
         then (if owned && (p =? k)%nat then (if (a =? b)%nat then 1 else 0) else 0)
         else B p q a b)).
  - exists (Jacobian s). split; [destruct s; reflexivity |].
    destruct HM as (E1 & E2 & HB). unfold MatSt. splits; try assumption.
    intros. rewrite HB. index_cases.
  - intros I t HI (m & -> & Hm).
    destruct Hs as (_ & _ & _ & _ & _ & _ & _ & HZ & HId).
    destruct (owned && (I =? k)%nat) eqn:Eo.
    + eapply returns_weaken;
        [apply (Jacobian_SetBlock_ok nd (set_Jacobian s m) _ _ _ I k Hm HId) |].
      intros s' (m' & -> & Hm'). exists m'. split; [reflexivity |].
      destruct Hm' as (E1 & E2 & HB'). unfold MatSt. splits; try assumption.
      intros p q a b. rewrite HB'.
      apply andb_true_iff in Eo. destruct Eo as [-> Eo]. apply Nat.eqb_eq in Eo. subst I.
      simpl andb. index_cases.
    + eapply returns_weaken;
        [apply (Jacobian_SetBlock_ok nd (set_Jacobian s m) _ _ _ I k Hm HZ) |].
      intros s' (m' & -> & Hm'). exists m'. split; [reflexivity |].
      destruct Hm' as (E1 & E2 & HB'). unfold MatSt. splits; try assumption.
      intros p q a b. rewrite HB'.
      destruct owned; simpl andb in Eo |- *.
      * apply Nat.eqb_neq in Eo. index_cases.
      * index_cases.
  - intros s' H. exact H.
Qed.


(** The loop that clears the row of blocks of an owned node, the diagonal
    block apart. *)
Lemma row_loop_ok (nd np k : nat) (s : CGradientSmoothingSolver) B :
  BCSt nd np s -> MatSt nd (Jacobian s) B ->
  returns
    (for_ np (fun jVar s =>
       if negb (k =? jVar)%nat
       then Jacobian_SetBlock k jVar (mZeros_Aux s) s
       else Ok s) s)
    (fun s' => exists m, s' = set_Jacobian s m /\
       MatSt nd m (fun p q a b =>
         if (a <? nd)%nat && (b <? nd)%nat && (p =? k)%nat && (q <? np)%nat
            && negb (q =? k)%nat
         then 0 else B p q a b)).
Proof.
  intros Hs HM.
  loop (fun I (t : CGradientSmoothingSolver) => exists m, t = set_Jacobian s m /\
       MatSt nd m (fun p q a b =>
         if (a <? nd)%nat && (b <? nd)%nat && (p =? k)%nat && (q <? I)%nat
            && negb (q =? k)%nat
         then 0 else B p q a b)).
  - exists (Jacobian s). split; [destruct s; reflexivity |].
    destruct HM as (E1 & E2 & HB). unfold MatSt. splits; try assumption.
    intros. rewrite HB. index_cases.
  - intros I t HI (m & -> & Hm).
    destruct Hs as (_ & _ & _ & _ & _ & _ & _ & HZ & HId).
    destruct (Nat.eqb_spec k I) as [-> | Hne]; simpl negb; cbv iota.
    + apply returns_Ok. exists m. split; [reflexivity |].
      destruct Hm as (E1 & E2 & HB'). unfold MatSt. splits; try assumption.
      intros p q a b. rewrite HB'. index_cases.
    + eapply returns_weaken;
        [apply (Jacobian_SetBlock_ok nd (set_Jacobian s m) _ _ _ k I Hm HZ) |].
      intros s' (m' & -> & Hm'). exists m'. split; [reflexivity |].
      destruct Hm' as (E1 & E2 & HB'). unfold MatSt. splits; try assumption.
      intros p q a b. rewrite HB'. index_cases.
  - intros s' H. exact H.
Qed.

(** The treatment of one vertex. *)
Lemma BC_Dirichlet_vertex_ok (nd np : nat) (geometry : CGeometry)
  (val_marker iVertex : nat) (s : CGradientSmoothingSolver) B :
  BCSt nd np s -> MatSt nd (Jacobian s) B ->
  returns (BC_Dirichlet_vertex geometry val_marker iVertex s)
    (fun s' =>
       let k := vertex_GetNode geometry val_marker iVertex in
       let owned := node_GetDomain geometry k in
       BCSt nd np s' /\
       MatSt nd (Jacobian s') (dirichlet_block owned nd np k B) /\
       (forall i, vec_val (LinSysRes s') i =
          if owned then block_vector nd k (fun _ => 0) (vec_val (LinSysRes s)) i
          else vec_val (LinSysRes s) i) /\
       (forall i, vec_val (LinSysSol s') i =
          if owned then block_vector nd k (fun _ => 0) (vec_val (LinSysSol s)) i
          else vec_val (LinSysSol s) i)).
Proof.
  intros Hs HM. unfold BC_Dirichlet_vertex.
  set (k := vertex_GetNode geometry val_marker iVertex).
  destruct (node_GetDomain geometry k) eqn:Eown; cbv zeta.
  - match goal with |- returns (bind ?c _) _ =>
      assert (exists sol res, c = Ok (set_Residual (set_Solution s sol) res) /\
                (nd <= length sol)%nat /\ (nd <= length res)%nat /\
                forall d, (d < nd)%nat -> at1 res d = 0 /\ at1 sol d = 0)
        as (sol & res & -> & Hlsol & Hlres & Hzero)
    end.
    { destruct Hs as (End & _ & Hnd & Hlr & Hls & _). rewrite End.
      destruct Hnd as [-> | ->]; simpl Nat.eqb; cbv iota.
      - rewrite wr_ok by lia. simpl bind. simpl Solution.
        rewrite wr_ok by (rewrite length_upd; lia). simpl bind. simpl Residual.
        rewrite wr_ok by lia. simpl bind. simpl Residual.
        rewrite wr_ok by (rewrite length_upd; lia). simpl bind.
        exists (upd (upd (Solution s) 0 0) 1 0), (upd (upd (Residual s) 0 0) 1 0).
        splits; try reflexivity.
        + rewrite !length_upd. exact Hls.
        + rewrite !length_upd. exact Hlr.
        + intros d Hd. unfold at1.
          rewrite !nth_upd by (rewrite ?length_upd; lia).
          destruct d as [|[|d]]; simpl; try lia; split; reflexivity.
      - rewrite wr_ok by lia. simpl bind. simpl Solution.
        rewrite wr_ok by (rewrite length_upd; lia). simpl bind. simpl Solution.
        rewrite wr_ok by (rewrite !length_upd; lia). simpl bind. simpl Residual.
        rewrite wr_ok by lia. simpl bind. simpl Residual.
        rewrite wr_ok by (rewrite length_upd; lia). simpl bind. simpl Residual.
        rewrite wr_ok by (rewrite !length_upd; lia). simpl bind.
        exists (upd (upd (upd (Solution s) 0 0) 1 0) 2 0),
               (upd (upd (upd (Residual s) 0 0) 1 0) 2 0).
        splits; try reflexivity.
        + rewrite !length_upd. exact Hls.
        + rewrite !length_upd. exact Hlr.
        + intros d Hd. unfold at1.
          rewrite !nth_upd by (rewrite ?length_upd; lia).
          destruct d as [|[|[|d]]]; simpl; try lia; split; reflexivity. }
    simpl bind.
    assert (BCSt nd np (set_Residual (set_Solution s sol) res)) as Hs1.
    { destruct Hs as (H1 & H2 & H3 & H4 & H5 & H6 & H7 & H8 & H9).
      unfold BCSt. simpl. splits; assumption. }
    pose proof Hs as (_ & Enp & _ & _ & _ & Evr & Evs & _).
    eapply returns_bind.
    { apply (CSysVector_SetBlock_ok nd k res (LinSysRes s) Evr Hlres). }
    intros r (Er & Hr). simpl Solution. simpl LinSysSol.
    eapply returns_bind.
    { apply (CSysVector_SetBlock_ok nd k sol (LinSysSol s) Evs Hlsol). }
    intros x (Ex & Hx). simpl nPoint. rewrite Enp.
    set (s3 := set_LinSysSol (set_LinSysRes (set_Residual (set_Solution s sol) res) r) x).
    assert (BCSt nd np s3) as Hs3.
    { destruct Hs1 as (H1 & H2 & H3 & H4 & H5 & H6 & H7 & H8 & H9).
      unfold BCSt, s3. simpl. splits; assumption. }
    eapply returns_bind.
    { apply (column_loop_ok nd np k true s3 B Hs3 HM). }
    intros s4 (m & -> & Hm). simpl nPoint. rewrite Enp.
    eapply returns_weaken.
    { apply (row_loop_ok nd np k (set_Jacobian s3 m) _ Hs3 Hm). }
    intros s5 (m' & -> & Hm'). cbv zeta. splits.
    + exact Hs3.
    + destruct Hm' as (E1 & E2 & HB'). unfold MatSt. simpl. splits; try assumption.
      intros p q a b. rewrite HB'. unfold dirichlet_block. simpl andb. index_cases.
    + intros i. simpl. rewrite Hr. unfold block_vector.
      destruct ((k * nd <=? i)%nat && (i <? k * nd + nd)%nat) eqn:Ei; [| reflexivity].
      apply andb_true_iff in Ei. destruct Ei as [Ei1 Ei2].
      apply Nat.leb_le in Ei1. apply Nat.ltb_lt in Ei2.
      apply (Hzero (i - k * nd)%nat). lia.
    + intros i. simpl. rewrite Hx. unfold block_vector.
      destruct ((k * nd <=? i)%nat && (i <? k * nd + nd)%nat) eqn:Ei; [| reflexivity].
      apply andb_true_iff in Ei. destruct Ei as [Ei1 Ei2].
      apply Nat.leb_le in Ei1. apply Nat.ltb_lt in Ei2.
      apply (Hzero (i - k * nd)%nat). lia.
  - pose proof Hs as (_ & Enp & _). rewrite Enp.
    eapply returns_weaken; [apply (column_loop_ok nd np k false s B Hs HM) |].
    intros s' (m & -> & Hm). cbv zeta. splits.
    + exact Hs.
    + destruct Hm as (E1 & E2 & HB'). unfold MatSt. simpl. splits; try assumption.
      intros p q a b. rewrite HB'. unfold dirichlet_block. simpl andb. index_cases.
    + intros i. reflexivity.
    + intros i. reflexivity.
Qed.


Lemma matrix_ok_MatSt (nd : nat) (s : CGradientSmoothingSolver) :
  matrix_ok nd s -> MatSt nd (Jacobian s) (mat_block (Jacobian s)).
Proof. intros (E1 & E2). unfold MatSt. splits; try assumption. reflexivity. Qed.

(** The treatment of a vertex constrains its node and keeps every node
    constrained that was. *)
Lemma BC_Dirichlet_vertex_constrains (nd np : nat) (geometry : CGeometry)
  (val_marker iVertex : nat) (s : CGradientSmoothingSolver) :
  BCSt nd np s -> matrix_ok nd s ->
  (vertex_GetNode geometry val_marker iVertex < np)%nat ->
  returns (BC_Dirichlet_vertex geometry val_marker iVertex s)
    (fun s' =>
       BCSt nd np s' /\ matrix_ok nd s' /\
       forall k, (k < np)%nat ->
         k = vertex_GetNode geometry val_marker iVertex \/
         constrained geometry nd np k s ->
         constrained geometry nd np k s').
Proof.
  intros Hs Hm Hk'.
  eapply returns_weaken;
    [apply (BC_Dirichlet_vertex_ok nd np geometry val_marker iVertex s _ Hs
              (matrix_ok_MatSt nd s Hm)) |].
  set (k' := vertex_GetNode geometry val_marker iVertex) in *.
  intros s' (Hs' & (E1 & E2 & HB) & Hres & Hsol). cbv zeta in HB, Hres, Hsol.
  splits; try assumption.
  - split; assumption.
  - intros k Hk Hcase. unfold constrained in *.
    destruct (node_GetDomain geometry k) eqn:Eown.
    + (* an owned node *)
      destruct (Nat.eq_dec k k') as [-> | Hne].
      * rewrite Eown in *. unfold decoupled. splits.
        -- intros d Hd. rewrite Hres, Hsol. unfold block_vector.
           split; block_cases.
        -- intros a b Ha Hb. rewrite HB. unfold dirichlet_block. block_cases.
        -- intros p a b Hp Hpk Ha Hb. rewrite !HB. unfold dirichlet_block.
           split; block_cases.
      * destruct Hcase as [-> | (Hv & Hd & Ho)]; [congruence |].
        unfold decoupled. splits.
        -- intros d Hd'. rewrite Hres, Hsol.
           destruct (Hv d Hd') as (Hv1 & Hv2).
           destruct (node_GetDomain geometry k'); unfold block_vector;
             split; block_cases; assumption.
        -- intros a b Ha Hb. rewrite HB. unfold dirichlet_block.
           rewrite <- (Hd a b Ha Hb).
           destruct (node_GetDomain geometry k'); block_cases.
        -- intros p a b Hp Hpk Ha Hb. rewrite !HB. unfold dirichlet_block.
           destruct (Ho p a b Hp Hpk Ha Hb) as (Ho1 & Ho2).
           destruct (node_GetDomain geometry k'); split; block_cases; assumption.
    + (* a node of another process *)
      unfold column_zeroed. intros p a b Hp Ha Hb. rewrite HB.
      unfold dirichlet_block.
      destruct (Nat.eq_dec k k') as [-> | Hne].
      * rewrite Eown. block_cases.
      * destruct Hcase as [-> | Hc]; [congruence |].
        pose proof (Hc p a b Hp Ha Hb) as Hz.
        destruct (node_GetDomain geometry k'); block_cases; assumption.
Qed.


Lemma BC_Dirichlet_ok (nd np : nat) (geometry : CGeometry) (config : CConfig)
  (val_marker : nat) (Done : nat -> Prop) (s : CGradientSmoothingSolver) :
  bc_inv geometry nd np Done s ->
  (forall iVertex, (iVertex < nVertex geometry val_marker)%nat ->
     (vertex_GetNode geometry val_marker iVertex < np)%nat) ->
  returns (BC_Dirichlet geometry config val_marker s)
    (bc_inv geometry nd np (fun k =>
       Done k \/ exists iVertex, (iVertex < nVertex geometry val_marker)%nat /\
                   k = vertex_GetNode geometry val_marker iVertex)).
Proof.
  intros Hinv Hnodes. unfold BC_Dirichlet.
  apply returns_for with
    (P := fun I t => bc_inv geometry nd np (fun k =>
       Done k \/ exists iVertex, (iVertex < I)%nat /\
                   k = vertex_GetNode geometry val_marker iVertex) t).
  - destruct Hinv as (Hs & Hm & Hdone). unfold bc_inv. splits; try assumption.
    intros k [Hk | (v & Hv & _)]; [apply Hdone; exact Hk | lia].
  - intros I t HI (Hs & Hm & Hdone).
    eapply returns_weaken;
      [apply (BC_Dirichlet_vertex_constrains nd np geometry val_marker I t Hs Hm
                (Hnodes I HI)) |].
    intros t' (Hs' & Hm' & Hkeep). unfold bc_inv. splits; try assumption.
    intros k [Hk | (v & Hv & ->)].
    + destruct (Hdone k (or_introl Hk)) as (Hlt & Hc).
      split; [exact Hlt |]. apply Hkeep; [exact Hlt | right; exact Hc].
    + assert (v < nVertex geometry val_marker)%nat as Hv' by lia.
      split; [apply Hnodes; exact Hv' |].
      apply Hkeep; [apply Hnodes; exact Hv' |].
      destruct (Nat.eq_dec v I) as [-> | Hne]; [left; reflexivity |].
      right. apply (Hdone (vertex_GetNode geometry val_marker v)).
      right. exists v. split; [lia | reflexivity].
Qed.

Lemma Impose_BC_ok (nd np : nat) (geometry : CGeometry) (config : CConfig)
  (s : CGradientSmoothingSolver) :
  BCSt nd np s -> matrix_ok nd s ->
  (forall iMarker iVertex, dirichlet_vertex geometry config iMarker iVertex ->
     (vertex_GetNode geometry iMarker iVertex < np)%nat) ->
  returns (Impose_BC geometry config s)
    (bc_inv geometry nd np (fun k =>
       exists iMarker iVertex, dirichlet_vertex geometry config iMarker iVertex /\
         k = vertex_GetNode geometry iMarker iVertex)).
Proof.
  intros Hs Hm Hnodes. unfold Impose_BC.
  eapply returns_weaken.
  - apply returns_for with
      (P := fun I t => bc_inv geometry nd np (fun k =>
         exists iMarker iVertex, (iMarker < I)%nat /\
           dirichlet_vertex geometry config iMarker iVertex /\
           k = vertex_GetNode geometry iMarker iVertex) t).
    + unfold bc_inv. splits; try assumption.
      intros k (m & v & Hlt & _). lia.
    + intros I t HI Hinv.
      destruct (Nat.eqb_spec (GetMarker_All_SobolevBC config I) NO) as [Eno | Hno].
      * eapply returns_bind.
        { apply (BC_Dirichlet_ok nd np geometry config I _ t Hinv).
          intros v Hv. apply Hnodes. unfold dirichlet_vertex. splits; assumption. }
        intros t' (Hs' & Hm' & Hdone). rewrite Eno. simpl Nat.eqb. cbv iota.
        apply returns_Ok. unfold bc_inv. splits; try assumption.
        intros k (m & v & Hlt & Hdv & ->). apply Hdone.
        destruct (Nat.eq_dec m I) as [-> | Hne].
        -- right. exists v. split; [apply Hdv | reflexivity].
        -- left. exists m, v. splits; [lia | exact Hdv | reflexivity].
      * simpl bind.
        assert (bc_inv geometry nd np (fun k =>
                  exists iMarker iVertex, (iMarker < Datatypes.S I)%nat /\
                    dirichlet_vertex geometry config iMarker iVertex /\
                    k = vertex_GetNode geometry iMarker iVertex) t) as Hinv'.
        { destruct Hinv as (Hs' & Hm' & Hdone). unfold bc_inv. splits; try assumption.
          intros k (m & v & Hlt & Hdv & ->). apply Hdone.
          exists m, v. splits; try assumption; try reflexivity.
          destruct (Nat.eq_dec m I) as [-> | Hne]; [| lia].
          destruct Hdv as (_ & Hflag & _). contradiction. }
        destruct (GetMarker_All_SobolevBC config I =? YES)%nat;
          apply returns_Ok; exact Hinv'.
  - intros s' (Hs' & Hm' & Hdone). unfold bc_inv. splits; try assumption.
    intros k (m & v & Hdv & ->). apply Hdone. exists m, v.
    splits; [apply Hdv | exact Hdv | reflexivity].
Qed.

(** The constructor leaves the zero block and the identity in the two
    auxiliary matrices. *)
Lemma aux_matrices_ok (nd : nat) :
  nd = 2%nat \/ nd = 3%nat ->
  returns (aux_matrices nd)
    (fun ZI => Mat nd nd (fst ZI) (fun _ _ => 0) /\
               Mat nd nd (snd ZI) (fun a b => if (a =? b)%nat then 1 else 0)).
Proof.
  intros [-> | ->]; eexists; (split; [reflexivity |]); simpl; split.
  - split; [split; [reflexivity | repeat constructor] |].
    intros i j Hi Hj. destruct i as [|[|i]], j as [|[|j]]; try lia; reflexivity.
  - split; [split; [reflexivity | repeat constructor] |].
    intros i j Hi Hj. destruct i as [|[|i]], j as [|[|j]]; try lia; reflexivity.
  - split; [split; [reflexivity | repeat constructor] |].
    intros i j Hi Hj.
    destruct i as [|[|[|i]]], j as [|[|[|j]]]; try lia; reflexivity.
  - split; [split; [reflexivity | repeat constructor] |].
    intros i j Hi Hj.
    destruct i as [|[|[|i]]], j as [|[|[|j]]]; try lia; reflexivity.
Qed.

(** A solver that the constructor built, in dimension two or three and
    with work arrays of the base class that have room for the dimension,
    is one that the boundary conditions can be imposed on. *)
Lemma new_CGradientSmoothingSolver_BCSt (K : FE_KINDS) (F : FE_FAMILIES)
  (base_nVar : nat) (base_Residual base_Solution : list R)
  (geometry : CGeometry) (s : CGradientSmoothingSolver) :
  new_CGradientSmoothingSolver K F base_nVar base_Residual base_Solution geometry
    = Ok s ->
  GetnDim geometry = 2%nat \/ GetnDim geometry = 3%nat ->
  (GetnDim geometry <= length base_Residual)%nat ->
  (GetnDim geometry <= length base_Solution)%nat ->
  BCSt (GetnDim geometry) (GetnPoint geometry) s /\ matrix_ok (GetnDim geometry) s.
Proof.
  intros E Hnd Hr Hs. unfold new_CGradientSmoothingSolver in E.
  destruct (new_element_container K F (GetnDim geometry)) as [c | f];
    [| discriminate E]. simpl bind in E.
  destruct (aux_matrices_ok (GetnDim geometry) Hnd) as ([Z I] & EZI & HZ & HI).
  rewrite EZI in E. simpl bind in E. simpl in HZ, HI.
  destruct (new_Jacobian_ij (GetnDim geometry)) as [J | f]; [| discriminate E].
  simpl bind in E. injection E as <-.
  unfold BCSt, matrix_ok. simpl. splits; try assumption; reflexivity.
Qed.

End BoundaryConditions.

(** * The local operator *)

Section LocalOperator.

Import Elem Numerics.
Local Open Scope R_scope.

Lemma AllocateStructures_tria (Coord : list (list R)) :
  shape2 3 2 Coord -> AllocateStructures true (Example.tria Coord).
Proof.
  intros HC. unfold AllocateStructures. simpl. splits; try exact HC.
  - reflexivity.
  - reflexivity.
  - split; [reflexivity | repeat constructor].
  - exists (local2 3 3). split; [reflexivity | apply shape2_local2].
  - eexists. split; [reflexivity |].
    split; [reflexivity |]. repeat constructor.
Qed.

Lemma constructed_new (nd : nat) : constructed nd (new_CGradSmoothing nd).
Proof.
  unfold constructed, new_CGradSmoothing. simpl. splits.
  - reflexivity.
  - apply shape2_local2.
  - apply shape2_local2.
  - reflexivity.
Qed.

(** C1: for every element prepared by Reset and ComputeGradients (below
    [e1], what [clearElement] and [ComputeGrad_Linear] make of the
    element), [Compute_Tangent_Matrix] returns with the accumulators
    holding the two passes: for every node pair [i <= j], the block
    [DHiDHj[i][j]] is the sum over the quadrature points of
    [w J epsilon^2 (GradNi_X . GradNj_X)] times the [nDim] x [nDim]
    identity, and [DHiDHj[j][i]] is its transpose when [i <> j]; for every
    ordered pair [(i, j)], [HiHj[i][j]] is the sum over the quadrature
    points of [w J zeta Ni Nj]. *)
Theorem Compute_Tangent_Matrix_two_pass
  (num : CGradSmoothing) (element : CElement) (config : CConfig) :
  GetSmoothOnSurface config = false ->
  constructed (Elem.nDim element) num ->
  AllocateStructures true element ->
  flat_element element ->
  (nNodes element <= 8)%nat ->
  exists e0 e1 num' e' h d,
    clearElement true element = Ok e0 /\
    ComputeGrad_Linear e0 = Ok e1 /\
    Compute_Tangent_Matrix num element config = Ok (num', e') /\
    HiHj e' = Some h /\ DHiDHj e' = Some d /\
    (forall i j a b,
       (i <= j)%nat -> (j < nNodes element)%nat ->
       (a < Elem.nDim element)%nat -> (b < Elem.nDim element)%nat ->
       at4 d i j a b =
         Rsum (nGaussPoints element) (fun g =>
           if a =? b
           then Weight_of e1 g * J_X_of e1 g
                * GetSmoothingParam config * GetSmoothingParam config
                * Rsum (Elem.nDim element)
                    (fun k => GradNi_X_of e1 g i k * GradNi_X_of e1 g j k)
           else 0) /\
       (i <> j -> at4 d j i a b =
         Rsum (nGaussPoints element) (fun g =>
           if b =? a
           then Weight_of e1 g * J_X_of e1 g
                * GetSmoothingParam config * GetSmoothingParam config
                * Rsum (Elem.nDim element)
                    (fun k => GradNi_X_of e1 g i k * GradNi_X_of e1 g j k)
           else 0))) /\
    (forall i j,
       (i < nNodes element)%nat -> (j < nNodes element)%nat ->
       at2 h i j =
         Rsum (nGaussPoints element) (fun g =>
           Weight_of e1 g * J_X_of e1 g * GetSmoothingParamSecond config
           * Ni_of e1 g i * Ni_of e1 g j)).
Proof.
  intros Hsurf Hnum Hall Hflat H8.
  destruct (Compute_Tangent_Matrix_ok num element config Hsurf Hnum Hall Hflat H8)
    as (e0 & e1 & Ee0 & Ee1 & Hgc & [num' e'] & Ect & _ & Hacc).
  simpl in Hacc. destruct Hacc as (h & d & -> & Hh & Hd & HH & HD).
  assert (nNodes e1 = nNodes element /\ Elem.nDim e1 = Elem.nDim element) as [En Ed].
  { destruct Hgc as (gp & -> & _).
    destruct (clearElement_ok element Hall) as (e0' & Ee0' & Hacc0).
    rewrite Ee0 in Ee0'. injection Ee0' as <-.
    simpl. split; [apply (Acc_nNodes Hacc0) | apply (Acc_nDim Hacc0)]. }
  rewrite En, Ed in *.
  exists e0, e1, num', (set_DHiDHj (set_HiHj e1 (Some h)) (Some d)), h, d.
  splits; try assumption; try reflexivity.
  - intros i j a b Hij Hj Ha Hb. split.
    + rewrite HD by lia. apply Rsum_ext. intros g _.
      unfold stiffness_term, stiffness_val.
      apply Nat.leb_le in Hij. rewrite Hij. reflexivity.
    + intros Hne. rewrite HD by lia. apply Rsum_ext. intros g _.
      unfold stiffness_term, stiffness_val.
      assert ((j <=? i) = false) as -> by (apply Nat.leb_gt; lia). reflexivity.
Qed.

Lemma Compute_Tangent_Matrix_two_pass_witness :
  exists e0 e1 num' e' h d,
    clearElement true (Example.tria Example.unit_triangle) = Ok e0 /\
    ComputeGrad_Linear e0 = Ok e1 /\
    Compute_Tangent_Matrix (new_CGradSmoothing 2)
      (Example.tria Example.unit_triangle) Example.config_flat = Ok (num', e') /\
    HiHj e' = Some h /\ DHiDHj e' = Some d /\
    at2 h 0 1 = Rsum 1 (fun g =>
        Weight_of e1 g * J_X_of e1 g * 1 * Ni_of e1 g 0 * Ni_of e1 g 1).
Proof.
  destruct (Compute_Tangent_Matrix_two_pass (new_CGradSmoothing 2)
              (Example.tria Example.unit_triangle) Example.config_flat)
    as (e0 & e1 & num' & e' & h & d & H1 & H2 & H3 & H4 & H5 & _ & H7).
  - reflexivity.
  - apply constructed_new.
  - apply AllocateStructures_tria. apply shape2_3x2.
  - right. left. simpl. split; [reflexivity | lia].
  - simpl. lia.
  - exists e0, e1, num', e', h, d. splits; try assumption.
    apply (H7 0%nat 1%nat); simpl; lia.
Defined.

(** C9, curved-surface configuration: the loop that copies the gradients
    runs over [nDimGlobal = nDim + 1] directions, while the rows of
    [GradNi_Ref_Mat] have the [nDim] entries that the constructor gave
    them; its first write to direction [nDim] is outside the row.  For an
    element with a node and a quadrature point [Compute_Tangent_Matrix]
    therefore does not stay within the buffers of the constructor. *)
Theorem Compute_Tangent_Matrix_surface_out_of_bounds
  (num : CGradSmoothing) (element : CElement) (config : CConfig) (r c : nat) :
  GetSmoothOnSurface config = true ->
  constructed (Elem.nDim element) num ->
  AllocateStructures true element ->
  Elem.nDim element = 1%nat \/ Elem.nDim element = 2%nat ->
  shape2 r c (Coord num) ->
  (Elem.nDim element + 1 <= r)%nat -> (Elem.nDim element + 1 <= c)%nat ->
  (1 <= nNodes element)%nat -> (1 <= nGaussPoints element)%nat ->
  Compute_Tangent_Matrix num element config = Fault (OutOfBounds "GradNi_Ref_Mat").
Proof.
  intros Hsurf Hnum Hall Hdim HC Hr Hc Hn Hg.
  destruct (clearElement_ok element Hall) as (e0 & Ee0 & Hacc0).
  assert (AllocateStructures true e0) as Hall0 by exact (Acc_Allocate true Hall Hacc0).
  pose proof (Acc_nDim Hacc0) as End0.
  assert (exists gp, ComputeGrad_Linear_Coord (Coord num) e0 = Ok (set_GaussPoint e0 gp)
                     /\ length gp = nGaussPoints e0) as (gp & Ee1 & Hlen).
  { unfold ComputeGrad_Linear_Coord. rewrite End0.
    destruct Hdim as [E | E]; rewrite E in *; cbn [Nat.eqb Nat.add] in *.
    - destruct (ComputeGrad_1D_Coord_ok (Coord num) e0 true r c HC Hr Hc Hall0)
        as (e1 & Ee1 & gp & -> & Hlen & _); [lia |].
      exists gp. split; assumption.
    - destruct (ComputeGrad_2D_Coord_ok (Coord num) e0 true r c HC Hr Hc Hall0)
        as (e1 & Ee1 & gp & -> & Hlen & _); [lia |].
      exists gp. split; assumption. }
  pose proof (Acc_set_GaussPoint gp Hacc0) as Hacc1.
  set (eb := set_GaussPoint element gp) in *.
  set (e1 := set_GaussPoint e0 gp) in *.
  assert (shape1 (nGaussPoints eb) (GaussWeight eb)) as Hw.
  { destruct Hall as (_ & _ & _ & A4 & _). exact A4. }
  assert (shape1 (nGaussPoints eb) (GaussPoint eb)) as Hgp.
  { unfold shape1. simpl. rewrite Hlen. apply (Acc_nGaussPoints Hacc0). }
  assert (0 < nGaussPoints eb)%nat as Hg0 by (simpl; lia).
  destruct Hnum as (End & HG & HV & HN).
  unfold Compute_Tangent_Matrix. rewrite Hsurf, Ee0. simpl bind.
  rewrite Ee1. simpl bind. unfold GetnNodes, GetnGaussPoints, stiffness_pass.
  rewrite (Acc_nNodes Hacc0), (Acc_nGaussPoints Hacc0), End.
  rewrite (for_first_fault (nGaussPoints element) _ _ (OutOfBounds "GradNi_Ref_Mat"));
    [reflexivity | lia |].
  rewrite (GetWeight_ok 0 Hacc1 Hw Hg0). simpl bind.
  rewrite (GetJ_X_ok 0 Hacc1 Hgp Hg0). simpl bind.
  rewrite (for_first_fault (nNodes element) _ _ (OutOfBounds "GradNi_Ref_Mat"));
    [reflexivity | lia |].
  rewrite Nat.add_1_r. cbn [for_].
  assert (returns
    (for_ (Elem.nDim element) (fun iDim num0 =>
       g <- GetGradNi_X e1 0 0 iDim ;;
       m <- wr2 "GradNi_Ref_Mat" (GradNi_Ref_Mat num0) 0 iDim g ;;
       Ok (set_GradNi_Ref_Mat num0 m)) num)
    (fun num' => shape2 8 (Elem.nDim element) (GradNi_Ref_Mat num')))
    as (num' & Enum' & HG').
  { loop (fun (K : nat) num' => shape2 8 (Elem.nDim element) (GradNi_Ref_Mat num')).
    - exact HG.
    - intros K t HK Ht.
      rewrite (GetGradNi_X_ok 0 0 K Hacc1 Hgp Hg0). simpl bind.
      rewrite (wr2_ok "GradNi_Ref_Mat" 0 K _ Ht) by lia. simpl bind.
      apply returns_Ok. simpl. apply shape2_upd2; [exact Ht | lia].
    - intros t Ht. exact Ht. }
  rewrite Enum'. simpl bind.
  rewrite (GetGradNi_X_ok 0 0 (Elem.nDim element) Hacc1 Hgp Hg0). simpl bind.
  rewrite (wr2_fault_col "GradNi_Ref_Mat" 0 (Elem.nDim element) _ HG') by lia.
  reflexivity.
Qed.

Lemma Compute_Tangent_Matrix_surface_out_of_bounds_witness :
  Compute_Tangent_Matrix
    (SetCoord Example.space_triangle (new_CGradSmoothing 2))
    (Example.tria Example.unit_triangle) Example.config_surface
  = Fault (OutOfBounds "GradNi_Ref_Mat").
Proof.
  apply (Compute_Tangent_Matrix_surface_out_of_bounds
           (SetCoord Example.space_triangle (new_CGradSmoothing 2))
           (Example.tria Example.unit_triangle) Example.config_surface 3 3).
  - reflexivity.
  - exact (constructed_new 2).
  - apply AllocateStructures_tria. apply shape2_3x2.
  - right. reflexivity.
  - apply shape2_3x3.
  - simpl. lia.
  - simpl. lia.
  - simpl. lia.
  - simpl. lia.
Defined.

End LocalOperator.

(** * The gradients *)

Section GradientProperties.

Import Elem.
Local Open Scope R_scope.

Lemma gradients_computed_at {e e' nd jX G} (g k d : nat) :
  gradients_computed e e' nd jX G ->
  (g < nGaussPoints e)%nat -> (k < nNodes e)%nat -> (d < nd)%nat ->
  GradNi_X_of e' g k d = G g k d /\ J_X_of e' g = jX g.
Proof.
  intros (gp & -> & Hlen & Hst) Hg Hk Hd.
  destruct (Hst g Hg) as (_ & _ & _ & EJ & EG).
  unfold GradNi_X_of, J_X_of. simpl. split; [| exact EJ].
  rewrite EG. apply Nat.ltb_lt in Hk, Hd. rewrite Hk, Hd. reflexivity.
Qed.

Lemma physical_gradient_sum (n nN : nat) (ad : list (list R)) (detJac : R)
  (dN : list (list R)) (d : nat) :
  (forall j, (j < n)%nat -> Rsum nN (fun k => at2 dN k j) = 0) ->
  Rsum nN (fun k => physical_gradient n ad detJac dN k d) = 0.
Proof.
  intros Hz. unfold physical_gradient. rewrite Rsum_swap.
  apply Rsum_zero. intros j Hj. rewrite Rsum_scal. rewrite (Hz j Hj). lra.
Qed.

(** C8: for every non-degenerate element whose parametric shape
    derivatives sum to zero over the nodes at each quadrature point, the
    physical gradients that [ComputeGrad_Linear] stores sum to the zero
    vector over the nodes, at every quadrature point. *)
Theorem ComputeGrad_partition_of_unity (e : CElement) (gs : bool) :
  AllocateStructures gs e ->
  flat_element e ->
  nondegenerate e ->
  rows_sum_to_zero e (nDim e) ->
  exists e',
    ComputeGrad_Linear e = Ok e' /\
    forall g d, (g < nGaussPoints e)%nat -> (d < nDim e)%nat ->
      Rsum (nNodes e) (fun iNode => GradNi_X_of e' g iNode d) = 0.
Proof.
  intros Hall Hflat _ Hz.
  destruct (ComputeGrad_Linear_ok e gs Hall Hflat) as (e' & Ee' & Hgc).
  exists e'. split; [exact Ee' |].
  intros g d Hg Hd.
  rewrite (Rsum_ext (nNodes e) _ (fun k => GradNi_X_Linear e g k d)).
  2:{ intros k Hk. apply (gradients_computed_at g k d Hgc); assumption. }
  unfold GradNi_X_Linear.
  destruct Hflat as [[E Hn] | [[E Hn] | E]]; rewrite E in *; simpl.
  - unfold GradNi_X_1D.
    rewrite (Rsum_ext _ _ (fun k => / Jacobian_1D e * at2 (dN_at e g) k 0)).
    2:{ intros k _. unfold Rdiv. apply Rmult_comm. }
    rewrite Rsum_scal. rewrite (Hz g 0%nat Hg) by lia. lra.
  - apply physical_gradient_sum. intros j Hj. apply (Hz g j Hg). exact Hj.
  - apply physical_gradient_sum. intros j Hj. apply (Hz g j Hg). exact Hj.
Qed.

Lemma rows_sum_to_zero_tria (Coord : list (list R)) :
  rows_sum_to_zero (Example.tria Coord) 2.
Proof.
  intros g k Hg Hk. simpl in Hg. assert (g = 0%nat) as -> by lia.
  destruct k as [|[|k]]; [| | lia]; unfold dN_at, at2, at1; simpl; lra.
Qed.

Lemma det2_unit_triangle :
  det2 (Jacobian_2D (Example.tria Example.unit_triangle) 0) = 1.
Proof.
  unfold det2, adjugate2, Jacobian_2D, Jacobian_matrix, Jacobian_sum, dN_at, at2, at1.
  simpl. lra.
Qed.

Lemma nondegenerate_unit_triangle :
  nondegenerate (Example.tria Example.unit_triangle).
Proof.
  intros g Hg. simpl in Hg. assert (g = 0%nat) as -> by lia.
  simpl Nat.eqb. cbv iota. rewrite det2_unit_triangle. lra.
Qed.

Lemma flat_element_tria (Coord : list (list R)) : flat_element (Example.tria Coord).
Proof. right. left. simpl. split; [reflexivity | lia]. Qed.

Lemma ComputeGrad_partition_of_unity_witness :
  exists e',
    ComputeGrad_Linear (Example.tria Example.unit_triangle) = Ok e' /\
    forall g d, (g < 1)%nat -> (d < 2)%nat ->
      Rsum 3 (fun iNode => GradNi_X_of e' g iNode d) = 0.
Proof.
  apply (ComputeGrad_partition_of_unity (Example.tria Example.unit_triangle) true).
  - apply AllocateStructures_tria. apply shape2_3x2.
  - apply flat_element_tria.
  - apply nondegenerate_unit_triangle.
  - apply rows_sum_to_zero_tria.
Defined.

Lemma TrafoJacobi_edge_cross (Coord : list (list R)) :
  TrafoJacobi Coord = Rabs (edge_cross Coord).
Proof. reflexivity. Qed.

Lemma det2_explicit (a b c d : R) : det2 [[a; b]; [c; d]] = a * d - b * c.
Proof. unfold det2, adjugate2, at2, at1. simpl. ring. Qed.

(** The adjugate determinant of a three-node element with a linear table
    is the edge cross product of its nodes, scaled by that of the
    reference corners. *)
Lemma det2_linear_triangle (X dN p : list (list R)) :
  (forall k, (k < 2)%nat -> Rsum 3 (fun n => at2 dN n k) = 0) ->
  (forall j k, (j < 2)%nat -> (k < 2)%nat ->
     Rsum 3 (fun n => at2 p n j * at2 dN n k) = if j =? k then 1 else 0) ->
  det2 (Jacobian_matrix 2 X dN 3) * edge_cross p = edge_cross X.
Proof.
  intros Hz Hp.
  pose proof (Hz 0%nat ltac:(lia)) as Z0. pose proof (Hz 1%nat ltac:(lia)) as Z1.
  pose proof (Hp 0%nat 0%nat ltac:(lia) ltac:(lia)) as P00.
  pose proof (Hp 0%nat 1%nat ltac:(lia) ltac:(lia)) as P01.
  pose proof (Hp 1%nat 0%nat ltac:(lia) ltac:(lia)) as P10.
  pose proof (Hp 1%nat 1%nat ltac:(lia) ltac:(lia)) as P11.
  cbn [Rsum Nat.eqb] in Z0, Z1, P00, P01, P10, P11.
  change (Jacobian_matrix 2 X dN 3) with
    [[Jacobian_sum X dN 3 0 0; Jacobian_sum X dN 3 0 1];
     [Jacobian_sum X dN 3 1 0; Jacobian_sum X dN 3 1 1]].
  rewrite det2_explicit. unfold Jacobian_sum, edge_cross. cbn [Rsum].
  set (d00 := at2 dN 0 0) in *. set (d01 := at2 dN 0 1) in *.
  set (d10 := at2 dN 1 0) in *. set (d11 := at2 dN 1 1) in *.
  set (d20 := at2 dN 2 0) in *. set (d21 := at2 dN 2 1) in *.
  set (x00 := at2 X 0 0) in *. set (x01 := at2 X 0 1) in *.
  set (x10 := at2 X 1 0) in *. set (x11 := at2 X 1 1) in *.
  set (x20 := at2 X 2 0) in *. set (x21 := at2 X 2 1) in *.
  set (p00 := at2 p 0 0) in *. set (p01 := at2 p 0 1) in *.
  set (p10 := at2 p 1 0) in *. set (p11 := at2 p 1 1) in *.
  set (p20 := at2 p 2 0) in *. set (p21 := at2 p 2 1) in *.
  assert (d20 = - d00 - d10) as E0 by lra.
  assert (d21 = - d01 - d11) as E1 by lra.
  rewrite E0, E1 in *.
  set (M := d00 * d11 - d10 * d01).
  set (cp := (p10 - p00) * (p21 - p01) - (p20 - p00) * (p11 - p01)).
  assert (M * cp = 1) as HM.
  { transitivity
      ((0 + p00 * d00 + p10 * d10 + p20 * (- d00 - d10))
       * (0 + p01 * d01 + p11 * d11 + p21 * (- d01 - d11))
       - (0 + p00 * d01 + p10 * d11 + p20 * (- d01 - d11))
         * (0 + p01 * d00 + p11 * d10 + p21 * (- d00 - d10))).
    - unfold M, cp. ring.
    - rewrite P00, P11, P01, P10. ring. }
  transitivity
    (((x10 - x00) * (x21 - x01) - (x20 - x00) * (x11 - x01)) * (M * cp)).
  - unfold M, cp. ring.
  - rewrite HM. ring.
Qed.

(** For a three-node element whose shape table is the linear one on the
    canonical reference triangle, the adjugate-based determinant of
    [ComputeGrad_2D] agrees in magnitude with the edge-vector value
    [TrafoJacobi] of the corner coordinates, the two are equal when the
    determinant is positive, and the reference value [J_X] is the
    edge-vector value. *)
Lemma linear_triangle_determinant_consistency (e : CElement) (gs : bool) :
  AllocateStructures gs e ->
  nDim e = 2%nat -> nNodes e = 3%nat ->
  (forall g, (g < nGaussPoints e)%nat -> linear_triangle_table (dN_at e g)) ->
  exists e',
    ComputeGrad_2D REFERENCE e = Ok e' /\
    forall g, (g < nGaussPoints e)%nat ->
      Rabs (det2 (Jacobian_2D e g)) = TrafoJacobi (RefCoord e) /\
      (0 < det2 (Jacobian_2D e g) ->
       det2 (Jacobian_2D e g) = TrafoJacobi (RefCoord e)) /\
      J_X_of e' g = TrafoJacobi (RefCoord e).
Proof.
  intros Hall Hdim Hnodes Htab.
  destruct (ComputeGrad_2D_ok e gs Hall) as (e' & Ee' & Hgc); [lia | lia |].
  exists e'. split; [exact Ee' |].
  intros g Hg.
  assert (Rabs (det2 (Jacobian_2D e g)) = TrafoJacobi (RefCoord e)) as Habs.
  { destruct (Htab g Hg) as (Hz & p & Hp1 & Hp).
    pose proof (det2_linear_triangle (RefCoord e) (dN_at e g) p Hz Hp) as Hdet.
    unfold Jacobian_2D. rewrite Hnodes. rewrite TrafoJacobi_edge_cross.
    rewrite <- Hdet. rewrite Rabs_mult, Hp1. ring. }
  splits.
  - exact Habs.
  - intros Hpos. rewrite <- Habs. symmetry. apply Rabs_pos_eq. lra.
  - destruct Hgc as (gp & -> & Hlen & Hst).
    destruct (Hst g Hg) as (_ & _ & _ & EJ & _). exact EJ.
Qed.

Lemma linear_triangle_table_tria : linear_triangle_table Example.tria_table.
Proof.
  split.
  - intros k Hk. destruct k as [|[|k]]; [| | lia];
      unfold Example.tria_table, at2, at1; simpl; lra.
  - exists [[1; 0]; [0; 1]; [0; 0]]. split.
    + unfold edge_cross, at2, at1. simpl.
      replace ((0 - 1) * (0 - 0) - (0 - 1) * (1 - 0)) with 1 by lra.
      apply Rabs_R1.
    + intros j k Hj Hk.
      destruct j as [|[|j]]; [| | lia]; destruct k as [|[|k]]; try lia;
        unfold Example.tria_table, at2, at1; simpl; lra.
Qed.

Ltac unfold_matrices :=
  cbv [surface_Jdagger surface_JTJinv surface_det surface_JTJ
       at2 at1 nth map seq Rsum Nat.add Nat.eqb].

(** The matrix [Jdagger] of [ComputeGrad_2D(Coord)], on an edge matrix
    given entry by entry. *)
Lemma Jdagger_normal_equations (a b c d e f : R) :
  let J := [[a; b]; [c; d]; [e; f]] in
  (a * a + c * c + e * e) * (b * b + d * d + f * f)
  - (a * b + c * d + e * f) * (b * a + d * c + f * e) <> 0 ->
  (forall i k, (i < 2)%nat -> (k < 3)%nat ->
     Rsum 2 (fun j => Rsum 3 (fun m => at2 J m i * at2 J m j)
                      * at2 (surface_Jdagger J) j k) = at2 J k i) /\
  (forall i j, (i < 2)%nat -> (j < 2)%nat ->
     Rsum 3 (fun k => at2 (surface_Jdagger J) i k * at2 J k j) =
     if i =? j then 1 else 0).
Proof.
  intros J Hdet. subst J. split.
  - intros i k Hi Hk.
    destruct i as [|[|i]]; [| | lia]; destruct k as [|[|[|k]]]; try lia;
      unfold_matrices; field; exact Hdet.
  - intros i j Hi Hj.
    destruct i as [|[|i]]; [| | lia]; destruct j as [|[|j]]; try lia;
      unfold_matrices; field; exact Hdet.
Qed.

Lemma surface_Jacobian_entries (Coord : list (list R)) :
  surface_Jacobian Coord =
  [[edge_matrix Coord 0 0; edge_matrix Coord 0 1];
   [edge_matrix Coord 1 0; edge_matrix Coord 1 1];
   [edge_matrix Coord 2 0; edge_matrix Coord 2 1]].
Proof. reflexivity. Qed.

Lemma surface_Jdagger_pseudo_inverse (Coord : list (list R)) :
  normal_det 2 (edge_matrix Coord) <> 0 ->
  pseudo_inverse 2 (edge_matrix Coord)
    (fun j d => at2 (surface_Jdagger (surface_Jacobian Coord)) j d).
Proof.
  intros Hdet.
  unfold normal_det, normal_matrix in Hdet. cbn [Nat.eqb Nat.add Rsum] in Hdet.
  rewrite surface_Jacobian_entries.
  destruct (Jdagger_normal_equations
              (edge_matrix Coord 0 0) (edge_matrix Coord 0 1)
              (edge_matrix Coord 1 0) (edge_matrix Coord 1 1)
              (edge_matrix Coord 2 0) (edge_matrix Coord 2 1)) as [Hn Hl].
  { intros E. apply Hdet. etransitivity; [| exact E]. ring. }
  unfold pseudo_inverse, normal_matrix. split.
  - intros i d Hi Hd. change (2 + 1)%nat with 3%nat in *.
    destruct d as [|[|[|d]]]; [| | | lia]; destruct i as [|[|i]]; try lia;
      exact (Hn _ _ Hi Hd).
  - intros i j Hi Hj. change (2 + 1)%nat with 3%nat.
    destruct i as [|[|i]]; [| | lia]; destruct j as [|[|j]]; try lia;
      exact (Hl _ _ Hi Hj).
Qed.

Lemma line_pseudo_inverse (Coord : list (list R)) :
  normal_det 1 (edge_matrix Coord) <> 0 ->
  pseudo_inverse 1 (edge_matrix Coord)
    (fun _ d => at1 (line_Jacobian Coord) d / line_JTJ Coord).
Proof.
  intros Hdet.
  unfold normal_det, normal_matrix in Hdet. cbn [Nat.eqb Nat.add Rsum] in Hdet.
  assert (line_JTJ Coord <> 0) as HJ.
  { intros E. apply Hdet. etransitivity; [| exact E].
    unfold line_JTJ, line_Jacobian, edge_matrix, at1. simpl. ring. }
  unfold pseudo_inverse, normal_matrix. split.
  - intros i d Hi Hd. assert (i = 0%nat) as -> by lia.
    cbn [Nat.add Rsum].
    destruct d as [|[|d]]; [| | lia];
      unfold line_JTJ, line_Jacobian, edge_matrix, at1 in *; simpl in *;
      field; exact HJ.
  - intros i j Hi Hj. assert (i = 0%nat) as -> by lia.
    assert (j = 0%nat) as -> by lia. cbn [Nat.add Rsum Nat.eqb].
    unfold line_JTJ, line_Jacobian, edge_matrix, at1 in *; simpl in *.
    field; exact HJ.
Qed.

(** What [ComputeGrad_Linear(Coord)] stores, for every element and every
    set of coordinates: the gradients formed with the Moore-Penrose
    pseudo-inverse of the edge matrix (there is a matrix [P] that solves
    the normal equations of the edge matrix and is a left inverse of it,
    such that every stored gradient is [P] applied to the parametric
    shape derivatives of the node), and the square root of the
    determinant of the normal-equation matrix of the edge matrix. *)
Lemma ComputeGrad_surface_edge_pseudo_inverse (Coord : list (list R))
  (e : CElement) (gs : bool) (r c : nat) :
  AllocateStructures gs e ->
  nDim e = 1%nat \/ nDim e = 2%nat ->
  shape2 r c Coord -> (nDim e + 1 <= r)%nat -> (nDim e + 1 <= c)%nat ->
  normal_det (nDim e) (edge_matrix Coord) <> 0 ->
  exists e' P,
    ComputeGrad_Linear_Coord Coord e = Ok e' /\
    pseudo_inverse (nDim e) (edge_matrix Coord) P /\
    forall g, (g < nGaussPoints e)%nat ->
      J_X_of e' g = sqrt (normal_det (nDim e) (edge_matrix Coord)) /\
      forall iNode iDim, (iNode < nNodes e)%nat -> (iDim < nDim e + 1)%nat ->
        GradNi_X_of e' g iNode iDim =
        Rsum (nDim e) (fun j => P j iDim * at2 (dN_at e g) iNode j).
Proof.
  intros Hall Hdim HC Hr Hc Hdet. unfold ComputeGrad_Linear_Coord.
  destruct Hdim as [E | E]; rewrite E in *; cbn [Nat.eqb Nat.add] in *.
  - destruct (ComputeGrad_1D_Coord_ok Coord e gs r c HC Hr Hc Hall) as (e' & Ee' & Hgc);
      [lia |].
    exists e', (fun _ d => at1 (line_Jacobian Coord) d / line_JTJ Coord).
    splits; [exact Ee' | exact (line_pseudo_inverse Coord Hdet) |].
    intros g Hg. split.
    + destruct Hgc as (gp & -> & Hlen & Hst).
      destruct (Hst g Hg) as (_ & _ & _ & EJ & _). unfold J_X_of. simpl.
      rewrite EJ. f_equal.
      unfold line_JTJ, line_Jacobian, normal_det, normal_matrix, edge_matrix, at1.
      simpl. ring.
    + intros n d Hn Hd.
      destruct (gradients_computed_at g n d Hgc Hg Hn Hd) as [EG _].
      rewrite EG. unfold line_gradient. cbn [Rsum].
      unfold normal_det, normal_matrix in Hdet. cbn [Nat.eqb Nat.add Rsum] in Hdet.
      field. intros E0. apply Hdet. etransitivity; [| exact E0].
      unfold line_JTJ, line_Jacobian, edge_matrix, at1. simpl. ring.
  - destruct (ComputeGrad_2D_Coord_ok Coord e gs r c HC Hr Hc Hall) as (e' & Ee' & Hgc);
      [lia |].
    exists e', (fun j d => at2 (surface_Jdagger (surface_Jacobian Coord)) j d).
    splits; [exact Ee' | exact (surface_Jdagger_pseudo_inverse Coord Hdet) |].
    intros g Hg. split.
    + destruct Hgc as (gp & -> & Hlen & Hst).
      destruct (Hst g Hg) as (_ & _ & _ & EJ & _). exact EJ.
    + intros n d Hn Hd.
      destruct (gradients_computed_at g n d Hgc Hg Hn Hd) as [EG _].
      exact EG.
Qed.

End GradientProperties.

(** * The assembly of the system matrix *)

Section Assembly.

Import Solver.




Lemma solver_ok_example (Coord : list (list R)) :
  shape2 3 2 Coord -> solver_ok 2 (ExampleMesh.solver Coord).
Proof.
  intros HC. unfold solver_ok. simpl. splits; try reflexivity.
  - intros k e Hk.
    destruct k as [|[|[|[|k]]]]; simpl in Hk; try discriminate Hk.
    + injection Hk as <-. unfold element_ok. splits.
      * apply AllocateStructures_tria. exact HC.
      * apply flat_element_tria.
      * simpl. lia.
      * reflexivity.
    + destruct k; discriminate Hk.
  - split; [reflexivity | repeat constructor].
Qed.

Lemma mesh_ok_triangles (X Coord : list (list R)) (cells : list VTK_Type) :
  (forall t, In t cells -> supported t = true -> t = TRIANGLE) ->
  nth 0 cells TRIANGLE = TRIANGLE ->
  mesh_ok ExampleMesh.kinds (ExampleMesh.mesh X cells) (ExampleMesh.solver Coord).
Proof.
  intros Hcells Hfirst. split.
  - intros iElem HiElem Hsup. simpl in HiElem, Hsup |- *.
    rewrite (Hcells (nth iElem cells TRIANGLE)); [| apply nth_In; exact HiElem | exact Hsup].
    exists (Example.tria Coord). split; reflexivity.
  - intros _. simpl. rewrite Hfirst. reflexivity.
Qed.




End Assembly.

(** * The boundary conditions of the system *)

Section Dirichlet.

Import Solver.
Local Open Scope R_scope.

(** C3.  [Impose_BC] returns, and in the state that it leaves every node
    [k] of a marker with the Dirichlet condition is constrained: when
    this process owns [k], the entries of [LinSysRes] and [LinSysSol] at
    [k] are zero, the diagonal block of [k] in the Jacobian is the
    identity and every other block of row [k] and of column [k] is zero;
    when it does not, the column of blocks of [k] is zero.  For a node
    that this process does not own, the treatment of its vertex changes
    no block outside the column of the node, and no entry of the two
    vectors. *)
Theorem Impose_BC_decouples_Dirichlet_nodes (nd np : nat) (geometry : CGeometry)
  (config : CConfig) (s : CGradientSmoothingSolver) :
  BCSt nd np s -> matrix_ok nd s ->
  (forall iMarker iVertex, dirichlet_vertex geometry config iMarker iVertex ->
     (vertex_GetNode geometry iMarker iVertex < np)%nat) ->
  (exists s', Impose_BC geometry config s = Ok s' /\
     forall iMarker iVertex, dirichlet_vertex geometry config iMarker iVertex ->
       constrained geometry nd np (vertex_GetNode geometry iMarker iVertex) s') /\
  (forall iMarker iVertex st, BCSt nd np st -> matrix_ok nd st ->
     node_GetDomain geometry (vertex_GetNode geometry iMarker iVertex) = false ->
     exists st', BC_Dirichlet_vertex geometry iMarker iVertex st = Ok st' /\
       column_zeroed nd np (vertex_GetNode geometry iMarker iVertex) st' /\
       (forall i, vec_val (LinSysRes st') i = vec_val (LinSysRes st) i) /\
       (forall i, vec_val (LinSysSol st') i = vec_val (LinSysSol st) i) /\
       forall p q a b, q <> vertex_GetNode geometry iMarker iVertex ->
         mat_block (Jacobian st') p q a b = mat_block (Jacobian st) p q a b).
Proof.
  intros Hs Hm Hnodes. split.
  - destruct (Impose_BC_ok nd np geometry config s Hs Hm Hnodes)
      as (s' & Es' & _ & _ & Hdone).
    exists s'. split; [exact Es' |].
    intros m v Hdv. apply Hdone. exists m, v. split; [exact Hdv | reflexivity].
  - intros m v st Hst Hmt Ehalo.
    destruct (BC_Dirichlet_vertex_ok nd np geometry m v st _ Hst
                (matrix_ok_MatSt nd st Hmt))
      as (st' & Est' & _ & (_ & _ & HB) & Hres & Hsol).
    cbv zeta in HB, Hres, Hsol. rewrite Ehalo in HB, Hres, Hsol.
    exists st'. splits; try assumption.
    + intros p a b Hp Ha Hb. rewrite HB. unfold dirichlet_block. block_cases.
    + intros p q a b Hq. rewrite HB. unfold dirichlet_block. block_cases.
Qed.

Lemma BCSt_example (Coord : list (list R)) :
  BCSt 2 3 (ExampleMesh.solver Coord).
Proof.
  unfold BCSt. simpl. splits; try reflexivity; try lia.
  - split; [split; [reflexivity | repeat constructor] |].
    intros i j Hi Hj. destruct i as [|[|i]], j as [|[|j]]; try lia; reflexivity.
  - split; [split; [reflexivity | repeat constructor] |].
    intros i j Hi Hj. destruct i as [|[|i]], j as [|[|j]]; try lia; reflexivity.
Qed.

Lemma Impose_BC_decouples_Dirichlet_nodes_witness :
  let geometry := ExampleMesh.one_triangle in
  let config := ExampleMesh.config_dirichlet in
  let s := ExampleMesh.solver Example.unit_triangle in
  (exists s', Impose_BC geometry config s = Ok s' /\
     forall iMarker iVertex, dirichlet_vertex geometry config iMarker iVertex ->
       constrained geometry 2 3 (vertex_GetNode geometry iMarker iVertex) s') /\
  (forall iMarker iVertex st, BCSt 2 3 st -> matrix_ok 2 st ->
     node_GetDomain geometry (vertex_GetNode geometry iMarker iVertex) = false ->
     exists st', BC_Dirichlet_vertex geometry iMarker iVertex st = Ok st' /\
       column_zeroed 2 3 (vertex_GetNode geometry iMarker iVertex) st' /\
       (forall i, vec_val (LinSysRes st') i = vec_val (LinSysRes st) i) /\
       (forall i, vec_val (LinSysSol st') i = vec_val (LinSysSol st) i) /\
       forall p q a b, q <> vertex_GetNode geometry iMarker iVertex ->
         mat_block (Jacobian st') p q a b = mat_block (Jacobian st) p q a b).
Proof.
  intros geometry config s.
  apply (Impose_BC_decouples_Dirichlet_nodes 2 3 geometry config s).
  - apply BCSt_example.
  - split; reflexivity.
  - intros m v (_ & _ & Hv). simpl in Hv |- *. exact Hv.
Defined.

Lemma bind_Ok_r {A} (c : result A) : (x <- c ;; Ok x)%result = c.
Proof. destruct c; reflexivity. Qed.

Lemma run_markers_app {S} (f : nat -> S -> result S) (l1 l2 : list nat) (s : S) :
  run_markers f (l1 ++ l2) s = (s' <- run_markers f l1 s ;; run_markers f l2 s')%result.
Proof.
  revert s. induction l1 as [|m l1 IH]; intros s; simpl; [reflexivity |].
  destruct (f m s) as [s' | e]; simpl; [apply IH | reflexivity].
Qed.

Lemma for_run_markers {S} (n : nat) (f : nat -> S -> result S) (s : S) :
  for_ n f s = run_markers f (seq 0 n) s.
Proof.
  induction n as [|n IH]; [reflexivity |].
  rewrite seq_S, run_markers_app. simpl for_. rewrite IH. simpl.
  destruct (run_markers f (seq 0 n) s) as [s' | e]; simpl; [| reflexivity].
  symmetry. apply bind_Ok_r.
Qed.

(** C10.  [Impose_BC] runs the markers in increasing order; a marker
    whose flag is [NO] gets [BC_Dirichlet] and nothing else, a marker
    whose flag is [YES] gets [BC_Neumann] and nothing else, a marker with
    another flag gets nothing; [BC_Neumann] returns the solver that it
    receives.  Hence the state that [Impose_BC] leaves is the one that
    the runs of [BC_Dirichlet] on the markers flagged [NO] leave. *)
Theorem Impose_BC_dispatch (geometry : CGeometry) (config : CConfig)
  (s : CGradientSmoothingSolver) :
  Impose_BC geometry config s =
    run_markers (fun iMarker s =>
        if GetMarker_All_SobolevBC config iMarker =? NO
        then BC_Dirichlet geometry config iMarker s
        else if GetMarker_All_SobolevBC config iMarker =? YES
             then Ok (BC_Neumann geometry config iMarker s)
             else Ok s)
      (seq 0 (GetnMarker_All config)) s /\
  (forall iMarker t, BC_Neumann geometry config iMarker t = t) /\
  Impose_BC geometry config s =
    run_markers (BC_Dirichlet geometry config) (dirichlet_markers config) s.
Proof.
  splits.
  - unfold Impose_BC. rewrite for_run_markers.
    generalize (seq 0 (GetnMarker_All config)). intros l. revert s.
    induction l as [|m l IH]; intros s; simpl; [reflexivity |].
    destruct (Nat.eqb_spec (GetMarker_All_SobolevBC config m) NO) as [E | E].
    + rewrite E. simpl Nat.eqb. cbv iota. rewrite bind_Ok_r.
      destruct (BC_Dirichlet geometry config m s); simpl; [apply IH | reflexivity].
    + simpl bind. destruct (GetMarker_All_SobolevBC config m =? YES)%nat; simpl; apply IH.
  - intros m t. reflexivity.
  - unfold Impose_BC, dirichlet_markers. rewrite for_run_markers.
    generalize (seq 0 (GetnMarker_All config)). intros l. revert s.
    induction l as [|m l IH]; intros s; simpl; [reflexivity |].
    destruct (Nat.eqb_spec (GetMarker_All_SobolevBC config m) NO) as [E | E].
    + rewrite E. simpl Nat.eqb. cbv iota. rewrite bind_Ok_r. simpl.
      destruct (BC_Dirichlet geometry config m s); simpl; [apply IH | reflexivity].
    + simpl bind. destruct (GetMarker_All_SobolevBC config m =? YES)%nat; simpl; apply IH.
Qed.

End Dirichlet.

(** * The right-hand side *)

Section Residual.

Import Solver.
Local Open Scope R_scope.

Lemma projection_one_triangle_value (p d : nat) :
  (p < 3)%nat -> projection_one_triangle p d = 1 / 6.
Proof.
  intros Hp. unfold projection_one_triangle, projection_rhs.
  destruct p as [|[|[|p]]]; try lia; simpl; lra.
Qed.

(** C5.  [Compute_Residual] is not the projection of the sensitivity
    field.  On the mesh of one triangle with the sensitivity that is one
    everywhere, the projection has the entry [1/6] at every node and
    direction.  [Compute_Residual], run with [iDim = 0], returns a
    right-hand side whose entries are [1/6] at node 0 in direction 0 and
    zero everywhere else: the loop over the nodes keeps the value of the
    last node only, in the one entry [iDim] of [Residual], and the one
    call of [SetBlock] per quadrature point stores, it does not add, at
    the node [indexNode[nNodes]].  With no value of [iDim] does a run that
    returns leave anything but zero at node 1. *)
Theorem Compute_Residual_is_not_the_projection :
  (forall p d, (p < 3)%nat -> projection_one_triangle p d = 1 / 6) /\
  (exists s',
     Compute_Residual ExampleMesh.kinds ExampleMesh.one_triangle (fun _ _ => 1)
       Example.config_flat (Example.tria_prepared Example.unit_triangle) 0
       (ExampleMesh.solver Example.unit_triangle) = Ok s' /\
     vec_val (LinSysRes s') (0 * 2 + 0) = 1 / 6 /\
     forall p d, (p * 2 + d <> 0)%nat -> vec_val (LinSysRes s') (p * 2 + d) = 0) /\
  (forall iDim s',
     Compute_Residual ExampleMesh.kinds ExampleMesh.one_triangle (fun _ _ => 1)
       Example.config_flat (Example.tria_prepared Example.unit_triangle) iDim
       (ExampleMesh.solver Example.unit_triangle) = Ok s' ->
     forall d, (d < 2)%nat -> vec_val (LinSysRes s') (1 * 2 + d) = 0).
Proof.
  splits.
  - exact projection_one_triangle_value.
  - eexists. splits.
    + cbv - [Rplus Rmult Rinv Rdiv IZR Rminus Ropp]. reflexivity.
    + simpl. lra.
    + intros p d Hpd. simpl. unfold fupd.
      destruct (p * 2 + d)%nat as [|[|n]]; simpl; [lia | reflexivity | reflexivity].
  - intros iDim s' E d Hd.
    destruct iDim as [|[|iDim]];
      cbv - [Rplus Rmult Rinv Rdiv IZR Rminus Ropp] in E;
      try discriminate E; injection E as <-;
      destruct d as [|[|d]]; try lia; reflexivity.
Qed.

End Residual.

(** * Further properties of the local operator *)

Section LocalOperatorProperties.

Import Elem Numerics.
Local Open Scope R_scope.

(** The accumulators that [Compute_Tangent_Matrix] leaves, in closed
    form over the element [e1] that the two preparation calls make. *)
Lemma Compute_Tangent_Matrix_closed (num : CGradSmoothing) (element : CElement)
  (config : CConfig) :
  GetSmoothOnSurface config = false ->
  constructed (Elem.nDim element) num ->
  AllocateStructures true element ->
  flat_element element ->
  (nNodes element <= 8)%nat ->
  exists e0 e1 num' h d,
    Acc element e0 (fun _ _ => 0) (fun _ _ _ _ => 0) /\
    gradients_computed e0 e1 (Elem.nDim element) (J_X_Linear e0) (GradNi_X_Linear e0) /\
    Compute_Tangent_Matrix num element config
      = Ok (num', set_DHiDHj (set_HiHj e1 (Some h)) (Some d)) /\
    constructed (Elem.nDim element) num' /\
    shape2 (nNodes element) (nNodes element) h /\
    shape4 (nNodes element) (nNodes element) (Elem.nDim element) (Elem.nDim element) d /\
    (forall i j, (i < nNodes element)%nat -> (j < nNodes element)%nat ->
       at2 h i j = Rsum (nGaussPoints element)
                     (fun g => mass_term e1 (GetSmoothingParamSecond config) g i j)) /\
    (forall i j a b, (i < nNodes element)%nat -> (j < nNodes element)%nat ->
       (a < Elem.nDim element)%nat -> (b < Elem.nDim element)%nat ->
       at4 d i j a b = Rsum (nGaussPoints element)
                         (fun g => stiffness_term e1 (GetSmoothingParam config)
                                     (Elem.nDim element) g i j a b)).
Proof.
  intros Hsurf Hnum Hall Hflat H8.
  destruct (Compute_Tangent_Matrix_ok num element config Hsurf Hnum Hall Hflat H8)
    as (e0 & e1 & Ee0 & Ee1 & Hgc & [num' e'] & Ect & Hnum' & Hacc).
  simpl in Hnum', Hacc.
  destruct (clearElement_ok element Hall) as (e0' & Ee0' & Hacc0).
  rewrite Ee0 in Ee0'. injection Ee0' as <-.
  assert (nNodes e1 = nNodes element /\ Elem.nDim e1 = Elem.nDim element) as [En Ed].
  { destruct Hgc as (gp & -> & _). simpl.
    split; [apply (Acc_nNodes Hacc0) | apply (Acc_nDim Hacc0)]. }
  destruct Hacc as (h & d & -> & Hh & Hd & HH & HD).
  rewrite En in Hh, Hd, HH, HD. rewrite Ed in Hd, HD.
  exists e0, e1, num', h, d. splits; assumption.
Qed.

Lemma stiffness_term_dot (e : CElement) (eps : R) (nd g i j a b : nat) :
  stiffness_term e eps nd g i j a b =
  if (a =? b)%nat
  then Weight_of e g * J_X_of e g * eps * eps
       * Rsum nd (fun d => GradNi_X_of e g i d * GradNi_X_of e g j d)
  else 0.
Proof.
  unfold stiffness_term, stiffness_val. destruct (i <=? j)%nat; [reflexivity |].
  rewrite (Nat.eqb_sym b a). destruct (a =? b)%nat; [| reflexivity].
  f_equal. apply Rsum_ext. intros d _. ring.
Qed.

(** X1.  The matrices that [Compute_Tangent_Matrix] leaves in an element
    are symmetric: [HiHj[i][j] = HiHj[j][i]], and the block
    [DHiDHj[i][j]] is the transpose of [DHiDHj[j][i]]. *)
Theorem Compute_Tangent_Matrix_symmetric (num : CGradSmoothing)
  (element : CElement) (config : CConfig) :
  GetSmoothOnSurface config = false ->
  constructed (Elem.nDim element) num ->
  AllocateStructures true element ->
  flat_element element ->
  (nNodes element <= 8)%nat ->
  exists num' e' h d,
    Compute_Tangent_Matrix num element config = Ok (num', e') /\
    HiHj e' = Some h /\ DHiDHj e' = Some d /\
    (forall i j, (i < nNodes element)%nat -> (j < nNodes element)%nat ->
       at2 h i j = at2 h j i) /\
    (forall i j a b, (i < nNodes element)%nat -> (j < nNodes element)%nat ->
       (a < Elem.nDim element)%nat -> (b < Elem.nDim element)%nat ->
       at4 d i j a b = at4 d j i b a).
Proof.
  intros Hsurf Hnum Hall Hflat H8.
  destruct (Compute_Tangent_Matrix_closed num element config Hsurf Hnum Hall Hflat H8)
    as (e0 & e1 & num' & h & d & _ & _ & Ect & _ & _ & _ & HH & HD).
  exists num', (set_DHiDHj (set_HiHj e1 (Some h)) (Some d)), h, d.
  splits; try reflexivity; try assumption.
  - intros i j Hi Hj. rewrite (HH i j Hi Hj), (HH j i Hj Hi).
    apply Rsum_ext. intros g _. unfold mass_term. ring.
  - intros i j a b Hi Hj Ha Hb. rewrite (HD i j a b Hi Hj Ha Hb), (HD j i b a Hj Hi Hb Ha).
    apply Rsum_ext. intros g _. rewrite !stiffness_term_dot.
    rewrite (Nat.eqb_sym b a). destruct (a =? b)%nat; [| reflexivity].
    f_equal. apply Rsum_ext. intros k _. ring.
Qed.

Lemma Compute_Tangent_Matrix_symmetric_witness :
  exists num' e' h d,
    Compute_Tangent_Matrix (new_CGradSmoothing 2)
      (Example.tria Example.unit_triangle) Example.config_flat = Ok (num', e') /\
    HiHj e' = Some h /\ DHiDHj e' = Some d /\
    (forall i j, (i < 3)%nat -> (j < 3)%nat -> at2 h i j = at2 h j i) /\
    (forall i j a b, (i < 3)%nat -> (j < 3)%nat -> (a < 2)%nat -> (b < 2)%nat ->
       at4 d i j a b = at4 d j i b a).
Proof.
  apply (Compute_Tangent_Matrix_symmetric (new_CGradSmoothing 2)
           (Example.tria Example.unit_triangle) Example.config_flat).
  - reflexivity.
  - apply constructed_new.
  - apply AllocateStructures_tria. apply shape2_3x2.
  - apply flat_element_tria.
  - simpl. lia.
Defined.

(** The gradients that [ComputeGrad_Linear] stores sum to zero over the
    nodes when the parametric derivatives do. *)
Lemma gradients_sum_to_zero (e0 e1 : CElement) (g d : nat) :
  gradients_computed e0 e1 (Elem.nDim e0) (J_X_Linear e0) (GradNi_X_Linear e0) ->
  flat_element e0 -> rows_sum_to_zero e0 (Elem.nDim e0) ->
  (g < nGaussPoints e0)%nat -> (d < Elem.nDim e0)%nat ->
  Rsum (nNodes e0) (fun k => GradNi_X_of e1 g k d) = 0.
Proof.
  intros Hgc Hflat Hz Hg Hd.
  rewrite (Rsum_ext (nNodes e0) _ (fun k => GradNi_X_Linear e0 g k d)).
  2:{ intros k Hk. apply (gradients_computed_at g k d Hgc); assumption. }
  unfold GradNi_X_Linear.
  destruct Hflat as [[E Hn] | [[E Hn] | E]]; rewrite E in *; simpl.
  - unfold GradNi_X_1D.
    rewrite (Rsum_ext _ _ (fun k => / Jacobian_1D e0 * at2 (dN_at e0 g) k 0)).
    2:{ intros k _. unfold Rdiv. apply Rmult_comm. }
    rewrite Rsum_scal. rewrite (Hz g 0%nat Hg) by lia. lra.
  - apply physical_gradient_sum. intros j Hj. apply (Hz g j Hg). exact Hj.
  - apply physical_gradient_sum. intros j Hj. apply (Hz g j Hg). exact Hj.
Qed.

(** X2.  When the parametric shape derivatives of the element sum to
    zero over the nodes (the shape functions sum to one), every row of
    blocks of the stiffness part sums to zero over the nodes: a field
    that is constant over the element gets no diffusion. *)
Theorem Compute_Tangent_Matrix_constant_in_kernel (num : CGradSmoothing)
  (element : CElement) (config : CConfig) :
  GetSmoothOnSurface config = false ->
  constructed (Elem.nDim element) num ->
  AllocateStructures true element ->
  flat_element element ->
  (nNodes element <= 8)%nat ->
  rows_sum_to_zero element (Elem.nDim element) ->
  exists num' e' d,
    Compute_Tangent_Matrix num element config = Ok (num', e') /\
    DHiDHj e' = Some d /\
    forall i a b, (i < nNodes element)%nat ->
      (a < Elem.nDim element)%nat -> (b < Elem.nDim element)%nat ->
      Rsum (nNodes element) (fun j => at4 d i j a b) = 0.
Proof.
  intros Hsurf Hnum Hall Hflat H8 Hz.
  destruct (Compute_Tangent_Matrix_closed num element config Hsurf Hnum Hall Hflat H8)
    as (e0 & e1 & num' & h & d & Hacc0 & Hgc & Ect & _ & _ & _ & _ & HD).
  exists num', (set_DHiDHj (set_HiHj e1 (Some h)) (Some d)), d.
  splits; try reflexivity; try assumption.
  intros i a b Hi Ha Hb.
  pose proof (Acc_nNodes Hacc0) as En0. pose proof (Acc_nDim Hacc0) as Ed0.
  pose proof (Acc_nGaussPoints Hacc0) as Eg0.
  assert (flat_element e0) as Hflat0.
  { unfold flat_element. rewrite En0, Ed0. exact Hflat. }
  assert (rows_sum_to_zero e0 (Elem.nDim e0)) as Hz0.
  { destruct Hacc0 as (h0 & d0 & -> & _). exact Hz. }
  rewrite <- Ed0 in Hgc.
  rewrite (Rsum_ext _ _ (fun j => Rsum (nGaussPoints element)
             (fun g => stiffness_term e1 (GetSmoothingParam config)
                         (Elem.nDim element) g i j a b))).
  2:{ intros j Hj. apply HD; assumption. }
  rewrite Rsum_swap. apply Rsum_zero. intros g Hg.
  rewrite (Rsum_ext _ _ (fun j =>
             (if (a =? b)%nat
              then Weight_of e1 g * J_X_of e1 g * GetSmoothingParam config
                   * GetSmoothingParam config else 0)
             * Rsum (Elem.nDim element)
                 (fun k => GradNi_X_of e1 g i k * GradNi_X_of e1 g j k))).
  2:{ intros j _. rewrite stiffness_term_dot. destruct (a =? b)%nat; ring. }
  rewrite Rsum_scal. rewrite Rsum_swap.
  rewrite (Rsum_zero (Elem.nDim element)); [ring |].
  intros k Hk. rewrite Rsum_scal.
  rewrite <- En0, <- Ed0 in *. rewrite <- Eg0 in Hg.
  rewrite (gradients_sum_to_zero e0 e1 g k Hgc Hflat0 Hz0 Hg Hk). ring.
Qed.

Lemma Compute_Tangent_Matrix_constant_in_kernel_witness :
  exists num' e' d,
    Compute_Tangent_Matrix (new_CGradSmoothing 2)
      (Example.tria Example.unit_triangle) Example.config_flat = Ok (num', e') /\
    DHiDHj e' = Some d /\
    forall i a b, (i < 3)%nat -> (a < 2)%nat -> (b < 2)%nat ->
      Rsum 3 (fun j => at4 d i j a b) = 0.
Proof.
  apply (Compute_Tangent_Matrix_constant_in_kernel (new_CGradSmoothing 2)
           (Example.tria Example.unit_triangle) Example.config_flat).
  - reflexivity.
  - apply constructed_new.
  - apply AllocateStructures_tria. apply shape2_3x2.
  - apply flat_element_tria.
  - simpl. lia.
  - apply rows_sum_to_zero_tria.
Defined.

(** X3.  When the shape functions of the element sum to one at every
    quadrature point, the entries of the mass part sum to [zeta] times
    the sum of [weight * J_X] over the quadrature points, with the
    weights and the values [J_X] that the element holds after the call. *)
Theorem Compute_Tangent_Matrix_mass_total (num : CGradSmoothing)
  (element : CElement) (config : CConfig) :
  GetSmoothOnSurface config = false ->
  constructed (Elem.nDim element) num ->
  AllocateStructures true element ->
  flat_element element ->
  (nNodes element <= 8)%nat ->
  (forall g, (g < nGaussPoints element)%nat ->
     Rsum (nNodes element) (fun i => Ni_of element g i) = 1) ->
  exists num' e' h,
    Compute_Tangent_Matrix num element config = Ok (num', e') /\
    HiHj e' = Some h /\
    Rsum (nNodes element) (fun i => Rsum (nNodes element) (fun j => at2 h i j)) =
    GetSmoothingParamSecond config
    * Rsum (nGaussPoints element) (fun g => Weight_of e' g * J_X_of e' g).
Proof.
  intros Hsurf Hnum Hall Hflat H8 Hone.
  destruct (Compute_Tangent_Matrix_closed num element config Hsurf Hnum Hall Hflat H8)
    as (e0 & e1 & num' & h & d & Hacc0 & Hgc & Ect & _ & _ & _ & HH & _).
  exists num', (set_DHiDHj (set_HiHj e1 (Some h)) (Some d)), h.
  splits; try reflexivity; try assumption.
  assert (forall g i, (g < nGaussPoints element)%nat ->
            Ni_of e1 g i = Ni_of element g i) as HNi.
  { intros g i Hg. destruct Hgc as (gp & -> & Hlen & Hst).
    rewrite <- (Acc_nGaussPoints Hacc0) in Hg.
    destruct (Hst g Hg) as (EN & _). unfold Ni_of. simpl. rewrite EN.
    rewrite (Acc_GaussPoint Hacc0). reflexivity. }
  set (zeta := GetSmoothingParamSecond config) in *.
  rewrite (Rsum_ext _ _ (fun i => Rsum (nGaussPoints element) (fun g =>
             zeta * (Weight_of e1 g * J_X_of e1 g) * Ni_of element g i))).
  2:{ intros i Hi.
      rewrite (Rsum_ext _ _ (fun j => Rsum (nGaussPoints element)
                 (fun g => mass_term e1 zeta g i j))).
      2:{ intros j Hj. apply HH; assumption. }
      rewrite Rsum_swap. apply Rsum_ext. intros g Hg.
      rewrite (Rsum_ext _ _ (fun j =>
                 (Weight_of e1 g * J_X_of e1 g * zeta * Ni_of element g i)
                 * Ni_of element g j)).
      2:{ intros j _. unfold mass_term. rewrite !HNi by exact Hg. ring. }
      assert (Rsum (nNodes element) (Ni_of element g) = 1) as Hg1
        by exact (Hone g Hg).
      rewrite Rsum_scal, Hg1. ring. }
  rewrite Rsum_swap.
  rewrite (Rsum_ext _ _ (fun g => zeta * (Weight_of e1 g * J_X_of e1 g))).
  2:{ intros g Hg.
      assert (Rsum (nNodes element) (Ni_of element g) = 1) as Hg1
        by exact (Hone g Hg).
      rewrite Rsum_scal, Hg1. ring. }
  rewrite Rsum_scal. reflexivity.
Qed.

Lemma Compute_Tangent_Matrix_mass_total_witness :
  exists num' e' h,
    Compute_Tangent_Matrix (new_CGradSmoothing 2)
      (Example.tria Example.unit_triangle) Example.config_flat = Ok (num', e') /\
    HiHj e' = Some h /\
    Rsum 3 (fun i => Rsum 3 (fun j => at2 h i j)) =
    1 * Rsum 1 (fun g => Weight_of e' g * J_X_of e' g).
Proof.
  apply (Compute_Tangent_Matrix_mass_total (new_CGradSmoothing 2)
           (Example.tria Example.unit_triangle) Example.config_flat).
  - reflexivity.
  - apply constructed_new.
  - apply AllocateStructures_tria. apply shape2_3x2.
  - apply flat_element_tria.
  - simpl. lia.
  - intros g Hg. simpl in Hg. assert (g = 0%nat) as -> by lia.
    unfold Ni_of. simpl. lra.
Defined.

(** What [ComputeGrad_Linear] stores depends on the element through its
    extents, its reference coordinates and its table of parametric
    derivatives only. *)
Lemma Linear_ext (a b : CElement) :
  Elem.nDim a = Elem.nDim b -> nNodes a = nNodes b ->
  RefCoord a = RefCoord b -> dNiXj a = dNiXj b ->
  (forall g, J_X_Linear a g = J_X_Linear b g) /\
  (forall g k d, GradNi_X_Linear a g k d = GradNi_X_Linear b g k d).
Proof.
  intros Ed En Er Et.
  unfold J_X_Linear, GradNi_X_Linear, GradNi_X_1D, GradNi_X_2D, GradNi_X_3D,
    Jacobian_1D, Jacobian_2D, Jacobian_3D, dN_at.
  rewrite Ed, En, Er, Et. split; reflexivity.
Qed.

(** X4.  [Compute_Tangent_Matrix] restarts the element: run a second
    time on the element that the first run leaves, it returns the same
    entries of [HiHj] and [DHiDHj], not twice their values. *)
Theorem Compute_Tangent_Matrix_restarts (num : CGradSmoothing)
  (element : CElement) (config : CConfig) :
  GetSmoothOnSurface config = false ->
  constructed (Elem.nDim element) num ->
  AllocateStructures true element ->
  flat_element element ->
  (nNodes element <= 8)%nat ->
  exists num1 e1 num2 e2 h1 d1 h2 d2,
    Compute_Tangent_Matrix num element config = Ok (num1, e1) /\
    Compute_Tangent_Matrix num1 e1 config = Ok (num2, e2) /\
    HiHj e1 = Some h1 /\ DHiDHj e1 = Some d1 /\
    HiHj e2 = Some h2 /\ DHiDHj e2 = Some d2 /\
    (forall i j, (i < nNodes element)%nat -> (j < nNodes element)%nat ->
       at2 h2 i j = at2 h1 i j) /\
    (forall i j a b, (i < nNodes element)%nat -> (j < nNodes element)%nat ->
       (a < Elem.nDim element)%nat -> (b < Elem.nDim element)%nat ->
       at4 d2 i j a b = at4 d1 i j a b).
Proof.
  intros Hsurf Hnum Hall Hflat H8.
  destruct (Compute_Tangent_Matrix_closed num element config Hsurf Hnum Hall Hflat H8)
    as (e0 & e1 & num1 & h1 & d1 & Hacc0 & Hgc & Ect & Hnum1 & Hh1 & Hd1 & HH1 & HD1).
  remember (set_DHiDHj (set_HiHj e1 (Some h1)) (Some d1)) as r1 eqn:Er1.
  destruct (Compute_Tangent_Matrix_result (Elem.nDim element) num element config
              Hsurf Hnum) as ([num1' r1'] & Ect' & _ & (Hall1 & Hflat1 & H81 & Ed1) & En1 & _).
  { unfold element_ok. splits; try assumption. reflexivity. }
  rewrite Ect in Ect'. injection Ect' as <- <-.
  cbn [fst snd] in Hall1, Hflat1, H81, Ed1, En1.
  assert (nGaussPoints r1 = nGaussPoints element) as Eg1.
  { subst r1. destruct Hgc as (gp & -> & _). simpl. apply (Acc_nGaussPoints Hacc0). }
  rewrite <- Ed1 in Hnum1.
  destruct (Compute_Tangent_Matrix_closed num1 r1 config Hsurf Hnum1 Hall1 Hflat1 H81)
    as (f0 & f1 & num2 & h2 & d2 & Hbcc0 & Hgd & Ect2 & _ & _ & _ & HH2 & HD2).
  rewrite En1, Eg1 in HH2, HD2. rewrite Ed1 in HD2, Hgd.
  assert (forall g, (g < nGaussPoints element)%nat ->
            Weight_of f1 g = Weight_of e1 g /\ J_X_of f1 g = J_X_of e1 g /\
            (forall i, Ni_of f1 g i = Ni_of e1 g i) /\
            (forall i k, (i < nNodes element)%nat -> (k < Elem.nDim element)%nat ->
               GradNi_X_of f1 g i k = GradNi_X_of e1 g i k)) as Hsame.
  { intros g Hg.
    pose proof (Acc_nGaussPoints Hacc0) as Eg0. pose proof (Acc_nNodes Hacc0) as En0.
    pose proof (Acc_nGaussPoints Hbcc0) as Egf. pose proof (Acc_nNodes Hbcc0) as Enf.
    destruct (Linear_ext f0 e0) as [HJ HG].
    { destruct Hbcc0 as (hb & db & -> & _). subst r1.
      destruct Hgc as (gp & -> & _). reflexivity. }
    { destruct Hbcc0 as (hb & db & -> & _). subst r1.
      destruct Hgc as (gp & -> & _). reflexivity. }
    { destruct Hbcc0 as (hb & db & -> & _). subst r1.
      destruct Hgc as (gp & -> & _). reflexivity. }
    { destruct Hbcc0 as (hb & db & -> & _). subst r1.
      destruct Hgc as (gp & -> & _). reflexivity. }
    assert (g < nGaussPoints e0)%nat as Hg0 by (rewrite Eg0; exact Hg).
    assert (g < nGaussPoints f0)%nat as Hgf by (rewrite Egf, Eg1; exact Hg).
    destruct Hgd as (gq & -> & Hlenq & Hstq).
    destruct (Hstq g Hgf) as (ENq & _ & _ & EJq & EGq).
    assert (GaussPoint f0 = GaussPoint e1 /\ GaussWeight f0 = GaussWeight e1) as [Egp Egw].
    { destruct Hbcc0 as (hb & db & -> & _). subst r1. split; reflexivity. }
    destruct Hgc as (gp & -> & Hlenp & Hstp).
    destruct (Hstp g Hg0) as (ENp & _ & _ & EJp & EGp).
    unfold Weight_of, J_X_of, Ni_of, GradNi_X_of. simpl. simpl in Egp, Egw.
    splits.
    - rewrite Egw. reflexivity.
    - rewrite EJq, EJp. apply HJ.
    - intros i. rewrite ENq, Egp. reflexivity.
    - intros i k Hi Hk. rewrite EGq, EGp, Enf, En1, En0.
      apply Nat.ltb_lt in Hi, Hk. rewrite Hi, Hk. simpl. apply HG. }
  exists num1, r1, num2, (set_DHiDHj (set_HiHj f1 (Some h2)) (Some d2)), h1, d1, h2, d2.
  splits; try (subst r1; reflexivity); try assumption.
  - intros i j Hi Hj. rewrite (HH2 i j Hi Hj), (HH1 i j Hi Hj).
    apply Rsum_ext. intros g Hg. destruct (Hsame g Hg) as (Ew & EJ & EN & _).
    unfold mass_term. rewrite Ew, EJ, !EN. reflexivity.
  - intros i j a b Hi Hj Ha Hb.
    rewrite (HD2 i j a b Hi Hj Ha Hb), (HD1 i j a b Hi Hj Ha Hb).
    apply Rsum_ext. intros g Hg. destruct (Hsame g Hg) as (Ew & EJ & _ & EG).
    rewrite !stiffness_term_dot. destruct (a =? b)%nat; [| reflexivity].
    rewrite Ew, EJ. f_equal. apply Rsum_ext. intros k Hk.
    rewrite !EG by assumption. reflexivity.
Qed.

Lemma Compute_Tangent_Matrix_restarts_witness :
  exists num1 e1 num2 e2 h1 d1 h2 d2,
    Compute_Tangent_Matrix (new_CGradSmoothing 2)
      (Example.tria Example.unit_triangle) Example.config_flat = Ok (num1, e1) /\
    Compute_Tangent_Matrix num1 e1 Example.config_flat = Ok (num2, e2) /\
    HiHj e1 = Some h1 /\ DHiDHj e1 = Some d1 /\
    HiHj e2 = Some h2 /\ DHiDHj e2 = Some d2 /\
    (forall i j, (i < 3)%nat -> (j < 3)%nat -> at2 h2 i j = at2 h1 i j) /\
    (forall i j a b, (i < 3)%nat -> (j < 3)%nat -> (a < 2)%nat -> (b < 2)%nat ->
       at4 d2 i j a b = at4 d1 i j a b).
Proof.
  apply (Compute_Tangent_Matrix_restarts (new_CGradSmoothing 2)
           (Example.tria Example.unit_triangle) Example.config_flat).
  - reflexivity.
  - apply constructed_new.
  - apply AllocateStructures_tria. apply shape2_3x2.
  - apply flat_element_tria.
  - simpl. lia.
Defined.



End LocalOperatorProperties.

(** * Where the local operator stops *)

Section LocalOperatorFaults.

Import Elem Numerics.
Local Open Scope R_scope.

(** The local operator on the curved surface, with numerics that hold
    no coordinates. *)
Lemma surface_without_Coord (num : CGradSmoothing)
  (element : CElement) (config : CConfig) :
  GetSmoothOnSurface config = true ->
  AllocateStructures true element ->
  (length (Coord num) <= 1)%nat ->
  Elem.nDim element = 1%nat \/ (1 <= nGaussPoints element)%nat ->
  Compute_Tangent_Matrix num element config = Fault (OutOfBounds "Coord").
Proof.
  intros Hsurf Hall Hlen Hcase.
  destruct (clearElement_ok element Hall) as (e0 & Ee0 & Hacc0).
  unfold Compute_Tangent_Matrix. rewrite Hsurf, Ee0. simpl bind.
  assert (ComputeGrad_Linear_Coord (Coord num) e0 = Fault (OutOfBounds "Coord")) as ->;
    [| reflexivity].
  unfold ComputeGrad_Linear_Coord. rewrite (Acc_nDim Hacc0).
  destruct (Nat.eqb_spec (Elem.nDim element) 1) as [E | E].
  - unfold ComputeGrad_1D_Coord, rd2.
    rewrite (rd_fault "Coord" (Coord num) 1) by exact Hlen. reflexivity.
  - destruct Hcase as [E1 | Hg]; [contradiction |].
    unfold ComputeGrad_2D_Coord.
    rewrite (for_first_fault (nGaussPoints e0) _ _ (OutOfBounds "Coord"));
      [reflexivity | rewrite (Acc_nGaussPoints Hacc0); lia |].
    rewrite (for_first_fault 3 _ _ (OutOfBounds "Coord")); [reflexivity | lia |].
    rewrite (for_first_fault 2 _ _ (OutOfBounds "Coord")); [reflexivity | lia |].
    unfold rd2. rewrite (rd_fault "Coord" (Coord num) (0 + 1)) by (simpl; exact Hlen).
    reflexivity.
Qed.

(** X5.  In the curved-surface configuration [Compute_Tangent_Matrix]
    reads the member [Coord] of the numerics, which only [SetCoord]
    fills.  With a [Coord] of fewer than two rows (the empty vector that
    the constructor leaves, in particular) the first read of [Coord[1]]
    is outside the vector, for an element of dimension one or with a
    quadrature point. *)
Theorem Compute_Tangent_Matrix_surface_needs_SetCoord (num : CGradSmoothing)
  (element : CElement) (config : CConfig) :
  GetSmoothOnSurface config = true ->
  AllocateStructures true element ->
  (length (Coord num) <= 1)%nat ->
  Elem.nDim element = 1%nat \/ (1 <= nGaussPoints element)%nat ->
  Compute_Tangent_Matrix num element config = Fault (OutOfBounds "Coord").
Proof. exact (surface_without_Coord num element config). Qed.

Lemma Compute_Tangent_Matrix_surface_needs_SetCoord_witness :
  Compute_Tangent_Matrix (new_CGradSmoothing 2)
    (Example.tria Example.unit_triangle) Example.config_surface
  = Fault (OutOfBounds "Coord").
Proof.
  apply (Compute_Tangent_Matrix_surface_needs_SetCoord (new_CGradSmoothing 2)
           (Example.tria Example.unit_triangle) Example.config_surface).
  - reflexivity.
  - apply AllocateStructures_tria. apply shape2_3x2.
  - simpl. lia.
  - right. simpl. lia.
Defined.

(** [clearElement] tests the two accumulators against [NULL]: an element
    without them comes back as it is. *)
Lemma clearElement_null (e : CElement) :
  HiHj e = None -> DHiDHj e = None -> clearElement true e = Ok e.
Proof.
  intros EH ED. unfold clearElement.
  apply returns_eq.
  loop (fun (I : nat) t => t = e).
  - reflexivity.
  - intros I t HI ->.
    loop (fun (J : nat) t => t = e).
    + reflexivity.
    + intros J t HJ ->. rewrite EH. simpl bind.
      loop (fun (A : nat) t => t = e).
      * reflexivity.
      * intros A t HA ->.
        loop (fun (B : nat) t => t = e).
        -- reflexivity.
        -- intros B t HB ->. rewrite ED. apply returns_Ok. reflexivity.
        -- intros t Ht. exact Ht.
      * intros t Ht. exact Ht.
    + intros t Ht. exact Ht.
  - intros t Ht. exact Ht.
Qed.

(** [Add_DHiDHj] and [Add_DHiDHj_T] do not test: on an element without
    the accumulator the first addition dereferences [NULL]. *)
Lemma Add_DHiDHj_null (val : list (list R)) (A B : nat) (e : CElement) :
  DHiDHj e = None -> (1 <= Elem.nDim e)%nat ->
  Add_DHiDHj val A B e = Fault (NullPointer "DHiDHj") /\
  Add_DHiDHj_T val A B e = Fault (NullPointer "DHiDHj").
Proof.
  intros ED Hd. unfold Add_DHiDHj, Add_DHiDHj_T. split.
  - rewrite (for_first_fault (Elem.nDim e) _ _ (NullPointer "DHiDHj"));
      [reflexivity | lia |].
    rewrite (for_first_fault (Elem.nDim e) _ _ (NullPointer "DHiDHj"));
      [reflexivity | lia |].
    rewrite ED. reflexivity.
  - rewrite (for_first_fault (Elem.nDim e) _ _ (NullPointer "DHiDHj"));
      [reflexivity | lia |].
    rewrite (for_first_fault (Elem.nDim e) _ _ (NullPointer "DHiDHj"));
      [reflexivity | lia |].
    rewrite ED. reflexivity.
Qed.

(** X6.  The smoothing operator needs the accumulators that
    [AllocateStructures] gives only for gradient smoothing: on an element
    allocated without them, [Compute_Tangent_Matrix] passes
    [clearElement] and the gradients, and stops with a [NULL] dereference
    at the first [Add_DHiDHj]. *)
Theorem Compute_Tangent_Matrix_needs_accumulators (num : CGradSmoothing)
  (element : CElement) (config : CConfig) :
  GetSmoothOnSurface config = false ->
  constructed (Elem.nDim element) num ->
  AllocateStructures false element ->
  HiHj element = None -> DHiDHj element = None ->
  flat_element element ->
  (1 <= nNodes element <= 8)%nat -> (1 <= nGaussPoints element)%nat ->
  Compute_Tangent_Matrix num element config = Fault (NullPointer "DHiDHj").
Proof.
  intros Hsurf Hnum Hall EH ED Hflat Hn Hg.
  assert (1 <= Elem.nDim element)%nat as Hd
    by (destruct Hflat as [[E _] | [[E _] | E]]; lia).
  unfold Compute_Tangent_Matrix.
  rewrite Hsurf, (clearElement_null element EH ED). simpl bind.
  destruct (ComputeGrad_Linear_ok element false Hall Hflat)
    as (e1 & Ee1 & gp & -> & Hlen & _).
  rewrite Ee1. simpl bind. unfold GetnNodes, GetnGaussPoints.
  assert (stiffness_pass (nDim num) (nNodes element) (nGaussPoints element)
            (GetSmoothingParam config) (num, set_GaussPoint element gp, 0)
          = Fault (NullPointer "DHiDHj")) as ->; [| reflexivity].
  destruct (constructed_NumSt _ _ Hnum) as (G0 & V0 & HN0).
  assert (nDim num = Elem.nDim element) as End by (destruct Hnum; assumption).
  unfold stiffness_pass.
  rewrite (for_first_fault (nGaussPoints element) _ _ (NullPointer "DHiDHj"));
    [reflexivity | lia |].
  unfold GetWeight, GetJ_X. simpl GaussWeight. simpl GaussPoint.
  destruct Hall as (_ & _ & _ & Hw & _).
  rewrite (rd_ok "GaussWeight" (GaussWeight element) 0 0) by (rewrite Hw; lia).
  simpl bind.
  rewrite (rd_ok "GaussPoint" gp 0 gauss0) by lia. simpl bind.
  assert (returns
    (for_ (nNodes element) (fun iShape => for_ (nDim num) (fun iDim num0 =>
       g <- GetGradNi_X (set_GaussPoint element gp) iShape 0 iDim ;;
       m <- wr2 "GradNi_Ref_Mat" (GradNi_Ref_Mat num0) iShape iDim g ;;
       Ok (set_GradNi_Ref_Mat num0 m))) num)
    (fun num' => exists G, NumSt (Elem.nDim element) num' G V0))
    as (num1 & Enum1 & G1 & HN1).
  { rewrite End.
    loop (fun (I : nat) t => exists G, NumSt (Elem.nDim element) t G V0).
    - exists G0. exact HN0.
    - intros I t HI Ht.
      loop (fun (K : nat) u => exists G, NumSt (Elem.nDim element) u G V0).
      + exact Ht.
      + intros K u HK (G & E & HG & HV & HN).
        unfold GetGradNi_X. simpl GaussPoint.
        rewrite (rd_ok "GaussPoint" gp 0 gauss0) by lia. simpl bind.
        destruct (Mat_wr "GradNi_Ref_Mat" I K
                    (GradNi_Xj (nth 0 gp gauss0) I K) HG) as [Hwr HG']; [lia | lia |].
        rewrite Hwr. simpl bind. apply returns_Ok.
        eexists. unfold NumSt; splits; try assumption. exact HG'.
      + intros u Hu. exact Hu.
    - intros t Ht. exact Ht. }
  rewrite Enum1. simpl bind.
  rewrite (for_first_fault (nNodes element) _ _ (NullPointer "DHiDHj"));
    [reflexivity | lia |].
  unfold for_from.
  rewrite (for_first_fault (nNodes element - 0) _ _ (NullPointer "DHiDHj"));
    [reflexivity | lia |].
  unfold stiffness_pair. cbn [Nat.add].
  assert (nDim num1 = Elem.nDim element) as End1 by (destruct HN1; assumption).
  assert (returns
    (for_ (nDim num) (fun iDim acc =>
       a <- rd2 "GradNi_Ref_Mat" (GradNi_Ref_Mat num1) 0 iDim ;;
       b <- rd2 "GradNi_Ref_Mat" (GradNi_Ref_Mat num1) 0 iDim ;;
       Ok (acc + a * b)) 0) (fun _ => True)) as (x & Ex & _).
  { rewrite End. loop (fun (K : nat) (acc : R) => True).
    - exact I.
    - intros K acc HK _. destruct HN1 as (_ & HG & _).
      rewrite (Mat_rd "GradNi_Ref_Mat" 0 K HG) by lia. simpl bind.
      apply returns_Ok. exact I.
    - intros acc _. exact I. }
  rewrite Ex. simpl bind.
  destruct (fill_val_ok (Elem.nDim element) num1 G1 V0
              (Weight_of element 0 * J_X (nth 0 gp gauss0)
               * GetSmoothingParam config * GetSmoothingParam config * x) HN1)
    as (num2 & Enum2 & _).
  unfold Weight_of, at1 in Enum2. rewrite Enum2. simpl bind.
  destruct (Add_DHiDHj_null (val_DHiDHj num2) 0 0 (set_GaussPoint element gp))
    as [-> _]; [exact ED | exact Hd |].
  reflexivity.
Qed.

Lemma AllocateStructures_tria_plain (Coord : list (list R)) :
  shape2 3 2 Coord -> AllocateStructures false (Cases.tria_plain Coord).
Proof.
  intros HC. destruct (AllocateStructures_tria Coord HC) as (A1 & A2 & A3 & A4 & A5 & _).
  unfold AllocateStructures. simpl. splits; try assumption. exact I.
Qed.

Lemma Compute_Tangent_Matrix_needs_accumulators_witness :
  Compute_Tangent_Matrix (new_CGradSmoothing 2)
    (Cases.tria_plain Example.unit_triangle) Example.config_flat
  = Fault (NullPointer "DHiDHj").
Proof.
  apply (Compute_Tangent_Matrix_needs_accumulators (new_CGradSmoothing 2)
           (Cases.tria_plain Example.unit_triangle) Example.config_flat).
  - reflexivity.
  - apply constructed_new.
  - apply AllocateStructures_tria_plain. apply shape2_3x2.
  - reflexivity.
  - reflexivity.
  - right. left. simpl. split; [reflexivity | lia].
  - simpl. lia.
  - simpl. lia.
Defined.

End LocalOperatorFaults.

(** * The assembled matrix *)

Section AssembledMatrix.

Import Solver.
Local Open Scope R_scope.




(** A relation that every pass of a loop keeps is kept by the loop. *)
Lemma for_preserves {S : Type} (R : S -> S -> Prop) (n : nat)
  (body : nat -> S -> result S) (s s' : S) :
  (forall t, R t t) ->
  (forall a b c, R a b -> R b c -> R a c) ->
  (forall i t t', (i < n)%nat -> body i t = Ok t' -> R t t') ->
  for_ n body s = Ok s' -> R s s'.
Proof.
  intros Hrefl Htrans Hbody. revert s'.
  induction n as [|n IH]; intros s' E; simpl in E.
  - injection E as <-. apply Hrefl.
  - destruct (for_ n body s) as [t | f] eqn:Et; [| discriminate E].
    simpl in E. apply (Htrans s t s').
    + apply IH; [| reflexivity]. intros i u u' Hi. apply Hbody. lia.
    + apply (Hbody n); [lia | exact E].
Qed.

Lemma coords_only_trans (k : nat) (a b c : CGradientSmoothingSolver) :
  coords_only k a b -> coords_only k b c -> coords_only k a c.
Proof.
  intros [-> | (e & x & Ee & ->)] [-> | (e' & x' & Ee' & ->)].
  - left. reflexivity.
  - right. exists e', x'. split; [exact Ee' | reflexivity].
  - right. exists e, x. split; [exact Ee | reflexivity].
  - right. exists e, x'. split; [exact Ee |].
    assert (k < length (element_container a))%nat as Hk
      by (eapply nth_error_lt; exact Ee).
    rewrite (put_element_slot a k _ Hk) in Ee'. injection Ee' as <-.
    unfold put_element. simpl. rewrite upd_upd. reflexivity.
Qed.

Lemma the_element_inv (s : CGradientSmoothingSolver) (k : nat) (e : Elem.CElement) :
  the_element s k = Ok e -> nth_error (element_container s) k = Some (Some e).
Proof.
  unfold the_element, rd. intros E.
  destruct (nth_error (element_container s) k) as [[e' |] |]; simpl in E;
    try discriminate E.
  injection E as <-. reflexivity.
Qed.

(** The loop that copies the coordinates changes nothing in the solver
    but the reference coordinates of the element of slot [k]. *)
Lemma coordinates_loop_only (geometry : CGeometry) (iElem k n : nat)
  (s s' : CGradientSmoothingSolver) (idx idx' : list nat) :
  for_ n (fun iNode '(s, indexNode) =>
       indexNode <- wr "indexNode" indexNode iNode
                       (GetNode (elem geometry iElem) iNode) ;;
       s <- for_ (nDim s) (fun iDim s =>
           i <- rd "indexNode" indexNode iNode ;;
           let val_Coord := Get_ValCoord geometry i iDim in
           e <- the_element s k ;;
           e <- Elem.SetRef_Coord val_Coord iNode iDim e ;;
           Ok (put_element s k e)) s ;;
       Ok (s, indexNode)) (s, idx) = Ok (s', idx') ->
  coords_only k s s'.
Proof.
  intros E.
  apply (for_preserves
           (fun (a b : CGradientSmoothingSolver * list nat) =>
              coords_only k (fst a) (fst b)) _ _ _ _
           (fun t => or_introl eq_refl)
           (fun a b c => coords_only_trans k (fst a) (fst b) (fst c))) in E;
    [exact E |].
  intros iNode [t tidx] [t' tidx'] _ Eb. simpl.
  destruct (wr "indexNode" tidx iNode (GetNode (elem geometry iElem) iNode))
    as [idx1 | f]; [| discriminate Eb]. simpl bind in Eb.
  destruct (for_ (nDim t) _ t) as [u | f] eqn:Eu; [| discriminate Eb].
  simpl in Eb. injection Eb as <- <-.
  apply (for_preserves (coords_only k) _ _ _ _
           (fun t => or_introl eq_refl) (coords_only_trans k)) in Eu; [exact Eu |].
  intros iDim v v' _ Ev.
  destruct (rd "indexNode" idx1 iNode) as [i | f]; [| discriminate Ev].
  simpl bind in Ev.
  destruct (the_element v k) as [e | f] eqn:Ee; [| discriminate Ev].
  simpl bind in Ev. unfold Elem.SetRef_Coord in Ev.
  destruct (wr2 "RefCoord" (Elem.RefCoord e) iNode iDim (Get_ValCoord geometry i iDim))
    as [c | f]; [| discriminate Ev].
  simpl in Ev. injection Ev as <-.
  right. exists e, c. split; [apply the_element_inv; exact Ee | reflexivity].
Qed.

Lemma returns_and {A} (c : result A) (Q P : A -> Prop) :
  returns c Q -> (forall a, c = Ok a -> P a) ->
  returns c (fun a => Q a /\ P a).
Proof.
  intros (a & E & HQ) HP. exists a. split; [exact E |]. split; [exact HQ | exact (HP a E)].
Qed.














End AssembledMatrix.
(** * The assembled system matrix *)

Section AssembledSystem.

Import Solver.
Local Open Scope R_scope.

















End AssembledSystem.
(** * The gradients under a motion of the element *)

Section GradientInvariance.

Import Elem.
Local Open Scope R_scope.

Lemma Jacobian_sum_translated (n nd : nat) (X X' dN : list (list R))
  (t : nat -> R) (iDim jDim : nat) :
  translated n nd X X' t -> (jDim < nd)%nat ->
  Rsum n (fun iNode => at2 dN iNode iDim) = 0 ->
  Jacobian_sum X' dN n iDim jDim = Jacobian_sum X dN n iDim jDim.
Proof.
  intros (_ & HX) Hj Hz. unfold Jacobian_sum.
  rewrite (Rsum_ext n _ (fun iNode =>
             at2 X iNode jDim * at2 dN iNode iDim + t jDim * at2 dN iNode iDim)).
  2:{ intros i Hi. rewrite (HX i jDim Hi Hj). ring. }
  rewrite Rsum_plus, Rsum_scal, Hz. ring.
Qed.

Lemma Jacobian_matrix_translated (m n nd : nat) (X X' dN : list (list R))
  (t : nat -> R) :
  translated n nd X X' t -> (m <= nd)%nat ->
  (forall k, (k < m)%nat -> Rsum n (fun iNode => at2 dN iNode k) = 0) ->
  Jacobian_matrix m X' dN n = Jacobian_matrix m X dN n.
Proof.
  intros HX Hm Hz. unfold Jacobian_matrix.
  apply map_ext_in. intros iDim Hi. apply in_seq in Hi.
  apply map_ext_in. intros jDim Hj. apply in_seq in Hj.
  apply (Jacobian_sum_translated n nd X X' dN t); [exact HX | lia | apply Hz; lia].
Qed.

(** The closed forms of what [ComputeGrad_Linear] stores do not see a
    translation of the element. *)
Lemma Linear_translated (e : CElement) (X' : list (list R)) (t : nat -> R) (g : nat) :
  flat_element e -> rows_sum_to_zero e (nDim e) ->
  translated (nNodes e) (nDim e) (RefCoord e) X' t ->
  (g < nGaussPoints e)%nat ->
  J_X_Linear (set_RefCoord e X') g = J_X_Linear e g /\
  forall i d, GradNi_X_Linear (set_RefCoord e X') g i d = GradNi_X_Linear e g i d.
Proof.
  intros Hflat Hz HX Hg.
  unfold J_X_Linear, GradNi_X_Linear. simpl nDim.
  destruct Hflat as [[E Hn] | [[E Hn] | E]]; rewrite E in *; simpl.
  - assert (Jacobian_1D (set_RefCoord e X') = Jacobian_1D e) as EJ.
    { unfold Jacobian_1D. simpl RefCoord. destruct HX as (_ & HX).
      rewrite !HX by lia. ring. }
    split; [exact EJ |]. intros i d. unfold GradNi_X_1D. rewrite EJ. reflexivity.
  - assert (Jacobian_2D (set_RefCoord e X') g = Jacobian_2D e g) as EJ.
    { unfold Jacobian_2D. simpl.
      apply (Jacobian_matrix_translated 2 (nNodes e) 2 _ _ _ t HX); [lia |].
      intros k Hk. apply (Hz g k Hg Hk). }
    split.
    + unfold TrafoJacobi. simpl RefCoord. destruct HX as (_ & HX).
      rewrite !HX by lia. f_equal. ring.
    + intros i d. unfold GradNi_X_2D. rewrite EJ. reflexivity.
  - assert (Jacobian_3D (set_RefCoord e X') g = Jacobian_3D e g) as EJ.
    { unfold Jacobian_3D. simpl.
      apply (Jacobian_matrix_translated 3 (nNodes e) 3 _ _ _ t HX); [lia |].
      intros k Hk. apply (Hz g k Hg Hk). }
    split; [rewrite EJ; reflexivity |].
    intros i d. unfold GradNi_X_3D. rewrite EJ. reflexivity.
Qed.

Lemma AllocateStructures_set_RefCoord (gs : bool) (e : CElement) (X : list (list R)) :
  AllocateStructures gs e -> shape2 (nNodes e) (nDim e) X ->
  AllocateStructures gs (set_RefCoord e X).
Proof.
  intros (A1 & A2 & A3 & A4 & A5 & A6) HX. unfold AllocateStructures. simpl.
  splits; assumption.
Qed.

(** X11.  The gradients do not see where the element lies: when the
    parametric derivatives of the shape functions sum to zero over the
    nodes, [ComputeGrad_Linear] stores, for an element and for the same
    element with every node moved by the same vector, the same Jacobian
    and the same gradient of every shape function at every quadrature
    point. *)
Theorem ComputeGrad_Linear_translation_invariant (e : CElement) (gs : bool)
  (X' : list (list R)) (t : nat -> R) :
  AllocateStructures gs e -> flat_element e ->
  rows_sum_to_zero e (nDim e) ->
  translated (nNodes e) (nDim e) (RefCoord e) X' t ->
  exists e1 e2,
    ComputeGrad_Linear e = Ok e1 /\
    ComputeGrad_Linear (set_RefCoord e X') = Ok e2 /\
    forall g i d, (g < nGaussPoints e)%nat ->
      J_X_of e2 g = J_X_of e1 g /\ GradNi_X_of e2 g i d = GradNi_X_of e1 g i d.
Proof.
  intros Hall Hflat Hz HX.
  destruct (ComputeGrad_Linear_ok e gs Hall Hflat) as (e1 & E1 & gp1 & -> & _ & Hst1).
  assert (AllocateStructures gs (set_RefCoord e X')) as Hall'
    by (apply AllocateStructures_set_RefCoord; [exact Hall | apply HX]).
  assert (flat_element (set_RefCoord e X')) as Hflat' by exact Hflat.
  destruct (ComputeGrad_Linear_ok _ gs Hall' Hflat') as (e2 & E2 & gp2 & -> & _ & Hst2).
  exists (set_GaussPoint e gp1), (set_GaussPoint (set_RefCoord e X') gp2).
  split; [exact E1 |]. split; [exact E2 |].
  intros g i d Hg.
  destruct (Hst1 g Hg) as (_ & _ & _ & EJ1 & EG1).
  destruct (Hst2 g Hg) as (_ & _ & _ & EJ2 & EG2).
  destruct (Linear_translated e X' t g Hflat Hz HX Hg) as (EJ & EG).
  unfold J_X_of, GradNi_X_of. simpl GaussPoint in *. simpl nNodes in *.
  simpl nDim in *.
  rewrite EJ1, EJ2, EG1, EG2. split; [exact EJ |].
  destruct ((i <? nNodes e)%nat && (d <? nDim e)%nat); [apply EG | reflexivity].
Qed.

Lemma ComputeGrad_Linear_translation_invariant_witness :
  let e := Example.tria Example.unit_triangle in
  let X' := [[1; 2]; [2; 2]; [1; 3]] in
  exists e1 e2,
    ComputeGrad_Linear e = Ok e1 /\
    ComputeGrad_Linear (set_RefCoord e X') = Ok e2 /\
    forall g i d, (g < nGaussPoints e)%nat ->
      J_X_of e2 g = J_X_of e1 g /\ GradNi_X_of e2 g i d = GradNi_X_of e1 g i d.
Proof.
  intros e X'.
  apply (ComputeGrad_Linear_translation_invariant e true X'
           (fun d => match d with O => 1 | _ => 2 end)).
  - apply AllocateStructures_tria. apply shape2_3x2.
  - apply flat_element_tria.
  - apply rows_sum_to_zero_tria.
  - split; [apply shape2_3x2 |].
    intros i d Hi Hd. simpl in Hi, Hd.
    destruct i as [|[|[|i]]]; [| | | lia];
      (destruct d as [|[|d]]; [| | lia]); unfold at2, at1; simpl; lra.
Defined.

End GradientInvariance.
(** * What the boundary conditions leave *)

(** A state that differs from another one in members outside the frame. *)
Ltac frame_refl := unfold bc_frame; simpl; repeat split; reflexivity.

Section DirichletFrame.

Import Solver.
Local Open Scope R_scope.

Lemma returns_conj {A} (c : result A) (Q P : A -> Prop) :
  returns c Q -> returns c P -> returns c (fun a => Q a /\ P a).
Proof.
  intros (a & E & HQ) (a' & E' & HP). rewrite E in E'. injection E' as <-.
  exists a. split; [exact E |]. split; assumption.
Qed.

(** A property of the solver that the treatment of every vertex of a
    Dirichlet marker keeps is kept by [Impose_BC]. *)
Lemma Impose_BC_invariant (nd np : nat) (geometry : CGeometry) (config : CConfig)
  (s : CGradientSmoothingSolver) (P : CGradientSmoothingSolver -> Prop) :
  BCSt nd np s -> matrix_ok nd s ->
  (forall iMarker iVertex, dirichlet_vertex geometry config iMarker iVertex ->
     (vertex_GetNode geometry iMarker iVertex < np)%nat) ->
  P s ->
  (forall iMarker iVertex t,
     dirichlet_vertex geometry config iMarker iVertex ->
     BCSt nd np t -> matrix_ok nd t -> P t ->
     returns (BC_Dirichlet_vertex geometry iMarker iVertex t) P) ->
  returns (Impose_BC geometry config s)
    (fun s' => BCSt nd np s' /\ matrix_ok nd s' /\ P s').
Proof.
  intros Hs Hm Hnodes HP Hstep. unfold Impose_BC.
  apply returns_for with
    (P := fun (I : nat) t => BCSt nd np t /\ matrix_ok nd t /\ P t).
  - splits; assumption.
  - intros I t HI (Ht & Hmt & HPt).
    destruct (Nat.eqb_spec (GetMarker_All_SobolevBC config I) NO) as [Eno | Hno].
    + eapply returns_bind.
      { unfold BC_Dirichlet.
        apply returns_for with
          (P := fun (J : nat) u => BCSt nd np u /\ matrix_ok nd u /\ P u).
        - splits; assumption.
        - intros J u HJ (Hu & Hmu & HPu).
          assert (dirichlet_vertex geometry config I J) as Hdv
            by (unfold dirichlet_vertex; splits; assumption).
          eapply returns_weaken.
          + apply returns_conj.
            * apply (BC_Dirichlet_vertex_constrains nd np geometry I J u Hu Hmu
                       (Hnodes I J Hdv)).
            * apply (Hstep I J u Hdv Hu Hmu HPu).
          + intros u' ((Hu' & Hmu' & _) & HPu'). splits; assumption. }
      intros t' Ht'. rewrite Eno. simpl Nat.eqb. cbv iota.
      apply returns_Ok. exact Ht'.
    + simpl bind.
      destruct (GetMarker_All_SobolevBC config I =? YES)%nat;
        apply returns_Ok; splits; assumption.
Qed.

Lemma bc_frame_refl (s : CGradientSmoothingSolver) : bc_frame s s.
Proof. unfold bc_frame. splits; reflexivity. Qed.

Lemma bc_frame_trans (a b c : CGradientSmoothingSolver) :
  bc_frame a b -> bc_frame b c -> bc_frame a c.
Proof.
  unfold bc_frame.
  intros (A1 & A2 & A3 & A4 & A5 & A6 & A7 & A8 & A9)
         (B1 & B2 & B3 & B4 & B5 & B6 & B7 & B8 & B9).
  splits; congruence.
Qed.

Lemma Jacobian_SetBlock_frame (i j : nat) (b : list (list R))
  (s s' : CGradientSmoothingSolver) :
  Jacobian_SetBlock i j b s = Ok s' -> bc_frame s s'.
Proof.
  unfold Jacobian_SetBlock. intros E.
  destruct (CSysMatrix_SetBlock i j b (Jacobian s)) as [m | f]; [| discriminate E].
  injection E as <-. frame_refl.
Qed.

Lemma scratch_frame (s s' : CGradientSmoothingSolver) (sol res : list R) :
  s' = set_Residual (set_Solution s sol) res -> bc_frame s s'.
Proof. intros ->. frame_refl. Qed.

(** The treatment of a vertex writes the work arrays, the two system
    vectors and the system matrix, and nothing else. *)
Lemma BC_Dirichlet_vertex_frame (geometry : CGeometry) (val_marker iVertex : nat)
  (s s' : CGradientSmoothingSolver) :
  BC_Dirichlet_vertex geometry val_marker iVertex s = Ok s' -> bc_frame s s'.
Proof.
  unfold BC_Dirichlet_vertex.
  destruct (node_GetDomain geometry (vertex_GetNode geometry val_marker iVertex)).
  - intros E.
    match type of E with bind ?c _ = _ =>
      destruct c as [s1 | f] eqn:E1; [| discriminate E] end.
    simpl bind in E.
    assert (bc_frame s s1) as F1.
    { destruct (nDim s =? 2)%nat;
        repeat match type of E1 with
          | bind ?c _ = Ok _ =>
              destruct c as [? | ?]; [simpl bind in E1 | discriminate E1]
          end; injection E1 as <-; frame_refl. }
    match type of E with bind ?c _ = _ =>
      destruct c as [r | f] eqn:E2; [| discriminate E] end.
    simpl bind in E.
    match type of E with bind ?c _ = _ =>
      destruct c as [x | f] eqn:E3; [| discriminate E] end.
    simpl bind in E.
    match type of E with bind ?c _ = _ =>
      destruct c as [s4 | f] eqn:E4; [| discriminate E] end.
    simpl bind in E.
    apply (bc_frame_trans s s1 s'); [exact F1 |].
    apply (bc_frame_trans s1 (set_LinSysSol (set_LinSysRes s1 r) x) s');
      [frame_refl |].
    apply (bc_frame_trans _ s4 s').
    + apply (for_preserves bc_frame _ _ _ _ bc_frame_refl bc_frame_trans) in E4;
        [exact E4 |].
      intros i t t' _ Ei.
      destruct (i =? _)%nat; apply (Jacobian_SetBlock_frame _ _ _ _ _ Ei).
    + apply (for_preserves bc_frame _ _ _ _ bc_frame_refl bc_frame_trans) in E;
        [exact E |].
      intros i t t' _ Ei.
      destruct (negb _); [apply (Jacobian_SetBlock_frame _ _ _ _ _ Ei) |].
      injection Ei as <-. apply bc_frame_refl.
  - intros E.
    apply (for_preserves bc_frame _ _ _ _ bc_frame_refl bc_frame_trans) in E;
      [exact E |].
    intros i t t' _ Ei. apply (Jacobian_SetBlock_frame _ _ _ _ _ Ei).
Qed.

(** X12.  [Impose_BC] writes the rows and the columns of the nodes of
    the Dirichlet markers and nothing else: a block of the system matrix
    whose column is not that of such a node, and whose row is not that
    of such a node that this process owns, is the one it found; so is
    every entry of the two system vectors outside the blocks of the
    Dirichlet nodes that this process owns; and so are the element
    table, the auxiliary blocks, [Jacobian_ij] and the sizes. *)
Theorem Impose_BC_frame (nd np : nat) (geometry : CGeometry)
  (config : CConfig) (s : CGradientSmoothingSolver) :
  BCSt nd np s -> matrix_ok nd s ->
  (forall iMarker iVertex, dirichlet_vertex geometry config iMarker iVertex ->
     (vertex_GetNode geometry iMarker iVertex < np)%nat) ->
  exists s', Impose_BC geometry config s = Ok s' /\
    bc_frame s s' /\
    (forall p q a b,
       ~ dirichlet_node geometry config q ->
       ~ (dirichlet_node geometry config p /\ node_GetDomain geometry p = true) ->
       mat_block (Jacobian s') p q a b = mat_block (Jacobian s) p q a b) /\
    (forall i,
       (forall k, dirichlet_node geometry config k ->
          node_GetDomain geometry k = true -> ~ in_block nd k i) ->
       vec_val (LinSysRes s') i = vec_val (LinSysRes s) i /\
       vec_val (LinSysSol s') i = vec_val (LinSysSol s) i).
Proof.
  intros Hs Hm Hnodes.
  destruct (Impose_BC_invariant nd np geometry config s
    (fun t =>
       bc_frame s t /\
       (forall p q a b,
          ~ dirichlet_node geometry config q ->
          ~ (dirichlet_node geometry config p /\ node_GetDomain geometry p = true) ->
          mat_block (Jacobian t) p q a b = mat_block (Jacobian s) p q a b) /\
       (forall i,
          (forall k, dirichlet_node geometry config k ->
             node_GetDomain geometry k = true -> ~ in_block nd k i) ->
          vec_val (LinSysRes t) i = vec_val (LinSysRes s) i /\
          vec_val (LinSysSol t) i = vec_val (LinSysSol s) i))
    Hs Hm Hnodes) as (s' & Es' & _ & _ & HP).
  - splits; [apply bc_frame_refl | intros; reflexivity | intros; split; reflexivity].
  - intros m v t Hdv Ht Hmt (Hf & HM & HV).
    destruct (BC_Dirichlet_vertex_ok nd np geometry m v t _ Ht
                (matrix_ok_MatSt nd t Hmt))
      as (t' & Et' & _ & (_ & _ & HB) & Hres & Hsol).
    cbv zeta in HB, Hres, Hsol.
    exists t'. split; [exact Et' |].
    assert (dirichlet_node geometry config (vertex_GetNode geometry m v)) as Hdn
      by (exists m, v; split; [exact Hdv | reflexivity]).
    set (k := vertex_GetNode geometry m v) in *.
    splits.
    + apply (bc_frame_trans s t t'); [exact Hf |].
      apply (BC_Dirichlet_vertex_frame geometry m v t t' Et').
    + intros p q a b Hq Hp. rewrite HB, <- (HM p q a b Hq Hp).
      assert (q <> k) as Hqk by (intros ->; exact (Hq Hdn)).
      unfold dirichlet_block.
      destruct (node_GetDomain geometry k) eqn:Eown.
      * assert (p <> k) as Hpk by (intros ->; apply Hp; split; assumption).
        block_cases.
      * block_cases.
    + intros i Hi. destruct (HV i Hi) as (HV1 & HV2).
      rewrite Hres, Hsol, <- HV1, <- HV2.
      destruct (node_GetDomain geometry k) eqn:Eown; [| split; reflexivity].
      pose proof (Hi k Hdn Eown) as Hni. unfold in_block in Hni.
      unfold block_vector. split; block_cases.
  - exists s'. split; [exact Es' |]. exact HP.
Qed.

Lemma Impose_BC_frame_witness :
  let geometry := ExampleMesh.one_triangle in
  let config := ExampleMesh.config_dirichlet in
  let s := ExampleMesh.solver Example.unit_triangle in
  exists s', Impose_BC geometry config s = Ok s' /\
    bc_frame s s' /\
    (forall p q a b,
       ~ dirichlet_node geometry config q ->
       ~ (dirichlet_node geometry config p /\ node_GetDomain geometry p = true) ->
       mat_block (Jacobian s') p q a b = mat_block (Jacobian s) p q a b) /\
    (forall i,
       (forall k, dirichlet_node geometry config k ->
          node_GetDomain geometry k = true -> ~ in_block 2 k i) ->
       vec_val (LinSysRes s') i = vec_val (LinSysRes s) i /\
       vec_val (LinSysSol s') i = vec_val (LinSysSol s) i).
Proof.
  intros geometry config s.
  apply (Impose_BC_frame 2 3 geometry config s).
  - apply BCSt_example.
  - split; reflexivity.
  - intros m v (_ & _ & Hv). simpl in Hv |- *. exact Hv.
Defined.

(** X13.  When this process owns every node of the Dirichlet markers,
    [Impose_BC] keeps the system matrix symmetric on the nodes of the
    mesh: it clears the row of a node together with its column. *)
Theorem Impose_BC_keeps_symmetry (nd np : nat) (geometry : CGeometry)
  (config : CConfig) (s : CGradientSmoothingSolver) :
  BCSt nd np s -> matrix_ok nd s ->
  (forall iMarker iVertex, dirichlet_vertex geometry config iMarker iVertex ->
     (vertex_GetNode geometry iMarker iVertex < np)%nat) ->
  (forall k, dirichlet_node geometry config k -> node_GetDomain geometry k = true) ->
  symmetric_on nd np s ->
  exists s', Impose_BC geometry config s = Ok s' /\ symmetric_on nd np s'.
Proof.
  intros Hs Hm Hnodes Hown Hsym.
  destruct (Impose_BC_invariant nd np geometry config s (symmetric_on nd np)
              Hs Hm Hnodes Hsym) as (s' & Es' & _ & _ & HP).
  - intros m v t Hdv Ht Hmt Hsymt.
    destruct (BC_Dirichlet_vertex_ok nd np geometry m v t _ Ht
                (matrix_ok_MatSt nd t Hmt))
      as (t' & Et' & _ & (_ & _ & HB) & _).
    cbv zeta in HB.
    exists t'. split; [exact Et' |].
    rewrite (Hown (vertex_GetNode geometry m v)) in HB
      by (exists m, v; split; [exact Hdv | reflexivity]).
    intros p q a b Hp Hq Ha Hb. rewrite !HB. unfold dirichlet_block.
    pose proof (Hsymt p q a b Hp Hq Ha Hb) as Hpq.
    block_cases.
  - exists s'. split; [exact Es' | exact HP].
Qed.

Lemma Impose_BC_keeps_symmetry_witness :
  let geometry := Cases.owned_triangle in
  let config := ExampleMesh.config_dirichlet in
  let s := ExampleMesh.solver Example.unit_triangle in
  exists s', Impose_BC geometry config s = Ok s' /\ symmetric_on 2 3 s'.
Proof.
  intros geometry config s.
  apply (Impose_BC_keeps_symmetry 2 3 geometry config s).
  - apply BCSt_example.
  - split; reflexivity.
  - intros m v (_ & _ & Hv). simpl in Hv |- *. exact Hv.
  - intros k _. reflexivity.
  - intros p q a b _ _ _ _. reflexivity.
Defined.

(** X14.  Imposing the boundary conditions a second time changes
    nothing in the system: [Impose_BC], run on what [Impose_BC] leaves,
    returns a solver with the same system matrix and the same two system
    vectors. *)
Theorem Impose_BC_idempotent (nd np : nat) (geometry : CGeometry)
  (config : CConfig) (s : CGradientSmoothingSolver) :
  BCSt nd np s -> matrix_ok nd s ->
  (forall iMarker iVertex, dirichlet_vertex geometry config iMarker iVertex ->
     (vertex_GetNode geometry iMarker iVertex < np)%nat) ->
  exists s1 s2,
    Impose_BC geometry config s = Ok s1 /\
    Impose_BC geometry config s1 = Ok s2 /\
    same_system s1 s2.
Proof.
  intros Hs Hm Hnodes.
  destruct (Impose_BC_ok nd np geometry config s Hs Hm Hnodes)
    as (s1 & E1 & Hs1 & Hm1 & Hdone).
  destruct (Impose_BC_invariant nd np geometry config s1 (same_system s1)
              Hs1 Hm1 Hnodes) as (s2 & E2 & _ & _ & HP).
  - unfold same_system. splits; reflexivity.
  - intros m v t Hdv Ht Hmt (HM & HR & HS).
    destruct (BC_Dirichlet_vertex_ok nd np geometry m v t _ Ht
                (matrix_ok_MatSt nd t Hmt))
      as (t' & Et' & _ & (_ & _ & HB) & Hres & Hsol).
    cbv zeta in HB, Hres, Hsol.
    exists t'. split; [exact Et' |].
    destruct (Hdone (vertex_GetNode geometry m v)) as (Hk & Hc).
    { exists m, v. split; [exact Hdv | reflexivity]. }
    set (k := vertex_GetNode geometry m v) in *.
    unfold constrained in Hc. unfold same_system.
    destruct (node_GetDomain geometry k) eqn:Eown.
    + destruct Hc as (Hv & Hd & Ho). splits.
      * intros p q a b. rewrite HB. unfold dirichlet_block. rewrite !HM.
        destruct (Nat.ltb_spec a nd) as [Ha | Ha]; [| reflexivity].
        destruct (Nat.ltb_spec b nd) as [Hb | Hb]; [| reflexivity].
        simpl andb.
        destruct (Nat.eqb_spec q k) as [-> | Hq];
          destruct (Nat.ltb_spec p np) as [Hp | Hp]; simpl andb; cbv iota.
        -- destruct (Nat.eqb_spec p k) as [-> | Hpk].
           ++ symmetry. apply Hd; assumption.
           ++ symmetry. apply (Ho p a b Hp Hpk Ha Hb).
        -- destruct (Nat.eqb_spec p k) as [-> | Hpk]; [lia |]. reflexivity.
        -- destruct (Nat.eqb_spec p k) as [-> | Hpk]; simpl andb; [| reflexivity].
           destruct (Nat.ltb_spec q np) as [Hq' | Hq']; [| reflexivity].
           symmetry. apply (Ho q a b Hq' Hq Ha Hb).
        -- destruct (Nat.eqb_spec p k) as [-> | Hpk]; [lia |]. reflexivity.
      * intros i. rewrite Hres, <- HR. unfold block_vector.
        destruct (Nat.leb_spec (k * nd) i) as [H1 | H1]; [| reflexivity].
        destruct (Nat.ltb_spec i (k * nd + nd)) as [H2 | H2]; [| reflexivity].
        simpl andb. cbv iota.
        replace i with (k * nd + (i - k * nd))%nat at 1 by lia.
        rewrite HR. symmetry. apply (Hv (i - k * nd)%nat). lia.
      * intros i. rewrite Hsol, <- HS. unfold block_vector.
        destruct (Nat.leb_spec (k * nd) i) as [H1 | H1]; [| reflexivity].
        destruct (Nat.ltb_spec i (k * nd + nd)) as [H2 | H2]; [| reflexivity].
        simpl andb. cbv iota.
        replace i with (k * nd + (i - k * nd))%nat at 1 by lia.
        rewrite HS. symmetry. apply (Hv (i - k * nd)%nat). lia.
    + splits.
      * intros p q a b. rewrite HB. unfold dirichlet_block. rewrite !HM.
        destruct (Nat.ltb_spec a nd) as [Ha | Ha]; [| reflexivity].
        destruct (Nat.ltb_spec b nd) as [Hb | Hb]; [| reflexivity].
        simpl andb.
        destruct (Nat.eqb_spec q k) as [-> | Hq]; [| reflexivity].
        destruct (Nat.ltb_spec p np) as [Hp | Hp]; [| reflexivity].
        simpl andb. cbv iota. symmetry. apply (Hc p a b Hp Ha Hb).
      * intros i. rewrite Hres. apply HR.
      * intros i. rewrite Hsol. apply HS.
  - exists s1, s2. splits; assumption.
Qed.

Lemma Impose_BC_idempotent_witness :
  let geometry := ExampleMesh.one_triangle in
  let config := ExampleMesh.config_dirichlet in
  let s := ExampleMesh.solver Example.unit_triangle in
  exists s1 s2,
    Impose_BC geometry config s = Ok s1 /\
    Impose_BC geometry config s1 = Ok s2 /\
    same_system s1 s2.
Proof.
  intros geometry config s.
  apply (Impose_BC_idempotent 2 3 geometry config s).
  - apply BCSt_example.
  - split; reflexivity.
  - intros m v (_ & _ & Hv). simpl in Hv |- *. exact Hv.
Defined.

End DirichletFrame.
(** * The solution and the sensitivities *)

Section Sensitivities.

Import Solver.
Local Open Scope R_scope.

Lemma Rsum_single (n k : nat) (f : nat -> R) :
  (k < n)%nat -> (forall i, (i < n)%nat -> i <> k -> f i = 0) ->
  Rsum n f = f k.
Proof.
  intros Hk Hz. induction n as [|n IH]; [lia |]. simpl.
  destruct (Nat.eq_dec k n) as [-> | Hne].
  - rewrite Rsum_zero; [ring |]. intros i Hi. apply Hz; lia.
  - rewrite IH; [| lia | intros i Hi Hik; apply Hz; [lia | exact Hik]].
    rewrite (Hz n); [ring | lia | congruence].
Qed.

(** What [Set_Sensitivities] leaves. *)
Lemma Set_Sensitivities_closed (geometry : CGeometry) (sensitivity : nat -> nat -> R)
  (config : CConfig) (s : CGradientSmoothingSolver) :
  returns (Set_Sensitivities geometry sensitivity config s)
    (fun sens' => forall p d,
       sens' p d = if (p <? nPoint s)%nat && (d <? nDim s)%nat
                   then vec_val (LinSysSol s) (p * nDim s + d)
                   else sensitivity p d).
Proof.
  unfold Set_Sensitivities.
  apply returns_for with
    (P := fun (I : nat) (t : nat -> nat -> R) => forall p d,
       t p d = if (p <? I)%nat && (d <? nDim s)%nat
               then vec_val (LinSysSol s) (p * nDim s + d)
               else sensitivity p d).
  - intros p d. reflexivity.
  - intros I t HI Ht.
    eapply returns_weaken.
    + apply returns_for with
        (P := fun (J : nat) (u : nat -> nat -> R) => forall p d,
           u p d = if ((p <? I)%nat && (d <? nDim s)%nat)
                      || ((p =? I)%nat && (d <? J)%nat)
                   then vec_val (LinSysSol s) (p * nDim s + d)
                   else sensitivity p d).
      * intros p d. rewrite Ht.
        destruct ((p <? I)%nat && (d <? nDim s)%nat); simpl; [reflexivity |].
        rewrite andb_false_r. reflexivity.
      * intros J u HJ Hu. apply returns_Ok. intros p d. unfold fupd2.
        rewrite Hu. block_cases.
    + intros u Hu p d. rewrite Hu. block_cases.
Qed.

(** X15.  [Set_Sensitivities] returns, and the field that it leaves
    holds, for every node [p] of the solver and every direction [d]
    below its dimension, entry [p * nDim + d] of [LinSysSol]; every other
    entry of the field is the one it found. *)
Theorem Set_Sensitivities_copies_solution (geometry : CGeometry)
  (sensitivity : nat -> nat -> R) (config : CConfig)
  (s : CGradientSmoothingSolver) :
  exists sens',
    Set_Sensitivities geometry sensitivity config s = Ok sens' /\
    (forall p d, (p < nPoint s)%nat -> (d < nDim s)%nat ->
       sens' p d = vec_val (LinSysSol s) (p * nDim s + d)) /\
    (forall p d, (nPoint s <= p)%nat \/ (nDim s <= d)%nat ->
       sens' p d = sensitivity p d).
Proof.
  destruct (Set_Sensitivities_closed geometry sensitivity config s)
    as (sens' & E & H).
  exists sens'. splits; [exact E | |].
  - intros p d Hp Hd. rewrite H. apply Nat.ltb_lt in Hp, Hd. rewrite Hp, Hd.
    reflexivity.
  - intros p d Hpd. rewrite H. destruct Hpd; block_cases.
Qed.

(** X16.  The layout of the two ends agrees: the values that [SetBlock]
    writes into [LinSysSol] for node [k] are the sensitivities that
    [Set_Sensitivities] then gives node [k], and the other nodes get
    what [LinSysSol] held for them. *)
Theorem SetBlock_Set_Sensitivities_round_trip (geometry : CGeometry)
  (sensitivity : nat -> nat -> R) (config : CConfig)
  (s : CGradientSmoothingSolver) (k : nat) (vals : list R) :
  vec_nVar (LinSysSol s) = nDim s -> (nDim s <= length vals)%nat ->
  (k < nPoint s)%nat ->
  exists x sens',
    CSysVector_SetBlock k vals (LinSysSol s) = Ok x /\
    Set_Sensitivities geometry sensitivity config (set_LinSysSol s x) = Ok sens' /\
    (forall d, (d < nDim s)%nat -> sens' k d = at1 vals d) /\
    (forall p d, (p < nPoint s)%nat -> p <> k -> (d < nDim s)%nat ->
       sens' p d = vec_val (LinSysSol s) (p * nDim s + d)).
Proof.
  intros Evar Hlen Hk.
  destruct (CSysVector_SetBlock_ok (nDim s) k vals (LinSysSol s) Evar Hlen)
    as (x & Ex & _ & Hx).
  destruct (Set_Sensitivities_closed geometry sensitivity config (set_LinSysSol s x))
    as (sens' & E & H).
  simpl in H.
  exists x, sens'. splits; try assumption.
  - intros d Hd. rewrite H, Hx. unfold block_vector.
    apply Nat.ltb_lt in Hk as Hk'. apply Nat.ltb_lt in Hd as Hd'.
    rewrite Hk', Hd'. simpl andb. cbv iota.
    replace (k * nDim s + d - k * nDim s)%nat with d by lia.
    block_cases.
  - intros p d Hp Hpk Hd. rewrite H, Hx. unfold block_vector.
    apply Nat.ltb_lt in Hp as Hp'. apply Nat.ltb_lt in Hd as Hd'.
    rewrite Hp', Hd'. simpl andb. cbv iota.
    assert (p < k \/ k < p)%nat as [Hlt | Hlt] by lia.
    + assert (p * nDim s + d < k * nDim s)%nat by nia. block_cases.
    + assert (k * nDim s + nDim s <= p * nDim s + d)%nat by nia. block_cases.
Qed.

Lemma SetBlock_Set_Sensitivities_round_trip_witness :
  let geometry := ExampleMesh.one_triangle in
  let config := Example.config_flat in
  let s := ExampleMesh.solver Example.unit_triangle in
  let sensitivity := fun (_ _ : nat) => 0 in
  let vals := [5; 7] in
  exists x sens',
    CSysVector_SetBlock 1 vals (LinSysSol s) = Ok x /\
    Set_Sensitivities geometry sensitivity config (set_LinSysSol s x) = Ok sens' /\
    (forall d, (d < nDim s)%nat -> sens' 1%nat d = at1 vals d) /\
    (forall p d, (p < nPoint s)%nat -> p <> 1%nat -> (d < nDim s)%nat ->
       sens' p d = vec_val (LinSysSol s) (p * nDim s + d)).
Proof.
  intros geometry config s sensitivity vals.
  apply (SetBlock_Set_Sensitivities_round_trip geometry sensitivity config s 1 vals).
  - reflexivity.
  - simpl. lia.
  - simpl. lia.
Defined.

(** The equations of a decoupled node determine the solution there. *)
Lemma decoupled_row (nd np k : nat) (s : CGradientSmoothingSolver) (x : CSysVector) :
  (k < np)%nat -> decoupled nd np k s ->
  rows_solved nd np (Jacobian s) x (LinSysRes s) k ->
  forall d, (d < nd)%nat -> vec_val x (k * nd + d) = 0.
Proof.
  intros Hk (Hv & Hd & Ho) Hrow d Hdlt.
  rewrite <- (proj1 (Hv d Hdlt)), <- (Hrow d Hdlt).
  unfold matrix_row.
  rewrite (Rsum_single np k); [| exact Hk |].
  2:{ intros q Hq Hqk. apply Rsum_zero. intros b Hb.
      rewrite (proj2 (Ho q d b Hq Hqk Hdlt Hb)). ring. }
  rewrite (Rsum_single nd d); [| exact Hdlt |].
  2:{ intros b Hb Hbd. rewrite (Hd d b Hdlt Hb).
      destruct (Nat.eqb_spec d b); [congruence | ring]. }
  rewrite (Hd d d Hdlt Hdlt), Nat.eqb_refl. ring.
Qed.

(** X17.  The smoothed sensitivities vanish at the Dirichlet nodes:
    after [Impose_BC], whenever the vector that the linear solver leaves
    satisfies the equations of a node [k] of a Dirichlet marker that
    this process owns, [Solve_Linear_System] followed by
    [Set_Sensitivities] gives node [k] the sensitivity zero in every
    direction. *)
Theorem Dirichlet_nodes_get_zero_sensitivity (nd np : nat) (geometry : CGeometry)
  (config : CConfig) (s : CGradientSmoothingSolver) :
  BCSt nd np s -> matrix_ok nd s ->
  (forall iMarker iVertex, dirichlet_vertex geometry config iMarker iVertex ->
     (vertex_GetNode geometry iMarker iVertex < np)%nat) ->
  exists s1, Impose_BC geometry config s = Ok s1 /\
    forall System_Solve sensitivity k,
      dirichlet_node geometry config k -> node_GetDomain geometry k = true ->
      rows_solved nd np (Jacobian s1)
        (fst (System_Solve (Jacobian s1) (LinSysRes s1) (LinSysSol s1)))
        (LinSysRes s1) k ->
      exists sens',
        Set_Sensitivities geometry sensitivity config
          (fst (Solve_Linear_System System_Solve geometry config s1)) = Ok sens' /\
        forall d, (d < nd)%nat -> sens' k d = 0.
Proof.
  intros Hs Hm Hnodes.
  destruct (Impose_BC_ok nd np geometry config s Hs Hm Hnodes)
    as (s1 & E1 & Hs1 & Hm1 & Hdone).
  exists s1. split; [exact E1 |].
  intros System_Solve sensitivity k Hdn Hown Hrow.
  destruct (Hdone k Hdn) as (Hk & Hc). unfold constrained in Hc. rewrite Hown in Hc.
  unfold Solve_Linear_System.
  destruct (System_Solve (Jacobian s1) (LinSysRes s1) (LinSysSol s1)) as [x iter].
  simpl fst in *.
  destruct (Set_Sensitivities_closed geometry sensitivity config (set_LinSysSol s1 x))
    as (sens' & E & H).
  simpl in H.
  exists sens'. split; [exact E |].
  intros d Hd. rewrite H.
  destruct Hs1 as (End & Enp & _). rewrite End, Enp.
  apply Nat.ltb_lt in Hk as Hk'. apply Nat.ltb_lt in Hd as Hd'. rewrite Hk', Hd'.
  simpl andb. cbv iota.
  apply (decoupled_row nd np k s1 x Hk Hc Hrow d Hd).
Qed.

Lemma Dirichlet_nodes_get_zero_sensitivity_witness :
  let geometry := ExampleMesh.one_triangle in
  let config := ExampleMesh.config_dirichlet in
  let s := ExampleMesh.solver Example.unit_triangle in
  exists s1, Impose_BC geometry config s = Ok s1 /\
    forall System_Solve sensitivity k,
      dirichlet_node geometry config k -> node_GetDomain geometry k = true ->
      rows_solved 2 3 (Jacobian s1)
        (fst (System_Solve (Jacobian s1) (LinSysRes s1) (LinSysSol s1)))
        (LinSysRes s1) k ->
      exists sens',
        Set_Sensitivities geometry sensitivity config
          (fst (Solve_Linear_System System_Solve geometry config s1)) = Ok sens' /\
        forall d, (d < 2)%nat -> sens' k d = 0.
Proof.
  intros geometry config s.
  apply (Dirichlet_nodes_get_zero_sensitivity 2 3 geometry config s).
  - apply BCSt_example.
  - split; reflexivity.
  - intros m v (_ & _ & Hv). simpl in Hv |- *. exact Hv.
Defined.

End Sensitivities.
(** * The structural accumulators *)

Section StructuralAccumulators.

Import Structural.
Local Open Scope R_scope.

Lemma shape3_upd3 {A} {n m p : nat} {a : list (list (list A))} (i j k : nat) (x : A) :
  shape3 n m p a -> (i < n)%nat -> (j < m)%nat -> shape3 n m p (upd3 a i j k x).
Proof.
  intros Ha Hi Hj. pose proof (shape3_row i Ha Hi) as H2. destruct Ha as [Hn Hr].
  split.
  - unfold upd3. rewrite length_upd. exact Hn.
  - apply Forall_upd; [exact Hr |]. apply shape2_upd2; assumption.
Qed.

Lemma wr3_ok {A} (buf : string) {n m p : nat} {a : list (list (list A))}
  (i j k : nat) (x : A) :
  shape3 n m p a -> (i < n)%nat -> (j < m)%nat -> (k < p)%nat ->
  wr3 buf a i j k x = Ok (upd3 a i j k x).
Proof.
  intros Ha Hi Hj Hk. pose proof (shape3_row i Ha Hi) as H2. destruct Ha as [Hn _].
  unfold wr3, at_. rewrite (rd_ok buf a i []) by lia. simpl.
  rewrite (wr2_ok buf j k x H2) by assumption. reflexivity.
Qed.

Lemma at3_upd3 {n m p : nat} {a : list (list (list R))} (i j k : nat) (x : R)
  (i' j' k' : nat) :
  shape3 n m p a -> (i < n)%nat -> (j < m)%nat -> (k < p)%nat ->
  at3 (upd3 a i j k x) i' j' k' =
  if (i' =? i)%nat && (j' =? j)%nat && (k' =? k)%nat then x else at3 a i' j' k'.
Proof.
  intros Ha Hi Hj Hk. pose proof (shape3_row i Ha Hi) as H2. destruct Ha as [Hn _].
  unfold at3, upd3. rewrite nth_upd by lia.
  destruct (Nat.eqb_spec i' i) as [-> | Hne]; simpl; [| reflexivity].
  rewrite (at2_upd2 j k x j' k' H2) by assumption. reflexivity.
Qed.

Lemma flat_index (nd i j : nat) :
  (j < nd)%nat -> ((i * nd + j) / nd = i)%nat /\ ((i * nd + j) mod nd = j)%nat.
Proof.
  intros Hj. split.
  - symmetry. apply (Nat.div_unique _ nd i j); lia.
  - symmetry. apply (Nat.mod_unique _ nd i j); lia.
Qed.

(** The two loops over a block of [Kab], for any way [rdv] of reading
    the value to add. *)
Lemma Kab_loop (rdv : nat -> nat -> result R) (W : nat -> nat -> R)
  (e : CElement) (K : list (list (list R))) (nodeA nodeB : nat) :
  Kab e = Some K ->
  shape3 (nNodes e) (nNodes e) (nDim e * nDim e) K ->
  (nodeA < nNodes e)%nat -> (nodeB < nNodes e)%nat ->
  (forall i j, (i < nDim e)%nat -> (j < nDim e)%nat -> rdv i j = Ok (W i j)) ->
  returns
    (for_ (nDim e) (fun iDim => for_ (nDim e) (fun jDim e =>
       K <- deref "Kab" (Kab e) ;;
       old <- rd3 "Kab" K nodeA nodeB (iDim * nDim e + jDim) ;;
       v <- rdv iDim jDim ;;
       K' <- wr3 "Kab" K nodeA nodeB (iDim * nDim e + jDim) (old + v) ;;
       Ok (set_Kab e (Some K')))) e)
    (fun e' => exists K', e' = set_Kab e (Some K') /\
       shape3 (nNodes e) (nNodes e) (nDim e * nDim e) K' /\
       forall a b k, at3 K' a b k =
         if (a =? nodeA)%nat && (b =? nodeB)%nat && (k <? nDim e * nDim e)%nat
         then at3 K a b k + W (k / nDim e)%nat (k mod nDim e)%nat
         else at3 K a b k).
Proof.
  intros EK HK HA HB Hrdv.
  set (nd := nDim e) in *.
  apply returns_for with
    (P := fun (I : nat) e' => exists K', e' = set_Kab e (Some K') /\
       shape3 (nNodes e) (nNodes e) (nd * nd) K' /\
       forall a b k, at3 K' a b k =
         if (a =? nodeA)%nat && (b =? nodeB)%nat && (k <? I * nd)%nat
         then at3 K a b k + W (k / nd)%nat (k mod nd)%nat
         else at3 K a b k).
  - exists K. splits.
    + destruct e. simpl in EK. subst. reflexivity.
    + exact HK.
    + intros a b k. simpl. rewrite !andb_false_r. reflexivity.
  - intros I e1 HI (K1 & -> & HK1 & HV1).
    eapply returns_weaken.
    + apply returns_for with
        (P := fun (J : nat) e' => exists K', e' = set_Kab e (Some K') /\
           shape3 (nNodes e) (nNodes e) (nd * nd) K' /\
           forall a b k, at3 K' a b k =
             if (a =? nodeA)%nat && (b =? nodeB)%nat && (k <? I * nd + J)%nat
             then at3 K a b k + W (k / nd)%nat (k mod nd)%nat
             else at3 K a b k).
      * exists K1. splits; [reflexivity | exact HK1 |].
        intros a b k. rewrite HV1, Nat.add_0_r. reflexivity.
      * intros J e2 HJ (K2 & -> & HK2 & HV2).
        simpl Kab. simpl deref. simpl bind. simpl nDim. fold nd.
        assert (I * nd + J < nd * nd)%nat as Hidx by nia.
        rewrite (rd3_ok "Kab" nodeA nodeB (I * nd + J) HK2) by assumption.
        simpl bind. rewrite (Hrdv I J HI HJ). simpl bind.
        rewrite (wr3_ok "Kab" nodeA nodeB (I * nd + J) _ HK2) by assumption.
        simpl bind. apply returns_Ok.
        eexists. splits; [reflexivity | apply shape3_upd3; assumption |].
        intros a b k.
        rewrite (at3_upd3 nodeA nodeB (I * nd + J) _ a b k HK2) by assumption.
        rewrite !HV2.
        destruct (flat_index nd I J HJ) as (Ediv & Emod).
        rewrite !Nat.eqb_refl. simpl andb.
        destruct (Nat.ltb_spec (I * nd + J) (I * nd + J)) as [Hlt | _]; [lia |].
        destruct (Nat.eqb_spec a nodeA) as [-> | Ha]; simpl andb; [| reflexivity].
        destruct (Nat.eqb_spec b nodeB) as [-> | Hb]; simpl andb; [| reflexivity].
        destruct (Nat.eqb_spec k (I * nd + J)) as [-> | Hk].
        -- destruct (Nat.ltb_spec (I * nd + J) (I * nd + Datatypes.S J)); [| lia].
           rewrite Ediv, Emod. reflexivity.
        -- destruct (Nat.ltb_spec k (I * nd + J));
             destruct (Nat.ltb_spec k (I * nd + Datatypes.S J));
             try lia; reflexivity.
    + intros e2 (K2 & -> & HK2 & HV2). exists K2. splits; try assumption; try reflexivity.
      intros a b k. rewrite HV2.
      replace (Datatypes.S I * nd)%nat with (I * nd + nd)%nat by lia. reflexivity.
Qed.

(** X18.  [Add_Kab] adds the block [val_Kab] to the row-major block of
    the pair [(nodeA, nodeB)], entry [(i, j)] at index [i * nDim + j];
    [Add_Kab_T] adds its transpose; neither touches the block of another
    pair, and on an allocated element with the two nodes in range
    neither leaves the extent of an array. *)
Theorem Add_Kab_row_major (body_forces : bool) (e : CElement)
  (K : list (list (list R))) (val : list (list R)) (nodeA nodeB : nat) :
  AllocateStructures body_forces e -> Kab e = Some K ->
  shape2 (nDim e) (nDim e) val ->
  (nodeA < nNodes e)%nat -> (nodeB < nNodes e)%nat ->
  exists e1 e2 K1 K2,
    Add_Kab val nodeA nodeB e = Ok e1 /\ Kab e1 = Some K1 /\
    Add_Kab_T val nodeA nodeB e = Ok e2 /\ Kab e2 = Some K2 /\
    (forall i j, (i < nDim e)%nat -> (j < nDim e)%nat ->
       at3 K1 nodeA nodeB (i * nDim e + j) =
         at3 K nodeA nodeB (i * nDim e + j) + at2 val i j /\
       at3 K2 nodeA nodeB (i * nDim e + j) =
         at3 K nodeA nodeB (i * nDim e + j) + at2 val j i) /\
    (forall a b k, a <> nodeA \/ b <> nodeB ->
       at3 K1 a b k = at3 K a b k /\ at3 K2 a b k = at3 K a b k).
Proof.
  intros (_ & _ & (K0 & EK0 & HK) & _) EK Hval HA HB.
  rewrite EK in EK0. injection EK0 as <-.
  destruct (Kab_loop (fun i j => rd2 "val_Kab" val i j) (at2 val) e K nodeA nodeB
              EK HK HA HB) as (e1 & E1 & K1 & -> & _ & HV1).
  { intros i j Hi Hj. apply (rd2_ok "val_Kab" i j Hval); assumption. }
  destruct (Kab_loop (fun i j => rd2 "val_Kab" val j i) (fun i j => at2 val j i)
              e K nodeA nodeB EK HK HA HB) as (e2 & E2 & K2 & -> & _ & HV2).
  { intros i j Hi Hj. apply (rd2_ok "val_Kab" j i Hval); assumption. }
  exists (set_Kab e (Some K1)), (set_Kab e (Some K2)), K1, K2.
  splits; try assumption; try reflexivity.
  - intros i j Hi Hj. rewrite HV1, HV2. rewrite !Nat.eqb_refl. simpl andb.
    destruct (flat_index (nDim e) i j Hj) as (-> & ->).
    destruct (Nat.ltb_spec (i * nDim e + j) (nDim e * nDim e)); [| nia].
    split; reflexivity.
  - intros a b k Hab. rewrite HV1, HV2.
    destruct (Nat.eqb_spec a nodeA); destruct (Nat.eqb_spec b nodeB); simpl andb;
      try (split; reflexivity).
    destruct Hab; contradiction.
Qed.

Lemma AllocateStructures_bar (x : R) : AllocateStructures false (bar_element x).
Proof.
  unfold AllocateStructures. simpl. splits; try exact I;
    (eexists; split; [reflexivity |]); split; try reflexivity;
    repeat constructor.
Qed.

Lemma Add_Kab_row_major_witness :
  let e := bar_element 1 in
  let K := repeat (repeat (repeat 1 4) 2) 2 in
  let val := [[1; 2]; [3; 4]] in
  exists e1 e2 K1 K2,
    Add_Kab val 0 1 e = Ok e1 /\ Kab e1 = Some K1 /\
    Add_Kab_T val 0 1 e = Ok e2 /\ Kab e2 = Some K2 /\
    (forall i j, (i < nDim e)%nat -> (j < nDim e)%nat ->
       at3 K1 0 1 (i * nDim e + j) = at3 K 0 1 (i * nDim e + j) + at2 val i j /\
       at3 K2 0 1 (i * nDim e + j) = at3 K 0 1 (i * nDim e + j) + at2 val j i) /\
    (forall a b k, a <> 0%nat \/ b <> 1%nat ->
       at3 K1 a b k = at3 K a b k /\ at3 K2 a b k = at3 K a b k).
Proof.
  intros e K val.
  apply (Add_Kab_row_major false e K val 0 1).
  - apply AllocateStructures_bar.
  - reflexivity.
  - split; [reflexivity | repeat constructor].
  - simpl. lia.
  - simpl. lia.
Defined.

Lemma cleared2_init (n m : nat) (a : option (list (list R))) :
  (forall x, a = Some x -> shape2 n m x) ->
  cleared2 n m a a (fun _ _ => false).
Proof.
  intros Hs. unfold cleared2. destruct a as [x |]; [| reflexivity].
  exists x. splits; [reflexivity | apply Hs; reflexivity | reflexivity].
Qed.

Lemma cleared2_ext (n m : nat) (a0 a : option (list (list R)))
  (Z Z' : nat -> nat -> bool) :
  (forall i j, Z i j = Z' i j) -> cleared2 n m a0 a Z -> cleared2 n m a0 a Z'.
Proof.
  intros HZ. unfold cleared2. destruct a0 as [m0 |]; [| auto].
  intros (m1 & E & Hs & Hv). exists m1. splits; try assumption.
  intros i j. rewrite Hv, HZ. reflexivity.
Qed.

Lemma cleared3_ext (n m p : nat) (a0 a : option (list (list (list R))))
  (Z Z' : nat -> nat -> nat -> bool) :
  (forall i j k, Z i j k = Z' i j k) -> cleared3 n m p a0 a Z -> cleared3 n m p a0 a Z'.
Proof.
  intros HZ. unfold cleared3. destruct a0 as [m0 |]; [| auto].
  intros (m1 & E & Hs & Hv). exists m1. splits; try assumption.
  intros i j k. rewrite Hv, HZ. reflexivity.
Qed.

Lemma clear2_ok (buf : string) (n m : nat) (a0 a : option (list (list R)))
  (Z : nat -> nat -> bool) (i j : nat) :
  cleared2 n m a0 a Z -> (i < n)%nat -> (j < m)%nat ->
  returns (clear2 buf a i j)
    (fun a' => cleared2 n m a0 a'
       (fun i' j' => (i' =? i)%nat && (j' =? j)%nat || Z i' j')).
Proof.
  unfold cleared2, clear2. intros H Hi Hj. destruct a0 as [m0 |].
  - destruct H as (m1 & -> & Hs & Hv).
    rewrite (wr2_ok buf i j 0 Hs) by assumption. simpl bind.
    apply returns_Ok. eexists. splits; [reflexivity | apply shape2_upd2; assumption |].
    intros i' j'. rewrite (at2_upd2 i j 0 i' j' Hs) by assumption.
    unfold fupd2. rewrite Hv.
    destruct ((i' =? i)%nat && (j' =? j)%nat); reflexivity.
  - subst a. apply returns_Ok. reflexivity.
Qed.

Lemma clear3_ok (n m p : nat) (a0 : option (list (list (list R))))
  (e : CElement) (Z : nat -> nat -> nat -> bool) (i j k : nat) :
  cleared3 n m p a0 (Kab e) Z -> (i < n)%nat -> (j < m)%nat -> (k < p)%nat ->
  returns
    (match Kab e with
     | Some K => K' <- wr3 "Kab" K i j k 0 ;; Ok (set_Kab e (Some K'))
     | None => Ok e
     end)
    (fun e' => exists a', e' = set_Kab e a' /\
       cleared3 n m p a0 a'
         (fun i' j' k' => (i' =? i)%nat && (j' =? j)%nat && (k' =? k)%nat || Z i' j' k')).
Proof.
  unfold cleared3. intros H Hi Hj Hk. destruct a0 as [m0 |].
  - destruct H as (m1 & -> & Hs & Hv).
    rewrite (wr3_ok "Kab" i j k 0 Hs) by assumption. simpl bind.
    apply returns_Ok. eexists. split; [reflexivity |].
    eexists. splits; [reflexivity | apply shape3_upd3; assumption |].
    intros i' j' k'. rewrite (at3_upd3 i j k 0 i' j' k' Hs) by assumption.
    rewrite Hv.
    destruct ((i' =? i)%nat && (j' =? j)%nat && (k' =? k)%nat); reflexivity.
  - rewrite H. apply returns_Ok. exists None. split; [| reflexivity].
    destruct e. simpl in H. subst. reflexivity.
Qed.

(** Case analysis on the comparisons of a selection of entries. *)
Ltac select_cases :=
  repeat match goal with
    | |- context [Nat.eqb ?x ?y] => destruct (Nat.eqb_spec x y)
    | |- context [Nat.ltb ?x ?y] => destruct (Nat.ltb_spec x y)
    end; subst; simpl; try reflexivity; try lia; try nia.

(** What the first loop nest of [clearElement] leaves. *)
Lemma clearElement_closed (e : CElement) :
  extents_ok e ->
  returns (clearElement e)
    (fun e' => cleared e e'
       (fun i j => (i <? nNodes e)%nat && (j <? nDim e)%nat)
       (fun i j => (i <? nNodes e)%nat && (j <? nNodes e)%nat)
       (fun i j k => (i <? nNodes e)%nat && (j <? nNodes e)%nat
                     && (k <? nDim e * nDim e)%nat)).
Proof.
  intros (Xt & Xf & Xs & Xm & Xk). unfold clearElement.
  set (n := nNodes e). set (nd := nDim e).
  apply returns_for with
    (P := fun (I : nat) e' => cleared e e'
       (fun i j => (i <? I)%nat && (j <? nd)%nat)
       (fun i j => (i <? I)%nat && (j <? n)%nat)
       (fun i j k => (i <? I)%nat && (j <? n)%nat && (k <? nd * nd)%nat)).
  - unfold cleared. splits; try reflexivity;
      try (apply cleared2_init; assumption).
    unfold cleared3. destruct (Kab e) as [K |] eqn:EK; [| reflexivity].
    exists K. splits; [reflexivity | apply Xk; reflexivity | reflexivity].
  - intros I e1 HI (E1 & E2 & E3 & Ht & Hf & Hs & Hm & Hk).
    fold nd in Ht, Hf, Hk. fold n in Ht, Hf, Hs, Hm, Hk.
    cbv beta. rewrite E1. fold nd.
    eapply returns_bind.
    {
      apply returns_for with
        (P := fun (J : nat) e' => cleared e e'
           (fun i j => (i <? I)%nat && (j <? nd)%nat || (i =? I)%nat && (j <? J)%nat)
           (fun i j => (i <? I)%nat && (j <? n)%nat)
           (fun i j k => (i <? I)%nat && (j <? n)%nat && (k <? nd * nd)%nat)).
      - unfold cleared. fold n nd. splits; try assumption.
        + apply (cleared2_ext _ _ _ _ _ _ (fun i j => eq_sym (eq_trans
            (f_equal (orb _) (andb_false_r _)) (orb_false_r _))) Ht).
        + apply (cleared2_ext _ _ _ _ _ _ (fun i j => eq_sym (eq_trans
            (f_equal (orb _) (andb_false_r _)) (orb_false_r _))) Hf).
      - intros J e2 HJ (F1 & F2 & F3 & Ft & Ff & Fs & Fm & Fk).
        fold nd in Ft, Ff, Fk. fold n in Ft, Ff, Fs, Fm, Fk.
        eapply returns_bind; [apply (clear2_ok "Kt_a" n nd _ _ _ I J Ft HI HJ) |].
        intros a Ha. simpl FDL_a.
        eapply returns_bind; [apply (clear2_ok "FDL_a" n nd _ _ _ I J Ff HI HJ) |].
        intros b Hb. apply returns_Ok. unfold cleared. simpl. fold n nd.
        splits; try assumption.
        + eapply cleared2_ext; [| exact Ha]. intros i j. cbv beta. select_cases.
        + eapply cleared2_ext; [| exact Hb]. intros i j. cbv beta. select_cases. }
    intros e2 (F1 & F2 & F3 & Ft & Ff & Fs & Fm & Fk).
    fold nd in Ft, Ff, Fk. fold n in Ft, Ff, Fs, Fm, Fk.
    rewrite F2. fold n.
    eapply returns_weaken.
    { apply returns_for with
        (P := fun (J : nat) e' => cleared e e'
           (fun i j => (i <? Datatypes.S I)%nat && (j <? nd)%nat)
           (fun i j => (i <? I)%nat && (j <? n)%nat || (i =? I)%nat && (j <? J)%nat)
           (fun i j k => (i <? I)%nat && (j <? n)%nat && (k <? nd * nd)%nat
                         || (i =? I)%nat && (j <? J)%nat && (k <? nd * nd)%nat)).
      - unfold cleared. fold n nd. splits; try assumption.
        + eapply cleared2_ext; [| exact Ft]. intros i j. cbv beta. select_cases.
        + eapply cleared2_ext; [| exact Ff]. intros i j. cbv beta. select_cases.
        + eapply cleared2_ext; [| exact Fs]. intros i j. cbv beta. select_cases.
        + eapply cleared2_ext; [| exact Fm]. intros i j. cbv beta. select_cases.
        + eapply cleared3_ext; [| exact Fk]. intros i j k. cbv beta. select_cases.
      - intros J e3 HJ (G1 & G2 & G3 & Gt & Gf & Gs & Gm & Gk).
        fold nd in Gt, Gf, Gk. fold n in Gt, Gf, Gs, Gm, Gk.
        eapply returns_bind; [apply (clear2_ok "Ks_ab" n n _ _ _ I J Gs HI HJ) |].
        intros a Ha. simpl Mab.
        eapply returns_bind; [apply (clear2_ok "Mab" n n _ _ _ I J Gm HI HJ) |].
        intros b Hb.
        eapply returns_weaken.
        { apply returns_for with
            (P := fun (L : nat) e' => cleared e e'
               (fun i j => (i <? Datatypes.S I)%nat && (j <? nd)%nat)
               (fun i j => (i <? I)%nat && (j <? n)%nat
                           || (i =? I)%nat && (j <? Datatypes.S J)%nat)
               (fun i j k => (i <? I)%nat && (j <? n)%nat && (k <? nd * nd)%nat
                             || (i =? I)%nat && (j <? J)%nat && (k <? nd * nd)%nat
                             || (i =? I)%nat && (j =? J)%nat && (k <? L)%nat)).
          - unfold cleared. simpl. fold n nd. splits; try assumption.
            + eapply cleared2_ext; [| exact Ha]. intros i j. cbv beta. select_cases.
            + eapply cleared2_ext; [| exact Hb]. intros i j. cbv beta. select_cases.
            + eapply cleared3_ext; [| exact Gk]. intros i j k. cbv beta. select_cases.
          - intros L e4 HL (H1 & H2 & H3 & Ht' & Hf' & Hs' & Hm' & Hk').
            fold nd in Ht', Hf', Hk'. fold n in Ht', Hf', Hs', Hm', Hk'.
            eapply returns_weaken;
              [apply (clear3_ok n n (nd * nd) _ e4 _ I J L Hk' HI HJ HL) |].
            intros e5 (a' & -> & Ha'). unfold cleared. simpl. fold n nd.
            splits; try assumption.
            eapply cleared3_ext; [| exact Ha']. intros i j k. cbv beta. select_cases. }
        intros e4 (H1 & H2 & H3 & Ht' & Hf' & Hs' & Hm' & Hk').
        fold nd in Ht', Hf', Hk'. fold n in Ht', Hf', Hs', Hm', Hk'.
        unfold cleared. fold n nd. splits; try assumption.
        eapply cleared3_ext; [| exact Hk']. intros i j k. cbv beta. select_cases. }
    intros e3 (G1 & G2 & G3 & Gt & Gf & Gs & Gm & Gk).
    fold nd in Gt, Gf, Gk. fold n in Gt, Gf, Gs, Gm, Gk.
    unfold cleared. fold n nd. splits; try assumption.
    + eapply cleared2_ext; [| exact Gs]. intros i j. cbv beta. select_cases.
    + eapply cleared2_ext; [| exact Gm]. intros i j. cbv beta. select_cases.
    + eapply cleared3_ext; [| exact Gk]. intros i j k. cbv beta. select_cases.
Qed.

Lemma AllocateStructures_extents (body_forces : bool) (e : CElement) :
  AllocateStructures body_forces e ->
  (body_forces = false -> FDL_a e = None) ->
  extents_ok e.
Proof.
  intros (_ & (m & Em & Hm) & (k & Ek & Hk) & (s & Es & Hs) & (t & Et & Ht) & Hf) Hnull.
  unfold extents_ok. splits; intros a Ea.
  - rewrite Et in Ea. injection Ea as <-. exact Ht.
  - destruct body_forces.
    + destruct Hf as (f & Ef & Hf). rewrite Ef in Ea. injection Ea as <-. exact Hf.
    + rewrite Hnull in Ea by reflexivity. discriminate Ea.
  - rewrite Es in Ea. injection Ea as <-. exact Hs.
  - rewrite Em in Ea. injection Ea as <-. exact Hm.
  - rewrite Ek in Ea. injection Ea as <-. exact Hk.
Qed.

Lemma cleared2_zero (n m : nat) (a0 a : option (list (list R)))
  (x : list (list R)) :
  a0 = Some x ->
  cleared2 n m a0 a (fun i j => (i <? n)%nat && (j <? m)%nat) ->
  exists z, a = Some z /\ shape2 n m z /\
    forall i j, (i < n)%nat -> (j < m)%nat -> at2 z i j = 0.
Proof.
  intros -> (z & -> & Hs & Hv). exists z. splits; [reflexivity | exact Hs |].
  intros i j Hi Hj. rewrite Hv. apply Nat.ltb_lt in Hi, Hj. rewrite Hi, Hj. reflexivity.
Qed.

(** X19.  [clearElement] returns on every element that
    [AllocateStructures] prepared, with or without body forces: it
    leaves zero in every entry of [Kt_a], [Ks_ab], [Mab] and [Kab], and
    in every entry of [FDL_a] when body forces were allocated; an
    [FDL_a] that is [NULL] stays [NULL]; the sizes and [NodalStress] are
    not touched. *)
Theorem clearElement_zeroes (body_forces : bool) (e : CElement) :
  AllocateStructures body_forces e ->
  (body_forces = false -> FDL_a e = None) ->
  exists e' t s m k,
    clearElement e = Ok e' /\
    nDim e' = nDim e /\ nNodes e' = nNodes e /\ NodalStress e' = NodalStress e /\
    Kt_a e' = Some t /\ Ks_ab e' = Some s /\ Mab e' = Some m /\ Kab e' = Some k /\
    (forall i j, (i < nNodes e)%nat -> (j < nDim e)%nat -> at2 t i j = 0) /\
    (forall i j, (i < nNodes e)%nat -> (j < nNodes e)%nat ->
       at2 s i j = 0 /\ at2 m i j = 0) /\
    (forall i j d, (i < nNodes e)%nat -> (j < nNodes e)%nat ->
       (d < nDim e * nDim e)%nat -> at3 k i j d = 0) /\
    (if body_forces
     then exists f, FDL_a e' = Some f /\
            forall i j, (i < nNodes e)%nat -> (j < nDim e)%nat -> at2 f i j = 0
     else FDL_a e' = None).
Proof.
  intros Hall Hnull.
  pose proof (AllocateStructures_extents body_forces e Hall Hnull) as Hext.
  destruct (clearElement_closed e Hext)
    as (e' & E & E1 & E2 & E3 & Ht & Hf & Hs & Hm & Hk).
  destruct Hall as (_ & (m0 & Em & _) & (k0 & Ek & _) & (s0 & Es & _)
                    & (t0 & Et & _) & Hbf).
  destruct (cleared2_zero _ _ _ _ t0 Et Ht) as (t & Et' & _ & Zt).
  destruct (cleared2_zero _ _ _ _ s0 Es Hs) as (s & Es' & _ & Zs).
  destruct (cleared2_zero _ _ _ _ m0 Em Hm) as (m & Em' & _ & Zm).
  unfold cleared3 in Hk. rewrite Ek in Hk. destruct Hk as (k & Ek' & _ & Zk).
  exists e', t, s, m, k. splits; try assumption.
  - intros i j Hi Hj. split; [apply Zs | apply Zm]; assumption.
  - intros i j d Hi Hj Hd. rewrite Zk. apply Nat.ltb_lt in Hi, Hj, Hd.
    rewrite Hi, Hj, Hd. reflexivity.
  - destruct body_forces.
    + destruct Hbf as (f0 & Ef & _).
      destruct (cleared2_zero _ _ _ _ f0 Ef Hf) as (f & Ef' & _ & Zf).
      exists f. split; assumption.
    + unfold cleared2 in Hf. rewrite Hnull in Hf by reflexivity. exact Hf.
Qed.

Lemma clearElement_zeroes_witness :
  let e := bar_element 1 in
  exists e' t s m k,
    clearElement e = Ok e' /\
    nDim e' = nDim e /\ nNodes e' = nNodes e /\ NodalStress e' = NodalStress e /\
    Kt_a e' = Some t /\ Ks_ab e' = Some s /\ Mab e' = Some m /\ Kab e' = Some k /\
    (forall i j, (i < nNodes e)%nat -> (j < nDim e)%nat -> at2 t i j = 0) /\
    (forall i j, (i < nNodes e)%nat -> (j < nNodes e)%nat ->
       at2 s i j = 0 /\ at2 m i j = 0) /\
    (forall i j d, (i < nNodes e)%nat -> (j < nNodes e)%nat ->
       (d < nDim e * nDim e)%nat -> at3 k i j d = 0) /\
    FDL_a e' = None.
Proof.
  intros e.
  apply (clearElement_zeroes false e).
  - apply AllocateStructures_bar.
  - reflexivity.
Defined.

(** X20.  [Add_FDL_a] does not test its array: on an element that
    [AllocateStructures] prepared without body forces, whose [FDL_a] is
    [NULL], it dereferences the null pointer as soon as the dimension is
    not zero, whatever the vector and the node; [clearElement], which
    tests the array, returns on the same element. *)
Theorem Add_FDL_a_needs_body_forces (e : CElement) (val_FDL_a : list R)
  (nodeA : nat) :
  AllocateStructures false e -> FDL_a e = None -> (1 <= nDim e)%nat ->
  Add_FDL_a val_FDL_a nodeA e = Fault (NullPointer "FDL_a") /\
  exists e', clearElement e = Ok e' /\ FDL_a e' = None.
Proof.
  intros Hall Hnull Hnd. split.
  - unfold Add_FDL_a. apply for_first_fault; [lia |].
    rewrite Hnull. reflexivity.
  - pose proof (AllocateStructures_extents false e Hall (fun _ => Hnull)) as Hext.
    destruct (clearElement_closed e Hext)
      as (e' & E & _ & _ & _ & _ & Hf & _).
    exists e'. split; [exact E |].
    unfold cleared2 in Hf. rewrite Hnull in Hf. exact Hf.
Qed.

Lemma Add_FDL_a_needs_body_forces_witness :
  let e := bar_element 0 in
  Add_FDL_a [1; 1] 0 e = Fault (NullPointer "FDL_a") /\
  exists e', clearElement e = Ok e' /\ FDL_a e' = None.
Proof.
  intros e.
  apply (Add_FDL_a_needs_body_forces e [1; 1] 0).
  - apply AllocateStructures_bar.
  - reflexivity.
  - simpl. lia.
Defined.

(** X21.  [clearStress] clears three entries of the six that every node
    has in [NodalStress] when the dimension is two, and all six
    otherwise: in dimension two the entries 3, 4 and 5 of every node
    keep what they held. *)
Theorem clearStress_clears_by_dimension (body_forces : bool) (e : CElement)
  (S : list (list R)) :
  AllocateStructures body_forces e -> NodalStress e = Some S ->
  exists e' S',
    clearStress e = Ok e' /\ NodalStress e' = Some S' /\
    forall i k, at2 S' i k =
      if (i <? nNodes e)%nat && (k <? (if (nDim e =? 2)%nat then 3 else 6))%nat
      then 0 else at2 S i k.
Proof.
  intros ((S0 & ES0 & HS) & _) ES. rewrite ES in ES0. injection ES0 as <-.
  unfold clearStress.
  set (nStress := if (nDim e =? 2)%nat then 3%nat else 6%nat).
  assert (nStress <= 6)%nat as H6 by (unfold nStress; destruct (nDim e =? 2)%nat; lia).
  assert (returns
    (for_ (nNodes e) (fun iNode => for_ nStress (fun iStress e =>
       S <- deref "NodalStress" (NodalStress e) ;;
       S' <- wr2 "NodalStress" S iNode iStress 0 ;;
       Ok (set_NodalStress e (Some S')))) e)
    (fun e' => exists S', e' = set_NodalStress e (Some S') /\
       shape2 (nNodes e) 6 S' /\
       forall i k, at2 S' i k =
         if (i <? nNodes e)%nat && (k <? nStress)%nat then 0 else at2 S i k))
    as (e' & E & S' & -> & _ & HV).
  { apply returns_for with
      (P := fun (I : nat) e' => exists S', e' = set_NodalStress e (Some S') /\
         shape2 (nNodes e) 6 S' /\
         forall i k, at2 S' i k =
           if (i <? I)%nat && (k <? nStress)%nat then 0 else at2 S i k).
    - exists S. splits; [destruct e; simpl in ES; subst; reflexivity | exact HS |].
      intros i k. reflexivity.
    - intros I e1 HI (S1 & -> & HS1 & HV1).
      eapply returns_weaken.
      + apply returns_for with
          (P := fun (J : nat) e' => exists S', e' = set_NodalStress e (Some S') /\
             shape2 (nNodes e) 6 S' /\
             forall i k, at2 S' i k =
               if (i <? I)%nat && (k <? nStress)%nat || (i =? I)%nat && (k <? J)%nat
               then 0 else at2 S i k).
        * exists S1. splits; [reflexivity | exact HS1 |].
          intros i k. rewrite HV1, andb_false_r, orb_false_r. reflexivity.
        * intros J e2 HJ (S2 & -> & HS2 & HV2). simpl NodalStress. simpl deref.
          simpl bind.
          rewrite (wr2_ok "NodalStress" I J 0 HS2) by lia. simpl bind.
          apply returns_Ok. eexists.
          splits; [reflexivity | apply shape2_upd2; assumption |].
          intros i k. rewrite (at2_upd2 I J 0 i k HS2) by lia.
          unfold fupd2. rewrite HV2. select_cases.
      + intros e2 (S2 & -> & HS2 & HV2). exists S2.
        splits; [reflexivity | exact HS2 |].
        intros i k. rewrite HV2. select_cases. }
  exists (set_NodalStress e (Some S')), S'. splits; [exact E | reflexivity | exact HV].
Qed.

Lemma clearStress_clears_by_dimension_witness :
  let e := bar_element 1 in
  let S := repeat (repeat 1 6) 2 in
  exists e' S',
    clearStress e = Ok e' /\ NodalStress e' = Some S' /\
    forall i k, at2 S' i k =
      if (i <? nNodes e)%nat && (k <? (if (nDim e =? 2)%nat then 3 else 6))%nat
      then 0 else at2 S i k.
Proof.
  intros e S.
  apply (clearStress_clears_by_dimension false e S).
  - apply AllocateStructures_bar.
  - reflexivity.
Defined.

(** X22.  Clearing and adding compose: after [clearElement], [Add_Kab]
    followed by [Add_Kab_T] with the same block leaves, in the block of
    the pair [(nodeA, nodeB)], the sum of the block and its transpose,
    a symmetric block. *)
Theorem clear_then_Add_Kab_symmetric (body_forces : bool) (e : CElement)
  (val : list (list R)) (nodeA nodeB : nat) :
  AllocateStructures body_forces e ->
  (body_forces = false -> FDL_a e = None) ->
  shape2 (nDim e) (nDim e) val ->
  (nodeA < nNodes e)%nat -> (nodeB < nNodes e)%nat ->
  exists e0 e1 e2 K,
    clearElement e = Ok e0 /\
    Add_Kab val nodeA nodeB e0 = Ok e1 /\
    Add_Kab_T val nodeA nodeB e1 = Ok e2 /\
    Kab e2 = Some K /\
    forall i j, (i < nDim e)%nat -> (j < nDim e)%nat ->
      at3 K nodeA nodeB (i * nDim e + j) = at2 val i j + at2 val j i /\
      at3 K nodeA nodeB (i * nDim e + j) = at3 K nodeA nodeB (j * nDim e + i).
Proof.
  intros Hall Hnull Hval HA HB.
  pose proof (AllocateStructures_extents body_forces e Hall Hnull) as Hext.
  destruct (clearElement_closed e Hext)
    as (e0 & E0 & E1 & E2 & _ & _ & _ & _ & _ & Hk).
  destruct Hall as (_ & _ & (k0 & Ek & _) & _).
  unfold cleared3 in Hk. rewrite Ek in Hk. destruct Hk as (K0 & EK0 & HK0 & Z0).
  rewrite <- E1, <- E2 in HK0. rewrite <- E1 in Hval. rewrite <- E2 in HA, HB.
  destruct (Kab_loop (fun i j => rd2 "val_Kab" val i j) (at2 val) e0 K0 nodeA nodeB
              EK0 HK0 HA HB) as (e1 & Ee1 & K1 & -> & HK1 & HV1).
  { intros i j Hi Hj. apply (rd2_ok "val_Kab" i j Hval); assumption. }
  destruct (Kab_loop (fun i j => rd2 "val_Kab" val j i) (fun i j => at2 val j i)
              (set_Kab e0 (Some K1)) K1 nodeA nodeB eq_refl HK1 HA HB)
    as (e2 & Ee2 & K2 & -> & HK2 & HV2).
  { intros i j Hi Hj. apply (rd2_ok "val_Kab" j i Hval); assumption. }
  simpl nDim in *. simpl nNodes in *.
  exists e0, (set_Kab e0 (Some K1)), (set_Kab (set_Kab e0 (Some K1)) (Some K2)), K2.
  splits; try assumption; try reflexivity.
  assert (forall i j, (i < nDim e)%nat -> (j < nDim e)%nat ->
            at3 K2 nodeA nodeB (i * nDim e + j) = at2 val i j + at2 val j i) as Hsum.
  { intros i j Hi Hj. rewrite <- E1 in *. rewrite HV2, HV1, Z0.
    rewrite !Nat.eqb_refl. simpl andb.
    destruct (flat_index (nDim e0) i j Hj) as (-> & ->).
    apply Nat.ltb_lt in HA as HA', HB as HB'. rewrite E2 in HA', HB'.
    rewrite HA', HB'. simpl andb.
    destruct (Nat.ltb_spec (i * nDim e0 + j) (nDim e0 * nDim e0)) as [Hlt | Hge];
      [| nia].
    ring. }
  intros i j Hi Hj. split; [apply Hsum; assumption |].
  rewrite (Hsum i j Hi Hj), (Hsum j i Hj Hi). ring.
Qed.

Lemma clear_then_Add_Kab_symmetric_witness :
  let e := bar_element 1 in
  let val := [[1; 2]; [3; 4]] in
  exists e0 e1 e2 K,
    clearElement e = Ok e0 /\
    Add_Kab val 0 1 e0 = Ok e1 /\
    Add_Kab_T val 0 1 e1 = Ok e2 /\
    Kab e2 = Some K /\
    forall i j, (i < nDim e)%nat -> (j < nDim e)%nat ->
      at3 K 0 1 (i * nDim e + j) = at2 val i j + at2 val j i /\
      at3 K 0 1 (i * nDim e + j) = at3 K 0 1 (j * nDim e + i).
Proof.
  intros e val.
  apply (clear_then_Add_Kab_symmetric false e val 0 1).
  - apply AllocateStructures_bar.
  - reflexivity.
  - split; [reflexivity | repeat constructor].
  - simpl. lia.
  - simpl. lia.
Defined.

End StructuralAccumulators.
(** * The gradients of the two frames *)

Section CurrentFrame.

Import Elem.
Local Open Scope R_scope.

Lemma store_gradients_current_ok (n p : nat) (Jacobian : list (list R))
  (e : CElement) (g : nat) (gp : list CGaussVariable) (v : CGaussVariable) :
  shape2 n n Jacobian ->
  shape3 (nGaussPoints e) (nNodes e) p (dNiXj e) -> (n <= p)%nat ->
  (g < nGaussPoints e)%nat -> (g < length gp)%nat ->
  returns (store_gradients n CURRENT Jacobian e g (upd gp g v))
    (fun gp' => exists v', gp' = upd gp g v' /\
       current_stored (nNodes e) n v v' (J_x v)
         (fun k d => Rsum n (fun jDim =>
            at2 Jacobian d jDim * at2 (nth g (dNiXj e) []) k jDim))).
Proof.
  intros HJ HD Hp Hg Hlen. unfold store_gradients.
  set (G := fun k d => Rsum n (fun jDim =>
              at2 Jacobian d jDim * at2 (nth g (dNiXj e) []) k jDim)).
  loop (fun K t => exists v', t = upd gp g v' /\
          Ni v' = Ni v /\ GradNi_Xj v' = GradNi_Xj v /\ J_X v' = J_X v /\
          J_x v' = J_x v /\
          forall k d, GradNi_xj v' k d =
            if (k <? K) && (d <? n) then G k d else GradNi_xj v k d).
  - exists v. splits; reflexivity.
  - intros K t HK (v' & -> & E1 & E2 & E3 & E4 & E5).
    loop (fun Dd t => exists v'', t = upd gp g v'' /\
          Ni v'' = Ni v /\ GradNi_Xj v'' = GradNi_Xj v /\ J_X v'' = J_X v /\
          J_x v'' = J_x v /\
          forall k d, GradNi_xj v'' k d =
            if ((k <? K) && (d <? n)) || ((k =? K) && (d <? Dd))
            then G k d else GradNi_xj v k d).
    + exists v'. split; [reflexivity |]. splits; try assumption.
      intros k d. rewrite E5. index_cases.
    + intros Dd t HDd (v'' & -> & F1 & F2 & F3 & F4 & F5).
      rewrite (gradient_dot_ok n p Jacobian e g K Dd HJ HD Hp Hg HK HDd). simpl.
      rewrite on_GaussPoint_upd by assumption. apply returns_Ok.
      exists (SetGradNi_xj (G K Dd) Dd K v''). split; [reflexivity |].
      splits; try assumption.
      intros k d. simpl. unfold fupd2. rewrite F5. index_cases.
    + intros t (v'' & -> & F1 & F2 & F3 & F4 & F5).
      exists v''. split; [reflexivity |]. splits; try assumption.
      intros k d. rewrite F5. index_cases.
  - intros t (v' & -> & E1 & E2 & E3 & E4 & E5).
    exists v'. split; [reflexivity |]. unfold current_stored.
    splits; try assumption.
Qed.

Local Opaque scale_adjugate store_gradients build_Jacobian.

Lemma ComputeGrad_2D_current_ok (e : CElement) (gs : bool) :
  AllocateStructures gs e ->
  (2 <= nDim e)%nat -> (3 <= nNodes e)%nat ->
  returns (ComputeGrad_2D CURRENT e)
    (fun e' => current_computed e e' 2
                 (fun g => det2 (Jacobian_2D (as_current e) g))
                 (GradNi_X_2D (as_current e))).
Proof.
  intros (Hgp & HC & _ & _ & HD & _) Hdim Hnodes.
  unfold ComputeGrad_2D. simpl frame_Coord.
  apply returns_bind with (Q := fun gp => length gp = nGaussPoints e /\
    forall g, (g < nGaussPoints e)%nat ->
      current_stored (nNodes e) 2 (nth g (GaussPoint e) gauss0) (nth g gp gauss0)
        (det2 (Jacobian_2D (as_current e) g)) (GradNi_X_2D (as_current e) g)).
  - apply gauss_loop with (Done := fun g v0 v =>
      current_stored (nNodes e) 2 v0 v (det2 (Jacobian_2D (as_current e) g))
        (GradNi_X_2D (as_current e) g));
      [exact Hgp |].
    intros g gp Hg Hlen.
    rewrite (build_Jacobian_2_ok (CurrentCoord e) e g (nDim e) (nDim e) HC Hdim HD Hdim Hg).
    simpl bind.
    rewrite !(rd2_ok "Coord" _ _ HC) by lia. simpl bind.
    rewrite on_GaussPoint_ok by lia. simpl bind.
    change (Jacobian_matrix 2 (CurrentCoord e) (nth g (dNiXj e) []) (nNodes e))
      with (Jacobian_2D (as_current e) g).
    set (J := Jacobian_2D (as_current e) g).
    change [[at2 J 1 1; - at2 J 0 1]; [- at2 J 1 0; at2 J 0 0]] with (adjugate2 J).
    fold (det2 J).
    eapply returns_bind.
    + apply scale_adjugate_ok; [apply shape2_2x2 | apply shape2_2x2].
    + intros J' HJ'. cbv beta in HJ'.
      eapply returns_weaken.
      * apply (store_gradients_current_ok 2 (nDim e) J' e g gp _ (Mat_shape HJ')
                 HD Hdim Hg).
        lia.
      * intros gp' (v' & -> & Hst). exists v'. split; [reflexivity |].
        destruct Hst as (E1 & E2 & E3 & E4 & E5). unfold current_stored.
        splits; try assumption.
        intros k d. rewrite E5.
        destruct (Nat.ltb_spec k (nNodes e)); destruct (Nat.ltb_spec d 2);
          cbn [andb]; try reflexivity.
        unfold GradNi_X_2D, physical_gradient. apply Rsum_ext. intros j Hj.
        rewrite (Mat_at d j HJ') by assumption. reflexivity.
  - intros gp [Hlen Hst]. apply returns_Ok. exists gp. splits; try assumption.
    reflexivity.
Qed.

Lemma ComputeGrad_3D_current_ok (e : CElement) (gs : bool) :
  AllocateStructures gs e ->
  (3 <= nDim e)%nat ->
  returns (ComputeGrad_3D CURRENT e)
    (fun e' => current_computed e e' 3
                 (fun g => det3 (Jacobian_3D (as_current e) g))
                 (GradNi_X_3D (as_current e))).
Proof.
  intros (Hgp & HC & _ & _ & HD & _) Hdim.
  unfold ComputeGrad_3D. simpl frame_Coord.
  apply returns_bind with (Q := fun gp => length gp = nGaussPoints e /\
    forall g, (g < nGaussPoints e)%nat ->
      current_stored (nNodes e) 3 (nth g (GaussPoint e) gauss0) (nth g gp gauss0)
        (det3 (Jacobian_3D (as_current e) g)) (GradNi_X_3D (as_current e) g)).
  - apply gauss_loop with (Done := fun g v0 v =>
      current_stored (nNodes e) 3 v0 v (det3 (Jacobian_3D (as_current e) g))
        (GradNi_X_3D (as_current e) g));
      [exact Hgp |].
    intros g gp Hg Hlen.
    rewrite (build_Jacobian_3_ok (CurrentCoord e) e g (nDim e) (nDim e) HC Hdim HD Hdim Hg).
    simpl bind.
    rewrite on_GaussPoint_ok by lia. simpl bind.
    change (Jacobian_matrix 3 (CurrentCoord e) (nth g (dNiXj e) []) (nNodes e))
      with (Jacobian_3D (as_current e) g).
    set (J := Jacobian_3D (as_current e) g).
    match goal with
    | |- context [scale_adjugate 3 ?a ?d _] =>
        change a with (adjugate3 J); change d with (det3 J)
    end.
    eapply returns_bind.
    + apply scale_adjugate_ok; [apply shape2_3x3 | apply shape2_3x3].
    + intros J' HJ'. cbv beta in HJ'.
      eapply returns_weaken.
      * apply (store_gradients_current_ok 3 (nDim e) J' e g gp _ (Mat_shape HJ')
                 HD Hdim Hg).
        lia.
      * intros gp' (v' & -> & Hst). exists v'. split; [reflexivity |].
        destruct Hst as (E1 & E2 & E3 & E4 & E5). unfold current_stored.
        splits; try assumption.
        intros k d. rewrite E5.
        destruct (Nat.ltb_spec k (nNodes e)); destruct (Nat.ltb_spec d 3);
          cbn [andb]; try reflexivity.
        unfold GradNi_X_3D, physical_gradient. apply Rsum_ext. intros j Hj.
        rewrite (Mat_at d j HJ') by assumption. reflexivity.
  - intros gp [Hlen Hst]. apply returns_Ok. exists gp. splits; try assumption.
    reflexivity.
Qed.

Lemma ComputeGrad_1D_current_ok (e : CElement) (gs : bool) :
  AllocateStructures gs e ->
  (1 <= nDim e)%nat -> (2 <= nNodes e)%nat ->
  returns (ComputeGrad_1D CURRENT e)
    (fun e' => current_computed e e' 1
                 (fun _ => Jacobian_1D (as_current e)) (GradNi_X_1D (as_current e))).
Proof.
  intros (Hgp & HC & _ & _ & HD & _) Hdim Hnodes.
  unfold ComputeGrad_1D. simpl frame_Coord.
  apply returns_bind with (Q := fun gp => length gp = nGaussPoints e /\
    forall g, (g < nGaussPoints e)%nat ->
      current_stored (nNodes e) 1 (nth g (GaussPoint e) gauss0) (nth g gp gauss0)
        (Jacobian_1D (as_current e)) (GradNi_X_1D (as_current e) g)).
  - apply gauss_loop with (Done := fun g v0 v =>
      current_stored (nNodes e) 1 v0 v (Jacobian_1D (as_current e))
        (GradNi_X_1D (as_current e) g));
      [exact Hgp |].
    intros g gp Hg Hlen.
    rewrite !(rd2_ok "Coord" _ _ HC) by lia. simpl bind.
    rewrite on_GaussPoint_ok by lia. simpl bind.
    change (at2 (CurrentCoord e) 1 0 - at2 (CurrentCoord e) 0 0)
      with (Jacobian_1D (as_current e)).
    set (v0 := nth g gp gauss0).
    loop (fun K t => exists v', t = upd gp g v' /\
            Ni v' = Ni v0 /\ GradNi_Xj v' = GradNi_Xj v0 /\ J_X v' = J_X v0 /\
            J_x v' = Jacobian_1D (as_current e) /\
            forall k d, GradNi_xj v' k d =
              if (k <? K) && (d <? 1) then GradNi_X_1D (as_current e) g k d
              else GradNi_xj v0 k d).
    + exists (SetJ_x (Jacobian_1D (as_current e)) v0). splits; reflexivity.
    + intros K t HK (v' & -> & E1 & E2 & E3 & E4 & E5).
      rewrite (rd3_ok "dNiXj" g K 0 HD) by lia. simpl bind.
      rewrite on_GaussPoint_upd by lia. apply returns_Ok.
      eexists. split; [reflexivity |]. splits; try assumption.
      intros k d. simpl. unfold fupd2. rewrite E5.
      unfold GradNi_X_1D, dN_at, at3. simpl dNiXj.
      destruct (Nat.eqb_spec k K); destruct (Nat.eqb_spec d 0); subst;
        index_cases.
    + intros t (v' & -> & E1 & E2 & E3 & E4 & E5). exists v'.
      split; [reflexivity |]. unfold current_stored. splits; assumption.
  - intros gp [Hlen Hst]. apply returns_Ok. exists gp. splits; try assumption.
    reflexivity.
Qed.

Lemma AllocateStructures_set_GaussPoint (gs : bool) (e : CElement)
  (gp : list CGaussVariable) :
  AllocateStructures gs e -> length gp = nGaussPoints e ->
  AllocateStructures gs (set_GaussPoint e gp).
Proof.
  intros (A1 & A2 & A3 & A4 & A5 & A6) Hlen. unfold AllocateStructures. simpl.
  splits; assumption.
Qed.

(** What the two passes of [ComputeGrad_NonLinear] leave at every
    quadrature point. *)
Lemma ComputeGrad_NonLinear_closed (e : CElement) (gs : bool) :
  AllocateStructures gs e -> flat_element e ->
  returns (ComputeGrad_NonLinear e)
    (fun e' => exists gp, e' = set_GaussPoint e gp /\
       length gp = nGaussPoints e /\
       forall g, (g < nGaussPoints e)%nat ->
         Ni (nth g gp gauss0) = Ni (nth g (GaussPoint e) gauss0) /\
         J_X (nth g gp gauss0) = J_X_Linear e g /\
         J_x (nth g gp gauss0) = J_x_NonLinear e g /\
         (forall k d, GradNi_Xj (nth g gp gauss0) k d =
            if (k <? nNodes e)%nat && (d <? nDim e)%nat
            then GradNi_X_Linear e g k d
            else GradNi_Xj (nth g (GaussPoint e) gauss0) k d) /\
         (forall k d, GradNi_xj (nth g gp gauss0) k d =
            if (k <? nNodes e)%nat && (d <? nDim e)%nat
            then GradNi_X_Linear (as_current e) g k d
            else GradNi_xj (nth g (GaussPoint e) gauss0) k d)).
Proof.
  intros Hall Hflat.
  unfold ComputeGrad_NonLinear, J_X_Linear, J_x_NonLinear, GradNi_X_Linear.
  simpl nDim.
  destruct Hflat as [[E Hn] | [[E Hn] | E]]; rewrite E; simpl Nat.eqb; cbv iota.
  - destruct (ComputeGrad_1D_ok e gs Hall) as (e1 & E1 & gp1 & -> & L1 & S1); try lia.
    rewrite E1. simpl bind.
    pose proof (AllocateStructures_set_GaussPoint gs e gp1 Hall L1) as Hall1.
    destruct (ComputeGrad_1D_current_ok _ gs Hall1) as (e2 & E2 & gp2 & -> & L2 & S2);
      try (simpl; lia).
    rewrite E2. apply returns_Ok. exists gp2. simpl in L2, S2.
    splits; [reflexivity | exact L2 |].
    intros g Hg.
    destruct (S1 g Hg) as (A1 & A2 & A3 & A4 & A5).
    destruct (S2 g Hg) as (B1 & B2 & B3 & B4 & B5).
    splits.
    + congruence.
    + congruence.
    + exact B4.
    + intros k d. rewrite B2. apply A5.
    + intros k d. rewrite B5, A2. reflexivity.
  - destruct (ComputeGrad_2D_ok e gs Hall) as (e1 & E1 & gp1 & -> & L1 & S1); try lia.
    rewrite E1. simpl bind.
    pose proof (AllocateStructures_set_GaussPoint gs e gp1 Hall L1) as Hall1.
    destruct (ComputeGrad_2D_current_ok _ gs Hall1) as (e2 & E2 & gp2 & -> & L2 & S2);
      try (simpl; lia).
    rewrite E2. apply returns_Ok. exists gp2. simpl in L2, S2.
    splits; [reflexivity | exact L2 |].
    intros g Hg.
    destruct (S1 g Hg) as (A1 & A2 & A3 & A4 & A5).
    destruct (S2 g Hg) as (B1 & B2 & B3 & B4 & B5).
    splits.
    + congruence.
    + congruence.
    + exact B4.
    + intros k d. rewrite B2. apply A5.
    + intros k d. rewrite B5, A2. reflexivity.
  - destruct (ComputeGrad_3D_ok e gs Hall) as (e1 & E1 & gp1 & -> & L1 & S1); try lia.
    rewrite E1. simpl bind.
    pose proof (AllocateStructures_set_GaussPoint gs e gp1 Hall L1) as Hall1.
    destruct (ComputeGrad_3D_current_ok _ gs Hall1) as (e2 & E2 & gp2 & -> & L2 & S2);
      try (simpl; lia).
    rewrite E2. apply returns_Ok. exists gp2. simpl in L2, S2.
    splits; [reflexivity | exact L2 |].
    intros g Hg.
    destruct (S1 g Hg) as (A1 & A2 & A3 & A4 & A5).
    destruct (S2 g Hg) as (B1 & B2 & B3 & B4 & B5).
    splits.
    + congruence.
    + congruence.
    + exact B4.
    + intros k d. rewrite B2. apply A5.
    + intros k d. rewrite B5, A2. reflexivity.
Qed.

Lemma AllocateStructures_as_current (gs : bool) (e : CElement) :
  AllocateStructures gs e -> AllocateStructures gs (as_current e).
Proof.
  intros (A1 & A2 & A3 & A4 & A5 & A6). unfold AllocateStructures, as_current. simpl.
  splits; assumption.
Qed.

(** X23.  [ComputeGrad_NonLinear] fills the two frames, and the second
    pass does not disturb the first: the reference Jacobian and the
    reference gradients that it leaves are those that [ComputeGrad_Linear]
    computes for the element, and the current gradients are those that
    [ComputeGrad_Linear] computes for the element with its current
    coordinates in the place of the reference ones; so is the current
    Jacobian when the dimension is not two.  The shape values are not
    touched. *)
Theorem ComputeGrad_NonLinear_two_frames (e : CElement) (gs : bool) :
  AllocateStructures gs e -> flat_element e ->
  exists e' eR eC,
    ComputeGrad_NonLinear e = Ok e' /\
    ComputeGrad_Linear e = Ok eR /\
    ComputeGrad_Linear (as_current e) = Ok eC /\
    forall g, (g < nGaussPoints e)%nat ->
      J_X_of e' g = J_X_of eR g /\
      (nDim e <> 2%nat -> J_x_of e' g = J_X_of eC g) /\
      (forall k, Ni_of e' g k = Ni_of e g k) /\
      (forall k d, GradNi_X_of e' g k d = GradNi_X_of eR g k d) /\
      (forall k d, (k < nNodes e)%nat -> (d < nDim e)%nat ->
         GradNi_x_of e' g k d = GradNi_X_of eC g k d).
Proof.
  intros Hall Hflat.
  destruct (ComputeGrad_NonLinear_closed e gs Hall Hflat)
    as (e' & E' & gp & -> & Hlen & Hst).
  destruct (ComputeGrad_Linear_ok e gs Hall Hflat) as (eR & ER & gpR & -> & _ & HR).
  pose proof (AllocateStructures_as_current gs e Hall) as HallC.
  assert (flat_element (as_current e)) as HflatC by exact Hflat.
  destruct (ComputeGrad_Linear_ok _ gs HallC HflatC) as (eC & EC & gpC & -> & _ & HC).
  exists (set_GaussPoint e gp), (set_GaussPoint e gpR),
         (set_GaussPoint (as_current e) gpC).
  splits; try assumption.
  intros g Hg.
  destruct (Hst g Hg) as (A1 & A2 & A3 & A4 & A5).
  destruct (HR g Hg) as (_ & _ & _ & R4 & R5).
  destruct (HC g Hg) as (_ & _ & _ & C4 & C5).
  unfold J_X_of, J_x_of, Ni_of, GradNi_X_of, GradNi_x_of. simpl GaussPoint.
  simpl nNodes in *. simpl nDim in *.
  splits.
  - rewrite A2, R4. reflexivity.
  - intros Hd. rewrite A3, C4. unfold J_x_NonLinear, J_X_Linear. simpl nDim.
    destruct (nDim e =? 1)%nat; [reflexivity |].
    destruct (Nat.eqb_spec (nDim e) 2); [contradiction | reflexivity].
  - intros k. rewrite A1. reflexivity.
  - intros k d. rewrite A4, R5. reflexivity.
  - intros k d Hk Hd. rewrite A5, C5.
    apply Nat.ltb_lt in Hk, Hd. rewrite Hk, Hd. reflexivity.
Qed.

Lemma ComputeGrad_NonLinear_two_frames_witness :
  let e := Example.tria Example.unit_triangle in
  exists e' eR eC,
    ComputeGrad_NonLinear e = Ok e' /\
    ComputeGrad_Linear e = Ok eR /\
    ComputeGrad_Linear (as_current e) = Ok eC /\
    forall g, (g < nGaussPoints e)%nat ->
      J_X_of e' g = J_X_of eR g /\
      (nDim e <> 2%nat -> J_x_of e' g = J_X_of eC g) /\
      (forall k, Ni_of e' g k = Ni_of e g k) /\
      (forall k d, GradNi_X_of e' g k d = GradNi_X_of eR g k d) /\
      (forall k d, (k < nNodes e)%nat -> (d < nDim e)%nat ->
         GradNi_x_of e' g k d = GradNi_X_of eC g k d).
Proof.
  intros e.
  apply (ComputeGrad_NonLinear_two_frames e true).
  - apply AllocateStructures_tria. apply shape2_3x2.
  - apply flat_element_tria.
Defined.

(** X24.  On an element that is not deformed, whose current coordinates
    are its reference coordinates, [ComputeGrad_NonLinear] leaves the
    same gradients in the two frames; the two Jacobians agree as well
    when the dimension is not two, and in dimension two the reference
    one is [TrafoJacobi] and the current one the determinant. *)
Theorem ComputeGrad_NonLinear_undeformed (e : CElement) (gs : bool) :
  AllocateStructures gs e -> flat_element e ->
  CurrentCoord e = RefCoord e ->
  exists e',
    ComputeGrad_NonLinear e = Ok e' /\
    forall g, (g < nGaussPoints e)%nat ->
      (forall k d, (k < nNodes e)%nat -> (d < nDim e)%nat ->
         GradNi_x_of e' g k d = GradNi_X_of e' g k d) /\
      (nDim e <> 2%nat -> J_x_of e' g = J_X_of e' g) /\
      (nDim e = 2%nat ->
         J_X_of e' g = TrafoJacobi (RefCoord e) /\
         J_x_of e' g = det2 (Jacobian_2D e g)).
Proof.
  intros Hall Hflat Hsame.
  destruct (ComputeGrad_NonLinear_closed e gs Hall Hflat)
    as (e' & E' & gp & -> & Hlen & Hst).
  exists (set_GaussPoint e gp). split; [exact E' |].
  assert (as_current e = e) as Ecur
    by (unfold as_current; rewrite Hsame; destruct e; reflexivity).
  intros g Hg.
  destruct (Hst g Hg) as (A1 & A2 & A3 & A4 & A5).
  unfold J_X_of, J_x_of, GradNi_X_of, GradNi_x_of. simpl GaussPoint.
  rewrite Ecur in A5. unfold J_x_NonLinear in A3. rewrite Ecur in A3.
  splits.
  - intros k d Hk Hd. rewrite A4, A5.
    apply Nat.ltb_lt in Hk, Hd. rewrite Hk, Hd. reflexivity.
  - intros Hd. rewrite A2, A3. unfold J_X_Linear.
    destruct (nDim e =? 1)%nat; [reflexivity |].
    destruct (Nat.eqb_spec (nDim e) 2); [contradiction | reflexivity].
  - intros Hd. rewrite A2, A3. unfold J_X_Linear. rewrite Hd. simpl. split; reflexivity.
Qed.

Lemma ComputeGrad_NonLinear_undeformed_witness :
  let e := Example.tria Example.unit_triangle in
  exists e',
    ComputeGrad_NonLinear e = Ok e' /\
    forall g, (g < nGaussPoints e)%nat ->
      (forall k d, (k < nNodes e)%nat -> (d < nDim e)%nat ->
         GradNi_x_of e' g k d = GradNi_X_of e' g k d) /\
      (nDim e <> 2%nat -> J_x_of e' g = J_X_of e' g) /\
      (nDim e = 2%nat ->
         J_X_of e' g = TrafoJacobi (RefCoord e) /\
         J_x_of e' g = det2 (Jacobian_2D e g)).
Proof.
  intros e.
  apply (ComputeGrad_NonLinear_undeformed e true).
  - apply AllocateStructures_tria. apply shape2_3x2.
  - apply flat_element_tria.
  - reflexivity.
Defined.

End CurrentFrame.
(** * From the constructor to the assembled matrix *)

Section Constructor.

Import Solver.
Local Open Scope R_scope.






End Constructor.
(** * The assembly on the curved surface *)

Section SurfaceAssembly.

Import Solver.
Local Open Scope R_scope.

Lemma bind_fault {A B} (c : result A) (k : A -> result B) (Q : A -> Prop) (f : fault) :
  returns c Q -> (forall a, Q a -> k a = Fault f) -> bind c k = Fault f.
Proof. intros (a & -> & HQ) Hk. simpl. apply Hk. exact HQ. Qed.

Lemma coords_only_static (k : nat) (s s' : CGradientSmoothingSolver)
  (e e' : Elem.CElement) :
  coords_only k s s' ->
  nth_error (element_container s) k = Some (Some e) ->
  nth_error (element_container s') k = Some (Some e') ->
  Elem.nDim e' = Elem.nDim e /\ Elem.nGaussPoints e' = Elem.nGaussPoints e.
Proof.
  intros [-> | (e0 & c & E0 & ->)] Ee Ee'.
  - rewrite Ee in Ee'. injection Ee' as <-. split; reflexivity.
  - rewrite Ee in E0. injection E0 as <-.
    rewrite (put_element_slot s k _ (nth_error_lt _ _ _ Ee)) in Ee'.
    injection Ee' as <-. split; reflexivity.
Qed.

(** X26.  [Compute_StiffMatrix] never calls [SetCoord].  In the
    curved-surface configuration, with numerics whose [Coord] has fewer
    than two rows (the constructor leaves it empty), the assembly of a
    mesh with at least one element stops at its first element, in the
    local operator, with a read outside [Coord]. *)
Theorem Compute_StiffMatrix_surface_stops (nd : nat) (K : FE_KINDS)
  (geometry : CGeometry) (numerics : Numerics.CGradSmoothing) (config : CConfig)
  (s : CGradientSmoothingSolver) :
  GetSmoothOnSurface config = true ->
  solver_ok nd s -> mesh_ok K geometry s ->
  (1 <= GetnElem geometry)%nat ->
  (length (Numerics.Coord numerics) <= 1)%nat ->
  (forall k e, nth_error (element_container s) k = Some (Some e) ->
     (1 <= Elem.nGaussPoints e)%nat) ->
  Compute_StiffMatrix K geometry numerics config s = Fault (OutOfBounds "Coord").
Proof.
  intros Hsurf Hok Hmesh Hn Hlen Hgauss.
  unfold Compute_StiffMatrix.
  rewrite (for_first_fault (GetnElem geometry) _ _ (OutOfBounds "Coord"));
    [reflexivity | lia |].
  pose proof (solver_ok_SolverSt nd s Hok) as Hs.
  destruct Hmesh as (Hmesh & Hfirst).
  assert (supported (GetVTK_Type (elem geometry 0)) = true) as Hsup by (apply Hfirst; lia).
  destruct (Hmesh 0%nat Hn Hsup) as (e_slot & Eslot & Enslot).
  unfold kind_of in Eslot, Enslot.
  unfold stiff_element.
  destruct (select_kind K (GetVTK_Type (elem geometry 0)) (0%nat, 0%nat)) as [n k].
  simpl in Eslot, Enslot.
  assert (slot_nodes s k n) as Hslot by (exists e_slot; split; assumption).
  eapply bind_fault.
  { eapply (returns_and _ _ (fun st => coords_only k s (fst st)));
      [apply (coordinates_loop_ok geometry 0 k n (repeat 0%nat 8) Hs Hslot eq_refl) |].
    intros [s1 idx1] Eloop.
    exact (coordinates_loop_only geometry 0 k n s s1 _ idx1 Eloop). }
  intros [s1 idx1]
    ((Hs1 & _ & _ & _ & e_in & Ee_in & _) & Honly).
  simpl in Hs1, Ee_in, Honly.
  rewrite (the_element_ok s1 k e_in Ee_in). simpl bind.
  destruct (coords_only_static k s s1 e_slot e_in Honly Eslot Ee_in) as (_ & EG).
  destruct (SolverSt_element k e_in Hs1 Ee_in) as (Hall & _).
  rewrite (surface_without_Coord numerics e_in config Hsurf Hall Hlen).
  - reflexivity.
  - right. rewrite EG. apply (Hgauss k e_slot Eslot).
Qed.

Lemma Compute_StiffMatrix_surface_stops_witness :
  Compute_StiffMatrix ExampleMesh.kinds ExampleMesh.one_triangle
    (Numerics.new_CGradSmoothing 2) Example.config_surface
    (ExampleMesh.solver Example.unit_triangle)
  = Fault (OutOfBounds "Coord").
Proof.
  apply (Compute_StiffMatrix_surface_stops 2).
  - reflexivity.
  - apply solver_ok_example. apply shape2_3x2.
  - apply mesh_ok_triangles.
    + intros t [<- | []] _. reflexivity.
    + reflexivity.
  - simpl. lia.
  - simpl. lia.
  - intros k e Hk.
    destruct k as [|[|[|[|k]]]]; simpl in Hk; try discriminate Hk.
    + injection Hk as <-. simpl. lia.
    + destruct k; discriminate Hk.
Defined.

End SurfaceAssembly.
(** * The assembled matrix under a motion of the mesh *)

Section MeshMotion.

Import Solver.
Local Open Scope R_scope.





End MeshMotion.
(** * The system that the linear solver receives *)

Section AssembledAndConstrained.

Import Solver.
Local Open Scope R_scope.






End AssembledAndConstrained.
(** * Where the gradients depart from the shape table *)

Section ShapeTable.

Import Elem.
Local Open Scope R_scope.

Lemma AllocateStructures_reference_square (xi eta : R) :
  AllocateStructures true (Cases.reference_square xi eta).
Proof.
  unfold AllocateStructures. simpl. splits;
    try (split; [reflexivity | repeat constructor]); try reflexivity.
  - eexists. split; [reflexivity |]. apply shape2_local2.
  - eexists. split; [reflexivity |]. split; [reflexivity | repeat constructor].
Qed.

Lemma AllocateStructures_quad : AllocateStructures true Cases.quad.
Proof.
  unfold AllocateStructures. simpl. splits;
    try (split; [reflexivity | repeat constructor]); try reflexivity.
  - eexists. split; [reflexivity |]. apply shape2_local2.
  - eexists. split; [reflexivity |]. split; [reflexivity | repeat constructor].
Qed.

(** On the reference square the map that the shape table defines is the
    identity, at every point of the square. *)
Lemma Jacobian_2D_reference_square (xi eta : R) :
  at2 (Jacobian_2D (Cases.reference_square xi eta) 0) 0 0 = 1 /\
  at2 (Jacobian_2D (Cases.reference_square xi eta) 0) 0 1 = 0 /\
  at2 (Jacobian_2D (Cases.reference_square xi eta) 0) 1 0 = 0 /\
  at2 (Jacobian_2D (Cases.reference_square xi eta) 0) 1 1 = 1.
Proof.
  unfold Jacobian_2D, Jacobian_matrix, Jacobian_sum, dN_at, Cases.reference_square,
    Cases.bilinear_table, at2, at1.
  simpl. splits; field.
Qed.

Lemma det2_reference_square (xi eta : R) :
  det2 (Jacobian_2D (Cases.reference_square xi eta) 0) = 1.
Proof.
  unfold det2, adjugate2, Jacobian_2D, Jacobian_matrix, Jacobian_sum, dN_at,
    Cases.reference_square, Cases.bilinear_table, at2, at1.
  simpl. field.
Qed.

Lemma TrafoJacobi_reference_square (xi eta : R) :
  TrafoJacobi (RefCoord (Cases.reference_square xi eta)) = 4.
Proof.
  unfold TrafoJacobi, Cases.reference_square, at2, at1. simpl.
  replace ((1 - -1) * (1 - -1) - (1 - -1) * (-1 - -1)) with 4 by ring.
  apply Rabs_pos_eq. lra.
Qed.

(** C7: on the four-node element placed on the canonical reference
    square, corners (-1,-1), (1,-1), (1,1), (-1,1), with the bilinear
    shape table at any point [(xi, eta)], the two determinants of
    [ComputeGrad_2D] do not agree in magnitude.  The adjugate-based
    determinant is 1: the pass over the current frame stores it as
    [J_x], and the pass over the reference frame divides by it, so the
    stored gradients are the parametric derivatives themselves.  The
    edge-vector value is 4, and the pass over the reference frame stores
    it as [J_X]. *)
Theorem ComputeGrad_2D_determinants_differ_on_square (xi eta : R) :
  let e := Cases.reference_square xi eta in
  det2 (Jacobian_2D e 0) = 1 /\
  TrafoJacobi (RefCoord e) = 4 /\
  (exists eX, ComputeGrad_2D REFERENCE e = Ok eX /\
     J_X_of eX 0 = 4 /\
     forall k d, (k < 4)%nat -> (d < 2)%nat ->
       GradNi_X_of eX 0 k d = at2 (Cases.bilinear_table xi eta) k d) /\
  (exists ex, ComputeGrad_2D CURRENT e = Ok ex /\
     J_x_of ex 0 = 1 /\
     forall k d, (k < 4)%nat -> (d < 2)%nat ->
       GradNi_x_of ex 0 k d = at2 (Cases.bilinear_table xi eta) k d).
Proof.
  intros e.
  pose proof (AllocateStructures_reference_square xi eta) as Hall.
  pose proof (Jacobian_2D_reference_square xi eta) as (E00 & E01 & E10 & E11).
  pose proof (det2_reference_square xi eta) as Hdet.
  assert (forall k d, (k < 4)%nat -> (d < 2)%nat ->
            GradNi_X_2D e 0 k d = at2 (Cases.bilinear_table xi eta) k d) as HG.
  { intros k d Hk Hd. unfold GradNi_X_2D, physical_gradient. fold e in Hdet.
    rewrite Hdet. unfold adjugate2. fold e in E00, E01, E10, E11.
    change (dN_at e 0) with (Cases.bilinear_table xi eta).
    set (J := Jacobian_2D e 0) in *. set (T := Cases.bilinear_table xi eta).
    destruct d as [|[|d]]; [| | lia]; cbn [Rsum].
    - change (at2 [[at2 J 1 1; - at2 J 0 1]; [- at2 J 1 0; at2 J 0 0]] 0 0)
        with (at2 J 1 1).
      change (at2 [[at2 J 1 1; - at2 J 0 1]; [- at2 J 1 0; at2 J 0 0]] 0 1)
        with (- at2 J 0 1).
      rewrite E11, E01. field.
    - change (at2 [[at2 J 1 1; - at2 J 0 1]; [- at2 J 1 0; at2 J 0 0]] 1 0)
        with (- at2 J 1 0).
      change (at2 [[at2 J 1 1; - at2 J 0 1]; [- at2 J 1 0; at2 J 0 0]] 1 1)
        with (at2 J 0 0).
      rewrite E10, E00. field. }
  splits.
  - exact Hdet.
  - apply TrafoJacobi_reference_square.
  - destruct (ComputeGrad_2D_ok e true Hall) as (eX & EX & Hgc);
      [simpl; lia | simpl; lia |].
    exists eX. splits; [exact EX | |].
    + destruct Hgc as (gp & -> & Hlen & Hst).
      destruct (Hst 0%nat) as (_ & _ & _ & EJ & _); [simpl; lia |].
      unfold J_X_of. simpl GaussPoint. rewrite EJ.
      apply TrafoJacobi_reference_square.
    + intros k d Hk Hd.
      destruct (gradients_computed_at 0 k d Hgc) as [EG _];
        [simpl; lia | exact Hk | exact Hd |].
      rewrite EG. apply HG; assumption.
  - destruct (ComputeGrad_2D_current_ok e true Hall) as (ex & Ex & gp & -> & Hlen & Hst);
      [simpl; lia | simpl; lia |].
    exists (set_GaussPoint e gp). splits; [exact Ex | |].
    + destruct (Hst 0%nat) as (_ & _ & _ & EJ & _); [simpl; lia |].
      unfold J_x_of. simpl GaussPoint. rewrite EJ. exact Hdet.
    + intros k d Hk Hd.
      destruct (Hst 0%nat) as (_ & _ & _ & _ & EG); [simpl; lia |].
      unfold GradNi_x_of. simpl GaussPoint. rewrite EG.
      apply Nat.ltb_lt in Hk, Hd. simpl nNodes. rewrite Hk, Hd. simpl andb. cbv iota.
      apply HG; apply Nat.ltb_lt; assumption.
Qed.

Ltac surface_values :=
  cbv [surface_gradient surface_volJacobian surface_Jdagger surface_JTJinv
       surface_det surface_JTJ surface_Jacobian dN_at
       Example.tria Example.tria_table Example.space_triangle
       Cases.quad Cases.space_square dNiXj
       at2 at1 nth map seq Rsum Nat.add].

(** The Jacobian of the map that the shape table of the three-node
    element defines on the triangle (0,0,0), (1,0,0), (0,1,0). *)
Local Abbreviation tria_Jacobian :=
  (parametric_Jacobian Example.space_triangle Example.tria_table 3).

Lemma parametric_Jacobian_space_triangle :
  tria_Jacobian 0%nat 0%nat = 0 /\ tria_Jacobian 0%nat 1%nat = 1 /\
  tria_Jacobian 1%nat 0%nat = -1 /\ tria_Jacobian 1%nat 1%nat = -1 /\
  tria_Jacobian 2%nat 0%nat = 0 /\ tria_Jacobian 2%nat 1%nat = 0.
Proof.
  unfold parametric_Jacobian, Jacobian_sum, Example.space_triangle,
    Example.tria_table, at2, at1.
  simpl. splits; ring.
Qed.

Lemma normal_matrix_space_triangle :
  normal_matrix 2 tria_Jacobian 0 0 = 1 /\ normal_matrix 2 tria_Jacobian 0 1 = 1 /\
  normal_matrix 2 tria_Jacobian 1 0 = 1 /\ normal_matrix 2 tria_Jacobian 1 1 = 2.
Proof.
  destruct parametric_Jacobian_space_triangle as (E00 & E01 & E10 & E11 & E20 & E21).
  unfold normal_matrix. cbn [Rsum Nat.add].
  rewrite E00, E01, E10, E11, E20, E21. splits; ring.
Qed.

(** The normal equations of that Jacobian have one solution. *)
Lemma pseudo_inverse_space_triangle (P : nat -> nat -> R) :
  pseudo_inverse 2 tria_Jacobian P ->
  P 0%nat 0%nat = -1 /\ P 0%nat 1%nat = -1 /\ P 0%nat 2%nat = 0 /\
  P 1%nat 0%nat = 1 /\ P 1%nat 1%nat = 0 /\ P 1%nat 2%nat = 0.
Proof.
  intros [Hn _].
  destruct parametric_Jacobian_space_triangle as (E00 & E01 & E10 & E11 & E20 & E21).
  destruct normal_matrix_space_triangle as (N00 & N01 & N10 & N11).
  pose proof (Hn 0%nat 0%nat ltac:(lia) ltac:(lia)) as A00.
  pose proof (Hn 0%nat 1%nat ltac:(lia) ltac:(lia)) as A01.
  pose proof (Hn 0%nat 2%nat ltac:(lia) ltac:(lia)) as A02.
  pose proof (Hn 1%nat 0%nat ltac:(lia) ltac:(lia)) as A10.
  pose proof (Hn 1%nat 1%nat ltac:(lia) ltac:(lia)) as A11.
  pose proof (Hn 1%nat 2%nat ltac:(lia) ltac:(lia)) as A12.
  cbn [Rsum] in A00, A01, A02, A10, A11, A12.
  rewrite N00, N01, E00 in A00. rewrite N00, N01, E10 in A01.
  rewrite N00, N01, E20 in A02. rewrite N10, N11, E01 in A10.
  rewrite N10, N11, E11 in A11. rewrite N10, N11, E21 in A12.
  splits; lra.
Qed.

(** C6: on the three-node element with the shape functions [xi], [eta],
    [1 - xi - eta], placed on the triangle (0,0,0), (1,0,0), (0,1,0) of
    space, the curved-surface path does not store the gradients of the
    shape functions.  The Jacobian of the map that the shape table
    defines has a normal-equation matrix of determinant 1 and exactly one
    pseudo-inverse; applied to the parametric derivatives it gives the
    gradients (-1,-1,0), (1,0,0), (0,1,0) of the three shape functions,
    which are also what the flat path [ComputeGrad_Linear] stores for the
    same triangle in the plane.  [ComputeGrad_Linear(Coord)] stores
    (1,0,0), (0,1,0), (-1,-1,0): it takes the edges from node 0 for the
    Jacobian, whatever the shape table.  On the four-node element, placed
    on the unit square of space, it stores the surface Jacobian 1, where
    the normal-equation matrix of the Jacobian of the shape table has
    determinant 1/16. *)
Theorem ComputeGrad_surface_departs_from_shape_table :
  let e := Example.tria Example.unit_triangle in
  let tangential : list (list R) := [[-1; -1; 0]; [1; 0; 0]; [0; 1; 0]] in
  let stored : list (list R) := [[1; 0; 0]; [0; 1; 0]; [-1; -1; 0]] in
  let J := parametric_Jacobian Example.space_triangle (dN_at e 0) (nNodes e) in
  normal_det 2 J = 1 /\
  (exists P, pseudo_inverse 2 J P) /\
  (forall P, pseudo_inverse 2 J P ->
     forall k d, (k < 3)%nat -> (d < 3)%nat ->
       Rsum 2 (fun j => P j d * at2 (dN_at e 0) k j) = at2 tangential k d) /\
  (exists e', ComputeGrad_Linear_Coord Example.space_triangle e = Ok e' /\
     J_X_of e' 0 = 1 /\
     forall k d, (k < 3)%nat -> (d < 3)%nat ->
       GradNi_X_of e' 0 k d = at2 stored k d) /\
  (exists e', ComputeGrad_Linear e = Ok e' /\
     forall k d, (k < 3)%nat -> (d < 2)%nat ->
       GradNi_X_of e' 0 k d = at2 tangential k d) /\
  normal_det 2 (parametric_Jacobian Cases.space_square (dN_at Cases.quad 0)
                  (nNodes Cases.quad)) = 1 / 16 /\
  (exists e', ComputeGrad_Linear_Coord Cases.space_square Cases.quad = Ok e' /\
     J_X_of e' 0 = 1).
Proof.
  intros e tangential stored J.
  change J with tria_Jacobian.
  destruct parametric_Jacobian_space_triangle as (E00 & E01 & E10 & E11 & E20 & E21).
  destruct normal_matrix_space_triangle as (N00 & N01 & N10 & N11).
  splits.
  - unfold normal_det. simpl Nat.eqb. cbv iota. rewrite N00, N01, N10, N11. ring.
  - exists (fun k d => at2 [[-1; -1; 0]; [1; 0; 0]] k d). split.
    + intros i d Hi Hd. cbn [Rsum].
      destruct i as [|[|i]]; [| | lia]; destruct d as [|[|[|d]]]; try lia;
        rewrite ?N00, ?N01, ?N10, ?N11, ?E00, ?E01, ?E10, ?E11, ?E20, ?E21;
        unfold at2, at1; simpl; ring.
    + intros i j Hi Hj. change (2 + 1)%nat with 3%nat. cbn [Rsum].
      destruct i as [|[|i]]; [| | lia]; destruct j as [|[|j]]; try lia;
        rewrite ?E00, ?E01, ?E10, ?E11, ?E20, ?E21;
        unfold at2, at1; simpl; ring.
  - intros P HP k d Hk Hd.
    destruct (pseudo_inverse_space_triangle P HP) as (P00 & P01 & P02 & P10 & P11 & P12).
    cbn [Rsum].
    destruct k as [|[|[|k]]]; [| | | lia]; destruct d as [|[|[|d]]]; try lia;
      rewrite ?P00, ?P01, ?P02, ?P10, ?P11, ?P12;
      unfold tangential, e, dN_at, Example.tria, Example.tria_table, at2, at1;
      simpl; ring.
  - destruct (ComputeGrad_2D_Coord_ok Example.space_triangle e true 3 3)
      as (e' & Ee' & Hgc);
      [apply shape2_3x3 | lia | lia
       | apply AllocateStructures_tria; apply shape2_3x2 | simpl; lia |].
    exists e'. splits; [exact Ee' | |].
    + destruct (gradients_computed_at 0 0 0 Hgc) as [_ EJ];
        [simpl; lia | simpl; lia | lia |].
      rewrite EJ. surface_values.
      match goal with |- sqrt ?x = 1 => replace x with 1 by ring end.
      apply sqrt_1.
    + intros k d Hk Hd.
      destruct (gradients_computed_at 0 k d Hgc) as [EG _];
        [simpl; lia | exact Hk | exact Hd |].
      rewrite EG.
      destruct k as [|[|[|k]]]; [| | | lia]; destruct d as [|[|[|d]]]; try lia;
        unfold stored, e; surface_values; field.
  - destruct (ComputeGrad_Linear_ok e true) as (e' & Ee' & Hgc);
      [apply AllocateStructures_tria; apply shape2_3x2 | apply flat_element_tria |].
    exists e'. split; [exact Ee' |].
    intros k d Hk Hd.
    destruct (gradients_computed_at 0 k d Hgc) as [EG _];
      [simpl; lia | exact Hk | exact Hd |].
    rewrite EG.
    destruct k as [|[|[|k]]]; [| | | lia]; destruct d as [|[|d]]; try lia;
      unfold tangential, GradNi_X_Linear, GradNi_X_2D, physical_gradient, det2,
        adjugate2, Jacobian_2D, Jacobian_matrix, Jacobian_sum, dN_at, e,
        Example.tria, Example.tria_table, Example.unit_triangle, at2, at1;
      simpl; field.
  - unfold normal_det, normal_matrix, parametric_Jacobian, Jacobian_sum, dN_at,
      Cases.quad, Cases.space_square, at2, at1.
    simpl. field.
  - destruct (ComputeGrad_2D_Coord_ok Cases.space_square Cases.quad true 4 3)
      as (e' & Ee' & Hgc);
      [split; [reflexivity | repeat constructor] | lia | lia
       | apply AllocateStructures_quad | simpl; lia |].
    exists e'. split; [exact Ee' |].
    destruct (gradients_computed_at 0 0 0 Hgc) as [_ EJ];
      [simpl; lia | simpl; lia | lia |].
    rewrite EJ. surface_values.
    match goal with |- sqrt ?x = 1 => replace x with 1 by ring end.
    apply sqrt_1.
Qed.

End ShapeTable.
(** * The scatter-add of one element, from the element table to the matrix *)

Section ScatterAdd.

Import Solver.
Local Open Scope R_scope.





End ScatterAdd.
